(** * LibUThread: a shallow embedding of the threading runtime and its laws

    The development follows the C sources file by file:
    - [include/uthread.h], [src/internal.h]: constants, error codes, records;
    - [src/scheduler.c]: wait queues and the scheduler core;
    - [src/mutex.c], [src/semaphore.c], [src/condvar.c]: blocking primitives;
    - [src/uthread.c], [src/context.c]: thread lifecycle;
    - [src/sched_priority.c], [src/sched_cfs.c]: run-queue policies.

    Conventions.  A C pointer is an [option nat] ([None] is NULL).  A C [int]
    is a [Z] kept in the signed 32-bit range by [wrap_int]; [uint32_t] and
    [uint64_t] are kept in range by [wrap_u32] and [wrap_u64].  A function
    that calls [scheduler_schedule] is cut at each such call into segments:
    a segment runs with preemption disabled, and ends either by returning to
    the caller ([Returned]) or parked at the call ([Suspended]), from where
    the next segment continues once the scheduler picks the thread again.
    [Crashed] stands for a failed [UTHREAD_ASSERT] (which aborts) and for a
    dereference of a pointer that does not point to a live object.  The
    loops of src/sched_cfs.c walk one path of the tree; they are written
    with a bound on their iterations ([loop_bound]), and [None] stands for
    a null dereference or an exhausted bound.  The nodes reachable from
    [rb_root] are read as a tree by [RBTree.heap_inv]. *)

From Stdlib Require Import ZArith List Bool Lia.
From stdpp Require Import base option list gmap.

Local Open Scope Z_scope.

(** ** include/uthread.h: limits and error codes *)

Definition UTHREAD_MAX_THREADS : Z := 1024.
Definition UTHREAD_STACK_DEFAULT : Z := 64 * 1024.
Definition UTHREAD_STACK_MIN : Z := 16 * 1024.
Definition UTHREAD_STACK_MAX : Z := 8 * 1024 * 1024.
Definition UTHREAD_PRIORITY_LEVELS : Z := 32.
Definition UTHREAD_PRIORITY_DEFAULT : Z := 16.
Definition UTHREAD_PRIORITY_MIN : Z := 0.
Definition UTHREAD_PRIORITY_MAX : Z := 31.
Definition UTHREAD_TIMESLICE_DEFAULT_NS : Z := 10 * 1000 * 1000.

Definition UTHREAD_SUCCESS : Z := 0.
Definition UTHREAD_EINVAL : Z := 22.
Definition UTHREAD_ENOMEM : Z := 12.
Definition UTHREAD_EBUSY : Z := 16.
Definition UTHREAD_EDEADLK : Z := 35.
Definition UTHREAD_EPERM : Z := 1.
Definition UTHREAD_ETIMEDOUT : Z := 110.
Definition UTHREAD_EAGAIN : Z := 11.
Definition UTHREAD_ESRCH : Z := 3.

(** ** src/internal.h: internal constants *)

Definition UTHREAD_GUARD_SIZE : Z := 4096.
Definition CFS_TARGET_LATENCY_NS : Z := 20 * 1000 * 1000.
Definition CFS_MIN_GRANULARITY_NS : Z := 1 * 1000 * 1000.
Definition CFS_NICE_0_WEIGHT : Z := 1024.

(** ** Machine integers *)

Definition wrap_int (z : Z) : Z := (z + 2 ^ 31) mod 2 ^ 32 - 2 ^ 31.
Definition wrap_u32 (z : Z) : Z := z mod 2 ^ 32.
Definition wrap_u64 (z : Z) : Z := z mod 2 ^ 64.
Definition INT_MAX : Z := 2 ^ 31 - 1.
Definition INT_MIN : Z := - 2 ^ 31.

(** ** Thread states and the thread control block *)

Inductive uthread_state_t :=
| UTHREAD_STATE_READY
| UTHREAD_STATE_RUNNING
| UTHREAD_STATE_BLOCKED
| UTHREAD_STATE_TERMINATED
| UTHREAD_STATE_JOINABLE.

#[global] Instance uthread_state_eq_dec : EqDecision uthread_state_t.
Proof. solve_decision. Defined.

(** The fields of [struct uthread_internal] that the scheduler core, the
    primitives and the thread lifecycle read or write.  The [next]/[prev]
    links are carried by the queues themselves, which are kept as lists from
    head to tail; the saved machine context has no counterpart here.  A
    start routine is the function from its argument to the value it
    returns. *)
Record uthread_internal := mk_tcb {
  tid : Z;
  state : uthread_state_t;
  stack_base : option Z;
  stack_size : Z;
  stack_guard : option Z;
  start_routine : option (Z -> Z);
  arg : Z;
  retval : Z;
  priority : Z;
  nice : Z;
  weight : Z;
  waiting_on : option nat;
  blocked_queue : option nat;
  detached : bool;
  exited : bool;
  joiner : option nat;
}.

Definition set_state (s : uthread_state_t) (t : uthread_internal) :=
  mk_tcb (tid t) s (stack_base t) (stack_size t) (stack_guard t) (start_routine t)
    (arg t) (retval t) (priority t) (nice t) (weight t) (waiting_on t)
    (blocked_queue t) (detached t) (exited t) (joiner t).
Definition set_retval (v : Z) (t : uthread_internal) :=
  mk_tcb (tid t) (state t) (stack_base t) (stack_size t) (stack_guard t)
    (start_routine t) (arg t) v (priority t) (nice t) (weight t) (waiting_on t)
    (blocked_queue t) (detached t) (exited t) (joiner t).
Definition set_waiting_on (p : option nat) (t : uthread_internal) :=
  mk_tcb (tid t) (state t) (stack_base t) (stack_size t) (stack_guard t)
    (start_routine t) (arg t) (retval t) (priority t) (nice t) (weight t) p
    (blocked_queue t) (detached t) (exited t) (joiner t).
Definition set_blocked_queue (q : option nat) (t : uthread_internal) :=
  mk_tcb (tid t) (state t) (stack_base t) (stack_size t) (stack_guard t)
    (start_routine t) (arg t) (retval t) (priority t) (nice t) (weight t)
    (waiting_on t) q (detached t) (exited t) (joiner t).
Definition set_detached (b : bool) (t : uthread_internal) :=
  mk_tcb (tid t) (state t) (stack_base t) (stack_size t) (stack_guard t)
    (start_routine t) (arg t) (retval t) (priority t) (nice t) (weight t)
    (waiting_on t) (blocked_queue t) b (exited t) (joiner t).
Definition set_exited (b : bool) (t : uthread_internal) :=
  mk_tcb (tid t) (state t) (stack_base t) (stack_size t) (stack_guard t)
    (start_routine t) (arg t) (retval t) (priority t) (nice t) (weight t)
    (waiting_on t) (blocked_queue t) (detached t) b (joiner t).
Definition set_joiner (p : option nat) (t : uthread_internal) :=
  mk_tcb (tid t) (state t) (stack_base t) (stack_size t) (stack_guard t)
    (start_routine t) (arg t) (retval t) (priority t) (nice t) (weight t)
    (waiting_on t) (blocked_queue t) (detached t) (exited t) p.
Definition set_stack (base : option Z) (size : Z) (guard : option Z)
    (t : uthread_internal) :=
  mk_tcb (tid t) (state t) base size guard (start_routine t) (arg t) (retval t)
    (priority t) (nice t) (weight t) (waiting_on t) (blocked_queue t)
    (detached t) (exited t) (joiner t).

(** ** The pluggable run queue ([struct scheduler_ops])

    The three policies share [enqueue], [dequeue] and [remove]; [rq_queued]
    is the ghost reading "the thread is linked into the run queue". *)
Class scheduler_ops (Q : Type) := {
  rq_init : Q;
  rq_enqueue : nat -> Q -> Q;
  rq_dequeue : Q -> option nat * Q;
  rq_remove : nat -> Q -> Q;
  rq_queued : Q -> nat -> Prop;
}.

(** Round-robin ([sched_rr.c]): one FIFO. *)
Definition rr_dequeue (q : list nat) : option nat * list nat :=
  match q with
  | [] => (None, [])
  | t :: rest => (Some t, rest)
  end.

(** Unlinking one thread from a queue kept as a list: the first occurrence
    goes, the order of the others stays. *)
Fixpoint unlink (t : nat) (q : list nat) : list nat :=
  match q with
  | [] => []
  | u :: rest => if decide (u = t) then rest else u :: unlink t rest
  end.

Definition rr_remove (t : nat) (q : list nat) : list nat := unlink t q.

#[global] Instance sched_rr_ops : scheduler_ops (list nat) := {|
  rq_init := [];
  rq_enqueue t q := q ++ [t];
  rq_dequeue := rr_dequeue;
  rq_remove := rr_remove;
  rq_queued q t := In t q;
|}.

(** ** src/scheduler.c: global state, wait queues, scheduler core *)

(** The idle thread is the control block embedded in [g_scheduler]; its
    address is the reserved id 0. *)
Definition idle_thread : nat := 0%nat.

Record scheduler_state (Q : Type) := mk_sched {
  current : option nat;
  tcbs : gmap nat uthread_internal;
  wqs : gmap nat (list nat);
  runq : Q;
  all_threads : list (option nat);
  thread_count : Z;
  next_tid : Z;
  total_threads_created : Z;
  initialized : bool;
}.
Arguments mk_sched {Q}.
Arguments current {Q}.
Arguments tcbs {Q}.
Arguments wqs {Q}.
Arguments runq {Q}.
Arguments all_threads {Q}.
Arguments thread_count {Q}.
Arguments next_tid {Q}.
Arguments total_threads_created {Q}.
Arguments initialized {Q}.

Section scheduler_core.
Context {Q : Type} `{scheduler_ops Q}.

Definition set_current (c : option nat) (g : scheduler_state Q) :=
  mk_sched c (tcbs g) (wqs g) (runq g) (all_threads g) (thread_count g)
    (next_tid g) (total_threads_created g) (initialized g).
Definition set_tcbs (m : gmap nat uthread_internal) (g : scheduler_state Q) :=
  mk_sched (current g) m (wqs g) (runq g) (all_threads g) (thread_count g)
    (next_tid g) (total_threads_created g) (initialized g).
Definition set_runq (q : Q) (g : scheduler_state Q) :=
  mk_sched (current g) (tcbs g) (wqs g) q (all_threads g) (thread_count g)
    (next_tid g) (total_threads_created g) (initialized g).
Definition set_wq (a : nat) (l : list nat) (g : scheduler_state Q) :=
  mk_sched (current g) (tcbs g) (<[a := l]> (wqs g)) (runq g) (all_threads g)
    (thread_count g) (next_tid g) (total_threads_created g) (initialized g).
Definition set_registry (r : list (option nat)) (n : Z) (g : scheduler_state Q) :=
  mk_sched (current g) (tcbs g) (wqs g) (runq g) r n (next_tid g)
    (total_threads_created g) (initialized g).
Definition set_next_tid (n : Z) (g : scheduler_state Q) :=
  mk_sched (current g) (tcbs g) (wqs g) (runq g) (all_threads g) (thread_count g)
    n (total_threads_created g) (initialized g).
Definition set_total_threads_created (n : Z) (g : scheduler_state Q) :=
  mk_sched (current g) (tcbs g) (wqs g) (runq g) (all_threads g) (thread_count g)
    (next_tid g) n (initialized g).

(** [t->field = v] through a thread pointer; a pointer outside the table of
    control blocks changes nothing. *)
Definition update_tcb (t : nat) (f : uthread_internal -> uthread_internal)
    (g : scheduler_state Q) :=
  set_tcbs (alter f t (tcbs g)) g.

(** [malloc(sizeof(struct wait_queue))] followed by [wait_queue_init]: a
    fresh, empty queue, or NULL when the allocation fails ([ok = false]). *)
Definition malloc_wait_queue (ok : bool) (g : scheduler_state Q)
    : option nat * scheduler_state Q :=
  if ok then
    let a := fresh (dom (wqs g)) in (Some a, set_wq a [] g)
  else (None, g).

(** The threads linked into the wait queue at address [a], head first. *)
Definition wq_threads (a : nat) (g : scheduler_state Q) : list nat :=
  default [] (wqs g !! a).

Definition wait_queue_add (wq : option nat) (thread : option nat)
    (g : scheduler_state Q) : scheduler_state Q :=
  match wq, thread with
  | Some a, Some t =>
      update_tcb t (set_blocked_queue (Some a)) (set_wq a (wq_threads a g ++ [t]) g)
  | _, _ => g
  end.

Definition wait_queue_remove (wq : option nat) (g : scheduler_state Q)
    : option nat * scheduler_state Q :=
  match wq with
  | Some a =>
      match wq_threads a g with
      | t :: rest =>
          (Some t, update_tcb t (set_blocked_queue None) (set_wq a rest g))
      | [] => (None, g)
      end
  | None => (None, g)
  end.

Definition tcb_blocked_queue (t : nat) (g : scheduler_state Q) : option nat :=
  match tcbs g !! t with
  | Some c => blocked_queue c
  | None => None
  end.

Definition wait_queue_remove_specific (wq : option nat) (thread : option nat)
    (g : scheduler_state Q) : option nat * scheduler_state Q :=
  match wq, thread with
  | Some a, Some t =>
      if decide (tcb_blocked_queue t g = Some a) then
        (Some t,
         update_tcb t (set_blocked_queue None) (set_wq a (unlink t (wq_threads a g)) g))
      else (None, g)
  | _, _ => (None, g)
  end.

Definition wait_queue_empty (wq : option nat) (g : scheduler_state Q) : bool :=
  match wq with
  | Some a =>
      match wq_threads a g with
      | _ :: _ => false
      | [] => true
      end
  | None => true
  end.

Definition scheduler_current (g : scheduler_state Q) : option nat := current g.

Definition scheduler_unblock (thread : option nat) (g : scheduler_state Q)
    : scheduler_state Q :=
  match thread with
  | Some t =>
      let g1 := update_tcb t (set_state UTHREAD_STATE_READY) g in
      set_runq (rq_enqueue t (runq g1)) g1
  | None => g
  end.

Definition wait_queue_wake_one (wq : option nat) (g : scheduler_state Q)
    : scheduler_state Q :=
  match wq with
  | None => g
  | Some _ =>
      match wait_queue_remove wq g with
      | (Some t, g') => scheduler_unblock (Some t) g'
      | (None, g') => g'
      end
  end.

(** [while ((thread = wait_queue_remove(wq)) != NULL) scheduler_unblock(thread)]:
    the loop runs once per queued thread, so the queue's length bounds it. *)
Fixpoint wake_all_loop (n : nat) (wq : option nat) (g : scheduler_state Q)
    : scheduler_state Q :=
  match n with
  | O => g
  | S n' =>
      match wait_queue_remove wq g with
      | (Some t, g') => wake_all_loop n' wq (scheduler_unblock (Some t) g')
      | (None, g') => g'
      end
  end.

Definition wait_queue_wake_all (wq : option nat) (g : scheduler_state Q)
    : scheduler_state Q :=
  match wq with
  | None => g
  | Some a => wake_all_loop (length (wq_threads a g)) wq g
  end.

Definition tcb_state (t : nat) (g : scheduler_state Q) : option uthread_state_t :=
  state <$> tcbs g !! t.

(** [scheduler_schedule] up to its context switch: dequeue the next thread
    (the idle thread when the run queue is empty), and unless it is the
    caller itself, mark the caller READY if it was RUNNING, mark the next
    thread RUNNING and make it current.  The result is the state at the
    context switch, in which the next thread executes if the switch
    succeeds ([survives_switch] below); the caller continues when
    [current] is the caller again. *)
Definition scheduler_schedule (g : scheduler_state Q) : scheduler_state Q :=
  let '(r, q') := rq_dequeue (runq g) in
  let g0 := set_runq q' g in
  let next := default idle_thread r in
  if decide (current g0 = Some next) then g0
  else
    let g1 :=
      match current g0 with
      | Some c =>
          if decide (tcb_state c g0 = Some UTHREAD_STATE_RUNNING)
          then update_tcb c (set_state UTHREAD_STATE_READY) g0
          else g0
      | None => g0
      end in
    set_current (Some next) (update_tcb next (set_state UTHREAD_STATE_RUNNING) g1).

(** The context switch that ends [scheduler_schedule] ([context_switch_to],
    or [setcontext] when there is no caller).  [uthread_init] only zeroes
    the control block of the idle thread: it gets no stack, [makecontext]
    is never called on it and [idle_thread_func] is never installed, so its
    saved machine context is empty.  A switch into the idle thread loads
    that empty context and the process dies.  [switch_target] is the
    thread [scheduler_schedule] picks; the process survives the call when
    the function returns without switching (the target is the caller) or
    the target is not the idle thread. *)
Definition switch_target (g : scheduler_state Q) : nat :=
  default idle_thread (fst (rq_dequeue (runq g))).

Definition survives_switch (g : scheduler_state Q) : bool :=
  bool_decide (current g = Some (switch_target g) \/ switch_target g <> idle_thread).

(** [scheduler_schedule] with the outcome of its switch: [None] when the
    process dies in it. *)
Definition scheduler_schedule_switch (g : scheduler_state Q)
    : option (scheduler_state Q) :=
  if survives_switch g then Some (scheduler_schedule g) else None.

(** The idle thread is never on the CPU of a live process: a state in which
    it is current is the state at a switch that the process did not
    survive. *)
Definition alive (g : scheduler_state Q) : bool :=
  bool_decide (current g <> Some idle_thread).

Definition scheduler_yield (g : scheduler_state Q) : scheduler_state Q :=
  match current g with
  | None => g
  | Some c =>
      if decide (c = idle_thread) then g
      else
        let g1 :=
          if decide (tcb_state c g = Some UTHREAD_STATE_RUNNING)
          then
            let g' := update_tcb c (set_state UTHREAD_STATE_READY) g in
            set_runq (rq_enqueue c (runq g')) g'
          else g in
        scheduler_schedule g1
  end.

Definition scheduler_block (wq : option nat) (g : scheduler_state Q)
    : scheduler_state Q :=
  match current g with
  | None => g
  | Some c =>
      scheduler_schedule
        (wait_queue_add wq (Some c) (update_tcb c (set_state UTHREAD_STATE_BLOCKED) g))
  end.

End scheduler_core.

(** A segment of a blocking call returns a code to its caller, parks the
    thread at a [scheduler_schedule] call (remembering where), or crashes. *)
Inductive outcome (K S : Type) :=
| Returned (ret : Z) (s : S)
| Suspended (k : K) (s : S)
| Crashed.
Arguments Returned {K S}.
Arguments Suspended {K S}.
Arguments Crashed {K S}.

(** ** src/context.c: nice values to fair-share weights *)

Definition weight_table : list Z :=
  [ 88761; 71755; 56483; 46273; 36291;
    29154; 23254; 18705; 14949; 11916;
     9548;  7620;  6100;  4904;  3906;
     3121;  2501;  1991;  1586;  1277;
     1024;   820;   655;   526;   423;
      335;   272;   215;   172;   137;
      110;    87;    70;    56;    45;
       36;    29;    23;    18;    15 ].

Definition nice_to_weight (nice : Z) : Z :=
  let nice := if decide (nice < -20) then -20 else nice in
  let nice := if decide (nice > 19) then 19 else nice in
  nth (Z.to_nat (nice + 20)) weight_table 0.

(** ** src/uthread.c: thread lifecycle *)

Inductive uthread_detachstate_t :=
| UTHREAD_CREATE_JOINABLE
| UTHREAD_CREATE_DETACHED.

#[global] Instance uthread_detachstate_eq_dec : EqDecision uthread_detachstate_t.
Proof. solve_decision. Defined.

(** [uthread_attr_t] is plain data in the public header; [stack_size] is a
    [size_t].  The name is left out. *)
Record uthread_attr_t := mk_attr {
  attr_stack_size : Z;
  attr_priority : Z;
  attr_nice : Z;
  attr_detach_state : uthread_detachstate_t;
}.

Definition uthread_attr_init : Z * uthread_attr_t :=
  (UTHREAD_SUCCESS,
   mk_attr UTHREAD_STACK_DEFAULT UTHREAD_PRIORITY_DEFAULT 0 UTHREAD_CREATE_JOINABLE).

Definition uthread_attr_setstacksize (attr : option uthread_attr_t) (size : Z)
    : Z * option uthread_attr_t :=
  match attr with
  | None => (UTHREAD_EINVAL, None)
  | Some a =>
      if decide (size < UTHREAD_STACK_MIN \/ size > UTHREAD_STACK_MAX)
      then (UTHREAD_EINVAL, Some a)
      else (UTHREAD_SUCCESS,
            Some (mk_attr size (attr_priority a) (attr_nice a) (attr_detach_state a)))
  end.

Definition uthread_attr_getstacksize (attr : option uthread_attr_t)
    : Z * option Z :=
  match attr with
  | None => (UTHREAD_EINVAL, None)
  | Some a => (UTHREAD_SUCCESS, Some (attr_stack_size a))
  end.

(** What the allocator and the kernel answer during one [uthread_create]:
    whether [calloc] succeeds, the region [mmap] returns (NULL-free encoding:
    [None] is MAP_FAILED), whether [mprotect] succeeds, and what
    [aligned_alloc] returns on the fall-back path. *)
Record alloc_oracle := mk_oracle {
  calloc_ok : bool;
  mmap_region : option Z;
  mprotect_ok : bool;
  aligned_alloc_ptr : option Z;
}.

Definition is_Some_b {A} (o : option A) : bool :=
  match o with Some _ => true | None => false end.

Section uthread.
Context {Q : Type} `{scheduler_ops Q}.

(** [calloc] followed by the "safe defaults" of [thread_alloc]. *)
Definition zeroed_tcb : uthread_internal :=
  mk_tcb 0 UTHREAD_STATE_READY None 0 None None 0 0 UTHREAD_PRIORITY_DEFAULT 0
    CFS_NICE_0_WEIGHT None None false false None.

Definition thread_alloc (ok : bool) (g : scheduler_state Q)
    : option nat * scheduler_state Q :=
  if ok then
    let a := fresh ({[idle_thread]} ∪ dom (tcbs g)) in
    (Some a, set_tcbs (<[a := zeroed_tcb]> (tcbs g)) g)
  else (None, g).

Definition thread_free (thread : option nat) (g : scheduler_state Q)
    : scheduler_state Q :=
  match thread with
  | None => g
  | Some t => set_tcbs (delete t (tcbs g)) g
  end.

Definition thread_setup_stack (o : alloc_oracle) (size : Z) (t : uthread_internal)
    : Z * uthread_internal :=
  match mmap_region o with
  | None =>
      match aligned_alloc_ptr o with
      | None => (UTHREAD_ENOMEM, set_stack None (stack_size t) (stack_guard t) t)
      | Some p => (UTHREAD_SUCCESS, set_stack (Some p) size None t)
      end
  | Some region =>
      if mprotect_ok o
      then (UTHREAD_SUCCESS,
            set_stack (Some (region + UTHREAD_GUARD_SIZE)) size (Some region) t)
      else (UTHREAD_ENOMEM, t)
  end.

(** Index of the first registry slot that holds [p]. *)
Fixpoint find_slot (p : option nat) (l : list (option nat)) : option nat :=
  match l with
  | [] => None
  | x :: rest => if decide (x = p) then Some O else S <$> find_slot p rest
  end.

(** [scheduler_add_thread]: the first free slot takes the thread; with no
    free slot the assertion fails ([None]). *)
Definition scheduler_add_thread (thread : option nat) (g : scheduler_state Q)
    : option (scheduler_state Q) :=
  match thread with
  | None => Some g
  | Some t =>
      match find_slot None (all_threads g) with
      | Some i =>
          Some (set_registry (<[i := Some t]> (all_threads g))
                  (wrap_int (thread_count g + 1)) g)
      | None => None
      end
  end.

Definition scheduler_remove_thread (thread : option nat) (g : scheduler_state Q)
    : scheduler_state Q :=
  match thread with
  | None => g
  | Some t =>
      match find_slot (Some t) (all_threads g) with
      | Some i =>
          set_registry (<[i := None]> (all_threads g)) (wrap_int (thread_count g - 1)) g
      | None => g
      end
  end.

(** [context_init]: its three assertions; the machine context itself is not
    modelled. *)
Definition context_init (thread : option uthread_internal) : bool :=
  match thread with
  | None => false
  | Some t => bool_decide (stack_base t <> None /\ stack_size t >= UTHREAD_STACK_MIN)
  end.

Definition set_attrs (id prio ni : Z) (det : bool) (t : uthread_internal) :=
  mk_tcb id (state t) (stack_base t) (stack_size t) (stack_guard t)
    (start_routine t) (arg t) (retval t) prio ni (nice_to_weight ni)
    (waiting_on t) (blocked_queue t) det (exited t) (joiner t).
Definition set_entry (f : option (Z -> Z)) (a : Z) (t : uthread_internal) :=
  mk_tcb (tid t) UTHREAD_STATE_READY (stack_base t) (stack_size t) (stack_guard t)
    f a (retval t) (priority t) (nice t) (weight t)
    (waiting_on t) (blocked_queue t) (detached t) (exited t) (joiner t).

(** [uthread_create].  [thread_out] says whether the [thread] out-pointer
    is non-NULL.  The result is the code, the handle stored through
    [thread], and the new state; [None] is a failed assertion. *)
Definition uthread_create (o : alloc_oracle) (thread_out : bool)
    (attr : option uthread_attr_t) (start : option (Z -> Z)) (a : Z)
    (g : scheduler_state Q) : option (Z * option nat * scheduler_state Q) :=
  if negb (initialized g) then Some (UTHREAD_EINVAL, None, g)
  else if negb thread_out || negb (is_Some_b start)
  then Some (UTHREAD_EINVAL, None, g)
  else
    match thread_alloc (calloc_ok o) g with
    | (None, g) => Some (UTHREAD_ENOMEM, None, g)
    | (Some t, g) =>
        let id := next_tid g in
        let g := set_next_tid (wrap_int (next_tid g + 1)) g in
        let size :=
          match attr with
          | Some atr =>
              if decide (attr_stack_size atr >= UTHREAD_STACK_MIN)
              then attr_stack_size atr else UTHREAD_STACK_DEFAULT
          | None => UTHREAD_STACK_DEFAULT
          end in
        let g :=
          match attr with
          | Some atr =>
              update_tcb t
                (set_attrs id (attr_priority atr) (attr_nice atr)
                   (bool_decide (attr_detach_state atr = UTHREAD_CREATE_DETACHED))) g
          | None => update_tcb t (set_attrs id UTHREAD_PRIORITY_DEFAULT 0 false) g
          end in
        match tcbs g !! t with
        | None => None
        | Some c =>
            match thread_setup_stack o size c with
            | (0, c) =>
                let c := set_entry start a c in
                let g := set_tcbs (<[t := c]> (tcbs g)) g in
                if context_init (Some c) then
                  match scheduler_add_thread (Some t) g with
                  | None => None
                  | Some g =>
                      let g := set_runq (rq_enqueue t (runq g)) g in
                      let g := set_total_threads_created
                                 (wrap_int (total_threads_created g + 1)) g in
                      Some (UTHREAD_SUCCESS, Some t, g)
                  end
                else None
            | (_, _) => Some (UTHREAD_ENOMEM, None, thread_free (Some t) g)
            end
        end
    end.

(** [uthread_join], the loop [while (!t->exited)] onwards: either the
    target has exited, and the caller collects its value and frees it, or
    the caller registers as joiner and parks.  The first component of the
    state is what is stored through [retval] ([None]: nothing is stored,
    the pointer being NULL or the call not having succeeded). *)
Definition join_loop (retval_out : bool) (t : nat) (g : scheduler_state Q)
    : outcome nat (option Z * scheduler_state Q) :=
  match tcbs g !! t with
  | None => Crashed
  | Some c =>
      if exited c then
        Returned UTHREAD_SUCCESS
          (if retval_out then Some (retval c) else None,
           thread_free (Some t) (scheduler_remove_thread (Some t) g))
      else
        match current g with
        | None => Crashed
        | Some self =>
            match tcbs g !! self with
            | None => Crashed
            | Some _ =>
                let g := update_tcb t (set_joiner (Some self)) g in
                let g := update_tcb self (set_waiting_on (Some t)) g in
                let g := update_tcb self (set_state UTHREAD_STATE_BLOCKED) g in
                Suspended t (None, scheduler_schedule g)
            end
        end
  end.

Definition uthread_join (thread : option nat) (retval_out : bool)
    (g : scheduler_state Q) : outcome nat (option Z * scheduler_state Q) :=
  match thread with
  | None => Returned UTHREAD_EINVAL (None, g)
  | Some t =>
      if negb (initialized g) then Returned UTHREAD_EINVAL (None, g)
      else if decide (Some t = current g) then Returned UTHREAD_EDEADLK (None, g)
      else
        match tcbs g !! t with
        | None => Crashed
        | Some c =>
            if detached c then Returned UTHREAD_EINVAL (None, g)
            else if decide (joiner c <> None /\ joiner c <> current g)
            then Returned UTHREAD_EINVAL (None, g)
            else join_loop retval_out t g
        end
  end.

Definition uthread_detach (thread : option nat) (g : scheduler_state Q)
    : option (Z * scheduler_state Q) :=
  match thread with
  | None => Some (UTHREAD_EINVAL, g)
  | Some t =>
      if negb (initialized g) then Some (UTHREAD_EINVAL, g)
      else
        match tcbs g !! t with
        | None => None
        | Some c =>
            if detached c then Some (UTHREAD_EINVAL, g)
            else if decide (joiner c <> None) then Some (UTHREAD_EINVAL, g)
            else
              let g := update_tcb t (set_detached true) g in
              if exited c
              then Some (UTHREAD_SUCCESS,
                         thread_free (Some t) (scheduler_remove_thread (Some t) g))
              else Some (UTHREAD_SUCCESS, g)
        end
  end.

(** [uthread_exit] never returns to its caller: the result is the state at
    the context switch of its [scheduler_schedule], or [None] when the
    process ends before that: [exit(0)] before set-up, a dangling control
    block, or a detached caller.  For a detached caller the function runs
    [scheduler_remove_thread(self)] and [thread_free(self)], which unmaps
    the stack the call is running on and frees the control block that
    [scheduler_schedule] goes on to use as [current]; the process does not
    survive that.  No cleanup handler can be registered through the API, so
    that loop is empty. *)
Definition uthread_exit (v : Z) (g : scheduler_state Q)
    : option (scheduler_state Q) :=
  if negb (initialized g) then None
  else
    match current g with
    | None => None
    | Some self =>
        match tcbs g !! self with
        | None => None
        | Some c =>
            let g := update_tcb self (set_retval v) g in
            let g := update_tcb self (set_exited true) g in
            let g := update_tcb self (set_state UTHREAD_STATE_TERMINATED) g in
            let g := set_runq (rq_remove self (runq g)) g in
            let g :=
              match joiner c with
              | Some j =>
                  let g := update_tcb j (set_waiting_on None) g in
                  let g := update_tcb j (set_state UTHREAD_STATE_READY) g in
                  set_runq (rq_enqueue j (runq g)) g
              | None => g
              end in
            if detached c then None
            else Some (scheduler_schedule g)
        end
    end.

(** [context_entry_wrapper] (src/context.c): the two assertions, the call of
    the start routine on its argument, and [uthread_exit] on what it
    returned. *)
Definition context_entry_wrapper (g : scheduler_state Q)
    : option (scheduler_state Q) :=
  match scheduler_current g with
  | None => None
  | Some self =>
      match tcbs g !! self with
      | None => None
      | Some c =>
          match start_routine c with
          | None => None
          | Some f => uthread_exit (f (arg c)) g
          end
      end
  end.

End uthread.

(** ** src/mutex.c *)

Module Mutex.

Inductive uthread_mutex_type_t :=
| UTHREAD_MUTEX_NORMAL
| UTHREAD_MUTEX_RECURSIVE
| UTHREAD_MUTEX_ERRORCHECK.

#[global] Instance uthread_mutex_type_eq_dec : EqDecision uthread_mutex_type_t.
Proof. solve_decision. Defined.

Record uthread_mutex_t := mk_mutex {
  lock : Z;
  owner : option nat;
  waiters : option nat;
  type : uthread_mutex_type_t;
  recursion_count : Z;
  initialized : bool;
}.

#[global] Instance uthread_mutex_eq_dec : EqDecision uthread_mutex_t.
Proof. solve_decision. Defined.

(** [UTHREAD_MUTEX_INITIALIZER] *)
Definition UTHREAD_MUTEX_INITIALIZER : uthread_mutex_t :=
  mk_mutex 0 None None UTHREAD_MUTEX_NORMAL 0 true.

Definition set_held (l : Z) (o : option nat) (c : Z) (m : uthread_mutex_t) :=
  mk_mutex l o (waiters m) (type m) c (initialized m).
Definition set_recursion_count (c : Z) (m : uthread_mutex_t) :=
  mk_mutex (lock m) (owner m) (waiters m) (type m) c (initialized m).
Definition set_waiters (w : option nat) (i : bool) (m : uthread_mutex_t) :=
  mk_mutex (lock m) (owner m) w (type m) (recursion_count m) i.

Section mutex.
Context {Q : Type} `{scheduler_ops Q}.

Definition uthread_mutex_init (malloc_ok : bool) (attr : option uthread_mutex_type_t)
    (g : scheduler_state Q) : Z * option uthread_mutex_t * scheduler_state Q :=
  let ty := default UTHREAD_MUTEX_NORMAL attr in
  match malloc_wait_queue malloc_ok g with
  | (None, g') => (UTHREAD_ENOMEM, Some (mk_mutex 0 None None ty 0 false), g')
  | (Some a, g') => (UTHREAD_SUCCESS, Some (mk_mutex 0 None (Some a) ty 0 true), g')
  end.

(** The lazy set-up shared by lock and trylock ("static initializer"). *)
Definition ensure_waiters (malloc_ok : bool) (m : uthread_mutex_t)
    (g : scheduler_state Q) : option (uthread_mutex_t * scheduler_state Q) :=
  if initialized m then Some (m, g)
  else
    match malloc_wait_queue malloc_ok g with
    | (None, _) => None
    | (Some a, g') => Some (set_waiters (Some a) true m, g')
    end.

(** The acquisition loop of [uthread_mutex_lock], one iteration: either the
    lock is free and taken, or the caller queues itself and parks. *)
Definition mutex_lock_loop (m : uthread_mutex_t) (g : scheduler_state Q)
    : outcome unit (option uthread_mutex_t * scheduler_state Q) :=
  let self := scheduler_current g in
  if decide (lock m <> 0) then
    match self with
    | Some s =>
        let g1 := wait_queue_add (waiters m) self
                    (update_tcb s (set_state UTHREAD_STATE_BLOCKED) g) in
        Suspended tt (Some m, scheduler_schedule g1)
    | None => Suspended tt (Some m, g)
    end
  else Returned UTHREAD_SUCCESS (Some (set_held 1 self 1 m), g).

Definition uthread_mutex_lock (malloc_ok : bool) (mutex : option uthread_mutex_t)
    (g : scheduler_state Q)
    : outcome unit (option uthread_mutex_t * scheduler_state Q) :=
  match mutex with
  | None => Returned UTHREAD_EINVAL (None, g)
  | Some m0 =>
      match ensure_waiters malloc_ok m0 g with
      | None => Returned UTHREAD_ENOMEM (Some (set_waiters None (initialized m0) m0), g)
      | Some (m, g) =>
          let self := scheduler_current g in
          if decide (owner m = self) then
            match type m with
            | UTHREAD_MUTEX_RECURSIVE =>
                Returned UTHREAD_SUCCESS
                  (Some (set_recursion_count (wrap_int (recursion_count m + 1)) m), g)
            | UTHREAD_MUTEX_ERRORCHECK => Returned UTHREAD_EDEADLK (Some m, g)
            | UTHREAD_MUTEX_NORMAL => mutex_lock_loop m g
            end
          else mutex_lock_loop m g
      end
  end.

Definition uthread_mutex_trylock (malloc_ok : bool) (mutex : option uthread_mutex_t)
    (g : scheduler_state Q) : Z * option uthread_mutex_t * scheduler_state Q :=
  match mutex with
  | None => (UTHREAD_EINVAL, None, g)
  | Some m0 =>
      match ensure_waiters malloc_ok m0 g with
      | None => (UTHREAD_ENOMEM, Some (set_waiters None (initialized m0) m0), g)
      | Some (m, g) =>
          let self := scheduler_current g in
          let acquire :=
            if decide (lock m = 0)
            then (UTHREAD_SUCCESS, Some (set_held 1 self 1 m), g)
            else (UTHREAD_EBUSY, Some m, g) in
          if decide (owner m = self) then
            match type m with
            | UTHREAD_MUTEX_RECURSIVE =>
                (UTHREAD_SUCCESS,
                 Some (set_recursion_count (wrap_int (recursion_count m + 1)) m), g)
            | UTHREAD_MUTEX_ERRORCHECK => (UTHREAD_EBUSY, Some m, g)
            | UTHREAD_MUTEX_NORMAL => acquire
            end
          else acquire
      end
  end.

(** "Release the lock" and "wake one waiting thread": the tail of unlock. *)
Definition mutex_release (m : uthread_mutex_t) (g : scheduler_state Q)
    : uthread_mutex_t * scheduler_state Q :=
  let m' := set_held 0 None 0 m in
  if negb (wait_queue_empty (waiters m') g)
  then (m', wait_queue_wake_one (waiters m') g)
  else (m', g).

Definition uthread_mutex_unlock (mutex : option uthread_mutex_t)
    (g : scheduler_state Q) : Z * option uthread_mutex_t * scheduler_state Q :=
  match mutex with
  | None => (UTHREAD_EINVAL, None, g)
  | Some m =>
      if negb (initialized m) then (UTHREAD_EINVAL, Some m, g)
      else
        let self := scheduler_current g in
        if decide (type m = UTHREAD_MUTEX_ERRORCHECK /\ owner m <> self)
        then (UTHREAD_EPERM, Some m, g)
        else
          let release m1 :=
            let '(m2, g2) := mutex_release m1 g in (UTHREAD_SUCCESS, Some m2, g2) in
          if decide (type m = UTHREAD_MUTEX_RECURSIVE /\ owner m = self) then
            let m1 := set_recursion_count (wrap_int (recursion_count m - 1)) m in
            if decide (recursion_count m1 > 0)
            then (UTHREAD_SUCCESS, Some m1, g)
            else release m1
          else release m
  end.

Definition uthread_mutex_destroy (mutex : option uthread_mutex_t)
    (g : scheduler_state Q) : Z * option uthread_mutex_t * scheduler_state Q :=
  match mutex with
  | None => (UTHREAD_EINVAL, None, g)
  | Some m =>
      if negb (initialized m) then (UTHREAD_EINVAL, Some m, g)
      else if decide (lock m <> 0) then (UTHREAD_EBUSY, Some m, g)
      else if negb (wait_queue_empty (waiters m) g) then (UTHREAD_EBUSY, Some m, g)
      else (UTHREAD_SUCCESS, Some (set_waiters None false m), g)
  end.

End mutex.

End Mutex.

(** ** src/semaphore.c *)

Module Semaphore.

Record uthread_sem_t := mk_sem {
  value : Z;
  waiters : option nat;
  initialized : bool;
}.

Definition set_value (v : Z) (s : uthread_sem_t) :=
  mk_sem v (waiters s) (initialized s).

(** [struct timespec] and the deadline computed from it:
    [(uint64_t)tv_sec * 1000000000ULL + (uint64_t)tv_nsec]. *)
Record timespec := mk_timespec { tv_sec : Z; tv_nsec : Z }.

Definition deadline_of (abstime : timespec) : Z :=
  wrap_u64 (wrap_u64 (tv_sec abstime) * 1000000000 + wrap_u64 (tv_nsec abstime)).

Section semaphore.
Context {Q : Type} `{scheduler_ops Q}.

(** [uthread_sem_init]; [v] is the [unsigned int] argument, stored through
    the cast [(int)value]. *)
Definition uthread_sem_init (malloc_ok : bool) (pshared : Z) (v : Z)
    (g : scheduler_state Q) : Z * option uthread_sem_t * scheduler_state Q :=
  if decide (pshared <> 0) then (UTHREAD_EINVAL, None, g)
  else
    match malloc_wait_queue malloc_ok g with
    | (None, g') => (UTHREAD_ENOMEM, Some (mk_sem (wrap_int v) None false), g')
    | (Some a, g') => (UTHREAD_SUCCESS, Some (mk_sem (wrap_int v) (Some a) true), g')
    end.

Definition uthread_sem_destroy (sem : option uthread_sem_t) (g : scheduler_state Q)
    : Z * option uthread_sem_t * scheduler_state Q :=
  match sem with
  | None => (UTHREAD_EINVAL, None, g)
  | Some s =>
      if negb (initialized s) then (UTHREAD_EINVAL, Some s, g)
      else if negb (wait_queue_empty (waiters s) g) then (UTHREAD_EBUSY, Some s, g)
      else (UTHREAD_SUCCESS, Some (mk_sem (value s) None false), g)
  end.

(** The body of the loops of wait and timedwait: the caller queues itself
    and lets the scheduler run another thread. *)
Definition sem_block (s : uthread_sem_t) (g : scheduler_state Q)
    : scheduler_state Q :=
  match scheduler_current g with
  | Some self =>
      scheduler_schedule
        (wait_queue_add (waiters s) (Some self)
           (update_tcb self (set_state UTHREAD_STATE_BLOCKED) g))
  | None => g
  end.

(** [uthread_sem_wait], from the loop test on: this is also where the call
    continues after each [scheduler_schedule]. *)
Definition sem_wait_loop (s : uthread_sem_t) (g : scheduler_state Q)
    : outcome unit (option uthread_sem_t * scheduler_state Q) :=
  if decide (value s <= 0) then Suspended tt (Some s, sem_block s g)
  else Returned UTHREAD_SUCCESS (Some (set_value (wrap_int (value s - 1)) s), g).

Definition uthread_sem_wait (sem : option uthread_sem_t) (g : scheduler_state Q)
    : outcome unit (option uthread_sem_t * scheduler_state Q) :=
  match sem with
  | None => Returned UTHREAD_EINVAL (None, g)
  | Some s =>
      if negb (initialized s) then Returned UTHREAD_EINVAL (Some s, g)
      else sem_wait_loop s g
  end.

Definition uthread_sem_trywait (sem : option uthread_sem_t) (g : scheduler_state Q)
    : Z * option uthread_sem_t * scheduler_state Q :=
  match sem with
  | None => (UTHREAD_EINVAL, None, g)
  | Some s =>
      if negb (initialized s) then (UTHREAD_EINVAL, Some s, g)
      else if decide (value s > 0)
      then (UTHREAD_SUCCESS, Some (set_value (wrap_int (value s - 1)) s), g)
      else (UTHREAD_EAGAIN, Some s, g)
  end.

(** [uthread_sem_timedwait], from the loop test on; [now] is what
    [get_time_ns] answers at the top of the loop body.  The continuation
    remembers the deadline. *)
Definition sem_timedwait_loop (deadline now : Z) (s : uthread_sem_t)
    (g : scheduler_state Q)
    : outcome Z (option uthread_sem_t * scheduler_state Q) :=
  if decide (value s <= 0) then
    if decide (now >= deadline) then Returned UTHREAD_ETIMEDOUT (Some s, g)
    else Suspended deadline (Some s, sem_block s g)
  else Returned UTHREAD_SUCCESS (Some (set_value (wrap_int (value s - 1)) s), g).

(** After [scheduler_schedule] returns: the second deadline check, with
    [now1] the clock read there, then the loop test again, where the clock
    reads [now2]. *)
Definition sem_timedwait_resume (deadline now1 now2 : Z) (s : uthread_sem_t)
    (g : scheduler_state Q)
    : outcome Z (option uthread_sem_t * scheduler_state Q) :=
  if decide (now1 >= deadline) then
    let g :=
      match scheduler_current g with
      | Some self =>
          if decide (tcb_blocked_queue self g <> None)
          then snd (wait_queue_remove_specific (waiters s) (Some self) g)
          else g
      | None => g
      end in
    Returned UTHREAD_ETIMEDOUT (Some s, g)
  else sem_timedwait_loop deadline now2 s g.

Definition uthread_sem_timedwait (sem : option uthread_sem_t)
    (abstime : option timespec) (now : Z) (g : scheduler_state Q)
    : outcome Z (option uthread_sem_t * scheduler_state Q) :=
  match sem, abstime with
  | Some s, Some ts =>
      if negb (initialized s) then Returned UTHREAD_EINVAL (Some s, g)
      else sem_timedwait_loop (deadline_of ts) now s g
  | _, _ => Returned UTHREAD_EINVAL (sem, g)
  end.

Definition uthread_sem_post (sem : option uthread_sem_t) (g : scheduler_state Q)
    : Z * option uthread_sem_t * scheduler_state Q :=
  match sem with
  | None => (UTHREAD_EINVAL, None, g)
  | Some s =>
      if negb (initialized s) then (UTHREAD_EINVAL, Some s, g)
      else
        let s := set_value (wrap_int (value s + 1)) s in
        if negb (wait_queue_empty (waiters s) g)
        then (UTHREAD_SUCCESS, Some s, wait_queue_wake_one (waiters s) g)
        else (UTHREAD_SUCCESS, Some s, g)
  end.

(** [uthread_sem_getvalue]: the code and what is stored through [sval]. *)
Definition uthread_sem_getvalue (sem : option uthread_sem_t) (sval_out : bool)
    : Z * option Z :=
  match sem with
  | None => (UTHREAD_EINVAL, None)
  | Some s =>
      if negb sval_out then (UTHREAD_EINVAL, None)
      else if negb (initialized s) then (UTHREAD_EINVAL, None)
      else (UTHREAD_SUCCESS, Some (value s))
  end.

End semaphore.

(** *** Executions on one semaphore

    The calls made on a semaphore by whichever thread is running, in the
    order in which their segments execute.  Between two segments other code
    runs, so each segment comes with the scheduler state it finds. *)
Inductive sem_call :=
| CallPost
| CallWait
| ResumeWait
| CallTrywait
| CallTimedwait (abstime : option timespec) (now : Z)
| ResumeTimedwait (deadline now1 now2 : Z)
| CallGetvalue
| CallDestroy.

Definition returned {K S} (o : outcome K S) : option Z :=
  match o with Returned r _ => Some r | _ => None end.
Definition state_after {K S} (o : outcome K S) (s0 : S) : S :=
  match o with Returned _ s => s | Suspended _ s => s | Crashed => s0 end.

Section sem_executions.
Context {Q : Type} `{scheduler_ops Q}.

(** One segment: the code it returns, if it returns, and the semaphore it
    leaves. *)
Definition sem_step (c : sem_call) (g : scheduler_state Q) (s : uthread_sem_t)
    : option Z * uthread_sem_t :=
  let of_outcome {K} (o : outcome K (option uthread_sem_t * scheduler_state Q)) :=
    (returned o, default s (fst (state_after o (Some s, g)))) in
  let of_triple (r : Z * option uthread_sem_t * scheduler_state Q) :=
    (Some (fst (fst r)), default s (snd (fst r))) in
  match c with
  | CallPost => of_triple (uthread_sem_post (Some s) g)
  | CallWait => of_outcome (uthread_sem_wait (Some s) g)
  | ResumeWait => of_outcome (sem_wait_loop s g)
  | CallTrywait => of_triple (uthread_sem_trywait (Some s) g)
  | CallTimedwait abstime now => of_outcome (uthread_sem_timedwait (Some s) abstime now g)
  | ResumeTimedwait d now1 now2 => of_outcome (sem_timedwait_resume d now1 now2 s g)
  | CallGetvalue => (Some (fst (uthread_sem_getvalue (Some s) true)), s)
  | CallDestroy => of_triple (uthread_sem_destroy (Some s) g)
  end.

Definition is_post (c : sem_call) : bool :=
  match c with CallPost => true | _ => false end.
Definition is_wait (c : sem_call) : bool :=
  match c with
  | CallWait | ResumeWait | CallTrywait | CallTimedwait _ _ | ResumeTimedwait _ _ _ => true
  | _ => false
  end.

(** Running an execution: the semaphore at the end, the number of posts
    that returned success and the number of waits (wait, trywait,
    timedwait) that returned success. *)
Fixpoint sem_run (tr : list (sem_call * scheduler_state Q)) (s : uthread_sem_t)
    : uthread_sem_t * Z * Z :=
  match tr with
  | [] => (s, 0, 0)
  | (c, g) :: rest =>
      let '(r, s') := sem_step c g s in
      let '(s'', posts, waits) := sem_run rest s' in
      let ok := bool_decide (r = Some UTHREAD_SUCCESS) in
      (s'',
       (if ok && is_post c then 1 else 0) + posts,
       (if ok && is_wait c then 1 else 0) + waits)
  end.

End sem_executions.

End Semaphore.

(** ** src/condvar.c *)

Module Condvar.

Record uthread_cond_t := mk_cond {
  waiters : option nat;
  signal_seq : Z;
  initialized : bool;
}.

Definition UTHREAD_COND_INITIALIZER : uthread_cond_t := mk_cond None 0 true.

(** Where a waiter is parked: in the timed wait loop (with its deadline), or
    in the loop that takes the mutex back (with the code to return). *)
Inductive cond_pc :=
| TimedLoop (deadline : Z)
| Reacquire (result : Z).

Section condvar.
Context {Q : Type} `{scheduler_ops Q}.

Definition cond_state : Type :=
  option uthread_cond_t * option Mutex.uthread_mutex_t * scheduler_state Q.

Definition uthread_cond_init (malloc_ok : bool) (g : scheduler_state Q)
    : Z * option uthread_cond_t * scheduler_state Q :=
  match malloc_wait_queue malloc_ok g with
  | (None, g') => (UTHREAD_ENOMEM, Some (mk_cond None 0 false), g')
  | (Some a, g') => (UTHREAD_SUCCESS, Some (mk_cond (Some a) 0 true), g')
  end.

Definition uthread_cond_destroy (cond : option uthread_cond_t) (g : scheduler_state Q)
    : Z * option uthread_cond_t * scheduler_state Q :=
  match cond with
  | None => (UTHREAD_EINVAL, None, g)
  | Some c =>
      if negb (initialized c) then (UTHREAD_EINVAL, Some c, g)
      else if negb (wait_queue_empty (waiters c) g) then (UTHREAD_EBUSY, Some c, g)
      else (UTHREAD_SUCCESS, Some (mk_cond None (signal_seq c) false), g)
  end.

(** The lazy set-up at the head of wait, timedwait, signal and broadcast. *)
Definition ensure_cond (malloc_ok : bool) (c : uthread_cond_t) (g : scheduler_state Q)
    : option (uthread_cond_t * scheduler_state Q) :=
  if initialized c then Some (c, g)
  else
    match malloc_wait_queue malloc_ok g with
    | (None, _) => None
    | (Some a, g') => Some (mk_cond (Some a) (signal_seq c) true, g')
    end.

(** "Reacquire the mutex": the last loop of wait and of timedwait, and the
    assignments after it. *)
Definition cond_reacquire (result : Z) (self : nat) (c : option uthread_cond_t)
    (m : Mutex.uthread_mutex_t) (g : scheduler_state Q)
    : outcome cond_pc cond_state :=
  if decide (Mutex.lock m <> 0) then
    let g := update_tcb self (set_state UTHREAD_STATE_BLOCKED) g in
    let g := wait_queue_add (Mutex.waiters m) (Some self) g in
    Suspended (Reacquire result) (c, Some m, scheduler_schedule g)
  else Returned result (c, Some (Mutex.set_held 1 (Some self) 1 m), g).

(** Queue on the condition variable, release the mutex, wake one of its
    waiters: the common first part of wait and timedwait. *)
Definition cond_enqueue_release (self : nat) (c : uthread_cond_t)
    (m : Mutex.uthread_mutex_t) (g : scheduler_state Q)
    : Mutex.uthread_mutex_t * scheduler_state Q :=
  let g := update_tcb self (set_state UTHREAD_STATE_BLOCKED) g in
  let g := wait_queue_add (waiters c) (Some self) g in
  let m := Mutex.mk_mutex 0 None (Mutex.waiters m) (Mutex.type m)
             (Mutex.recursion_count m) (Mutex.initialized m) in
  if negb (wait_queue_empty (Mutex.waiters m) g)
  then (m, wait_queue_wake_one (Mutex.waiters m) g)
  else (m, g).

Definition uthread_cond_wait (malloc_ok : bool) (cond : option uthread_cond_t)
    (mutex : option Mutex.uthread_mutex_t) (g : scheduler_state Q)
    : outcome cond_pc cond_state :=
  match cond, mutex with
  | Some c0, Some m =>
      match ensure_cond malloc_ok c0 g with
      | None => Returned UTHREAD_ENOMEM (Some (mk_cond None (signal_seq c0) false), Some m, g)
      | Some (c, g) =>
          match scheduler_current g with
          | None => Returned UTHREAD_EINVAL (Some c, Some m, g)
          | Some self =>
              let '(m, g) := cond_enqueue_release self c m g in
              Suspended (Reacquire UTHREAD_SUCCESS) (Some c, Some m, scheduler_schedule g)
          end
      end
  | _, _ => Returned UTHREAD_EINVAL (cond, mutex, g)
  end.

(** The wait loop of timedwait from its test on; [now] is the clock read
    in the loop body. *)
Definition cond_timed_loop (deadline now : Z) (self : nat) (c : uthread_cond_t)
    (m : Mutex.uthread_mutex_t) (g : scheduler_state Q)
    : outcome cond_pc cond_state :=
  if decide (tcb_blocked_queue self g <> None) then
    if decide (now >= deadline) then
      let g := snd (wait_queue_remove_specific (waiters c) (Some self) g) in
      cond_reacquire UTHREAD_ETIMEDOUT self (Some c) m g
    else Suspended (TimedLoop deadline) (Some c, Some m, scheduler_schedule g)
  else cond_reacquire UTHREAD_SUCCESS self (Some c) m g.

Definition uthread_cond_timedwait (malloc_ok : bool) (cond : option uthread_cond_t)
    (mutex : option Mutex.uthread_mutex_t) (abstime : option Semaphore.timespec)
    (now : Z) (g : scheduler_state Q) : outcome cond_pc cond_state :=
  match cond, mutex, abstime with
  | Some c0, Some m, Some ts =>
      match ensure_cond malloc_ok c0 g with
      | None => Returned UTHREAD_ENOMEM (Some (mk_cond None (signal_seq c0) false), Some m, g)
      | Some (c, g) =>
          match scheduler_current g with
          | None => Returned UTHREAD_EINVAL (Some c, Some m, g)
          | Some self =>
              let '(m, g) := cond_enqueue_release self c m g in
              cond_timed_loop (Semaphore.deadline_of ts) now self c m g
          end
      end
  | _, _, _ => Returned UTHREAD_EINVAL (cond, mutex, g)
  end.

(** Where a parked waiter continues once the scheduler has picked it again
    ([scheduler_current] is then the waiter). *)
Definition cond_resume (k : cond_pc) (now : Z) (c : uthread_cond_t)
    (m : Mutex.uthread_mutex_t) (g : scheduler_state Q)
    : outcome cond_pc cond_state :=
  match scheduler_current g with
  | None => Crashed
  | Some self =>
      match k with
      | TimedLoop deadline => cond_timed_loop deadline now self c m g
      | Reacquire result => cond_reacquire result self (Some c) m g
      end
  end.

Definition uthread_cond_signal (malloc_ok : bool) (cond : option uthread_cond_t)
    (g : scheduler_state Q) : Z * option uthread_cond_t * scheduler_state Q :=
  match cond with
  | None => (UTHREAD_EINVAL, None, g)
  | Some c0 =>
      match ensure_cond malloc_ok c0 g with
      | None => (UTHREAD_ENOMEM, Some (mk_cond None (signal_seq c0) false), g)
      | Some (c, g) =>
          let c := mk_cond (waiters c) (wrap_u64 (signal_seq c + 1)) (initialized c) in
          if negb (wait_queue_empty (waiters c) g)
          then (UTHREAD_SUCCESS, Some c, wait_queue_wake_one (waiters c) g)
          else (UTHREAD_SUCCESS, Some c, g)
      end
  end.

Definition uthread_cond_broadcast (malloc_ok : bool) (cond : option uthread_cond_t)
    (g : scheduler_state Q) : Z * option uthread_cond_t * scheduler_state Q :=
  match cond with
  | None => (UTHREAD_EINVAL, None, g)
  | Some c0 =>
      match ensure_cond malloc_ok c0 g with
      | None => (UTHREAD_ENOMEM, Some (mk_cond None (signal_seq c0) false), g)
      | Some (c, g) =>
          let c := mk_cond (waiters c) (wrap_u64 (signal_seq c + 1)) (initialized c) in
          (UTHREAD_SUCCESS, Some c, wait_queue_wake_all (waiters c) g)
      end
  end.

(** The segments of wait and timedwait: the two entries and the
    continuation of a parked waiter. *)
Inductive cond_segment :=
| EnterWait (malloc_ok : bool)
| EnterTimedwait (malloc_ok : bool) (abstime : option Semaphore.timespec) (now : Z)
| Continue (k : cond_pc) (now : Z).

Definition is_entry (seg : cond_segment) : bool :=
  match seg with Continue _ _ => false | _ => true end.

Definition run_cond_segment (seg : cond_segment) (cond : option uthread_cond_t)
    (mutex : option Mutex.uthread_mutex_t) (g : scheduler_state Q)
    : outcome cond_pc cond_state :=
  match seg with
  | EnterWait ok => uthread_cond_wait ok cond mutex g
  | EnterTimedwait ok abstime now => uthread_cond_timedwait ok cond mutex abstime now g
  | Continue k now =>
      match cond, mutex with
      | Some c, Some m => cond_resume k now c m g
      | _, _ => Crashed
      end
  end.

(** "The mutex is locked and its owner is [self]." *)
Definition held_by (self : nat) (mutex : option Mutex.uthread_mutex_t) : Prop :=
  exists m, mutex = Some m /\ Mutex.lock m = 1 /\ Mutex.owner m = Some self.

End condvar.

End Condvar.

(** ** Timed waits: the segments of [uthread_sem_timedwait] and
    [uthread_cond_timedwait] *)

Inductive timed_call :=
| SemTimedwait (sem : Semaphore.uthread_sem_t)
    (abstime : option Semaphore.timespec) (now : Z)
| SemTimedwaitResume (sem : Semaphore.uthread_sem_t) (deadline now1 now2 : Z)
| CondTimedwait (malloc_ok : bool) (cond : Condvar.uthread_cond_t)
    (mutex : Mutex.uthread_mutex_t) (abstime : option Semaphore.timespec) (now : Z)
| CondTimedwaitResume (k : Condvar.cond_pc) (now : Z) (cond : Condvar.uthread_cond_t)
    (mutex : Mutex.uthread_mutex_t).

Section timed_calls.
Context {Q : Type} `{scheduler_ops Q}.

(** What a segment of a timed wait returns, if it returns: the code, the
    wait queue of the primitive it was called on, and the state. *)
Definition timed_run (c : timed_call) (g : scheduler_state Q)
    : option (Z * option nat * scheduler_state Q) :=
  let of_sem (o : outcome Z (option Semaphore.uthread_sem_t * scheduler_state Q)) :=
    match o with
    | Returned r (Some s, g') => Some (r, Semaphore.waiters s, g')
    | _ => None
    end in
  let of_cond (o : outcome Condvar.cond_pc Condvar.cond_state) :=
    match o with
    | Returned r (Some c, _, g') => Some (r, Condvar.waiters c, g')
    | _ => None
    end in
  match c with
  | SemTimedwait s abstime now =>
      of_sem (Semaphore.uthread_sem_timedwait (Some s) abstime now g)
  | SemTimedwaitResume s d now1 now2 =>
      of_sem (Semaphore.sem_timedwait_resume d now1 now2 s g)
  | CondTimedwait ok c m abstime now =>
      of_cond (Condvar.uthread_cond_timedwait ok (Some c) (Some m) abstime now g)
  | CondTimedwaitResume k now c m =>
      of_cond (Condvar.cond_resume k now c m g)
  end.

End timed_calls.

(** ** src/sched_priority.c: the multi-level priority policy *)

Module Priority.

(** The fields of [struct uthread_internal] that sched_priority.c reads or
    writes, apart from the queue links. *)
Record prio_tcb := mk_prio_tcb {
  priority : Z;
  timeslice_remaining : Z;
}.

(** [struct sched_priority_state], with the control blocks it points to and
    the time slice of [g_scheduler].  Each of the 32 queues is kept as the
    list of its threads from the head (the intrusive [next]/[prev] links are
    the list structure). *)
Record sched_priority_state := mk_priority {
  threads : gmap nat prio_tcb;
  queues : list (list nat);
  bitmap : Z;
  count : Z;
  timeslice_ns : Z;
}.

Definition set_threads (m : gmap nat prio_tcb) (s : sched_priority_state) :=
  mk_priority m (queues s) (bitmap s) (count s) (timeslice_ns s).
Definition set_queues (q : list (list nat)) (s : sched_priority_state) :=
  mk_priority (threads s) q (bitmap s) (count s) (timeslice_ns s).
Definition set_bitmap (b : Z) (s : sched_priority_state) :=
  mk_priority (threads s) (queues s) b (count s) (timeslice_ns s).
Definition set_count (c : Z) (s : sched_priority_state) :=
  mk_priority (threads s) (queues s) (bitmap s) c (timeslice_ns s).

(** [queues[i]], head first. *)
Definition queue (i : nat) (s : sched_priority_state) : list nat :=
  default [] (queues s !! i).

(** The loop of [find_highest_priority]: [i] runs from [n - 1] down to 0. *)
Fixpoint scan_down (n : nat) (b : Z) : Z :=
  match n with
  | O => -1
  | S i =>
      if decide (Z.land b (Z.shiftl 1 (Z.of_nat i)) <> 0) then Z.of_nat i
      else scan_down i b
  end.

Definition find_highest_priority (s : sched_priority_state) : Z :=
  if decide (bitmap s = 0) then -1
  else scan_down (Z.to_nat UTHREAD_PRIORITY_LEVELS) (bitmap s).

Definition add_to_priority_queue (thread : nat) (prio : nat)
    (s : sched_priority_state) : sched_priority_state :=
  match queue prio s with
  | [] =>
      set_bitmap (Z.lor (bitmap s) (Z.shiftl 1 (Z.of_nat prio)))
        (set_queues (<[prio := [thread]]> (queues s)) s)
  | q => set_queues (<[prio := q ++ [thread]]> (queues s)) s
  end.

Definition remove_from_priority_queue (thread : nat) (prio : nat)
    (s : sched_priority_state) : sched_priority_state :=
  let s := set_queues (<[prio := unlink thread (queue prio s)]> (queues s)) s in
  match queue prio s with
  | [] =>
      set_bitmap
        (Z.land (bitmap s) (wrap_u32 (Z.lnot (Z.shiftl 1 (Z.of_nat prio))))) s
  | _ => s
  end.

Definition priority_init (s : sched_priority_state) : sched_priority_state :=
  mk_priority (threads s) (replicate 32 []) 0 0 (timeslice_ns s).

(** The clamp of [priority_enqueue] and [priority_remove]. *)
Definition clamp_priority (p : Z) : nat :=
  let p := if decide (p < 0) then 0 else p in
  let p := if decide (p >= UTHREAD_PRIORITY_LEVELS) then UTHREAD_PRIORITY_LEVELS - 1 else p in
  Z.to_nat p.

Definition thread_priority (t : nat) (s : sched_priority_state) : Z :=
  match threads s !! t with
  | Some c => priority c
  | None => 0
  end.

Definition priority_enqueue (thread : option nat) (s : sched_priority_state)
    : sched_priority_state :=
  match thread with
  | None => s
  | Some t =>
      let s := add_to_priority_queue t (clamp_priority (thread_priority t s)) s in
      let s := set_count (wrap_int (count s + 1)) s in
      set_threads
        (alter (fun c => mk_prio_tcb (priority c) (timeslice_ns s)) t (threads s)) s
  end.

Definition priority_dequeue (s : sched_priority_state)
    : option nat * sched_priority_state :=
  let highest := find_highest_priority s in
  if decide (highest < 0) then (None, s)
  else
    match queue (Z.to_nat highest) s with
    | thread :: _ =>
        (Some thread,
         let s := remove_from_priority_queue thread (Z.to_nat highest) s in
         set_count (wrap_int (count s - 1)) s)
    | [] => (None, s)
    end.

(** The first queue among [candidates] that holds the thread. *)
Fixpoint find_queue (t : nat) (candidates : list nat) (s : sched_priority_state)
    : option nat :=
  match candidates with
  | [] => None
  | i :: rest =>
      if decide (t ∈ queue i s) then Some i else find_queue t rest s
  end.

Definition priority_remove (thread : option nat) (s : sched_priority_state)
    : sched_priority_state :=
  match thread with
  | None => s
  | Some t =>
      match find_queue t (clamp_priority (thread_priority t s) :: seq 0 32) s with
      | Some i =>
          let s := remove_from_priority_queue t i s in
          set_count (wrap_int (count s - 1)) s
      | None => s
      end
  end.

Definition priority_on_tick (thread : option nat) (elapsed_ns : Z)
    (s : sched_priority_state) : sched_priority_state :=
  match thread with
  | None => s
  | Some t =>
      set_threads
        (alter (fun c =>
                  mk_prio_tcb (priority c)
                    (if decide (timeslice_remaining c > elapsed_ns)
                     then timeslice_remaining c - elapsed_ns else 0)) t (threads s)) s
  end.

Definition priority_should_preempt (current : option nat) (s : sched_priority_state)
    : bool :=
  match current with
  | None => false
  | Some c =>
      match threads s !! c with
      | None => false
      | Some tc =>
          if decide (find_highest_priority s > priority tc) then true
          else bool_decide (timeslice_remaining tc = 0 /\
                            queue (Z.to_nat (priority tc)) s <> [])
      end
  end.

Definition priority_update_priority (thread : option nat) (s : sched_priority_state)
    : sched_priority_state :=
  match thread with
  | None => s
  | Some t =>
      match find_queue t (seq 0 32) s with
      | Some i =>
          add_to_priority_queue t (Z.to_nat (thread_priority t s))
            (remove_from_priority_queue t i s)
      | None => s
      end
  end.

(** [uthread_setpriority] (src/uthread.c) under this policy. *)
Definition uthread_setpriority (thread : option nat) (prio : Z)
    (s : sched_priority_state) : Z * sched_priority_state :=
  match thread with
  | None => (UTHREAD_EINVAL, s)
  | Some t =>
      if decide (prio < UTHREAD_PRIORITY_MIN \/ prio > UTHREAD_PRIORITY_MAX)
      then (UTHREAD_EINVAL, s)
      else
        let s := set_threads
                   (alter (fun c => mk_prio_tcb prio (timeslice_remaining c)) t (threads s)) s in
        (UTHREAD_SUCCESS, priority_update_priority (Some t) s)
  end.

(** *** Executions of the policy

    What the scheduler core asks of the policy, in order.  A thread enters
    a run queue only while it is in none ([enqueue] on a queued thread
    would tie the links into a knot); such executions are left out
    ([None]). *)
Inductive priority_call :=
| Enqueue (t : nat)
| Dequeue
| Remove (t : nat)
| Setpriority (t : nat) (prio : Z)
| Tick (t : nat) (elapsed_ns : Z).

Definition queued (t : nat) (s : sched_priority_state) : Prop :=
  exists i, t ∈ queue i s.

Definition queuedb (t : nat) (s : sched_priority_state) : bool :=
  bool_decide (Exists (fun q => t ∈ q) (queues s)).

Definition priority_step (c : priority_call) (s : sched_priority_state)
    : option sched_priority_state :=
  match c with
  | Enqueue t => if queuedb t s then None else Some (priority_enqueue (Some t) s)
  | Dequeue => Some (snd (priority_dequeue s))
  | Remove t => Some (priority_remove (Some t) s)
  | Setpriority t prio => Some (snd (uthread_setpriority (Some t) prio s))
  | Tick t e => Some (priority_on_tick (Some t) e s)
  end.

Fixpoint priority_run (tr : list priority_call) (s : sched_priority_state)
    : option sched_priority_state :=
  match tr with
  | [] => Some s
  | c :: rest => s' ← priority_step c s; priority_run rest s'
  end.

End Priority.

(** ** src/sched_cfs.c: the fair-share policy and its red-black tree *)

Module Cfs.

Inductive rb_color_t := RB_RED | RB_BLACK.

#[global] Instance rb_color_eq_dec : EqDecision rb_color_t.
Proof. solve_decision. Defined.

(** The fields of [struct uthread_internal] that sched_cfs.c reads or
    writes. *)
Record rb_node := mk_node {
  vruntime : Z;
  weight : Z;
  start_time : Z;
  timeslice_remaining : Z;
  rb_left : option nat;
  rb_right : option nat;
  rb_parent : option nat;
  rb_color : rb_color_t;
}.

Definition set_left (p : option nat) (n : rb_node) :=
  mk_node (vruntime n) (weight n) (start_time n) (timeslice_remaining n)
    p (rb_right n) (rb_parent n) (rb_color n).
Definition set_right (p : option nat) (n : rb_node) :=
  mk_node (vruntime n) (weight n) (start_time n) (timeslice_remaining n)
    (rb_left n) p (rb_parent n) (rb_color n).
Definition set_parent (p : option nat) (n : rb_node) :=
  mk_node (vruntime n) (weight n) (start_time n) (timeslice_remaining n)
    (rb_left n) (rb_right n) p (rb_color n).
Definition set_color (c : rb_color_t) (n : rb_node) :=
  mk_node (vruntime n) (weight n) (start_time n) (timeslice_remaining n)
    (rb_left n) (rb_right n) (rb_parent n) c.
Definition set_vruntime (v : Z) (n : rb_node) :=
  mk_node v (weight n) (start_time n) (timeslice_remaining n)
    (rb_left n) (rb_right n) (rb_parent n) (rb_color n).
Definition set_timeslice_remaining (v : Z) (n : rb_node) :=
  mk_node (vruntime n) (weight n) (start_time n) v
    (rb_left n) (rb_right n) (rb_parent n) (rb_color n).

(** [struct sched_cfs_state], together with the memory holding the nodes. *)
Record sched_cfs_state := mk_cfs {
  nodes : gmap nat rb_node;
  rb_root : option nat;
  rb_leftmost : option nat;
  min_vruntime : Z;
  count : Z;
}.

Definition set_nodes (m : gmap nat rb_node) (s : sched_cfs_state) :=
  mk_cfs m (rb_root s) (rb_leftmost s) (min_vruntime s) (count s).
Definition set_root (p : option nat) (s : sched_cfs_state) :=
  mk_cfs (nodes s) p (rb_leftmost s) (min_vruntime s) (count s).
Definition set_leftmost (p : option nat) (s : sched_cfs_state) :=
  mk_cfs (nodes s) (rb_root s) p (min_vruntime s) (count s).
Definition set_min_vruntime (v : Z) (s : sched_cfs_state) :=
  mk_cfs (nodes s) (rb_root s) (rb_leftmost s) v (count s).
Definition set_count (c : Z) (s : sched_cfs_state) :=
  mk_cfs (nodes s) (rb_root s) (rb_leftmost s) (min_vruntime s) c.

(** [p->field = v]. *)
Definition upd (p : nat) (f : rb_node -> rb_node) (s : sched_cfs_state) :=
  set_nodes (alter f p (nodes s)) s.

(** The left-hand and right-hand cases of the source mirror each other; a
    direction selects the child. *)
Inductive dir := Left | Right.

#[global] Instance dir_eq_dec : EqDecision dir.
Proof. solve_decision. Defined.

Definition flip (d : dir) : dir :=
  match d with Left => Right | Right => Left end.
Definition child (d : dir) (n : rb_node) : option nat :=
  match d with Left => rb_left n | Right => rb_right n end.
Definition set_child (d : dir) (p : option nat) (n : rb_node) : rb_node :=
  match d with Left => set_left p n | Right => set_right p n end.

(** [rb_rotate_left] is [rb_rotate Left], [rb_rotate_right] is
    [rb_rotate Right]: [y], the child of [x] on the other side, takes the
    place of [x], and [x] becomes the child of [y] on side [d].  In both C
    functions the parent's link is found by testing its left child. *)
Definition rb_rotate (d : dir) (x : nat) (s : sched_cfs_state)
    : option sched_cfs_state :=
  nx ← nodes s !! x;
  y ← child (flip d) nx;
  ny ← nodes s !! y;
  let s := upd x (set_child (flip d) (child d ny)) s in
  let s :=
    match child d ny with
    | Some c => upd c (set_parent (Some x)) s
    | None => s
    end in
  let s := upd y (set_parent (rb_parent nx)) s in
  s ← match rb_parent nx with
      | None => Some (set_root (Some y) s)
      | Some xp =>
          nxp ← nodes s !! xp;
          if decide (Some x = rb_left nxp)
          then Some (upd xp (set_left (Some y)) s)
          else Some (upd xp (set_right (Some y)) s)
      end;
  let s := upd y (set_child d (Some x)) s in
  Some (upd x (set_parent (Some y)) s).

Definition rb_rotate_left := rb_rotate Left.
Definition rb_rotate_right := rb_rotate Right.

(** [p != NULL && p->rb_color == RB_RED] *)
Definition is_red (p : option nat) (s : sched_cfs_state) : option bool :=
  match p with
  | Some a => n ← nodes s !! a; Some (bool_decide (rb_color n = RB_RED))
  | None => Some false
  end.

Definition set_color_if (p : option nat) (c : rb_color_t) (s : sched_cfs_state)
    : sched_cfs_state :=
  match p with
  | Some a => upd a (set_color c) s
  | None => s
  end.

(** The end of an iteration of [rb_insert_fixup] whose uncle is not red:
    the parent of [z] becomes black, its grandparent red, and the
    grandparent is rotated away from side [d]. *)
Definition insert_fixup_outer (d : dir) (z : nat) (s : sched_cfs_state)
    : option (sched_cfs_state * option nat) :=
  nz ← nodes s !! z;
  zp ← rb_parent nz;
  let s := upd zp (set_color RB_BLACK) s in
  nzp ← nodes s !! zp;
  zpp ← rb_parent nzp;
  let s := upd zpp (set_color RB_RED) s in
  s ← rb_rotate (flip d) zpp s;
  Some (s, Some z).

(** One iteration of the loop of [rb_insert_fixup], with the parent on side
    [d] of the grandparent; the result is the state and the next [z]
    ([None]: the loop is left). *)
Definition insert_fixup_side (d : dir) (z p g : nat) (s : sched_cfs_state)
    : option (sched_cfs_state * option nat) :=
  ng ← nodes s !! g;
  let y := child (flip d) ng in
  red_uncle ← is_red y s;
  if (red_uncle : bool) then
    let s := upd p (set_color RB_BLACK) s in
    let s := set_color_if y RB_BLACK s in
    let s := upd g (set_color RB_RED) s in
    Some (s, Some g)
  else
    np ← nodes s !! p;
    '(s, z) ← (if decide (Some z = child (flip d) np)
               then s' ← rb_rotate d p s; Some (s', p)
               else Some (s, z));
    insert_fixup_outer d z s.

Fixpoint rb_insert_fixup_loop (fuel : nat) (z : nat) (s : sched_cfs_state)
    : option sched_cfs_state :=
  match fuel with
  | O => None
  | S fuel =>
      nz ← nodes s !! z;
      match rb_parent nz with
      | None => Some s
      | Some p =>
          np ← nodes s !! p;
          if decide (rb_color np = RB_RED) then
            g ← rb_parent np;
            ng ← nodes s !! g;
            r ← insert_fixup_side
                  (if decide (Some p = rb_left ng) then Left else Right) z p g s;
            match r with
            | (s, Some z) => rb_insert_fixup_loop fuel z s
            | (s, None) => Some s
            end
          else Some s
      end
  end.

(** The loops of this file walk a path of the tree, so the number of nodes
    in memory bounds their iterations. *)
Definition loop_bound (s : sched_cfs_state) : nat := S (size (nodes s)).

Definition rb_insert_fixup (z : nat) (s : sched_cfs_state)
    : option sched_cfs_state :=
  s ← rb_insert_fixup_loop (loop_bound s) z s;
  r ← rb_root s;
  _ ← nodes s !! r;
  Some (upd r (set_color RB_BLACK) s).

(** The descent of [rb_insert]: [y] trails [x]. *)
Fixpoint insert_descend (fuel : nat) (key : Z) (y x : option nat)
    (s : sched_cfs_state) : option (option nat) :=
  match x with
  | None => Some y
  | Some a =>
      match fuel with
      | O => None
      | S fuel =>
          na ← nodes s !! a;
          insert_descend fuel key (Some a)
            (if decide (key < vruntime na) then rb_left na else rb_right na) s
      end
  end.

Definition rb_insert (thread : nat) (s : sched_cfs_state)
    : option sched_cfs_state :=
  nt ← nodes s !! thread;
  y ← insert_descend (loop_bound s) (vruntime nt) None (rb_root s) s;
  let s := upd thread (set_parent y) s in
  let s := upd thread (set_left None) s in
  let s := upd thread (set_right None) s in
  let s := upd thread (set_color RB_RED) s in
  s ← match y with
      | None => Some (set_root (Some thread) s)
      | Some a =>
          na ← nodes s !! a;
          if decide (vruntime nt < vruntime na)
          then Some (upd a (set_left (Some thread)) s)
          else Some (upd a (set_right (Some thread)) s)
      end;
  s ← match rb_leftmost s with
      | None => Some (set_leftmost (Some thread) s)
      | Some lm =>
          nl ← nodes s !! lm;
          if decide (vruntime nt < vruntime nl)
          then Some (set_leftmost (Some thread) s)
          else Some s
      end;
  s ← rb_insert_fixup thread s;
  Some (set_count (wrap_int (count s + 1)) s).

Definition rb_transplant (u : nat) (v : option nat) (s : sched_cfs_state)
    : option sched_cfs_state :=
  nu ← nodes s !! u;
  s ← match rb_parent nu with
      | None => Some (set_root v s)
      | Some up =>
          nup ← nodes s !! up;
          if decide (Some u = rb_left nup)
          then Some (upd up (set_left v) s)
          else Some (upd up (set_right v) s)
      end;
  match v with
  | Some a => _ ← nodes s !! a; Some (upd a (set_parent (rb_parent nu)) s)
  | None => Some s
  end.

Fixpoint rb_minimum_loop (fuel : nat) (x : nat) (s : sched_cfs_state)
    : option nat :=
  match fuel with
  | O => None
  | S fuel =>
      nx ← nodes s !! x;
      match rb_left nx with
      | None => Some x
      | Some l => rb_minimum_loop fuel l s
      end
  end.

Definition rb_minimum (x : nat) (s : sched_cfs_state) : option nat :=
  rb_minimum_loop (loop_bound s) x s.

(** [p == NULL || p->rb_color == RB_BLACK] *)
Definition null_or_black (p : option nat) (s : sched_cfs_state) : option bool :=
  match p with
  | None => Some true
  | Some a => n ← nodes s !! a; Some (bool_decide (rb_color n = RB_BLACK))
  end.

(** The first step of an iteration of [rb_remove_fixup], with [x] on side
    [d] of [xp]: a red sibling becomes black, [xp] red, and [xp] is rotated
    towards [x]; the result carries the sibling [w] to go on with. *)
Definition remove_fixup_sibling (d : dir) (xp : nat) (s : sched_cfs_state)
    : option (sched_cfs_state * option nat) :=
  nxp ← nodes s !! xp;
  let w := child (flip d) nxp in
  red_w ← is_red w s;
  if (red_w : bool) then
    let s := set_color_if w RB_BLACK s in
    let s := upd xp (set_color RB_RED) s in
    s ← rb_rotate d xp s;
    nxp ← nodes s !! xp;
    Some (s, child (flip d) nxp)
  else Some (s, w).

(** [w == NULL || (both children of w are null or black)] *)
Definition sibling_children_black (d : dir) (w : option nat) (s : sched_cfs_state)
    : option bool :=
  match w with
  | None => Some true
  | Some a =>
      nw ← nodes s !! a;
      near ← null_or_black (child d nw) s;
      far ← null_or_black (child (flip d) nw) s;
      Some (near && far)
  end.

(** The sibling [a] has a black far child: its near child becomes black,
    [a] red, and [a] is rotated away from [x]. *)
Definition remove_fixup_inner (d : dir) (xp a : nat) (s : sched_cfs_state)
    : option (sched_cfs_state * option nat) :=
  nw ← nodes s !! a;
  far ← null_or_black (child (flip d) nw) s;
  if (far : bool) then
    let s := set_color_if (child d nw) RB_BLACK s in
    let s := upd a (set_color RB_RED) s in
    s ← rb_rotate (flip d) a s;
    nxp ← nodes s !! xp;
    Some (s, child (flip d) nxp)
  else Some (s, Some a).

(** The sibling [a] has a red far child: [a] takes the colour of [xp],
    [xp] and the far child become black, and [xp] is rotated towards [x]. *)
Definition remove_fixup_outer (d : dir) (xp a : nat) (s : sched_cfs_state)
    : option sched_cfs_state :=
  nxp ← nodes s !! xp;
  _ ← nodes s !! a;
  let s := upd a (set_color (rb_color nxp)) s in
  let s := upd xp (set_color RB_BLACK) s in
  nw ← nodes s !! a;
  let s := set_color_if (child (flip d) nw) RB_BLACK s in
  rb_rotate d xp s.

(** One iteration of the loop of [rb_remove_fixup], with [x] on side [d] of
    [x_parent]; the result is the state and either the next [x] and
    [x_parent] (the loop goes on) or the [x] with which the loop is left by
    [break]. *)
Definition remove_fixup_side (d : dir) (xp : nat) (s : sched_cfs_state)
    : option (sched_cfs_state * (option nat * option nat + option nat)) :=
  '(s, w) ← remove_fixup_sibling d xp s;
  both_black ← sibling_children_black d w s;
  if (both_black : bool) then
    let s := set_color_if w RB_RED s in
    nxp ← nodes s !! xp;
    Some (s, inl (Some xp, rb_parent nxp))
  else
    a ← w;
    '(s, w) ← remove_fixup_inner d xp a s;
    a ← w;
    s ← remove_fixup_outer d xp a s;
    Some (s, inr (rb_root s)).

Fixpoint rb_remove_fixup_loop (fuel : nat) (x x_parent : option nat)
    (s : sched_cfs_state) : option (sched_cfs_state * option nat) :=
  match fuel with
  | O => None
  | S fuel =>
      if bool_decide (x <> rb_root s) then
        black ← null_or_black x s;
        if (black : bool) then
          xp ← x_parent;
          nxp ← nodes s !! xp;
          r ← remove_fixup_side (if decide (x = rb_left nxp) then Left else Right) xp s;
          match r with
          | (s, inl (x, x_parent)) => rb_remove_fixup_loop fuel x x_parent s
          | (s, inr x) => Some (s, x)
          end
        else Some (s, x)
      else Some (s, x)
  end.

Definition rb_remove_fixup (x x_parent : option nat) (s : sched_cfs_state)
    : option sched_cfs_state :=
  '(s, x) ← rb_remove_fixup_loop (loop_bound s) x x_parent s;
  match x with
  | Some a => _ ← nodes s !! a; Some (upd a (set_color RB_BLACK) s)
  | None => Some s
  end.

(** The end of the two-children case of [rb_remove]: [y] takes the place,
    the left subtree and the colour of [z]. *)
Definition rb_remove_replace (z y : nat) (s : sched_cfs_state)
    : option sched_cfs_state :=
  s ← rb_transplant z (Some y) s;
  nz ← nodes s !! z;
  let s := upd y (set_left (rb_left nz)) s in
  l ← rb_left nz;
  _ ← nodes s !! l;
  let s := upd l (set_parent (Some y)) s in
  Some (upd y (set_color (rb_color nz)) s).

(** In the two-children case, a successor [y] that is not the right child
    of [z] is first replaced by its own right child and given the right
    subtree of [z]. *)
Definition rb_remove_lift (z y : nat) (s : sched_cfs_state)
    : option sched_cfs_state :=
  ny ← nodes s !! y;
  s ← rb_transplant y (rb_right ny) s;
  nz ← nodes s !! z;
  let s := upd y (set_right (rb_right nz)) s in
  r ← rb_right nz;
  _ ← nodes s !! r;
  Some (upd r (set_parent (Some y)) s).

(** The unlinking of [rb_remove]: the state, [y_original_color], [x] and
    [x_parent]. *)
Definition rb_remove_unlink (z : nat) (s0 : sched_cfs_state)
    : option (sched_cfs_state * rb_color_t * option nat * option nat) :=
  nz ← nodes s0 !! z;
  match rb_left nz, rb_right nz with
  | None, _ =>
      s ← rb_transplant z (rb_right nz) s0;
      Some (s, rb_color nz, rb_right nz, rb_parent nz)
  | Some _, None =>
      s ← rb_transplant z (rb_left nz) s0;
      Some (s, rb_color nz, rb_left nz, rb_parent nz)
  | Some _, Some zr =>
      y ← rb_minimum zr s0;
      ny ← nodes s0 !! y;
      let x := rb_right ny in
      '(s, x_parent) ←
        (if decide (rb_parent ny = Some z) then Some (s0, Some y)
         else s ← rb_remove_lift z y s0; Some (s, rb_parent ny));
      s ← rb_remove_replace z y s;
      Some (s, rb_color ny, x, x_parent)
  end.

Definition rb_remove (z : option nat) (s0 : sched_cfs_state)
    : option sched_cfs_state :=
  match z with
  | None => Some s0
  | Some z =>
      '(s, y_original_color, x, x_parent) ← rb_remove_unlink z s0;
      s ← (if decide (Some z = rb_leftmost s) then
             match rb_root s with
             | Some r => m ← rb_minimum r s; Some (set_leftmost (Some m) s)
             | None => Some (set_leftmost None s)
             end
           else Some s);
      s ← (if decide (y_original_color = RB_BLACK /\ rb_root s <> None)
           then rb_remove_fixup x x_parent s
           else Some s);
      let s := upd z (set_parent None) s in
      let s := upd z (set_left None) s in
      let s := upd z (set_right None) s in
      Some (set_count (wrap_int (count s - 1)) s)
  end.

Definition cfs_init : sched_cfs_state -> sched_cfs_state :=
  fun s => mk_cfs (nodes s) None None 0 0.

(** [cfs_should_preempt]: [None] only when [current] or the cached
    leftmost dangles. *)
Definition cfs_should_preempt (current : option nat) (s : sched_cfs_state)
    : option bool :=
  match current with
  | None => Some false
  | Some c =>
      nc ← nodes s !! c;
      if decide (timeslice_remaining nc = 0) then Some (bool_decide (count s > 0))
      else
        match rb_leftmost s with
        | Some lm =>
            nl ← nodes s !! lm;
            let delta := wrap_u64 (vruntime nc - vruntime nl) in
            Some (bool_decide (delta > CFS_MIN_GRANULARITY_NS))
        | None => Some false
        end
  end.

End Cfs.

(** ** Concrete scenarios *)

(** Two threads and a recursive mutex: thread 1 locks twice, then thread 2
    runs and calls unlock. *)
Definition blank_tcb (id : Z) (s : uthread_state_t) : uthread_internal :=
  mk_tcb id s None 0 None None 0 0 UTHREAD_PRIORITY_DEFAULT 0 CFS_NICE_0_WEIGHT
    None None false false None.

Definition two_threads : scheduler_state (list nat) :=
  mk_sched (Some 1%nat)
    {[ 1%nat := blank_tcb 1 UTHREAD_STATE_RUNNING;
       2%nat := blank_tcb 2 UTHREAD_STATE_READY ]}
    ∅ [2%nat] (Some 1%nat :: Some 2%nat :: replicate 1022 None) 2 3 2 true.

Definition locked_twice_by_1 : option Mutex.uthread_mutex_t * scheduler_state (list nat) :=
  let '(_, m0, g0) :=
    Mutex.uthread_mutex_init true (Some Mutex.UTHREAD_MUTEX_RECURSIVE) two_threads in
  match Mutex.uthread_mutex_lock true m0 g0 with
  | Returned _ (m1, g1) =>
      match Mutex.uthread_mutex_lock true m1 g1 with
      | Returned _ s => s
      | _ => (m1, g1)
      end
  | _ => (m0, g0)
  end.

(** An attribute structure filled in by hand, as the public header allows:
    a 16 MiB stack. *)
Definition oversized_attr : uthread_attr_t :=
  mk_attr (16 * 1024 * 1024) UTHREAD_PRIORITY_DEFAULT 0 UTHREAD_CREATE_JOINABLE.

Definition mmap_succeeds : alloc_oracle := mk_oracle true (Some 1048576) true None.

(** The fair-share state in which thread 1 runs with virtual runtime 1000
    and 5 ms of its slice left, while thread 2, the only queued thread, has
    virtual runtime 2000. *)
Definition running_behind : Cfs.sched_cfs_state :=
  Cfs.mk_cfs
    {[ 1%nat := Cfs.mk_node 1000 1024 0 5000000 None None None Cfs.RB_BLACK;
       2%nat := Cfs.mk_node 2000 1024 0 0 None None None Cfs.RB_BLACK ]}
    (Some 2%nat) (Some 2%nat) 0 1.

(** ** Statements of the specification that the code does not meet, as they
    are stated *)

(** Semaphore accounting, read literally: whatever the initial value [v0]
    (an [unsigned int]), after an execution with [posts] successful posts
    and [waits] successful waits, what [uthread_sem_getvalue] stores is
    [v0 + posts - waits]. *)
Definition sem_accounting_as_stated : Prop :=
  forall (v0 : Z) (tr : list (Semaphore.sem_call * scheduler_state (list nat)))
         (g0 g1 : scheduler_state (list nat)) (sem : Semaphore.uthread_sem_t),
    0 <= v0 < 2 ^ 32 ->
    Semaphore.uthread_sem_init true 0 v0 g0 = (UTHREAD_SUCCESS, Some sem, g1) ->
    let '(s', posts, waits) := Semaphore.sem_run tr sem in
    forall r v, Semaphore.uthread_sem_getvalue (Some s') true = (r, Some v) ->
    v = v0 + posts - waits.

(** A condition variable and a mutex for the two-thread scenario, and the
    deadline "1 second" on the monotonic clock. *)
Definition cond_at_10 : Condvar.uthread_cond_t := Condvar.mk_cond (Some 10%nat) 0 true.
Definition mutex_at_11_held_by_1 : Mutex.uthread_mutex_t :=
  Mutex.mk_mutex 1 (Some 1%nat) (Some 11%nat) Mutex.UTHREAD_MUTEX_NORMAL 1 true.
Definition one_second : Semaphore.timespec := Semaphore.mk_timespec 1 0.

(** Thread 1 enters [uthread_cond_wait] holding the mutex and parks; thread
    2 signals the condition variable and yields; thread 1 is on the CPU
    again, about to take the mutex back. *)
Definition waiter_signalled
    : option (Condvar.uthread_cond_t * Mutex.uthread_mutex_t * scheduler_state (list nat)) :=
  match Condvar.run_cond_segment (Condvar.EnterWait true) (Some cond_at_10)
          (Some mutex_at_11_held_by_1) two_threads with
  | Suspended _ (Some c1, Some m1, g1) =>
      match Condvar.uthread_cond_signal true (Some c1) g1 with
      | (_, Some c2, g2) => Some (c2, m1, scheduler_yield g2)
      | _ => None
      end
  | _ => None
  end.

(** ** Executions of the thread lifecycle

    What the thread on the CPU may do, one segment at a time: exit, return
    from its start routine (into [context_entry_wrapper]), call or continue
    a join, create or detach a thread, yield, block on a wait queue or wake
    the waiters of one (which is all that the blocking primitives do to the
    scheduler). *)
Inductive thread_call :=
| CallExit (v : Z)
| ReturnFromStart
| CallJoin (thread : option nat) (retval_out : bool)
| ContinueJoin (t : nat) (retval_out : bool)
| CallCreate (o : alloc_oracle) (attr : option uthread_attr_t)
    (start : option (Z -> Z)) (a : Z)
| CallDetach (thread : option nat)
| CallYield
| CallBlock (wq : option nat)
| CallWakeOne (wq : option nat)
| CallWakeAll (wq : option nat).

Section thread_executions.
Context {Q : Type} `{scheduler_ops Q}.

(** The value a thread hands to [uthread_exit]: the argument of a direct
    call, or what its start routine returns. *)
Definition exit_argument (c : thread_call) (g : scheduler_state Q) : option (nat * Z) :=
  self ← scheduler_current g;
  match c with
  | CallExit v => Some (self, v)
  | ReturnFromStart =>
      tcb ← tcbs g !! self;
      f ← start_routine tcb;
      Some (self, f (arg tcb))
  | _ => None
  end.

Definition thread_step (c : thread_call) (g : scheduler_state Q)
    : option (scheduler_state Q) :=
  match c with
  | CallExit v => uthread_exit v g
  | ReturnFromStart => context_entry_wrapper g
  | CallJoin thread out =>
      match uthread_join thread out g with
      | Returned _ (_, g') | Suspended _ (_, g') => Some g'
      | Crashed => None
      end
  | ContinueJoin t out =>
      match join_loop out t g with
      | Returned _ (_, g') | Suspended _ (_, g') => Some g'
      | Crashed => None
      end
  | CallCreate o attr start a =>
      match uthread_create o true attr start a g with
      | Some (_, _, g') => Some g'
      | None => None
      end
  | CallDetach thread => snd <$> uthread_detach thread g
  | CallYield => Some (scheduler_yield g)
  | CallBlock wq => Some (scheduler_block wq g)
  | CallWakeOne wq => Some (wait_queue_wake_one wq g)
  | CallWakeAll wq => Some (wait_queue_wake_all wq g)
  end.

(** Running an execution: the final state and, for each thread handle, the
    argument of the last [uthread_exit] made by the thread at that handle. *)
Fixpoint thread_run (tr : list thread_call) (g : scheduler_state Q)
    (exits : gmap nat Z) : option (scheduler_state Q * gmap nat Z) :=
  match tr with
  | [] => Some (g, exits)
  | c :: rest =>
      g' ← thread_step c g;
      thread_run rest g'
        (match exit_argument c g with
         | Some (self, v) => <[self := v]> exits
         | None => exits
         end)
  end.

(** A join segment on [t], entered or continued. *)
Definition join_segment (continued : bool) (t : nat) (retval_out : bool)
    (g : scheduler_state Q) : outcome nat (option Z * scheduler_state Q) :=
  if continued then join_loop retval_out t g
  else uthread_join (Some t) retval_out g.

Definition none_exited (g : scheduler_state Q) : Prop :=
  forall t c, tcbs g !! t = Some c -> exited c = false.

End thread_executions.

(** The library right after [uthread_init] under round-robin: the main
    thread (handle 1) alone. *)
Definition after_init : scheduler_state (list nat) :=
  mk_sched (Some 1%nat) {[ 1%nat := blank_tcb 1 UTHREAD_STATE_RUNNING ]} ∅ []
    (Some 1%nat :: replicate 1023 None) 1 2 0 true.

(** Main creates a thread whose start routine returns its argument plus
    one, with argument 41, and joins it; the new thread runs and returns
    from its start routine. *)
Definition create_then_join (t : nat) : list thread_call :=
  [ CallCreate mmap_succeeds None (Some (fun x => x + 1)) 41;
    CallJoin (Some t) true;
    ReturnFromStart ].

(** ** Ghost readings for join and exit *)

(** A field update that leaves [retval] and [exited] alone. *)
Definition keeps_exit (f : uthread_internal -> uthread_internal) : Prop :=
  forall c, retval (f c) = retval c /\ exited (f c) = exited c.

(** Every thread that [m'] records as exited was already recorded as
    exited, with the same value, in [m]. *)
Definition no_new_exit (m m' : gmap nat uthread_internal) : Prop :=
  forall t c', m' !! t = Some c' -> exited c' = true ->
    exists c, m !! t = Some c /\ exited c = true /\ retval c = retval c'.

(** The ghost map of exit arguments agrees with the control blocks: a
    thread marked exited holds, as [retval], the argument of its last
    [uthread_exit]. *)
Definition exits_recorded (m : gmap nat uthread_internal) (exits : gmap nat Z) : Prop :=
  forall t c, m !! t = Some c -> exited c = true -> exits !! t = Some (retval c).

(** ** The invariant of the priority policy *)

(** 32 queues; bit [i] of the bitmap is set exactly when queue [i] is not
    empty; no thread is twice in a queue; a queued thread sits in the queue
    of its clamped priority (hence in one queue only). *)
Record priority_inv (s : Priority.sched_priority_state) : Prop := {
  pi_length : length (Priority.queues s) = 32%nat;
  pi_bits : forall i, (i < 32)%nat ->
    Z.testbit (Priority.bitmap s) (Z.of_nat i) = bool_decide (Priority.queue i s <> []);
  pi_nodup : forall i, NoDup (Priority.queue i s);
  pi_bucket : forall i t, t ∈ Priority.queue i s ->
    Priority.clamp_priority (Priority.thread_priority t s) = i;
}.

(** Threads 1, 2, 3 with priorities 10, 30, 20. *)
Definition three_priorities : Priority.sched_priority_state :=
  Priority.mk_priority
    {[ 1%nat := Priority.mk_prio_tcb 10 0; 2%nat := Priority.mk_prio_tcb 30 0;
       3%nat := Priority.mk_prio_tcb 20 0 ]}
    [] 0 0 UTHREAD_TIMESLICE_DEFAULT_NS.

(** ** The red-black tree of the fair-share policy, read as a tree

    The nodes linked from [rb_root] are read as a binary tree of thread
    handles with colours; the keys are the [vruntime] fields, which the tree
    operations never write. *)

Module RBTree.
Import Cfs.

Inductive tree :=
| E
| N (c : rb_color_t) (l : tree) (a : nat) (r : tree).

Definition root (t : tree) : option nat :=
  match t with E => None | N _ _ a _ => Some a end.

Definition color (t : tree) : rb_color_t :=
  match t with E => RB_BLACK | N c _ _ _ => c end.

Fixpoint inorder (t : tree) : list nat :=
  match t with
  | E => []
  | N _ l a r => inorder l ++ a :: inorder r
  end.

(** A node seen from side [d]: [near] is its child on side [d], [far] the
    child on the other side. *)
Definition node (d : dir) (c : rb_color_t) (near : tree) (a : nat) (far : tree) : tree :=
  match d with
  | Left => N c near a far
  | Right => N c far a near
  end.

(** The subtree on side [d] of the root. *)
Definition sub (d : dir) (t : tree) : tree :=
  match t, d with
  | E, _ => E
  | N _ l _ _, Left => l
  | N _ _ _ r, Right => r
  end.

Definition recolor (c : rb_color_t) (t : tree) : tree :=
  match t with E => E | N _ l a r => N c l a r end.

(** A path from a subtree up to the root: each frame is the parent [a]
    (colour [c]) of the hole, which is its child on side [d], and the
    sibling subtree. *)
Inductive frame := Fr (d : dir) (c : rb_color_t) (a : nat) (sib : tree).

Definition plug_frame (f : frame) (t : tree) : tree :=
  match f with Fr d c a sib => node d c t a sib end.

Fixpoint plug (ctx : list frame) (t : tree) : tree :=
  match ctx with
  | [] => t
  | f :: rest => plug rest (plug_frame f t)
  end.

Definition ctx_parent (ctx : list frame) : option nat :=
  match ctx with [] => None | Fr _ _ a _ :: _ => Some a end.

Fixpoint ctx_ids (ctx : list frame) : list nat :=
  match ctx with
  | [] => []
  | Fr _ _ a sib :: rest => a :: inorder sib ++ ctx_ids rest
  end.

(** Rotation towards side [d] at the root of [t]: the child [y] on the
    other side comes up, the old root becomes its child on side [d]. *)
Definition rot (d : dir) (t : tree) : option tree :=
  match t with
  | N cx _ x _ =>
      match sub (flip d) t with
      | N cy _ y _ as ty =>
          Some (node d cy (node d cx (sub d t) x (sub d ty)) y (sub (flip d) ty))
      | E => None
      end
  | E => None
  end.

(** *** The memory seen as a tree *)

(** [rep h par t]: in memory [h], the nodes of [t] are linked as [t] says,
    the parent of its root being [par]. *)
Fixpoint rep (h : gmap nat rb_node) (par : option nat) (t : tree) : Prop :=
  match t with
  | E => True
  | N c l a r =>
      (exists n, h !! a = Some n /\ rb_left n = root l /\ rb_right n = root r /\
                 rb_parent n = par /\ rb_color n = c) /\
      rep h (Some a) l /\ rep h (Some a) r
  end.

(** [rep_ctx h ctx hole top]: the frames of [ctx] are linked as [ctx] says
    around a hole that holds the pointer [hole]; [top] is the pointer at
    the top (the root pointer of the tree). *)
Fixpoint rep_ctx (h : gmap nat rb_node) (ctx : list frame) (hole top : option nat)
    : Prop :=
  match ctx with
  | [] => top = hole
  | Fr d c a sib :: rest =>
      (exists n, h !! a = Some n /\ child d n = hole /\ child (flip d) n = root sib /\
                 rb_parent n = ctx_parent rest /\ rb_color n = c) /\
      rep h (Some a) sib /\ rep_ctx h rest (Some a) top
  end.

(** The tree of state [s] is [plug ctx t]. *)
Definition heap_inv (s : sched_cfs_state) (ctx : list frame) (t : tree) : Prop :=
  rep_ctx (nodes s) ctx (root t) (rb_root s) /\
  rep (nodes s) (ctx_parent ctx) t /\
  NoDup (ctx_ids ctx ++ inorder t).

(** Two states that differ in the links of the tree only. *)
Definition same_payload (s s' : sched_cfs_state) : Prop :=
  rb_leftmost s' = rb_leftmost s /\ min_vruntime s' = min_vruntime s /\
  count s' = count s /\ dom (nodes s') = dom (nodes s) /\
  forall a, vruntime <$> nodes s' !! a = vruntime <$> nodes s !! a.

(** *** The red-black conditions *)

Definition black (c : rb_color_t) : nat :=
  match c with RB_BLACK => 1 | RB_RED => 0 end.

(** Black nodes on the leftmost path; with [balanced], on every path. *)
Fixpoint bh (t : tree) : nat :=
  match t with
  | E => 0
  | N c l _ _ => bh l + black c
  end.

Fixpoint balanced (t : tree) : Prop :=
  match t with
  | E => True
  | N _ l _ r => balanced l /\ balanced r /\ bh l = bh r
  end.

Fixpoint no_red_red (t : tree) : Prop :=
  match t with
  | E => True
  | N c l _ r =>
      no_red_red l /\ no_red_red r /\
      (c = RB_RED -> color l = RB_BLACK /\ color r = RB_BLACK)
  end.

Definition red_black (t : tree) : Prop :=
  color t = RB_BLACK /\ no_red_red t /\ balanced t.

#[global] Instance balanced_dec (t : tree) : Decision (balanced t).
Proof. induction t; simpl; apply _. Defined.
#[global] Instance no_red_red_dec (t : tree) : Decision (no_red_red t).
Proof. induction t; simpl; apply _. Defined.
#[global] Instance red_black_dec (t : tree) : Decision (red_black t).
Proof. unfold red_black. apply _. Defined.

(** The colour of the parent of the hole. *)
Definition ctx_color (ctx : list frame) : rb_color_t :=
  match ctx with [] => RB_BLACK | Fr _ c _ _ :: _ => c end.

(** [ctx_rb ctx n]: the frames satisfy the red-black conditions around a
    hole for a subtree of black height [n]: the siblings are red-black
    subtrees of the right height, a red frame has a black sibling and a
    black parent, and the topmost frame is black. *)
Fixpoint ctx_rb (ctx : list frame) (n : nat) : Prop :=
  match ctx with
  | [] => True
  | Fr _ c _ sib :: rest =>
      no_red_red sib /\ balanced sib /\ bh sib = n /\
      (c = RB_RED -> color sib = RB_BLACK /\ ctx_color rest = RB_BLACK /\ rest <> []) /\
      ctx_rb rest (n + black c)
  end.

(** *** Order *)

(** The nodes before and after the hole, in order. *)
Fixpoint ctx_before (ctx : list frame) : list nat :=
  match ctx with
  | [] => []
  | Fr Left _ _ _ :: rest => ctx_before rest
  | Fr Right _ a sib :: rest => ctx_before rest ++ inorder sib ++ [a]
  end.

Fixpoint ctx_after (ctx : list frame) : list nat :=
  match ctx with
  | [] => []
  | Fr Left _ a sib :: rest => a :: inorder sib ++ ctx_after rest
  | Fr Right _ _ _ :: rest => ctx_after rest
  end.

(** Keys do not decrease along the list. *)
Fixpoint sorted (key : nat -> Z) (l : list nat) : Prop :=
  match l with
  | [] => True
  | a :: l => Forall (fun b => key a <= key b) l /\ sorted key l
  end.

(** The key of a node in memory. *)
Definition key_of (s : sched_cfs_state) (a : nat) : Z :=
  match nodes s !! a with Some n => vruntime n | None => 0 end.

(** A frame on the path of the descent for key [k]: the descent went left
    below a greater key, right otherwise. *)
Definition on_path (key : nat -> Z) (k : Z) (f : frame) : Prop :=
  match f with
  | Fr Left _ a _ => k < key a
  | Fr Right _ a _ => key a <= k
  end.

(** *** [rb_insert] on trees *)

(** The descent of [rb_insert]: the path to the place of a new node with
    key [k]; an equal key goes to the right. *)
Fixpoint ins_path (key : nat -> Z) (k : Z) (ctx : list frame) (t : tree)
    : list frame :=
  match t with
  | E => ctx
  | N c l a r =>
      if decide (k < key a) then ins_path key k (Fr Left c a r :: ctx) l
      else ins_path key k (Fr Right c a l :: ctx) r
  end.

(** One iteration of the loop of [rb_insert_fixup] with [z] the root of
    [t]; [None] when the loop is left. *)
Definition ins_step (ctx : list frame) (t : tree) : option (list frame * tree) :=
  match ctx with
  | Fr d1 RB_RED p sib :: Fr d2 cg g unc :: rest =>
      match color unc with
      | RB_RED =>
          Some (rest, node d2 RB_RED (node d1 RB_BLACK t p sib) g (recolor RB_BLACK unc))
      | RB_BLACK =>
          if decide (d1 = d2) then
            Some (Fr d2 RB_BLACK p (node d2 RB_RED sib g unc) :: rest, t)
          else
            match t with
            | N _ _ z _ =>
                Some (Fr d2 RB_BLACK z (node d2 RB_RED (sub (flip d2) t) g unc) :: rest,
                      node d2 RB_RED sib p (sub d2 t))
            | E => None
            end
      end
  | _ => None
  end.

Fixpoint ins_loop (fuel : nat) (ctx : list frame) (t : tree) : tree :=
  match fuel with
  | O => plug ctx t
  | S fuel =>
      match ins_step ctx t with
      | Some (ctx', t') => ins_loop fuel ctx' t'
      | None => plug ctx t
      end
  end.

(** What the loop of [rb_insert_fixup] keeps: [z] is red with black
    children, and nothing else is wrong around it. *)
Definition ins_inv (ctx : list frame) (t : tree) : Prop :=
  match t with
  | N RB_RED l _ r =>
      color l = RB_BLACK /\ color r = RB_BLACK /\ no_red_red l /\ no_red_red r /\
      balanced t /\ ctx_rb ctx (bh t)
  | _ => False
  end.

(** [rb_insert] of node [z] with key [k]. *)
Definition ins (key : nat -> Z) (z : nat) (t : tree) : tree :=
  let ctx := ins_path key (key z) [] t in
  recolor RB_BLACK (ins_loop (length ctx) ctx (N RB_RED E z E)).

(** *** The state of the fair-share tree *)

(** State [s] holds the red-black tree [t], ordered by key, and the cache
    points to its first node. *)
Record rb_inv (s : sched_cfs_state) (t : tree) : Prop := {
  rb_heap : heap_inv s [] t;
  rb_red_black : red_black t;
  rb_sorted : sorted (key_of s) (inorder t);
  rb_cache : rb_leftmost s = head (inorder t);
}.

End RBTree.

(** *** [rb_remove] on trees *)

Module RBRemove.
Import Cfs RBTree.

(** The first node of a subtree, as the subtree it roots, and the path
    down to it. *)
Fixpoint min_sub (t : tree) : tree :=
  match t with
  | N _ (N _ _ _ _ as l) _ _ => min_sub l
  | _ => t
  end.

Fixpoint min_ctx (ctx : list frame) (t : tree) : list frame :=
  match t with
  | N c (N _ _ _ _ as l) a r => min_ctx (Fr Left c a r :: ctx) l
  | _ => ctx
  end.

(** The unlinking of [rb_remove], for the node at the root of [t]: the
    path to [x], the subtree of [x], and [y_original_color].  With two
    children the successor [y] takes the place and the colour of the
    node. *)
Definition del_focus (ctx : list frame) (t : tree)
    : option (list frame * tree * rb_color_t) :=
  match t with
  | E => None
  | N cz E _ r => Some (ctx, r, cz)
  | N cz l _ E => Some (ctx, l, cz)
  | N cz l _ r =>
      match min_sub r with
      | N cy _ y ry => Some (min_ctx (Fr Right cz y l :: ctx) r, ry, cy)
      | E => None
      end
  end.

(** The first step of an iteration of [rb_remove_fixup]: a red sibling
    is rotated above the parent of [x]. *)
Definition del_sibling (ctx : list frame) : list frame :=
  match ctx with
  | Fr d _ xp (N RB_RED _ w _ as tw) :: rest =>
      Fr d RB_RED xp (sub d tw) :: Fr d RB_BLACK w (sub (flip d) tw) :: rest
  | _ => ctx
  end.

Definition children_black (d : dir) (w : tree) : bool :=
  match w with
  | E => true
  | N _ _ _ _ =>
      bool_decide (color (sub d w) = RB_BLACK) &&
      bool_decide (color (sub (flip d) w) = RB_BLACK)
  end.

(** The sibling [w] of an [x] on side [d], after the rotation that gives
    it a red child on the far side. *)
Definition del_inner (d : dir) (w : tree) : tree :=
  match color (sub (flip d) w), w, sub d w with
  | RB_BLACK, N _ _ a _, N _ _ b _ as wn =>
      node d RB_BLACK (sub d wn) b (node d RB_RED (sub (flip d) wn) a (sub (flip d) w))
  | _, _, _ => w
  end.

(** One iteration of the loop of [rb_remove_fixup]: either the loop goes
    on one level up, or it is left with the whole tree. *)
Definition del_step (ctx : list frame) (t : tree) : list frame * tree + tree :=
  match del_sibling ctx with
  | Fr d cp xp w :: rest =>
      if children_black d w then inl (rest, node d cp t xp (recolor RB_RED w))
      else
        match del_inner d w with
        | N _ _ a _ as w' =>
            inr (plug rest (node d cp (node d RB_BLACK t xp (sub d w')) a
                              (recolor RB_BLACK (sub (flip d) w'))))
        | E => inr (plug ctx t)
        end
  | [] => inr (plug ctx t)
  end.

Fixpoint del_loop (fuel : nat) (ctx : list frame) (t : tree) : tree :=
  match ctx, color t, fuel with
  | [], _, _ => recolor RB_BLACK t
  | _, RB_RED, _ => plug ctx (recolor RB_BLACK t)
  | _, _, O => plug ctx t
  | _, _, S fuel =>
      match del_step ctx t with
      | inl (ctx', t') => del_loop fuel ctx' t'
      | inr whole => recolor RB_BLACK whole
      end
  end.

(** [rb_remove] of the node at the root of the subtree [t] in context
    [ctx]. *)
Definition del (ctx : list frame) (t : tree) : tree :=
  match del_focus ctx t with
  | Some (ctx', x, RB_BLACK) => del_loop (length (ctx_ids ctx')) ctx' x
  | Some (ctx', x, RB_RED) => plug ctx' x
  | None => plug ctx t
  end.

(** What the loop of [rb_remove_fixup] keeps: the subtree of [x] is one
    black node short, and nothing else is wrong. *)
Definition del_inv (ctx : list frame) (t : tree) : Prop :=
  match t with E => True | N _ l _ r => no_red_red l /\ no_red_red r end /\
  balanced t /\ ctx_rb ctx (S (bh t)).

End RBRemove.

(** *** Executions of the fair-share tree *)

Module RBRun.
Import Cfs RBTree.

(** The calls on the tree; between them the policy writes the [vruntime]
    of threads that are not queued ([cfs_enqueue] before it inserts,
    [cfs_on_tick] and [cfs_on_yield] for the running thread). *)
Inductive rb_call :=
| Insert (z : nat)
| Remove (z : nat)
| SetVruntime (z : nat) (v : Z).

Definition rb_step (c : rb_call) (s : sched_cfs_state) : option sched_cfs_state :=
  match c with
  | Insert z => rb_insert z s
  | Remove z => rb_remove (Some z) s
  | SetVruntime z v => Some (upd z (set_vruntime v) s)
  end.

Fixpoint rb_run (cs : list rb_call) (s : sched_cfs_state) : option sched_cfs_state :=
  match cs with
  | [] => Some s
  | c :: cs => s' ← rb_step c s; rb_run cs s'
  end.

(** The threads in the tree after the calls [cs], from the set [m]. *)
Fixpoint members (cs : list rb_call) (m : gset nat) : gset nat :=
  match cs with
  | [] => m
  | Insert z :: cs => members cs (m ∪ {[z]})
  | Remove z :: cs => members cs (m ∖ {[z]})
  | SetVruntime _ _ :: cs => members cs m
  end.

(** The calls the policy makes: a thread (one of [threads]) is inserted
    when it is not in the tree, removed when it is in the tree, and its
    [vruntime] is written when it is not in the tree. *)
Fixpoint legal (threads : gset nat) (cs : list rb_call) (m : gset nat) : bool :=
  match cs with
  | [] => true
  | Insert z :: cs =>
      bool_decide (z ∈ threads) && bool_decide (z ∉ m) && legal threads cs (m ∪ {[z]})
  | Remove z :: cs => bool_decide (z ∈ m) && legal threads cs (m ∖ {[z]})
  | SetVruntime z _ :: cs => bool_decide (z ∉ m) && legal threads cs m
  end.

(** Five threads with virtual runtimes 30, 10, 20, 10 and 40. *)
Definition fresh_node (v : Z) : rb_node :=
  mk_node v CFS_NICE_0_WEIGHT 0 0 None None None RB_RED.

Definition five_threads : sched_cfs_state :=
  mk_cfs (list_to_map [(1%nat, fresh_node 30); (2%nat, fresh_node 10);
                       (3%nat, fresh_node 20); (4%nat, fresh_node 10);
                       (5%nat, fresh_node 40)]) None None 0 0.

Definition five_calls : list rb_call :=
  [Insert 1; Insert 2; Insert 3; Insert 4; Insert 5; Remove 2; SetVruntime 2 50;
   Insert 2; Remove 1; Remove 4].

End RBRun.
(** ** src/sched_cfs.c: the policy operations on top of the tree *)

Module SchedCfs.
Import Cfs.

Definition set_weight (w : Z) (n : rb_node) :=
  mk_node (vruntime n) w (start_time n) (timeslice_remaining n)
    (rb_left n) (rb_right n) (rb_parent n) (rb_color n).

(** The time slice computed at the end of [cfs_enqueue] for a thread of
    weight [w] when [count] threads are queued.  The product and the
    quotient are [int] operations and the result is converted to
    [uint64_t]; [None] is a division by zero or the quotient
    [INT_MIN / -1]. *)
Definition cfs_timeslice (w count : Z) : option Z :=
  let total_weight := wrap_int (count * CFS_NICE_0_WEIGHT) in
  let total_weight := if decide (total_weight = 0) then w else total_weight in
  let product := wrap_int (CFS_TARGET_LATENCY_NS * w) in
  if decide (total_weight = 0 \/ (product = INT_MIN /\ total_weight = -1)) then None
  else
    let slice := wrap_u64 (Z.quot product total_weight) in
    Some (if decide (slice < CFS_MIN_GRANULARITY_NS)
          then CFS_MIN_GRANULARITY_NS else slice).

Definition cfs_enqueue (thread : option nat) (s : sched_cfs_state)
    : option sched_cfs_state :=
  match thread with
  | None => Some s
  | Some t =>
      n ← nodes s !! t;
      let s :=
        if decide (vruntime n = 0) then upd t (set_vruntime (min_vruntime s)) s
        else s in
      n ← nodes s !! t;
      let s :=
        if decide (vruntime n < min_vruntime s)
        then upd t (set_vruntime (min_vruntime s)) s
        else s in
      s ← rb_insert t s;
      n ← nodes s !! t;
      slice ← cfs_timeslice (weight n) (count s);
      Some (upd t (set_timeslice_remaining slice) s)
  end.

(** [cfs_dequeue]: the thread returned and the new state. *)
Definition cfs_dequeue (s : sched_cfs_state)
    : option (option nat * sched_cfs_state) :=
  match rb_leftmost s with
  | Some t => s' ← rb_remove (Some t) s; Some (Some t, s')
  | None => Some (None, s)
  end.

(** The search loop of [cfs_remove]: whether the walk from [node] down the
    tree, steered by the key of [thread], meets [thread]. *)
Fixpoint cfs_remove_search (fuel : nat) (thread : nat) (node : option nat)
    (s : sched_cfs_state) : option bool :=
  match node with
  | None => Some false
  | Some a =>
      if decide (a = thread) then Some true
      else
        match fuel with
        | O => None
        | S fuel =>
            nt ← nodes s !! thread;
            na ← nodes s !! a;
            cfs_remove_search fuel thread
              (if decide (vruntime nt < vruntime na) then rb_left na else rb_right na) s
        end
  end.

Definition cfs_remove (thread : option nat) (s : sched_cfs_state)
    : option sched_cfs_state :=
  match thread with
  | None => Some s
  | Some t =>
      found ← cfs_remove_search (loop_bound s) t (rb_root s) s;
      if (found : bool) then rb_remove (Some t) s else Some s
  end.

(** The virtual time charged for [delta] nanoseconds on the CPU to a thread
    with the [int] weight [w]: [(delta * CFS_NICE_0_WEIGHT) / w] in
    [uint64_t]; [None] is a division by zero. *)
Definition vruntime_delta (delta w : Z) : option Z :=
  if decide (wrap_u64 w = 0) then None
  else Some (wrap_u64 (delta * CFS_NICE_0_WEIGHT) / wrap_u64 w).

(** [cfs_on_yield]; [now] is what [get_time_ns] answers. *)
Definition cfs_on_yield (thread : option nat) (now : Z) (s : sched_cfs_state)
    : option sched_cfs_state :=
  match thread with
  | None => Some s
  | Some t =>
      n ← nodes s !! t;
      if decide (start_time n > 0) then
        d ← vruntime_delta (wrap_u64 (now - start_time n)) (weight n);
        Some (upd t (set_vruntime (wrap_u64 (vruntime n + d))) s)
      else Some s
  end.

Definition cfs_on_tick (thread : option nat) (elapsed_ns : Z) (s : sched_cfs_state)
    : option sched_cfs_state :=
  match thread with
  | None => Some s
  | Some t =>
      n ← nodes s !! t;
      d ← vruntime_delta elapsed_ns (weight n);
      let v := wrap_u64 (vruntime n + d) in
      let s := upd t (set_vruntime v) s in
      let s := if decide (v > min_vruntime s) then set_min_vruntime v s else s in
      Some (upd t (set_timeslice_remaining
                     (if decide (timeslice_remaining n > elapsed_ns)
                      then timeslice_remaining n - elapsed_ns else 0)) s)
  end.

(** [cfs_update_priority]; [nice] is the field [thread->nice]. *)
Definition cfs_update_priority (thread : option nat) (nice : Z)
    (s : sched_cfs_state) : sched_cfs_state :=
  match thread with
  | None => s
  | Some t => upd t (set_weight (nice_to_weight nice)) s
  end.

(** The scheduling data of a node, as opposed to its links and colour. *)
Definition payload (n : rb_node) : Z * Z * Z * Z :=
  (vruntime n, weight n, start_time n, timeslice_remaining n).

(** A field update that leaves the scheduling data alone. *)
Definition keeps_payload (f : rb_node -> rb_node) : Prop :=
  forall n, payload (f n) = payload n.

(** A field update that leaves the links, the colour and the key alone. *)
Definition keeps_links (f : rb_node -> rb_node) : Prop :=
  forall n, rb_left (f n) = rb_left n /\ rb_right (f n) = rb_right n /\
            rb_parent (f n) = rb_parent n /\ rb_color (f n) = rb_color n /\
            vruntime (f n) = vruntime n.

(** State [s'] holds the same threads with the same scheduling data as
    [s]. *)
Definition same_data (s s' : sched_cfs_state) : Prop :=
  min_vruntime s' = min_vruntime s /\
  forall a, payload <$> nodes s' !! a = payload <$> nodes s !! a.

(** The run queue of [s] read from its head: [s] holds a red-black tree
    ordered by virtual runtime whose nodes, from left to right, are [l],
    and the cached leftmost pointer is the first of them. *)
Definition cfs_queue (s : sched_cfs_state) (l : list nat) : Prop :=
  exists t, RBTree.rb_inv s t /\ RBTree.inorder t = l.

(** The search of [cfs_remove] read on trees: the walk from the root,
    steered by the key of [z], meets [z]. *)
Fixpoint search (key : nat -> Z) (z : nat) (t : RBTree.tree) : bool :=
  match t with
  | RBTree.E => false
  | RBTree.N _ l a r =>
      if decide (a = z) then true
      else if decide (key z < key a) then search key z l else search key z r
  end.

(** What the scheduler core asks of the policy, in order. *)
Inductive cfs_call :=
| Enqueue (t : nat)
| Dequeue
| Remove (t : nat)
| OnYield (t : nat) (now : Z)
| OnTick (t : nat) (elapsed_ns : Z)
| UpdatePriority (t : nat) (nice : Z).

Definition cfs_step (c : cfs_call) (s : sched_cfs_state) : option sched_cfs_state :=
  match c with
  | Enqueue t => cfs_enqueue (Some t) s
  | Dequeue => snd <$> cfs_dequeue s
  | Remove t => cfs_remove (Some t) s
  | OnYield t now => cfs_on_yield (Some t) now s
  | OnTick t e => cfs_on_tick (Some t) e s
  | UpdatePriority t nice => Some (cfs_update_priority (Some t) nice s)
  end.

Fixpoint cfs_run (cs : list cfs_call) (s : sched_cfs_state) : option sched_cfs_state :=
  match cs with
  | [] => Some s
  | c :: rest => s' ← cfs_step c s; cfs_run rest s'
  end.

End SchedCfs.

(** Threads 2, 1 and 3, of virtual runtimes 10, 30 and 40, queued in the
    fair-share tree with thread 1 at the root; thread 4, of weight 87 (nice
    11), has not run yet and is not queued. *)
Definition queue_of_three : Cfs.sched_cfs_state :=
  Cfs.mk_cfs
    {[ 1%nat := Cfs.mk_node 30 1024 0 0 (Some 2%nat) (Some 3%nat) None Cfs.RB_BLACK;
       2%nat := Cfs.mk_node 10 1024 0 0 None None (Some 1%nat) Cfs.RB_RED;
       3%nat := Cfs.mk_node 40 1024 0 0 None None (Some 1%nat) Cfs.RB_RED;
       4%nat := Cfs.mk_node 0 87 0 0 None None None Cfs.RB_RED ]}
    (Some 1%nat) (Some 2%nat) 10 3.

Definition tree_of_three : RBTree.tree :=
  RBTree.N Cfs.RB_BLACK (RBTree.N Cfs.RB_RED RBTree.E 2%nat RBTree.E) 1%nat
    (RBTree.N Cfs.RB_RED RBTree.E 3%nat RBTree.E).

(** ** src/timer.c: the interval timer and the preemption counter *)

Module Timer.

(** The three static variables of timer.c (all [sig_atomic_t], an [int]),
    the two fields of [g_scheduler] that the file reads or writes, and the
    interval timer of the process as [setitimer] last set it
    ([tv_sec], [tv_usec]). *)
Record timer_state := mk_timer {
  s_preemption_disabled : Z;
  s_preempt_pending : Z;
  s_timer_active : Z;
  timeslice_ns : Z;
  preemption_enabled : bool;
  itimer : Z * Z;
}.

Definition set_disabled (d : Z) (st : timer_state) :=
  mk_timer d (s_preempt_pending st) (s_timer_active st) (timeslice_ns st)
    (preemption_enabled st) (itimer st).
Definition set_pending (p : Z) (st : timer_state) :=
  mk_timer (s_preemption_disabled st) p (s_timer_active st) (timeslice_ns st)
    (preemption_enabled st) (itimer st).
Definition set_timer (a : Z) (it : Z * Z) (st : timer_state) :=
  mk_timer (s_preemption_disabled st) (s_preempt_pending st) a (timeslice_ns st)
    (preemption_enabled st) it.
Definition set_timeslice_ns (ns : Z) (st : timer_state) :=
  mk_timer (s_preemption_disabled st) (s_preempt_pending st) (s_timer_active st) ns
    (preemption_enabled st) (itimer st).
Definition set_preemption_enabled (b : bool) (st : timer_state) :=
  mk_timer (s_preemption_disabled st) (s_preempt_pending st) (s_timer_active st)
    (timeslice_ns st) b (itimer st).

(** What the rest of the scheduler looks like when a function of timer.c
    runs: [g_scheduler.initialized], [g_scheduler.in_scheduler], and
    whether [g_scheduler.current] is a thread inside a critical section. *)
Record sched_view := mk_view {
  initialized : bool;
  in_scheduler : bool;
  in_critical_section : bool;
}.

(** The functions below return the new state and whether they called
    [scheduler_tick]. *)
Definition timer_signal_handler (v : sched_view) (st : timer_state)
    : timer_state * bool :=
  if negb (initialized v) then (st, false)
  else if decide (s_preemption_disabled st > 0) then (set_pending 1 st, false)
  else if in_scheduler v then (st, false)
  else if in_critical_section v then (set_pending 1 st, false)
  else (st, true).

Definition timer_init (st : timer_state) : timer_state :=
  set_timer 0 (itimer st) (set_pending 0 (set_disabled 0 st)).

(** [timer_start]; [setitimer_ok] says whether [setitimer] succeeds. *)
Definition timer_start (setitimer_ok : bool) (st : timer_state) : timer_state :=
  if decide (s_timer_active st <> 0) then st
  else
    let ns := timeslice_ns st in
    let it := (ns / 1000000000, (ns mod 1000000000) / 1000) in
    if setitimer_ok then set_timer 1 it st else st.

Definition timer_stop (st : timer_state) : timer_state :=
  if decide (s_timer_active st = 0) then st
  else set_timer 0 (0, 0) st.

Definition timer_set_interval (setitimer_ok : bool) (ns : Z) (st : timer_state)
    : timer_state :=
  let was_active := bool_decide (s_timer_active st <> 0) in
  let st := if was_active then timer_stop st else st in
  let st := set_timeslice_ns ns st in
  if was_active then timer_start setitimer_ok st else st.

Definition preemption_disable (st : timer_state) : timer_state :=
  set_disabled (wrap_int (s_preemption_disabled st + 1)) st.

Definition preemption_enable (v : sched_view) (st : timer_state)
    : timer_state * bool :=
  if decide (s_preemption_disabled st = 0) then (st, false)
  else
    let st := set_disabled (wrap_int (s_preemption_disabled st - 1)) st in
    if decide (s_preemption_disabled st = 0) then
      if decide (s_preempt_pending st <> 0) then
        let st := set_pending 0 st in
        if negb (in_scheduler v) then
          if negb (in_critical_section v) then (st, true) else (st, false)
        else (st, false)
      else (st, false)
    else (st, false).

Definition preemption_is_enabled (st : timer_state) : bool :=
  bool_decide (s_preemption_disabled st = 0).

(** [uthread_set_timeslice] (src/uthread.c): the code returned, the state
    and whether [scheduler_tick] was called on the way out. *)
Definition uthread_set_timeslice (v : sched_view) (setitimer_ok : bool) (ns : Z)
    (st : timer_state) : Z * timer_state * bool :=
  if negb (initialized v) then (UTHREAD_EINVAL, st, false)
  else if decide (ns < 1000000) then (UTHREAD_EINVAL, st, false)
  else
    let st := preemption_disable st in
    let st := set_timeslice_ns ns st in
    let st := timer_set_interval setitimer_ok ns st in
    let '(st, tick) := preemption_enable v st in
    (UTHREAD_SUCCESS, st, tick).

Definition uthread_get_timeslice (st : timer_state) : Z := timeslice_ns st.

(** [uthread_set_preemption] (src/uthread.c): the old setting and the new
    state. *)
Definition uthread_set_preemption (v : sched_view) (setitimer_ok : bool)
    (enable : bool) (st : timer_state) : bool * timer_state :=
  let old := preemption_enabled st in
  let st := set_preemption_enabled enable st in
  if enable && initialized v then (old, timer_start setitimer_ok st)
  else if negb enable && initialized v then (old, timer_stop st)
  else (old, st).

(** What happens to the preemption counter, in order: a call of
    [preemption_disable], a call of [preemption_enable], or the delivery of
    SIGALRM, each with the view of the scheduler at that moment.  (The
    signal is blocked while the counter is positive only after
    [sigprocmask] took effect; the handler checks the counter itself.) *)
Inductive timer_event :=
| Disable
| Enable (v : sched_view)
| Signal (v : sched_view).

Definition timer_step (ev : timer_event) (st : timer_state) : timer_state * bool :=
  match ev with
  | Disable => (preemption_disable st, false)
  | Enable v => preemption_enable v st
  | Signal v => timer_signal_handler v st
  end.

(** Running the events: the final state and, for each event, whether it
    called [scheduler_tick]. *)
Fixpoint timer_run (evs : list timer_event) (st : timer_state)
    : timer_state * list bool :=
  match evs with
  | [] => (st, [])
  | ev :: rest =>
      let '(st1, tick) := timer_step ev st in
      let '(st2, ticks) := timer_run rest st1 in
      (st2, tick :: ticks)
  end.

Definition is_signal (ev : timer_event) : bool :=
  match ev with Signal _ => true | _ => false end.

(** The number of signals among the events, and the number of calls of
    [scheduler_tick] they made. *)
Fixpoint signals (evs : list timer_event) : Z :=
  match evs with
  | [] => 0
  | ev :: rest => (if is_signal ev then 1 else 0) + signals rest
  end.

Fixpoint ticks_in (ticks : list bool) : Z :=
  match ticks with
  | [] => 0
  | b :: rest => (if b then 1 else 0) + ticks_in rest
  end.

(** 1 when a tick is pending, 0 otherwise. *)
Definition pending_bit (st : timer_state) : Z :=
  if decide (s_preempt_pending st = 0) then 0 else 1.

(** Whether, at the end of the events, a signal has arrived that no call
    of [scheduler_tick] has followed yet; [u] says so for the past. *)
Fixpoint unserved (evs : list timer_event) (ticks : list bool) (u : bool) : bool :=
  match evs, ticks with
  | ev :: evs, b :: ticks => unserved evs ticks (if b then false else u || is_signal ev)
  | _, _ => u
  end.

(** The view of a thread running ordinary code. *)
Definition user_code : sched_view := mk_view true false false.

Definition view_of (ev : timer_event) : sched_view :=
  match ev with Disable => user_code | Enable v | Signal v => v end.

End Timer.

(** ** Ghost readings of the thread table (src/scheduler.c, src/uthread.c) *)

(** The number of occupied slots of [g_scheduler.all_threads]. *)
Definition registered {Q : Type} (g : scheduler_state Q) : Z :=
  Z.of_nat (length (omap id (all_threads g))).

(** The two fields of the thread table. *)
Definition registry {Q : Type} (g : scheduler_state Q) : list (option nat) * Z :=
  (all_threads g, thread_count g).

(** The thread table is consistent: the counter is the number of occupied
    slots, and the table is not longer than [INT_MAX]. *)
Definition registry_ok {Q : Type} (g : scheduler_state Q) : Prop :=
  thread_count g = registered g /\ Z.of_nat (length (all_threads g)) <= INT_MAX.

(** ** Repeated calls on one mutex by the thread on the CPU *)

(** The mutex after a [uthread_mutex_lock] that returns at once, and after
    a [uthread_mutex_unlock]. *)
Definition relock {Q : Type} `{scheduler_ops Q} (g : scheduler_state Q)
    (m : Mutex.uthread_mutex_t) : Mutex.uthread_mutex_t :=
  match Mutex.uthread_mutex_lock true (Some m) g with
  | Returned _ (Some m', _) => m'
  | _ => m
  end.

Definition unlock_once {Q : Type} `{scheduler_ops Q} (g : scheduler_state Q)
    (m : Mutex.uthread_mutex_t) : Mutex.uthread_mutex_t :=
  match Mutex.uthread_mutex_unlock (Some m) g with
  | (_, Some m', _) => m'
  | _ => m
  end.

(** ** src/rwlock.c *)

(** [free(wq)] of a wait queue. *)
Definition free_wait_queue {Q : Type} (wq : option nat) (g : scheduler_state Q)
    : scheduler_state Q :=
  match wq with
  | Some a =>
      mk_sched (current g) (tcbs g) (delete a (wqs g)) (runq g) (all_threads g)
        (thread_count g) (next_tid g) (total_threads_created g) (initialized g)
  | None => g
  end.

Module Rwlock.

Record uthread_rwlock_t := mk_rwlock {
  readers : Z;
  writer : Z;
  writer_owner : option nat;
  read_waiters : option nat;
  write_waiters : option nat;
  pending_writers : Z;
  initialized : bool;
}.

#[global] Instance uthread_rwlock_eq_dec : EqDecision uthread_rwlock_t.
Proof. solve_decision. Defined.

(** [UTHREAD_RWLOCK_INITIALIZER] *)
Definition UTHREAD_RWLOCK_INITIALIZER : uthread_rwlock_t :=
  mk_rwlock 0 0 None None None 0 true.

Definition set_readers (r : Z) (l : uthread_rwlock_t) :=
  mk_rwlock r (writer l) (writer_owner l) (read_waiters l) (write_waiters l)
    (pending_writers l) (initialized l).
Definition set_writer (w : Z) (o : option nat) (l : uthread_rwlock_t) :=
  mk_rwlock (readers l) w o (read_waiters l) (write_waiters l)
    (pending_writers l) (initialized l).
Definition set_pending_writers (p : Z) (l : uthread_rwlock_t) :=
  mk_rwlock (readers l) (writer l) (writer_owner l) (read_waiters l) (write_waiters l)
    p (initialized l).

Section rwlock.
Context {Q : Type} `{scheduler_ops Q}.

(** [uthread_rwlock_init]; [ok1] and [ok2] say whether the two [malloc]
    calls succeed.  After [memset] every field is zero; when the second
    allocation fails the first queue is freed and its pointer is left in
    the lock. *)
Definition uthread_rwlock_init (ok1 ok2 : bool) (rwlock : option uthread_rwlock_t)
    (g : scheduler_state Q) : Z * option uthread_rwlock_t * scheduler_state Q :=
  match rwlock with
  | None => (UTHREAD_EINVAL, None, g)
  | Some _ =>
      match malloc_wait_queue ok1 g with
      | (None, g) => (UTHREAD_ENOMEM, Some (mk_rwlock 0 0 None None None 0 false), g)
      | (Some a, g) =>
          match malloc_wait_queue ok2 g with
          | (None, g) =>
              (UTHREAD_ENOMEM, Some (mk_rwlock 0 0 None (Some a) None 0 false),
               free_wait_queue (Some a) g)
          | (Some b, g) =>
              (UTHREAD_SUCCESS, Some (mk_rwlock 0 0 None (Some a) (Some b) 0 true), g)
          end
      end
  end.

Definition uthread_rwlock_destroy (rwlock : option uthread_rwlock_t)
    (g : scheduler_state Q) : Z * option uthread_rwlock_t * scheduler_state Q :=
  match rwlock with
  | None => (UTHREAD_EINVAL, None, g)
  | Some l =>
      if negb (initialized l) then (UTHREAD_EINVAL, Some l, g)
      else if decide (readers l > 0 \/ writer l <> 0) then (UTHREAD_EBUSY, Some l, g)
      else if negb (wait_queue_empty (read_waiters l) g) then (UTHREAD_EBUSY, Some l, g)
      else if negb (wait_queue_empty (write_waiters l) g) then (UTHREAD_EBUSY, Some l, g)
      else
        (UTHREAD_SUCCESS,
         Some (mk_rwlock (readers l) (writer l) (writer_owner l) None None
                 (pending_writers l) false),
         free_wait_queue (write_waiters l) (free_wait_queue (read_waiters l) g))
  end.

(** The lazy set-up at the head of the four locking calls: the lock to go
    on with, or the code to return and the lock as the failed set-up left
    it. *)
Definition ensure_rwlock (ok1 ok2 : bool) (l : uthread_rwlock_t) (g : scheduler_state Q)
    : uthread_rwlock_t * scheduler_state Q + Z * option uthread_rwlock_t * scheduler_state Q :=
  if initialized l then inl (l, g)
  else
    match uthread_rwlock_init ok1 ok2 (Some l) g with
    | (0, Some l', g') => inl (l', g')
    | r => inr r
    end.

(** The caller queues itself on [wq] and lets the scheduler run another
    thread; with no current thread the loop spins. *)
Definition rwlock_block (wq : option nat) (g : scheduler_state Q) : scheduler_state Q :=
  match scheduler_current g with
  | Some self =>
      scheduler_schedule
        (wait_queue_add wq (Some self)
           (update_tcb self (set_state UTHREAD_STATE_BLOCKED) g))
  | None => g
  end.

(** [uthread_rwlock_rdlock] from the loop test on: this is also where the
    call continues after each [scheduler_schedule]. *)
Definition rdlock_loop (l : uthread_rwlock_t) (g : scheduler_state Q)
    : outcome unit (option uthread_rwlock_t * scheduler_state Q) :=
  if decide (writer l <> 0 \/ pending_writers l > 0)
  then Suspended tt (Some l, rwlock_block (read_waiters l) g)
  else Returned UTHREAD_SUCCESS (Some (set_readers (wrap_int (readers l + 1)) l), g).

Definition uthread_rwlock_rdlock (ok1 ok2 : bool) (rwlock : option uthread_rwlock_t)
    (g : scheduler_state Q)
    : outcome unit (option uthread_rwlock_t * scheduler_state Q) :=
  match rwlock with
  | None => Returned UTHREAD_EINVAL (None, g)
  | Some l0 =>
      match ensure_rwlock ok1 ok2 l0 g with
      | inr (r, l, g) => Returned r (l, g)
      | inl (l, g) => rdlock_loop l g
      end
  end.

Definition uthread_rwlock_tryrdlock (ok1 ok2 : bool) (rwlock : option uthread_rwlock_t)
    (g : scheduler_state Q) : Z * option uthread_rwlock_t * scheduler_state Q :=
  match rwlock with
  | None => (UTHREAD_EINVAL, None, g)
  | Some l0 =>
      match ensure_rwlock ok1 ok2 l0 g with
      | inr r => r
      | inl (l, g) =>
          if decide (writer l <> 0 \/ pending_writers l > 0)
          then (UTHREAD_EBUSY, Some l, g)
          else (UTHREAD_SUCCESS, Some (set_readers (wrap_int (readers l + 1)) l), g)
      end
  end.

(** [uthread_rwlock_wrlock] from the loop test on. *)
Definition wrlock_loop (l : uthread_rwlock_t) (g : scheduler_state Q)
    : outcome unit (option uthread_rwlock_t * scheduler_state Q) :=
  if decide (readers l > 0 \/ writer l <> 0)
  then Suspended tt (Some l, rwlock_block (write_waiters l) g)
  else
    let l := set_pending_writers (wrap_int (pending_writers l - 1)) l in
    Returned UTHREAD_SUCCESS (Some (set_writer 1 (scheduler_current g) l), g).

Definition uthread_rwlock_wrlock (ok1 ok2 : bool) (rwlock : option uthread_rwlock_t)
    (g : scheduler_state Q)
    : outcome unit (option uthread_rwlock_t * scheduler_state Q) :=
  match rwlock with
  | None => Returned UTHREAD_EINVAL (None, g)
  | Some l0 =>
      match ensure_rwlock ok1 ok2 l0 g with
      | inr (r, l, g) => Returned r (l, g)
      | inl (l, g) =>
          wrlock_loop (set_pending_writers (wrap_int (pending_writers l + 1)) l) g
      end
  end.

Definition uthread_rwlock_trywrlock (ok1 ok2 : bool) (rwlock : option uthread_rwlock_t)
    (g : scheduler_state Q) : Z * option uthread_rwlock_t * scheduler_state Q :=
  match rwlock with
  | None => (UTHREAD_EINVAL, None, g)
  | Some l0 =>
      match ensure_rwlock ok1 ok2 l0 g with
      | inr r => r
      | inl (l, g) =>
          if decide (readers l > 0 \/ writer l <> 0)
          then (UTHREAD_EBUSY, Some l, g)
          else (UTHREAD_SUCCESS, Some (set_writer 1 (scheduler_current g) l), g)
      end
  end.

Definition uthread_rwlock_unlock (rwlock : option uthread_rwlock_t)
    (g : scheduler_state Q) : Z * option uthread_rwlock_t * scheduler_state Q :=
  match rwlock with
  | None => (UTHREAD_EINVAL, None, g)
  | Some l =>
      if negb (initialized l) then (UTHREAD_EINVAL, Some l, g)
      else if decide (writer l <> 0) then
        if decide (writer_owner l <> scheduler_current g)
        then (UTHREAD_EPERM, Some l, g)
        else
          let l := set_writer 0 None l in
          if negb (wait_queue_empty (write_waiters l) g)
          then (UTHREAD_SUCCESS, Some l, wait_queue_wake_one (write_waiters l) g)
          else (UTHREAD_SUCCESS, Some l, wait_queue_wake_all (read_waiters l) g)
      else if decide (readers l > 0) then
        let l := set_readers (wrap_int (readers l - 1)) l in
        if bool_decide (readers l = 0) && negb (wait_queue_empty (write_waiters l) g)
        then (UTHREAD_SUCCESS, Some l, wait_queue_wake_one (write_waiters l) g)
        else (UTHREAD_SUCCESS, Some l, g)
      else (UTHREAD_EPERM, Some l, g)
  end.

End rwlock.

(** *** Executions on one lock

    The calls made on a read-write lock by whichever thread is running, in
    the order in which their segments execute; each segment comes with the
    scheduler state it finds. *)
Inductive rw_call :=
| CallRdlock
| ResumeRdlock
| CallTryrdlock
| CallWrlock
| ResumeWrlock
| CallTrywrlock
| CallUnlock
| CallDestroy.

Section rw_executions.
Context {Q : Type} `{scheduler_ops Q}.

(** One segment: the code it returns, if it returns, and the lock it
    leaves. *)
Definition rw_step (c : rw_call) (g : scheduler_state Q) (l : uthread_rwlock_t)
    : option Z * uthread_rwlock_t :=
  let of_outcome (o : outcome unit (option uthread_rwlock_t * scheduler_state Q)) :=
    (Semaphore.returned o, default l (fst (Semaphore.state_after o (Some l, g)))) in
  let of_triple (r : Z * option uthread_rwlock_t * scheduler_state Q) :=
    (Some (fst (fst r)), default l (snd (fst r))) in
  match c with
  | CallRdlock => of_outcome (uthread_rwlock_rdlock true true (Some l) g)
  | ResumeRdlock => of_outcome (rdlock_loop l g)
  | CallTryrdlock => of_triple (uthread_rwlock_tryrdlock true true (Some l) g)
  | CallWrlock => of_outcome (uthread_rwlock_wrlock true true (Some l) g)
  | ResumeWrlock => of_outcome (wrlock_loop l g)
  | CallTrywrlock => of_triple (uthread_rwlock_trywrlock true true (Some l) g)
  | CallUnlock => of_triple (uthread_rwlock_unlock (Some l) g)
  | CallDestroy => of_triple (uthread_rwlock_destroy (Some l) g)
  end.

Definition is_unlock (c : rw_call) : bool :=
  match c with CallUnlock => true | _ => false end.
Definition grants_read (c : rw_call) : bool :=
  match c with CallRdlock | ResumeRdlock | CallTryrdlock => true | _ => false end.
Definition grants_write (c : rw_call) : bool :=
  match c with CallWrlock | ResumeWrlock | CallTrywrlock => true | _ => false end.

(** Who holds the lock: one entry per read lock granted and not yet
    released, naming the thread it was granted to, and the same for write
    locks.  A thread is named by what [scheduler_current] answers in its
    segment. *)
Record rw_holders := mk_holders {
  read_holders : list (option nat);
  write_holders : list (option nat);
}.

(** One entry of [t] less. *)
Fixpoint release (t : option nat) (l : list (option nat)) : list (option nat) :=
  match l with
  | [] => []
  | u :: rest => if decide (u = t) then rest else u :: release t rest
  end.

(** The holders after a segment run by [self] that returned [r].  A locking
    call that returns success grants its lock to [self].  An unlock that
    returns success gives back the caller's write lock if it holds one,
    else one of its read locks.  An unlock that returns success to a thread
    that holds no lock is a misuse by the caller, and the execution is not
    followed further ([None]). *)
Definition rw_track (c : rw_call) (r : option Z) (self : option nat) (h : rw_holders)
    : option rw_holders :=
  if bool_decide (r = Some UTHREAD_SUCCESS) then
    if grants_read c then Some (mk_holders (self :: read_holders h) (write_holders h))
    else if grants_write c then Some (mk_holders (read_holders h) (self :: write_holders h))
    else if is_unlock c then
      if decide (self ∈ write_holders h)
      then Some (mk_holders (read_holders h) (release self (write_holders h)))
      else if decide (self ∈ read_holders h)
      then Some (mk_holders (release self (read_holders h)) (write_holders h))
      else None
    else Some h
  else Some h.

(** Running an execution in which every thread unlocks only what it holds:
    the lock at the end and its holders. *)
Fixpoint rw_run_held (tr : list (rw_call * scheduler_state Q)) (l : uthread_rwlock_t)
    (h : rw_holders) : option (uthread_rwlock_t * rw_holders) :=
  match tr with
  | [] => Some (l, h)
  | (c, g) :: rest =>
      let '(r, l') := rw_step c g l in
      h' ← rw_track c r (scheduler_current g) h;
      rw_run_held rest l' h'
  end.

(** The fields of a lock agree with its holders: [readers] and [writer]
    count them, a writer is alone and is the recorded owner. *)
Definition rw_agree (l : uthread_rwlock_t) (h : rw_holders) : Prop :=
  initialized l = true /\
  readers l = Z.of_nat (length (read_holders h)) /\
  writer l = Z.of_nat (length (write_holders h)) /\
  (write_holders h = [] \/
   write_holders h = [writer_owner l] /\ read_holders h = []).

End rw_executions.

End Rwlock.

(** The lock that [uthread_rwlock_init] sets up in the two-thread scenario
    (its wait queues are the first two allocated), and an execution on it
    by threads 1 and 2: each takes a read lock, thread 2 asks for the write
    lock and parks, thread 1 fails a trywrlock, both give their read locks
    back, thread 2 continues and takes the write lock, and thread 1 is
    refused a read lock. *)
Definition fresh_rwlock : Rwlock.uthread_rwlock_t :=
  Rwlock.mk_rwlock 0 0 None (Some 0%nat) (Some 1%nat) 0 true.

Definition thread_2_running : scheduler_state (list nat) :=
  set_current (Some 2%nat) two_threads.

Definition readers_then_writer : list (Rwlock.rw_call * scheduler_state (list nat)) :=
  [ (Rwlock.CallRdlock, two_threads); (Rwlock.CallTryrdlock, thread_2_running);
    (Rwlock.CallWrlock, thread_2_running); (Rwlock.CallTrywrlock, two_threads);
    (Rwlock.CallUnlock, two_threads); (Rwlock.CallUnlock, thread_2_running);
    (Rwlock.ResumeWrlock, thread_2_running); (Rwlock.CallTryrdlock, two_threads) ].

(** Thread 1 runs; threads 2 and 3 wait, in this order, on the condition
    variable whose wait queue is at address 10. *)
Definition two_waiters : scheduler_state (list nat) :=
  mk_sched (Some 1%nat)
    {[ 1%nat := blank_tcb 1 UTHREAD_STATE_RUNNING;
       2%nat := set_blocked_queue (Some 10%nat) (blank_tcb 2 UTHREAD_STATE_BLOCKED);
       3%nat := set_blocked_queue (Some 10%nat) (blank_tcb 3 UTHREAD_STATE_BLOCKED) ]}
    {[ 10%nat := [2%nat; 3%nat] ]} []
    (Some 1%nat :: Some 2%nat :: Some 3%nat :: replicate 1021 None) 3 4 3 true.

(** A recursive mutex that thread 1 has locked three times. *)
Definition mutex_at_11_depth_3 : Mutex.uthread_mutex_t :=
  Mutex.mk_mutex 1 (Some 1%nat) (Some 11%nat) Mutex.UTHREAD_MUTEX_RECURSIVE 3 true.

(** ** Executions of the whole library

    The timed waits are judged in the states the library can be in.  This
    part describes those states: what [uthread_init] sets up, and, one
    segment at a time, what the thread on the CPU can do to the scheduler
    state through the library until [uthread_shutdown]: the thread calls
    (create, join, detach, exit, yield, which is also all that
    [uthread_sleep] does, priority and nice value), the timer tick and the
    calls on mutexes, semaphores, condition variables and read-write
    locks.  A segment is one call, or the part of a blocking call between
    two context switches; segments are atomic (the library runs them with
    preemption disabled). *)

(** What sched_rr.c's queue, and any run queue that holds each ready thread
    once, gives its callers.  [rq_wf] is "no thread is linked twice". *)
Class run_queue_laws (Q : Type) `{scheduler_ops Q} := {
  rq_wf : Q -> Prop;
  rq_init_wf : rq_wf rq_init;
  rq_init_empty : forall t, ~ rq_queued rq_init t;
  rq_enqueue_wf : forall t q, rq_wf q -> ~ rq_queued q t -> rq_wf (rq_enqueue t q);
  rq_enqueue_in : forall t u q,
    rq_queued (rq_enqueue t q) u -> u = t \/ rq_queued q u;
  rq_dequeue_wf : forall q r q', rq_wf q -> rq_dequeue q = (r, q') -> rq_wf q';
  rq_dequeue_in : forall q r q' u,
    rq_dequeue q = (r, q') -> rq_queued q' u -> rq_queued q u;
  rq_dequeue_head : forall q t q',
    rq_wf q -> rq_dequeue q = (Some t, q') -> rq_queued q t /\ ~ rq_queued q' t;
  rq_remove_wf : forall t q, rq_wf q -> rq_wf (rq_remove t q);
  rq_remove_in : forall t u q, rq_queued (rq_remove t q) u -> rq_queued q u;
}.

Section library_executions.
Context {Q : Type} `{scheduler_ops Q}.

(** [scheduler_tick] (src/scheduler.c) on the scheduler state: nothing for
    the idle thread; otherwise, when [preempt] (what
    [preemption_enabled && ops->should_preempt(current)] answers after
    [ops->on_tick]) holds, the running thread is marked READY, queued, and
    [scheduler_schedule] runs. *)
Definition scheduler_tick (preempt : bool) (g : scheduler_state Q) : scheduler_state Q :=
  match current g with
  | None => g
  | Some c =>
      if decide (c = idle_thread) then g
      else if preempt then
        let g1 := update_tcb c (set_state UTHREAD_STATE_READY) g in
        scheduler_schedule (set_runq (rq_enqueue c (runq g1)) g1)
      else g
  end.

(** [uthread_setpriority] and [uthread_setnice] (src/uthread.c) on the
    control block of the thread.  Both end with [ops->update_priority],
    which moves the thread inside the run queue at most (round-robin
    ignores it): the run queue, a queue of any policy here, keeps its
    members. *)
Definition set_priority (p : Z) (t : uthread_internal) :=
  mk_tcb (tid t) (state t) (stack_base t) (stack_size t) (stack_guard t)
    (start_routine t) (arg t) (retval t) p (nice t) (weight t)
    (waiting_on t) (blocked_queue t) (detached t) (exited t) (joiner t).
Definition set_nice (n : Z) (t : uthread_internal) :=
  mk_tcb (tid t) (state t) (stack_base t) (stack_size t) (stack_guard t)
    (start_routine t) (arg t) (retval t) (priority t) n (nice_to_weight n)
    (waiting_on t) (blocked_queue t) (detached t) (exited t) (joiner t).

Definition uthread_setpriority (thread : option nat) (prio : Z) (g : scheduler_state Q)
    : Z * scheduler_state Q :=
  match thread with
  | None => (UTHREAD_EINVAL, g)
  | Some t =>
      if negb (initialized g) then (UTHREAD_EINVAL, g)
      else if decide (prio < UTHREAD_PRIORITY_MIN \/ prio > UTHREAD_PRIORITY_MAX)
      then (UTHREAD_EINVAL, g)
      else (UTHREAD_SUCCESS, update_tcb t (set_priority prio) g)
  end.

Definition uthread_setnice (thread : option nat) (ni : Z) (g : scheduler_state Q)
    : Z * scheduler_state Q :=
  match thread with
  | None => (UTHREAD_EINVAL, g)
  | Some t =>
      if negb (initialized g) then (UTHREAD_EINVAL, g)
      else if decide (ni < -20 \/ ni > 19) then (UTHREAD_EINVAL, g)
      else (UTHREAD_SUCCESS, update_tcb t (set_nice ni) g)
  end.

(** The scheduler state a segment leaves, whether it returned or parked. *)
Definition outcome_state {K S : Type} (o : outcome K (S * scheduler_state Q))
    : option (scheduler_state Q) :=
  match o with
  | Returned _ (_, g) | Suspended _ (_, g) => Some g
  | Crashed => None
  end.

End library_executions.

(** One segment of library code, with the object it is called on. *)
Inductive lib_call :=
| ThreadCall (c : thread_call)
| TimerTick (preempt : bool)
| SetPriority (thread : option nat) (prio : Z)
| SetNice (thread : option nat) (ni : Z)
| MutexInit (malloc_ok : bool) (attr : option Mutex.uthread_mutex_type_t)
| MutexLock (malloc_ok : bool) (m : Mutex.uthread_mutex_t)
| MutexContinue (m : Mutex.uthread_mutex_t)
| MutexTrylock (malloc_ok : bool) (m : Mutex.uthread_mutex_t)
| MutexUnlock (m : Mutex.uthread_mutex_t)
| MutexDestroy (m : Mutex.uthread_mutex_t)
| SemInit (malloc_ok : bool) (pshared v : Z)
| SemCall (c : Semaphore.sem_call) (s : Semaphore.uthread_sem_t)
| CondInit (malloc_ok : bool)
| CondDestroy (c : Condvar.uthread_cond_t)
| CondCall (seg : Condvar.cond_segment) (c : Condvar.uthread_cond_t)
    (m : Mutex.uthread_mutex_t)
| CondSignal (malloc_ok : bool) (c : Condvar.uthread_cond_t)
| CondBroadcast (malloc_ok : bool) (c : Condvar.uthread_cond_t)
| RwInit (ok1 ok2 : bool) (l : Rwlock.uthread_rwlock_t)
| RwCall (ok1 ok2 : bool) (c : Rwlock.rw_call) (l : Rwlock.uthread_rwlock_t).

Section library_runs.
Context {Q : Type} `{scheduler_ops Q}.

Definition sem_call_state (c : Semaphore.sem_call) (s : Semaphore.uthread_sem_t)
    (g : scheduler_state Q) : option (scheduler_state Q) :=
  match c with
  | Semaphore.CallPost => Some (snd (Semaphore.uthread_sem_post (Some s) g))
  | Semaphore.CallWait => outcome_state (Semaphore.uthread_sem_wait (Some s) g)
  | Semaphore.ResumeWait => outcome_state (Semaphore.sem_wait_loop s g)
  | Semaphore.CallTrywait => Some (snd (Semaphore.uthread_sem_trywait (Some s) g))
  | Semaphore.CallTimedwait abstime now =>
      outcome_state (Semaphore.uthread_sem_timedwait (Some s) abstime now g)
  | Semaphore.ResumeTimedwait d now1 now2 =>
      outcome_state (Semaphore.sem_timedwait_resume d now1 now2 s g)
  | Semaphore.CallGetvalue => Some g
  | Semaphore.CallDestroy => Some (snd (Semaphore.uthread_sem_destroy (Some s) g))
  end.

Definition rw_call_state (ok1 ok2 : bool) (c : Rwlock.rw_call)
    (l : Rwlock.uthread_rwlock_t) (g : scheduler_state Q) : option (scheduler_state Q) :=
  match c with
  | Rwlock.CallRdlock => outcome_state (Rwlock.uthread_rwlock_rdlock ok1 ok2 (Some l) g)
  | Rwlock.ResumeRdlock => outcome_state (Rwlock.rdlock_loop l g)
  | Rwlock.CallTryrdlock => Some (snd (Rwlock.uthread_rwlock_tryrdlock ok1 ok2 (Some l) g))
  | Rwlock.CallWrlock => outcome_state (Rwlock.uthread_rwlock_wrlock ok1 ok2 (Some l) g)
  | Rwlock.ResumeWrlock => outcome_state (Rwlock.wrlock_loop l g)
  | Rwlock.CallTrywrlock => Some (snd (Rwlock.uthread_rwlock_trywrlock ok1 ok2 (Some l) g))
  | Rwlock.CallUnlock => Some (snd (Rwlock.uthread_rwlock_unlock (Some l) g))
  | Rwlock.CallDestroy => Some (snd (Rwlock.uthread_rwlock_destroy (Some l) g))
  end.

(** The scheduler state a segment leaves; [None] when the process ends in
    it (a failed assertion, a dangling pointer, [exit]). *)
Definition lib_step (c : lib_call) (g : scheduler_state Q) : option (scheduler_state Q) :=
  match c with
  | ThreadCall c => thread_step c g
  | TimerTick p => Some (scheduler_tick p g)
  | SetPriority thread prio => Some (snd (uthread_setpriority thread prio g))
  | SetNice thread ni => Some (snd (uthread_setnice thread ni g))
  | MutexInit ok attr => Some (snd (Mutex.uthread_mutex_init ok attr g))
  | MutexLock ok m => outcome_state (Mutex.uthread_mutex_lock ok (Some m) g)
  | MutexContinue m => outcome_state (Mutex.mutex_lock_loop m g)
  | MutexTrylock ok m => Some (snd (Mutex.uthread_mutex_trylock ok (Some m) g))
  | MutexUnlock m => Some (snd (Mutex.uthread_mutex_unlock (Some m) g))
  | MutexDestroy m => Some (snd (Mutex.uthread_mutex_destroy (Some m) g))
  | SemInit ok p v => Some (snd (Semaphore.uthread_sem_init ok p v g))
  | SemCall c s => sem_call_state c s g
  | CondInit ok => Some (snd (Condvar.uthread_cond_init ok g))
  | CondDestroy c => Some (snd (Condvar.uthread_cond_destroy (Some c) g))
  | CondCall seg c m => outcome_state (Condvar.run_cond_segment seg (Some c) (Some m) g)
  | CondSignal ok c => Some (snd (Condvar.uthread_cond_signal ok (Some c) g))
  | CondBroadcast ok c => Some (snd (Condvar.uthread_cond_broadcast ok (Some c) g))
  | RwInit ok1 ok2 l => Some (snd (Rwlock.uthread_rwlock_init ok1 ok2 (Some l) g))
  | RwCall ok1 ok2 c l => rw_call_state ok1 ok2 c l g
  end.

(** The wait queue of a mutex and that of a condition variable are two
    allocations: when a wait on a condition variable is entered, the
    mutex's queue, if it has one, is an allocated queue and is not the
    condition variable's. *)
Definition separate_queues (c : lib_call) (g : scheduler_state Q) : bool :=
  match c with
  | CondCall seg c m =>
      negb (Condvar.is_entry seg) ||
      match Mutex.waiters m with
      | Some b => bool_decide (b ∈ dom (wqs g) /\ Condvar.waiters c <> Some b)
      | None => true
      end
  | _ => true
  end.

(** Running an execution: the state after its last segment, as long as the
    process lives ([alive]: no context switch went into the idle thread). *)
Fixpoint lib_run (tr : list lib_call) (g : scheduler_state Q)
    : option (scheduler_state Q) :=
  match tr with
  | [] => Some g
  | c :: rest =>
      if separate_queues c g then
        g' ← lib_step c g;
        if alive g' then lib_run rest g' else None
      else None
  end.

(** What a successful [uthread_init] leaves (src/uthread.c): the main
    thread, whose control block is not the idle thread's, is the only
    thread and is the running thread; it has not exited, has no joiner and
    waits in no queue; the run queue is empty.  [uthread_init] does not
    touch wait queues: those that were allocated before it, if any, are
    taken to be empty (no thread existed). *)
Definition after_uthread_init (g : scheduler_state Q) : Prop :=
  exists main c,
    main <> idle_thread /\ current g = Some main /\ tcbs g = {[ main := c ]} /\
    exited c = false /\ joiner c = None /\ blocked_queue c = None /\
    (forall a, wq_threads a g = []) /\ runq g = rq_init /\ initialized g = true.

(** *** Where a thread can be

    A thread is on the CPU, in the run queue, in a wait queue, or parked in
    [uthread_join] as the joiner of a thread that has not exited. *)
Definition live_tcb (g : scheduler_state Q) (t : nat) : Prop :=
  exists c, tcbs g !! t = Some c /\ exited c = false.

Definition waiting (g : scheduler_state Q) (t : nat) : Prop :=
  exists a, t ∈ wq_threads a g.

(** Thread [t] is recorded as the joiner of thread [T], which has not
    exited. *)
Definition joins (g : scheduler_state Q) (T t : nat) : Prop :=
  exists c, tcbs g !! T = Some c /\ exited c = false /\ joiner c = Some t.

Definition joining (g : scheduler_state Q) (t : nat) : Prop :=
  exists T, joins g T t.

(** The invariant of the scheduler state, with [X] the thread counted as
    being on the CPU: every thread that is somewhere has a control block
    and has not exited, is in one place only and there once, and a thread
    on the CPU, in the run queue or parked in a join is not linked into a
    wait queue. *)
Record places_ok `{!run_queue_laws Q} (X : option nat) (g : scheduler_state Q) : Prop := {
  po_wf : rq_wf (runq g);
  po_cpu_tcb : forall t, X = Some t -> live_tcb g t;
  po_cpu_unlinked : forall t, X = Some t -> tcb_blocked_queue t g = None;
  po_cpu_not_queued : forall t, X = Some t -> ~ rq_queued (runq g) t;
  po_rq_tcb : forall t, rq_queued (runq g) t -> live_tcb g t;
  po_rq_unlinked : forall t, rq_queued (runq g) t -> tcb_blocked_queue t g = None;
  po_wq_tcb : forall a t, t ∈ wq_threads a g -> live_tcb g t;
  po_wq_excl : forall a t, t ∈ wq_threads a g -> X <> Some t /\ ~ rq_queued (runq g) t;
  po_wq_nodup : forall a, NoDup (wq_threads a g);
  po_wq_one : forall a b t, t ∈ wq_threads a g -> t ∈ wq_threads b g -> a = b;
  po_join_tcb : forall t, joining g t -> live_tcb g t;
  po_join_excl : forall t, joining g t ->
    X <> Some t /\ ~ rq_queued (runq g) t /\ ~ waiting g t;
  po_join_unlinked : forall t, joining g t -> tcb_blocked_queue t g = None;
  po_join_one : forall T1 T2 t, joins g T1 t -> joins g T2 t -> T1 = T2;
}.

(** A thread that has a live control block and is in none of the places:
    a thread that was just created, or a joiner whose target has just
    exited. *)
Definition nowhere (g : scheduler_state Q) (t : nat) : Prop :=
  live_tcb g t /\ tcb_blocked_queue t g = None /\ ~ rq_queued (runq g) t /\
  ~ waiting g t /\ ~ joining g t.

(** The invariant of the states between two segments. *)
Definition sched_inv `{!run_queue_laws Q} (g : scheduler_state Q) : Prop :=
  places_ok (current g) g.

(** A field update that leaves [exited], [joiner] and [blocked_queue]
    alone. *)
Definition keeps_places (f : uthread_internal -> uthread_internal) : Prop :=
  forall c, exited (f c) = exited c /\ joiner (f c) = joiner c /\
            blocked_queue (f c) = blocked_queue c.

(** The segments of a timed wait that find the time-out after the thread
    has been linked into the wait queue: the check after
    [scheduler_schedule] in [uthread_sem_timedwait], and the wait loop of
    [uthread_cond_timedwait]. *)
Definition checks_after_linking (c : timed_call) : bool :=
  match c with
  | SemTimedwaitResume _ d now1 _ => bool_decide (now1 >= d)
  | CondTimedwait _ _ _ _ _ => true
  | CondTimedwaitResume (Condvar.TimedLoop _) _ _ _ => true
  | _ => false
  end.

End library_runs.

(** A state that no execution of the library reaches, for trying the
    check made after [scheduler_schedule]: thread 1 is on the CPU and still
    linked into the wait queue at address 10. *)
Definition linked_and_running : scheduler_state (list nat) :=
  mk_sched (Some 1%nat)
    {[ 1%nat := set_blocked_queue (Some 10%nat) (blank_tcb 1 UTHREAD_STATE_RUNNING);
       2%nat := blank_tcb 2 UTHREAD_STATE_READY ]}
    {[ 10%nat := [1%nat] ]} [2%nat]
    (Some 1%nat :: Some 2%nat :: replicate 1022 None) 2 3 2 true.

Definition sem_at_10 : Semaphore.uthread_sem_t := Semaphore.mk_sem 0 (Some 10%nat) true.

(** An execution from [uthread_init] on, under round-robin: main (thread
    1) creates thread 2, sets up a semaphore with value 0 (its wait queue
    is the first allocation, address 0) and waits on it with the deadline
    "1 s"; it parks, thread 2 runs, posts the semaphore, which wakes main,
    and yields.  Main then continues in [uthread_sem_timedwait]. *)
Definition sem_at_0 (v : Z) : Semaphore.uthread_sem_t := Semaphore.mk_sem v (Some 0%nat) true.

Definition wait_post_yield : list lib_call :=
  [ ThreadCall (CallCreate mmap_succeeds None (Some (fun x => x + 1)) 41);
    SemInit true 0 0;
    SemCall (Semaphore.CallTimedwait (Some one_second) 0) (sem_at_0 0);
    SemCall Semaphore.CallPost (sem_at_0 0);
    ThreadCall CallYield ].

(** * Part II: properties *)

(** ** Mutex (src/mutex.c) *)

Section mutex_properties.
Context {Q : Type} `{scheduler_ops Q}.
Import Mutex.

Lemma ensure_waiters_held (malloc_ok : bool) (m m' : uthread_mutex_t)
    (g g' : scheduler_state Q) :
  ensure_waiters malloc_ok m g = Some (m', g') ->
  lock m' = lock m /\ owner m' = owner m /\ type m' = type m /\
  recursion_count m' = recursion_count m /\ current g' = current g.
Proof.
  unfold ensure_waiters, malloc_wait_queue.
  destruct (initialized m); [intros [= <- <-]; auto |].
  destruct malloc_ok; [intros [= <- <-]; auto | discriminate].
Qed.

(** Whoever acquires a mutex through lock or trylock leaves it set up. *)
Lemma trylock_success_initialized (malloc_ok : bool) (m m' : uthread_mutex_t)
    (g g' : scheduler_state Q) :
  uthread_mutex_trylock malloc_ok (Some m) g = (UTHREAD_SUCCESS, Some m', g') ->
  initialized m' = true.
Proof.
  unfold uthread_mutex_trylock, ensure_waiters, malloc_wait_queue.
  intros Hret. destruct (initialized m) eqn:Hi, malloc_ok;
    repeat (case_decide || case_match); simplify_eq; simpl; auto.
Qed.

(** C10: on an ERRORCHECK mutex that the caller already owns,
    [uthread_mutex_trylock] returns "busy" (EBUSY, code 16), where
    [uthread_mutex_lock] returns "would deadlock" (EDEADLK, code 35) on the
    same mutex; the owner, the lock flag and the recursion count are left as
    they were.  (The mutex is set up, as every mutex acquired through the
    API is, or its lazy set-up succeeds.) *)
Theorem trylock_errorcheck_owner_busy (malloc_ok : bool) (m : uthread_mutex_t)
    (g : scheduler_state Q) (self : nat) :
  scheduler_current g = Some self ->
  owner m = Some self ->
  type m = UTHREAD_MUTEX_ERRORCHECK ->
  initialized m = true \/ malloc_ok = true ->
  exists m' g',
    uthread_mutex_trylock malloc_ok (Some m) g = (UTHREAD_EBUSY, Some m', g') /\
    owner m' = owner m /\ lock m' = lock m /\
    recursion_count m' = recursion_count m /\
    (initialized m = true -> m' = m /\ g' = g) /\
    uthread_mutex_lock malloc_ok (Some m) g = Returned UTHREAD_EDEADLK (Some m', g') /\
    UTHREAD_EBUSY <> UTHREAD_EDEADLK.
Proof.
  intros Hcur Hown Hty Hinit.
  destruct (ensure_waiters malloc_ok m g) as [[m1 g1]|] eqn:Hens.
  - destruct (ensure_waiters_held _ _ _ _ _ Hens) as (Hl & Ho & Ht & Hr & Hc).
    exists m1, g1.
    unfold uthread_mutex_trylock, uthread_mutex_lock, scheduler_current.
    rewrite Hens, Ht, Hty, Ho, Hown, Hc.
    unfold scheduler_current in Hcur. rewrite Hcur.
    rewrite !decide_True by reflexivity.
    assert (initialized m = true -> m1 = m /\ g1 = g) as Hsame.
    { intros Hi. unfold ensure_waiters in Hens. rewrite Hi in Hens.
      split; congruence. }
    split; [reflexivity |]. do 3 (split; [congruence |]).
    split; [exact Hsame |]. split; [reflexivity | discriminate].
  - exfalso. unfold ensure_waiters, malloc_wait_queue in Hens.
    destruct Hinit as [Hi | ->]; [rewrite Hi in Hens |]; [discriminate |].
    destruct (initialized m); discriminate.
Qed.

End mutex_properties.


(** C10, at a concrete mutex. *)
Lemma trylock_errorcheck_owner_busy_witness :
  exists m' g',
    Mutex.uthread_mutex_trylock false
      (Some (Mutex.mk_mutex 1 (Some 1%nat) None Mutex.UTHREAD_MUTEX_ERRORCHECK 1 true))
      two_threads = (UTHREAD_EBUSY, Some m', g') /\
    Mutex.owner m' = Some 1%nat /\ Mutex.lock m' = 1 /\
    Mutex.recursion_count m' = 1.
Proof.
  destruct (trylock_errorcheck_owner_busy false
    (Mutex.mk_mutex 1 (Some 1%nat) None Mutex.UTHREAD_MUTEX_ERRORCHECK 1 true)
    two_threads 1%nat) as (m' & g' & H1 & H2 & H3 & H4 & _);
    [reflexivity | reflexivity | reflexivity | left; reflexivity |].
  exists m', g'. repeat split; assumption.
Defined.

(** C1 (the code departs from the claim): a RECURSIVE mutex locked twice by
    thread 1 is held by thread 1 with recursion count 2; a single
    [uthread_mutex_unlock] by thread 2, which does not own it, succeeds and
    leaves it free: lock flag 0, no owner, recursion count 0. *)
Theorem recursive_unlock_by_non_owner_releases :
  let '(m, g) := locked_twice_by_1 in
  (Mutex.lock <$> m) = Some 1 /\
  (Mutex.owner <$> m) = Some (Some 1%nat) /\
  (Mutex.recursion_count <$> m) = Some 2 /\
  (Mutex.type <$> m) = Some Mutex.UTHREAD_MUTEX_RECURSIVE /\
  let '(ret, m', _) := Mutex.uthread_mutex_unlock m (set_current (Some 2%nat) g) in
  ret = UTHREAD_SUCCESS /\
  (Mutex.lock <$> m') = Some 0 /\
  (Mutex.owner <$> m') = Some None /\
  (Mutex.recursion_count <$> m') = Some 0.
Proof. vm_compute. repeat split. Qed.

(** ** Thread creation (src/uthread.c) *)

Section create_properties.
Context {Q : Type} `{scheduler_ops Q}.

Lemma thread_setup_stack_size (o : alloc_oracle) (size : Z) (c c' : uthread_internal) :
  thread_setup_stack o size c = (UTHREAD_SUCCESS, c') -> stack_size c' = size.
Proof.
  unfold thread_setup_stack.
  destruct (mmap_region o), (mprotect_ok o), (aligned_alloc_ptr o);
    intros [= <-]; reflexivity.
Qed.

Lemma scheduler_add_thread_tcbs (p : option nat) (g g' : scheduler_state Q) :
  scheduler_add_thread p g = Some g' -> tcbs g' = tcbs g.
Proof.
  unfold scheduler_add_thread. destruct p; [| congruence].
  destruct (find_slot None (all_threads g)); [| discriminate].
  intros [= <-]. reflexivity.
Qed.

(** The part of the stack-size contract that [uthread_create] keeps: a
    created thread's stack is the attribute's size when that is at least
    16 KiB, the 64 KiB default otherwise (in particular for a NULL
    attribute), hence never below 16 KiB. *)
Lemma uthread_create_stack_size (o : alloc_oracle) (out : bool)
    (attr : option uthread_attr_t) (start : option (Z -> Z)) (a : Z)
    (g g' : scheduler_state Q) (t : nat) :
  uthread_create o out attr start a g = Some (UTHREAD_SUCCESS, Some t, g') ->
  exists c, tcbs g' !! t = Some c /\
    stack_size c =
      match attr with
      | Some atr =>
          if decide (attr_stack_size atr >= UTHREAD_STACK_MIN)
          then attr_stack_size atr else UTHREAD_STACK_DEFAULT
      | None => UTHREAD_STACK_DEFAULT
      end /\
    stack_size c >= UTHREAD_STACK_MIN.
Proof.
  unfold uthread_create. intros Hc.
  destruct (negb (initialized g)); [discriminate |].
  destruct (negb out || negb (is_Some_b start)); [discriminate |].
  destruct (thread_alloc (calloc_ok o) g) as [[t0|] g0]; [| discriminate].
  match type of Hc with
  | match tcbs ?G !! t0 with _ => _ end = _ => destruct (tcbs G !! t0) as [c0|]; [| discriminate]
  end.
  match type of Hc with
  | match thread_setup_stack o ?S c0 with _ => _ end = _ =>
      destruct (thread_setup_stack o S c0) as [r c1] eqn:Hs
  end.
  destruct r; try discriminate.
  apply thread_setup_stack_size in Hs.
  destruct (context_init _); [| discriminate].
  destruct (scheduler_add_thread _ _) as [g1|] eqn:Hadd; [| discriminate].
  apply scheduler_add_thread_tcbs in Hadd. simpl in Hadd.
  injection Hc as <- <-. simpl. rewrite Hadd, lookup_insert_eq.
  eexists; split; [reflexivity |]. simpl. rewrite Hs.
  split; [reflexivity |].
  destruct attr as [atr|]; [case_decide |]; unfold UTHREAD_STACK_DEFAULT, UTHREAD_STACK_MIN in *; lia.
Qed.

End create_properties.


(** C9 (the code departs from the claim): [uthread_attr_setstacksize]
    rejects 16 MiB, but [uthread_create] given an attribute structure whose
    [stack_size] is 16 MiB succeeds and creates a thread whose stack is
    16 MiB, above the 8 MiB limit; only the lower bound is checked there. *)
Theorem create_accepts_oversized_stack :
  fst (uthread_attr_setstacksize (Some (snd uthread_attr_init)) (16 * 1024 * 1024))
    = UTHREAD_EINVAL /\
  match uthread_create mmap_succeeds true (Some oversized_attr)
          (Some (fun x => x)) 0 two_threads with
  | Some (ret, Some t, g) =>
      ret = UTHREAD_SUCCESS /\
      (stack_size <$> tcbs g !! t) = Some (16 * 1024 * 1024) /\
      16 * 1024 * 1024 > UTHREAD_STACK_MAX
  | _ => False
  end.
Proof. vm_compute. repeat split. Qed.

(** ** Fair-share preemption test (src/sched_cfs.c) *)

(** What [cfs_should_preempt] computes: with the slice used up, whether the
    tree counts any thread; otherwise whether the 64-bit unsigned
    difference [current->vruntime - leftmost->vruntime] exceeds 1 ms. *)
Lemma cfs_should_preempt_spec (c : nat) (s : Cfs.sched_cfs_state) (nc : Cfs.rb_node) :
  Cfs.nodes s !! c = Some nc ->
  Cfs.cfs_should_preempt (Some c) s =
    if decide (Cfs.timeslice_remaining nc = 0) then Some (bool_decide (Cfs.count s > 0))
    else
      match Cfs.rb_leftmost s with
      | None => Some false
      | Some lm =>
          nl ← Cfs.nodes s !! lm;
          Some (bool_decide
                  (wrap_u64 (Cfs.vruntime nc - Cfs.vruntime nl) > CFS_MIN_GRANULARITY_NS))
      end.
Proof. intros Hc. unfold Cfs.cfs_should_preempt. rewrite Hc. reflexivity. Qed.

(** When the leftmost thread is ahead of the running one (its virtual
    runtime is larger, by less than 2^64 - 10^6), the unsigned difference
    wraps around and the test answers "preempt". *)
Lemma cfs_should_preempt_wraps (c lm : nat) (s : Cfs.sched_cfs_state)
    (nc nl : Cfs.rb_node) :
  Cfs.nodes s !! c = Some nc ->
  Cfs.rb_leftmost s = Some lm ->
  Cfs.nodes s !! lm = Some nl ->
  Cfs.timeslice_remaining nc <> 0 ->
  0 < Cfs.vruntime nl - Cfs.vruntime nc < 2 ^ 64 - CFS_MIN_GRANULARITY_NS ->
  Cfs.cfs_should_preempt (Some c) s = Some true.
Proof.
  intros Hc Hlm Hl Hts Hgap.
  rewrite (cfs_should_preempt_spec _ _ _ Hc), Hlm, decide_False by assumption.
  simpl. rewrite Hl. simpl. f_equal. apply bool_decide_eq_true.
  unfold wrap_u64, CFS_MIN_GRANULARITY_NS in *.
  replace (Cfs.vruntime nc - Cfs.vruntime nl)
    with ((2 ^ 64 - (Cfs.vruntime nl - Cfs.vruntime nc)) + (-1) * 2 ^ 64) by lia.
  rewrite Z.mod_add by lia. rewrite Z.mod_small; lia.
Qed.

(** C3 (the code departs from the claim): the running thread has virtual
    runtime 1000 and 5 ms of its slice left; the leftmost queued thread has
    virtual runtime 2000, which is not below 1000.  [cfs_should_preempt]
    answers true: the difference 1000 - 2000 is taken over 64-bit unsigned
    integers and wraps to 2^64 - 1000, which exceeds MIN_GRANULARITY. *)
Theorem cfs_should_preempt_leftmost_ahead :
  (Cfs.timeslice_remaining <$> Cfs.nodes running_behind !! 1%nat) = Some 5000000 /\
  (Cfs.vruntime <$> Cfs.nodes running_behind !! 1%nat) = Some 1000 /\
  Cfs.rb_leftmost running_behind = Some 2%nat /\
  (Cfs.vruntime <$> Cfs.nodes running_behind !! 2%nat) = Some 2000 /\
  Cfs.cfs_should_preempt (Some 1%nat) running_behind = Some true.
Proof. vm_compute. repeat split. Qed.

(** ** Semaphore accounting (src/semaphore.c) *)

Lemma wrap_int_add (a b : Z) : wrap_int (wrap_int a + b) = wrap_int (a + b).
Proof.
  unfold wrap_int.
  replace ((a + 2 ^ 31) mod 2 ^ 32 - 2 ^ 31 + b + 2 ^ 31)
    with ((a + 2 ^ 31) mod 2 ^ 32 + b) by lia.
  rewrite Zplus_mod_idemp_l. f_equal. f_equal. lia.
Qed.

Lemma wrap_int_small (a : Z) : INT_MIN <= a <= INT_MAX -> wrap_int a = a.
Proof.
  unfold wrap_int, INT_MIN, INT_MAX. intros Ha.
  rewrite Z.mod_small; lia.
Qed.

Section semaphore_properties.
Context {Q : Type} `{scheduler_ops Q}.
Import Semaphore.

(** Each segment moves the stored value by one step of the count: up by one
    for a post that returns success, down by one for a wait, trywait or
    timedwait that returns success, and not at all otherwise. *)
Lemma sem_step_value (c : sem_call) (g : scheduler_state Q) (s : uthread_sem_t)
    (x : Z) :
  value s = wrap_int x ->
  let '(r, s') := sem_step c g s in
  let ok := bool_decide (r = Some UTHREAD_SUCCESS) in
  value s' =
    wrap_int (x + (if ok && is_post c then 1 else 0)
                - (if ok && is_wait c then 1 else 0)).
Proof.
  intros Hv.
  assert (wrap_int (value s + 1) = wrap_int (x + 1 - 0)) as Hup.
  { rewrite Hv, wrap_int_add. f_equal. lia. }
  assert (wrap_int (value s - 1) = wrap_int (x + 0 - 1)) as Hdown.
  { unfold Z.sub at 1. rewrite Hv, wrap_int_add. f_equal. lia. }
  assert (value s = wrap_int (x + 0 - 0)) as Hsame.
  { rewrite Hv. f_equal. lia. }
  destruct c; unfold sem_step, uthread_sem_post, uthread_sem_wait, sem_wait_loop,
    uthread_sem_trywait, uthread_sem_timedwait, sem_timedwait_resume,
    sem_timedwait_loop, uthread_sem_getvalue, uthread_sem_destroy;
    repeat (case_decide || case_match); simplify_eq; simpl; try assumption;
    try discriminate.
Qed.

Lemma sem_run_value (tr : list (sem_call * scheduler_state Q)) (s : uthread_sem_t)
    (x : Z) :
  value s = wrap_int x ->
  let '(s', posts, waits) := sem_run tr s in
  value s' = wrap_int (x + posts - waits).
Proof.
  revert s x. induction tr as [| [c g] rest IH]; intros s x Hv; simpl.
  - rewrite Hv. f_equal. lia.
  - pose proof (sem_step_value c g s x Hv) as Hstep.
    destruct (sem_step c g s) as [r s1]. simpl in Hstep.
    specialize (IH s1 _ Hstep).
    destruct (sem_run rest s1) as [[s2 posts] waits].
    rewrite IH. f_equal. lia.
Qed.

Lemma uthread_sem_init_value (malloc_ok : bool) (v0 : Z) (g0 g1 : scheduler_state Q)
    (sem : uthread_sem_t) :
  uthread_sem_init malloc_ok 0 v0 g0 = (UTHREAD_SUCCESS, Some sem, g1) ->
  value sem = wrap_int v0.
Proof.
  unfold uthread_sem_init. rewrite decide_False by lia.
  destruct (malloc_wait_queue malloc_ok g0) as [[a|] g]; intros [= <- <-]; reflexivity.
Qed.

(** C8, amended: for a semaphore initialised with [v0], after any execution
    with [posts] posts that returned success and [waits] waits (wait,
    trywait or timedwait) that returned success, the stored value, which is
    what a successful [uthread_sem_getvalue] stores, is [v0 + posts - waits]
    reduced to the range of a C [int]; it is [v0 + posts - waits] itself
    whenever that number fits an [int]. *)
Theorem sem_accounting (malloc_ok : bool) (v0 : Z)
    (tr : list (sem_call * scheduler_state Q)) (g0 g1 : scheduler_state Q)
    (sem : uthread_sem_t) :
  uthread_sem_init malloc_ok 0 v0 g0 = (UTHREAD_SUCCESS, Some sem, g1) ->
  let '(s', posts, waits) := sem_run tr sem in
  value s' = wrap_int (v0 + posts - waits) /\
  (forall r v, uthread_sem_getvalue (Some s') true = (r, Some v) ->
     r = UTHREAD_SUCCESS /\ v = wrap_int (v0 + posts - waits)) /\
  (INT_MIN <= v0 + posts - waits <= INT_MAX ->
   value s' = v0 + posts - waits /\
   forall r v, uthread_sem_getvalue (Some s') true = (r, Some v) ->
     v = v0 + posts - waits).
Proof.
  intros Hinit. apply uthread_sem_init_value in Hinit.
  pose proof (sem_run_value tr sem v0 Hinit) as Hrun.
  destruct (sem_run tr sem) as [[s' posts] waits].
  assert (forall r v, uthread_sem_getvalue (Some s') true = (r, Some v) ->
            r = UTHREAD_SUCCESS /\ v = wrap_int (v0 + posts - waits)) as Hget.
  { intros r v. unfold uthread_sem_getvalue. simpl.
    destruct (initialized s'); simpl; [| discriminate].
    intros [= <- <-]. split; [reflexivity | exact Hrun]. }
  split; [exact Hrun |]. split; [exact Hget |].
  intros Hrange. pose proof (wrap_int_small _ Hrange) as Hs.
  split; [congruence |]. intros r v Hg. destruct (Hget r v Hg) as [_ ->]. exact Hs.
Qed.

End semaphore_properties.

(** C8 at a concrete execution: a semaphore initialised with 2; thread 1
    posts, waits twice, tries once more, and posts again: 2 + 2 - 3 = 1. *)
Lemma sem_accounting_witness :
  exists sem g1,
    Semaphore.uthread_sem_init true 0 2 two_threads = (UTHREAD_SUCCESS, Some sem, g1) /\
    let tr := [(Semaphore.CallPost, g1); (Semaphore.CallWait, g1);
               (Semaphore.CallWait, g1); (Semaphore.CallTrywait, g1);
               (Semaphore.CallPost, g1)] in
    snd (fst (Semaphore.sem_run tr sem)) = 2 /\
    snd (Semaphore.sem_run tr sem) = 3 /\
    Semaphore.value (fst (fst (Semaphore.sem_run tr sem))) = 1.
Proof.
  destruct (Semaphore.uthread_sem_init true 0 2 two_threads) as [[r sem] g1] eqn:Hinit.
  vm_compute in Hinit. injection Hinit as <- <- <-.
  eexists _, _. split; [reflexivity |]. intros tr.
  pose proof (sem_accounting true 2 tr two_threads _ _ eq_refl) as Hacc.
  destruct (Semaphore.sem_run tr _) as [[s' posts] waits] eqn:Hrun.
  vm_compute in Hrun. injection Hrun as <- <- <-.
  destruct Hacc as (Hv & _). split; [reflexivity |]. split; [reflexivity |].
  simpl. etransitivity; [exact Hv | reflexivity].
Defined.

(** C8 as stated fails: initialised with 2^31, which an [unsigned int]
    holds, the semaphore stores [(int)2^31 = -2^31], and that is what
    [uthread_sem_getvalue] reports before any post or wait. *)
Lemma sem_accounting_counterexample : ~ sem_accounting_as_stated.
Proof.
  intros Hclaim.
  specialize (Hclaim (2 ^ 31) [] two_threads).
  destruct (Semaphore.uthread_sem_init true 0 (2 ^ 31) two_threads)
    as [[r sem] g1] eqn:Hinit.
  vm_compute in Hinit. injection Hinit as <- <- <-.
  specialize (Hclaim _ _ ltac:(lia) eq_refl). simpl in Hclaim.
  specialize (Hclaim UTHREAD_SUCCESS (- 2 ^ 31) eq_refl). lia.
Qed.

(** ** Condition variables (src/condvar.c) *)

Section condvar_properties.
Context {Q : Type} `{scheduler_ops Q}.
Import Condvar.

Lemma ensure_cond_current (malloc_ok : bool) (c c' : uthread_cond_t)
    (g g' : scheduler_state Q) :
  ensure_cond malloc_ok c g = Some (c', g') -> current g' = current g.
Proof.
  unfold ensure_cond, malloc_wait_queue.
  destruct (initialized c); [intros [= <- <-]; reflexivity |].
  destruct malloc_ok; [intros [= <- <-]; reflexivity | discriminate].
Qed.

(** Taking the mutex back: the only way out of the last loop is with the
    mutex locked by the waiter. *)
Lemma cond_reacquire_returns (result : Z) (self : nat) (c : option uthread_cond_t)
    (m : Mutex.uthread_mutex_t) (g : scheduler_state Q) (ret : Z)
    (c' : option uthread_cond_t) (m' : option Mutex.uthread_mutex_t)
    (g' : scheduler_state Q) :
  cond_reacquire result self c m g = Returned ret (c', m', g') ->
  ret = result /\ g' = g /\ held_by self m'.
Proof.
  unfold cond_reacquire. case_decide; [discriminate |].
  intros [= <- <- <- <-]. repeat split. eexists; split; [reflexivity |]. auto.
Qed.

Lemma cond_timed_loop_returns (deadline now : Z) (self : nat) (c : uthread_cond_t)
    (m : Mutex.uthread_mutex_t) (g : scheduler_state Q) (ret : Z)
    (c' : option uthread_cond_t) (m' : option Mutex.uthread_mutex_t)
    (g' : scheduler_state Q) :
  cond_timed_loop deadline now self c m g = Returned ret (c', m', g') ->
  held_by self m' /\ c' = Some c /\
  (ret = UTHREAD_SUCCESS /\ g' = g \/
   ret = UTHREAD_ETIMEDOUT /\
   g' = snd (wait_queue_remove_specific (waiters c) (Some self) g)).
Proof.
  unfold cond_timed_loop. repeat case_decide; try discriminate; intros Hr.
  - pose proof Hr as Hr'. apply cond_reacquire_returns in Hr as (-> & -> & Hh).
    unfold cond_reacquire in Hr'. case_decide; [discriminate |].
    injection Hr' as <-. auto.
  - pose proof Hr as Hr'. apply cond_reacquire_returns in Hr as (-> & -> & Hh).
    unfold cond_reacquire in Hr'. case_decide; [discriminate |].
    injection Hr' as <-. auto.
Qed.

(** C4: under the precondition that the mutex is held by the caller when
    [uthread_cond_wait] or [uthread_cond_timedwait] is entered, every
    return from either call -- with success, with "timed out", or with an
    error code, from the entry segment or after any number of suspensions --
    leaves the mutex locked with the calling thread as its owner. *)
Theorem cond_wait_returns_holding_mutex (seg : cond_segment) (self : nat)
    (cond : option uthread_cond_t) (mutex : option Mutex.uthread_mutex_t)
    (g : scheduler_state Q) (ret : Z) (cond' : option uthread_cond_t)
    (mutex' : option Mutex.uthread_mutex_t) (g' : scheduler_state Q) :
  scheduler_current g = Some self ->
  (is_entry seg = true -> held_by self mutex) ->
  run_cond_segment seg cond mutex g = Returned ret (cond', mutex', g') ->
  held_by self mutex'.
Proof.
  intros Hcur Hheld Hrun. destruct seg as [ok | ok abstime now | k now]; simpl in *.
  - specialize (Hheld eq_refl). unfold uthread_cond_wait in Hrun.
    destruct cond as [c0|], mutex as [m|]; try (injection Hrun as <- <- <- <-; exact Hheld).
    destruct (ensure_cond ok c0 g) as [[c g1]|] eqn:Hens.
    + unfold scheduler_current in *.
      rewrite <- (ensure_cond_current _ _ _ _ _ Hens) in Hcur. rewrite Hcur in Hrun.
      destruct (cond_enqueue_release self c m g1). discriminate.
    + injection Hrun as <- <- <- <-. exact Hheld.
  - specialize (Hheld eq_refl). unfold uthread_cond_timedwait in Hrun.
    destruct cond as [c0|], mutex as [m|], abstime as [ts|];
      try (injection Hrun as <- <- <- <-; exact Hheld).
    destruct (ensure_cond ok c0 g) as [[c g1]|] eqn:Hens.
    + unfold scheduler_current in *.
      rewrite <- (ensure_cond_current _ _ _ _ _ Hens) in Hcur. rewrite Hcur in Hrun.
      destruct (cond_enqueue_release self c m g1) as [m1 g2].
      apply cond_timed_loop_returns in Hrun. tauto.
    + injection Hrun as <- <- <- <-. exact Hheld.
  - destruct cond as [c|], mutex as [m|]; try discriminate.
    unfold cond_resume in Hrun. rewrite Hcur in Hrun. destruct k.
    + apply cond_timed_loop_returns in Hrun. tauto.
    + apply cond_reacquire_returns in Hrun. tauto.
Qed.

End condvar_properties.

(** ** Timed waits (src/semaphore.c, src/condvar.c) *)

Section timed_wait_properties.
Context {Q : Type} `{scheduler_ops Q}.

Lemma tcb_blocked_queue_update_state (t u : nat) (s : uthread_state_t)
    (g : scheduler_state Q) :
  tcb_blocked_queue t (update_tcb u (set_state s) g) = tcb_blocked_queue t g.
Proof.
  unfold tcb_blocked_queue, update_tcb. simpl.
  destruct (decide (u = t)) as [-> |].
  - rewrite lookup_alter_eq. destruct (tcbs g !! t); reflexivity.
  - rewrite lookup_alter_ne by assumption. reflexivity.
Qed.

(** After [wait_queue_remove_specific (Some q) (Some t)], thread [t] is not
    linked into [q]. *)
Lemma wait_queue_remove_specific_unlinked (wq : option nat) (q t : nat)
    (g : scheduler_state Q) :
  wq = Some q ->
  tcb_blocked_queue t (snd (wait_queue_remove_specific wq (Some t) g)) <> Some q.
Proof.
  intros ->. unfold wait_queue_remove_specific. case_decide as Hbq; simpl.
  - unfold tcb_blocked_queue, update_tcb. simpl. rewrite lookup_alter_eq.
    destruct (tcbs g !! t); simpl; discriminate.
  - exact Hbq.
Qed.

End timed_wait_properties.

(** ** Reading [blocked_queue] after a write *)

Section scheduler_invariant_properties.
Context {Q : Type} `{scheduler_ops Q}.

Lemma tcb_blocked_queue_current (t : nat) (c : option nat) (g : scheduler_state Q) :
  tcb_blocked_queue t (set_current c g) = tcb_blocked_queue t g.
Proof. reflexivity. Qed.

Lemma tcb_blocked_queue_runq (t : nat) (q : Q) (g : scheduler_state Q) :
  tcb_blocked_queue t (set_runq q g) = tcb_blocked_queue t g.
Proof. reflexivity. Qed.

Lemma tcb_blocked_queue_wq (t a : nat) (l : list nat) (g : scheduler_state Q) :
  tcb_blocked_queue t (set_wq a l g) = tcb_blocked_queue t g.
Proof. reflexivity. Qed.

Lemma tcb_blocked_queue_update_other (t u : nat) (f : uthread_internal -> uthread_internal)
    (g : scheduler_state Q) :
  u <> t -> tcb_blocked_queue t (update_tcb u f g) = tcb_blocked_queue t g.
Proof.
  intros Hne. unfold tcb_blocked_queue, update_tcb. simpl.
  rewrite lookup_alter_ne by assumption. reflexivity.
Qed.

Lemma tcb_blocked_queue_update_none (t u : nat) (g : scheduler_state Q) :
  tcb_blocked_queue t g = None ->
  tcb_blocked_queue t (update_tcb u (set_blocked_queue None) g) = None.
Proof.
  intros Hn. destruct (decide (u = t)) as [-> |].
  - unfold tcb_blocked_queue, update_tcb. simpl. rewrite lookup_alter_eq.
    destruct (tcbs g !! t); reflexivity.
  - rewrite tcb_blocked_queue_update_other by assumption. exact Hn.
Qed.

Lemma tcb_blocked_queue_unlink (t : nat) (g : scheduler_state Q) :
  tcb_blocked_queue t (update_tcb t (set_blocked_queue None) g) = None.
Proof.
  unfold tcb_blocked_queue, update_tcb. simpl. rewrite lookup_alter_eq.
  destruct (tcbs g !! t); reflexivity.
Qed.

End scheduler_invariant_properties.

(** ** Concrete runs *)

(** C4 at a concrete run: the waiter of [waiter_signalled] continues after
    the signal and returns success holding the mutex. *)
Lemma cond_wait_returns_holding_mutex_witness :
  match waiter_signalled with
  | Some (c, m, g) =>
      scheduler_current g = Some 1%nat /\
      exists c' m' g',
        Condvar.run_cond_segment (Condvar.Continue (Condvar.Reacquire UTHREAD_SUCCESS) 0)
          (Some c) (Some m) g = Returned UTHREAD_SUCCESS (c', m', g') /\
        Condvar.held_by 1%nat m'
  | None => False
  end.
Proof.
  destruct waiter_signalled as [[[c m] g]|] eqn:Hw; vm_compute in Hw; [| discriminate].
  injection Hw as <- <- <-.
  split; [reflexivity |].
  destruct (Condvar.run_cond_segment (Condvar.Continue (Condvar.Reacquire UTHREAD_SUCCESS) 0)
              (Some _) (Some _) _) as [ret [[c' m'] g'] | |] eqn:Hrun;
    pose proof Hrun as Hval; vm_compute in Hval; try discriminate.
  exists c', m', g'.
  assert (Condvar.held_by 1%nat m') as Hheld.
  { eapply cond_wait_returns_holding_mutex; [| | exact Hrun];
      [reflexivity | discriminate]. }
  split; [| exact Hheld]. injection Hval as <- <- <- <-. reflexivity.
Defined.

(** ** Join and exit (src/uthread.c, src/context.c) *)

Section join_properties.
Context {Q : Type} `{scheduler_ops Q}.

Lemma no_new_exit_refl (m : gmap nat uthread_internal) : no_new_exit m m.
Proof. intros t c Hc He. eauto. Qed.

Lemma no_new_exit_trans (m1 m2 m3 : gmap nat uthread_internal) :
  no_new_exit m1 m2 -> no_new_exit m2 m3 -> no_new_exit m1 m3.
Proof.
  intros H12 H23 t c3 Hc He.
  destruct (H23 t c3 Hc He) as (c2 & Hc2 & He2 & Hr2).
  destruct (H12 t c2 Hc2 He2) as (c1 & Hc1 & He1 & Hr1).
  exists c1. repeat split; congruence.
Qed.

Lemma no_new_exit_alter (f : uthread_internal -> uthread_internal) (u : nat)
    (m : gmap nat uthread_internal) :
  keeps_exit f -> no_new_exit m (alter f u m).
Proof.
  intros Hf t c' Hc He. destruct (decide (u = t)) as [-> |].
  - rewrite lookup_alter_eq in Hc. destruct (m !! t) as [c|] eqn:Hm; [| discriminate].
    simpl in Hc. injection Hc as <-. destruct (Hf c) as [Hr Hx].
    exists c. repeat split; congruence.
  - rewrite lookup_alter_ne in Hc by assumption. eauto.
Qed.

Lemma no_new_exit_delete (u : nat) (m : gmap nat uthread_internal) :
  no_new_exit m (delete u m).
Proof.
  intros t c' Hc He. apply lookup_delete_Some in Hc as [_ Hc]. eauto.
Qed.

Lemma no_new_exit_insert (u : nat) (c : uthread_internal)
    (m : gmap nat uthread_internal) :
  (exited c = true -> exists c0, m !! u = Some c0 /\ exited c0 = true /\ retval c0 = retval c) ->
  no_new_exit m (<[u := c]> m).
Proof.
  intros Hc t c' Hl He. destruct (decide (u = t)) as [-> |].
  - rewrite lookup_insert_eq in Hl. injection Hl as <-. auto.
  - rewrite lookup_insert_ne in Hl by assumption. eauto.
Qed.

Lemma keeps_exit_set_state s : keeps_exit (set_state s).
Proof. intros c. split; reflexivity. Qed.
Lemma keeps_exit_set_waiting_on p : keeps_exit (set_waiting_on p).
Proof. intros c. split; reflexivity. Qed.
Lemma keeps_exit_set_blocked_queue p : keeps_exit (set_blocked_queue p).
Proof. intros c. split; reflexivity. Qed.
Lemma keeps_exit_set_detached b : keeps_exit (set_detached b).
Proof. intros c. split; reflexivity. Qed.
Lemma keeps_exit_set_joiner p : keeps_exit (set_joiner p).
Proof. intros c. split; reflexivity. Qed.
Lemma keeps_exit_set_attrs id prio ni det : keeps_exit (set_attrs id prio ni det).
Proof. intros c. split; reflexivity. Qed.

Create HintDb exit_frame discriminated.
Hint Resolve no_new_exit_refl no_new_exit_alter no_new_exit_delete
  keeps_exit_set_state keeps_exit_set_waiting_on keeps_exit_set_blocked_queue
  keeps_exit_set_detached keeps_exit_set_joiner keeps_exit_set_attrs : exit_frame.

Lemma update_tcb_no_new_exit (u : nat) (f : uthread_internal -> uthread_internal)
    (g : scheduler_state Q) (m : gmap nat uthread_internal) :
  keeps_exit f -> no_new_exit m (tcbs g) -> no_new_exit m (tcbs (update_tcb u f g)).
Proof.
  intros Hf Hm. eapply no_new_exit_trans; [exact Hm |]. simpl.
  apply no_new_exit_alter. exact Hf.
Qed.

Lemma scheduler_schedule_no_new_exit (g : scheduler_state Q)
    (m : gmap nat uthread_internal) :
  no_new_exit m (tcbs g) -> no_new_exit m (tcbs (scheduler_schedule g)).
Proof.
  intros Hm. unfold scheduler_schedule.
  destruct (rq_dequeue (runq g)) as [r q']. case_decide; [exact Hm |].
  simpl. eapply no_new_exit_trans; [| apply no_new_exit_alter; auto with exit_frame].
  destruct (current g); [| exact Hm]. case_decide; [| exact Hm].
  apply (update_tcb_no_new_exit _ _ (set_runq q' g)); auto with exit_frame.
Qed.

Lemma wait_queue_add_no_new_exit (wq thread : option nat) (g : scheduler_state Q)
    (m : gmap nat uthread_internal) :
  no_new_exit m (tcbs g) -> no_new_exit m (tcbs (wait_queue_add wq thread g)).
Proof.
  intros Hm. unfold wait_queue_add. destruct wq, thread; try exact Hm.
  apply (update_tcb_no_new_exit _ _ (set_wq _ _ g)); auto with exit_frame.
Qed.

Lemma wait_queue_wake_one_no_new_exit (wq : option nat) (g : scheduler_state Q)
    (m : gmap nat uthread_internal) :
  no_new_exit m (tcbs g) -> no_new_exit m (tcbs (wait_queue_wake_one wq g)).
Proof.
  intros Hm. unfold wait_queue_wake_one, wait_queue_remove.
  destruct wq as [a|]; [| exact Hm].
  destruct (wq_threads a g) as [| t rest]; [exact Hm |].
  unfold scheduler_unblock. simpl.
  eapply no_new_exit_trans; [| apply no_new_exit_alter; auto with exit_frame].
  eapply no_new_exit_trans; [exact Hm | apply no_new_exit_alter; auto with exit_frame].
Qed.

Lemma wake_all_loop_no_new_exit (n : nat) (wq : option nat) (g : scheduler_state Q)
    (m : gmap nat uthread_internal) :
  no_new_exit m (tcbs g) -> no_new_exit m (tcbs (wake_all_loop n wq g)).
Proof.
  revert g. induction n as [| n IH]; intros g Hm; simpl; [exact Hm |].
  unfold wait_queue_remove. destruct wq as [a|]; [| exact Hm].
  destruct (wq_threads a g) as [| t rest]; [exact Hm |].
  apply IH. unfold scheduler_unblock. simpl.
  eapply no_new_exit_trans; [| apply no_new_exit_alter; auto with exit_frame].
  eapply no_new_exit_trans; [exact Hm | apply no_new_exit_alter; auto with exit_frame].
Qed.

Lemma scheduler_remove_thread_tcbs (p : option nat) (g : scheduler_state Q) :
  tcbs (scheduler_remove_thread p g) = tcbs g.
Proof.
  unfold scheduler_remove_thread. destruct p; [| reflexivity].
  destruct (find_slot _ _); reflexivity.
Qed.

Lemma thread_free_no_new_exit (p : option nat) (g : scheduler_state Q)
    (m : gmap nat uthread_internal) :
  no_new_exit m (tcbs g) -> no_new_exit m (tcbs (thread_free p g)).
Proof.
  intros Hm. destruct p; [| exact Hm]. simpl.
  eapply no_new_exit_trans; [exact Hm | apply no_new_exit_delete].
Qed.

Lemma join_loop_no_new_exit (out : bool) (t : nat) (g : scheduler_state Q) :
  match join_loop out t g with
  | Returned _ (_, g') | Suspended _ (_, g') => no_new_exit (tcbs g) (tcbs g')
  | Crashed => True
  end.
Proof.
  unfold join_loop. destruct (tcbs g !! t) as [c|]; [| exact I].
  destruct (exited c).
  - apply thread_free_no_new_exit. rewrite scheduler_remove_thread_tcbs.
    apply no_new_exit_refl.
  - destruct (current g) as [self|]; [| exact I].
    destruct (tcbs g !! self); [| exact I].
    apply scheduler_schedule_no_new_exit.
    repeat apply update_tcb_no_new_exit; auto with exit_frame.
Qed.

Lemma uthread_join_no_new_exit (thread : option nat) (out : bool)
    (g : scheduler_state Q) :
  match uthread_join thread out g with
  | Returned _ (_, g') | Suspended _ (_, g') => no_new_exit (tcbs g) (tcbs g')
  | Crashed => True
  end.
Proof.
  unfold uthread_join. destruct thread as [t|]; [| apply no_new_exit_refl].
  destruct (negb (initialized g)); [apply no_new_exit_refl |].
  case_decide; [apply no_new_exit_refl |].
  destruct (tcbs g !! t) as [c|] eqn:Hc; [| exact I].
  destruct (detached c); [apply no_new_exit_refl |].
  case_decide; [apply no_new_exit_refl |].
  apply join_loop_no_new_exit.
Qed.

Lemma uthread_create_no_new_exit (o : alloc_oracle) (out : bool)
    (attr : option uthread_attr_t) (start : option (Z -> Z)) (a : Z)
    (g g' : scheduler_state Q) (r : Z) (h : option nat) :
  uthread_create o out attr start a g = Some (r, h, g') ->
  no_new_exit (tcbs g) (tcbs g').
Proof.
  unfold uthread_create. intros Hc.
  destruct (negb (initialized g)); [injection Hc as <- <- <-; apply no_new_exit_refl |].
  destruct (negb out || negb (is_Some_b start));
    [injection Hc as <- <- <-; apply no_new_exit_refl |].
  unfold thread_alloc in Hc. destruct (calloc_ok o);
    [| injection Hc as <- <- <-; apply no_new_exit_refl].
  set (t := fresh ({[idle_thread]} ∪ dom (tcbs g))) in *.
  assert (tcbs g !! t = None) as Hfresh.
  { apply not_elem_of_dom. pose proof (is_fresh ({[idle_thread]} ∪ dom (tcbs g))) as Hf.
    fold t in Hf. set_solver. }
  set (g1 := set_next_tid _ (set_tcbs _ g)) in *.
  assert (no_new_exit (tcbs g) (tcbs g1)) as H1.
  { simpl. apply no_new_exit_insert. discriminate. }
  match type of Hc with
  | match tcbs ?G !! t with _ => _ end = _ =>
      assert (no_new_exit (tcbs g) (tcbs G)) as H2
        by (destruct attr; apply update_tcb_no_new_exit; auto with exit_frame);
      set (g2 := G) in *; destruct (tcbs g2 !! t) as [c|] eqn:Hl; [| discriminate]
  end.
  match type of Hc with
  | match thread_setup_stack o ?S c with _ => _ end = _ =>
      destruct (thread_setup_stack o S c) as [rc c1] eqn:Hs
  end.
  assert (retval c1 = retval c /\ exited c1 = exited c) as [Hr He].
  { unfold thread_setup_stack in Hs.
    destruct (mmap_region o), (mprotect_ok o), (aligned_alloc_ptr o);
      injection Hs as <- <-; split; reflexivity. }
  destruct rc.
  - destruct (context_init _); [| discriminate].
    destruct (scheduler_add_thread _ _) as [g3|] eqn:Hadd; [| discriminate].
    apply scheduler_add_thread_tcbs in Hadd. injection Hc as <- <- <-. simpl.
    rewrite Hadd. simpl. eapply no_new_exit_trans; [exact H2 |].
    apply no_new_exit_insert. simpl. intros Hx. exists c. repeat split; congruence.
  - injection Hc as <- <- <-. simpl.
    eapply no_new_exit_trans; [exact H2 | apply no_new_exit_delete].
  - injection Hc as <- <- <-. simpl.
    eapply no_new_exit_trans; [exact H2 | apply no_new_exit_delete].
Qed.

Lemma uthread_detach_no_new_exit (thread : option nat) (g g' : scheduler_state Q)
    (r : Z) :
  uthread_detach thread g = Some (r, g') -> no_new_exit (tcbs g) (tcbs g').
Proof.
  unfold uthread_detach. intros Hd.
  repeat (case_match || case_decide); simplify_eq; try apply no_new_exit_refl.
  - apply thread_free_no_new_exit. rewrite scheduler_remove_thread_tcbs.
    apply update_tcb_no_new_exit; auto with exit_frame.
  - apply update_tcb_no_new_exit; auto with exit_frame.
Qed.

Lemma scheduler_yield_no_new_exit (g : scheduler_state Q) :
  no_new_exit (tcbs g) (tcbs (scheduler_yield g)).
Proof.
  unfold scheduler_yield. destruct (current g); [| apply no_new_exit_refl].
  case_decide; [apply no_new_exit_refl |].
  apply scheduler_schedule_no_new_exit. case_decide; [| apply no_new_exit_refl].
  simpl. apply no_new_exit_alter. auto with exit_frame.
Qed.

Lemma scheduler_block_no_new_exit (wq : option nat) (g : scheduler_state Q) :
  no_new_exit (tcbs g) (tcbs (scheduler_block wq g)).
Proof.
  unfold scheduler_block. destruct (current g); [| apply no_new_exit_refl].
  apply scheduler_schedule_no_new_exit, wait_queue_add_no_new_exit.
  apply update_tcb_no_new_exit; auto with exit_frame.
Qed.

Lemma exits_recorded_mono (m m' : gmap nat uthread_internal) (exits : gmap nat Z) :
  exits_recorded m exits -> no_new_exit m m' -> exits_recorded m' exits.
Proof.
  intros Hrec Hle t c' Hc He. destruct (Hle t c' Hc He) as (c & Hm & Hx & <-).
  apply (Hrec t c Hm Hx).
Qed.

(** [uthread_exit] records its argument in the caller's control block and
    touches no other thread's [retval] or [exited]. *)
Lemma uthread_exit_recorded (v : Z) (g g' : scheduler_state Q) (self : nat)
    (exits : gmap nat Z) :
  scheduler_current g = Some self ->
  uthread_exit v g = Some g' ->
  exits_recorded (tcbs g) exits ->
  exits_recorded (tcbs g') (<[self := v]> exits).
Proof.
  unfold uthread_exit, scheduler_current. intros Hcur Hex Hrec.
  destruct (negb (initialized g)); [discriminate |]. rewrite Hcur in Hex.
  destruct (tcbs g !! self) as [c|] eqn:Hself; [| discriminate].
  destruct (detached c); [discriminate |]. injection Hex as <-.
  set (m1 := alter (set_state UTHREAD_STATE_TERMINATED)
               self (alter (set_exited true) self (alter (set_retval v) self (tcbs g)))).
  assert (exits_recorded m1 (<[self := v]> exits)) as H1.
  { intros t c' Hc He. unfold m1 in Hc. destruct (decide (self = t)) as [<- |].
    - rewrite !lookup_alter_eq, Hself in Hc. simpl in Hc. injection Hc as <-.
      rewrite lookup_insert_eq. reflexivity.
    - rewrite !lookup_alter_ne in Hc by assumption.
      rewrite lookup_insert_ne by assumption. apply (Hrec t c' Hc He). }
  eapply exits_recorded_mono; [exact H1 |].
  apply scheduler_schedule_no_new_exit.
  destruct (joiner c) as [j|]; simpl.
  - do 2 (eapply no_new_exit_trans;
            [| apply no_new_exit_alter; solve [auto with exit_frame]]).
    apply no_new_exit_refl.
  - apply no_new_exit_refl.
Qed.

Lemma thread_step_recorded (c : thread_call) (g g' : scheduler_state Q)
    (exits : gmap nat Z) :
  thread_step c g = Some g' ->
  exits_recorded (tcbs g) exits ->
  exits_recorded (tcbs g')
    (match exit_argument c g with
     | Some (self, v) => <[self := v]> exits
     | None => exits
     end).
Proof.
  intros Hstep Hrec. destruct c as [v | | thread out | t out | o attr start a | thread | | wq | wq | wq];
    simpl in Hstep.
  - unfold exit_argument. destruct (scheduler_current g) as [self|] eqn:Hcur; simpl.
    + eapply uthread_exit_recorded; eauto.
    + unfold uthread_exit, scheduler_current in *. rewrite Hcur in Hstep.
      destruct (negb (initialized g)); discriminate.
  - unfold exit_argument, context_entry_wrapper in *.
    destruct (scheduler_current g) as [self|] eqn:Hcur; simpl; [| discriminate].
    destruct (tcbs g !! self) as [tcb|]; simpl; [| discriminate].
    destruct (start_routine tcb) as [f|]; simpl; [| discriminate].
    eapply uthread_exit_recorded; eauto.
  - pose proof (uthread_join_no_new_exit thread out g) as Hj.
    assert (exit_argument (CallJoin thread out) g = None) as ->
      by (unfold exit_argument; destruct (scheduler_current g); reflexivity).
    destruct (uthread_join thread out g) as [r [x g1] | k [x g1] |]; simplify_eq;
      eapply exits_recorded_mono; eauto.
  - pose proof (join_loop_no_new_exit out t g) as Hj.
    assert (exit_argument (ContinueJoin t out) g = None) as ->
      by (unfold exit_argument; destruct (scheduler_current g); reflexivity).
    destruct (join_loop out t g) as [r [x g1] | k [x g1] |]; simplify_eq;
      eapply exits_recorded_mono; eauto.
  - assert (exit_argument (CallCreate o attr start a) g = None) as ->
      by (unfold exit_argument; destruct (scheduler_current g); reflexivity).
    destruct (uthread_create o true attr start a g) as [[[r h] g1]|] eqn:Hc; simplify_eq.
    eapply exits_recorded_mono; [exact Hrec |]. eapply uthread_create_no_new_exit; eauto.
  - assert (exit_argument (CallDetach thread) g = None) as ->
      by (unfold exit_argument; destruct (scheduler_current g); reflexivity).
    destruct (uthread_detach thread g) as [[r g1]|] eqn:Hd; simpl in Hstep; simplify_eq.
    eapply exits_recorded_mono; [exact Hrec |]. eapply uthread_detach_no_new_exit; eauto.
  - assert (exit_argument CallYield g = None) as ->
      by (unfold exit_argument; destruct (scheduler_current g); reflexivity).
    simplify_eq. eapply exits_recorded_mono; [exact Hrec |].
    apply scheduler_yield_no_new_exit.
  - assert (exit_argument (CallBlock wq) g = None) as ->
      by (unfold exit_argument; destruct (scheduler_current g); reflexivity).
    simplify_eq. eapply exits_recorded_mono; [exact Hrec |].
    apply scheduler_block_no_new_exit.
  - assert (exit_argument (CallWakeOne wq) g = None) as ->
      by (unfold exit_argument; destruct (scheduler_current g); reflexivity).
    simplify_eq. eapply exits_recorded_mono; [exact Hrec |].
    apply wait_queue_wake_one_no_new_exit, no_new_exit_refl.
  - assert (exit_argument (CallWakeAll wq) g = None) as ->
      by (unfold exit_argument; destruct (scheduler_current g); reflexivity).
    simplify_eq. eapply exits_recorded_mono; [exact Hrec |].
    unfold wait_queue_wake_all. destruct wq; [| apply no_new_exit_refl].
    apply wake_all_loop_no_new_exit, no_new_exit_refl.
Qed.

Lemma thread_run_recorded (tr : list thread_call) (g g' : scheduler_state Q)
    (exits exits' : gmap nat Z) :
  thread_run tr g exits = Some (g', exits') ->
  exits_recorded (tcbs g) exits ->
  exits_recorded (tcbs g') exits'.
Proof.
  revert g exits. induction tr as [| c rest IH]; intros g exits Hrun Hrec; simpl in Hrun.
  - injection Hrun as <- <-. exact Hrec.
  - destruct (thread_step c g) as [g1|] eqn:Hstep; simpl in Hrun; [| discriminate].
    eapply IH; [exact Hrun |]. apply thread_step_recorded; assumption.
Qed.

(** A successful join stores the target's [retval] field, read while the
    target is marked exited. *)
Lemma join_segment_success (continued : bool) (t : nat) (out : bool)
    (g g' : scheduler_state Q) (stored : option Z) :
  join_segment continued t out g = Returned UTHREAD_SUCCESS (stored, g') ->
  exists c, tcbs g !! t = Some c /\ exited c = true /\
            stored = if out then Some (retval c) else None.
Proof.
  assert (forall o, join_loop o t g = Returned UTHREAD_SUCCESS (stored, g') ->
            exists c, tcbs g !! t = Some c /\ exited c = true /\
                      stored = if o then Some (retval c) else None) as Hloop.
  { intros o. unfold join_loop. destruct (tcbs g !! t) as [c|]; [| discriminate].
    destruct (exited c) eqn:He.
    - intros [= <- <-]. eauto.
    - repeat case_match; discriminate. }
  destruct continued; simpl; [apply Hloop |].
  unfold uthread_join. destruct (negb (initialized g)); [discriminate |].
  case_decide; [discriminate |].
  destruct (tcbs g !! t) as [c|]; [| discriminate].
  destruct (detached c); [discriminate |]. case_decide; [discriminate |].
  apply Hloop.
Qed.

(** C2: in any execution of the library that starts with no thread exited,
    whenever [uthread_join] on a thread returns success (on entry, or when
    the joiner continues after having been parked), the value stored
    through [retval] is the argument of the last [uthread_exit] made by
    that thread: the argument of a direct call, or the value returned by
    its start routine, which [context_entry_wrapper] passes to
    [uthread_exit]. *)
Theorem join_returns_exit_argument (tr : list thread_call)
    (g0 g g' : scheduler_state Q) (exits : gmap nat Z) (continued : bool)
    (t : nat) (v : Z) :
  none_exited g0 ->
  thread_run tr g0 ∅ = Some (g, exits) ->
  join_segment continued t true g = Returned UTHREAD_SUCCESS (Some v, g') ->
  exits !! t = Some v.
Proof.
  intros Hnone Hrun Hjoin.
  apply join_segment_success in Hjoin as (c & Hc & He & [= ->]).
  eapply thread_run_recorded; [exact Hrun | | exact Hc | exact He].
  intros u cu Hu Hx. rewrite (Hnone u cu Hu) in Hx. discriminate.
Qed.

End join_properties.

(** C2 at a concrete run, [create_then_join]: the created thread (handle 2)
    returns 42 from its start routine; main, continuing its join, receives
    42, the value handed to [uthread_exit]. *)
Lemma join_returns_exit_argument_witness :
  exists g exits g',
    thread_run (create_then_join 2) after_init ∅ = Some (g, exits) /\
    join_segment true 2%nat true g = Returned UTHREAD_SUCCESS (Some 42, g') /\
    exits !! 2%nat = Some 42.
Proof.
  destruct (thread_run (create_then_join 2) after_init ∅) as [[g exits]|] eqn:Hrun;
    [| vm_compute in Hrun; discriminate].
  destruct (join_segment true 2%nat true g) as [r [[v|] g'] | |] eqn:Hjoin;
    pose proof Hjoin as Hval; pose proof Hrun as Hrunv;
    vm_compute in Hrunv; injection Hrunv as Hg He; rewrite <- Hg in Hval;
    vm_compute in Hval; try discriminate.
  injection Hval as Hr Hv Hg'. subst r v.
  exists g, exits, g'. split; [reflexivity |]. split; [exact Hjoin |].
  apply (join_returns_exit_argument (create_then_join 2) after_init g g' exits true 2%nat 42).
  - intros u c Hu. unfold after_init in Hu. simpl in Hu.
    apply lookup_singleton_Some in Hu as [_ <-]. reflexivity.
  - exact Hrun.
  - exact Hjoin.
Defined.

(** ** The priority policy (src/sched_priority.c) *)

Section priority_properties.
Import Priority.

Lemma testbit_one_shifted (i j : nat) :
  Z.testbit (Z.shiftl 1 (Z.of_nat i)) (Z.of_nat j) = bool_decide (i = j).
Proof.
  rewrite Z.shiftl_spec by lia.
  destruct (decide (i = j)) as [-> | Hne].
  - rewrite Z.sub_diag, bool_decide_eq_true_2 by reflexivity. reflexivity.
  - rewrite bool_decide_eq_false_2 by assumption.
    destruct (decide (j < i)%nat).
    + apply Z.testbit_neg_r. lia.
    + apply Z.bits_above_log2; [lia |]. change (Z.log2 1) with 0. lia.
Qed.

Lemma land_one_shifted (b : Z) (i : nat) :
  Z.land b (Z.shiftl 1 (Z.of_nat i)) <> 0 <-> Z.testbit b (Z.of_nat i) = true.
Proof.
  split.
  - intros Hne. destruct (Z.testbit b (Z.of_nat i)) eqn:Hb; [reflexivity |].
    exfalso. apply Hne. apply Z.bits_inj'. intros n Hn.
    rewrite Z.land_spec, Z.bits_0.
    destruct (decide (n = Z.of_nat i)) as [-> |].
    + rewrite Hb. reflexivity.
    + replace n with (Z.of_nat (Z.to_nat n)) by lia.
      rewrite testbit_one_shifted, bool_decide_eq_false_2 by lia.
      apply andb_false_r.
  - intros Hb Hz.
    assert (Z.testbit (Z.land b (Z.shiftl 1 (Z.of_nat i))) (Z.of_nat i) = true) as Ht.
    { rewrite Z.land_spec, Hb, testbit_one_shifted, bool_decide_eq_true_2; reflexivity. }
    rewrite Hz, Z.bits_0 in Ht. discriminate.
Qed.

(** The scan returns the highest set bit below [n], or -1 when there is
    none. *)
Lemma scan_down_spec (n : nat) (b : Z) :
  (scan_down n b = -1 /\ forall j, (j < n)%nat -> Z.testbit b (Z.of_nat j) = false) \/
  (exists i, (i < n)%nat /\ scan_down n b = Z.of_nat i /\
             Z.testbit b (Z.of_nat i) = true /\
             forall j, (i < j < n)%nat -> Z.testbit b (Z.of_nat j) = false).
Proof.
  induction n as [| n IH]; simpl.
  - left. split; [reflexivity | lia].
  - case_decide as Hbit.
    + right. exists n. apply land_one_shifted in Hbit.
      repeat split; [lia | assumption | lia].
    + assert (Z.testbit b (Z.of_nat n) = false) as Hn.
      { destruct (Z.testbit b (Z.of_nat n)) eqn:Hb; [| reflexivity].
        apply land_one_shifted in Hb. contradiction. }
      destruct IH as [[Hs Hall] | (i & Hi & Hs & Hb & Hall)].
      * left. split; [exact Hs |]. intros j Hj.
        destruct (decide (j = n)) as [-> |]; [exact Hn | apply Hall; lia].
      * right. exists i. repeat split; [lia | assumption | assumption |].
        intros j Hj. destruct (decide (j = n)) as [-> |]; [exact Hn | apply Hall; lia].
Qed.

Lemma queue_set_queues (i j : nat) (l : list nat) (s : sched_priority_state) :
  (i < length (queues s))%nat ->
  queue j (set_queues (<[i := l]> (queues s)) s) = if decide (i = j) then l else queue j s.
Proof.
  intros Hi. unfold queue. simpl. case_decide as Hij.
  - subst j. rewrite list_lookup_insert_eq by assumption. reflexivity.
  - rewrite list_lookup_insert_ne by assumption. reflexivity.
Qed.

Lemma queue_out_of_range (i : nat) (s : sched_priority_state) :
  (length (queues s) <= i)%nat -> queue i s = [].
Proof. intros Hi. unfold queue. rewrite lookup_ge_None_2 by assumption. reflexivity. Qed.

Lemma unlink_subset (t x : nat) (l : list nat) : x ∈ unlink t l -> x ∈ l.
Proof.
  induction l as [| u l IH]; simpl; [auto |].
  case_decide; [set_solver |]. rewrite !elem_of_cons. intuition.
Qed.

Lemma unlink_NoDup (t : nat) (l : list nat) : NoDup l -> NoDup (unlink t l).
Proof.
  induction 1 as [| u l Hu Hl IH]; simpl; [constructor |].
  case_decide; [assumption |]. constructor; [| assumption].
  intros Hin. apply Hu. eapply unlink_subset. exact Hin.
Qed.

Lemma unlink_not_in (t : nat) (l : list nat) : NoDup l -> t ∉ unlink t l.
Proof.
  induction 1 as [| u l Hu Hl IH]; simpl; [set_solver |].
  case_decide; [subst; assumption |]. rewrite not_elem_of_cons. auto.
Qed.

Lemma clamp_priority_lt (p : Z) : (clamp_priority p < 32)%nat.
Proof.
  unfold clamp_priority, UTHREAD_PRIORITY_LEVELS. repeat case_decide; lia.
Qed.

Lemma clamp_priority_in_range (p : Z) :
  ~ (p < UTHREAD_PRIORITY_MIN \/ p > UTHREAD_PRIORITY_MAX) ->
  clamp_priority p = Z.to_nat p.
Proof.
  unfold clamp_priority, UTHREAD_PRIORITY_LEVELS, UTHREAD_PRIORITY_MIN, UTHREAD_PRIORITY_MAX.
  intros Hr. repeat case_decide; lia.
Qed.

Lemma queue_set_bitmap (j : nat) (b : Z) (s : sched_priority_state) :
  queue j (set_bitmap b s) = queue j s.
Proof. reflexivity. Qed.

(** Adding to queue [p]: the thread goes to the tail, bit [p] is set. *)
Lemma add_to_priority_queue_spec (t p : nat) (s : sched_priority_state) :
  (p < 32)%nat -> length (queues s) = 32%nat ->
  (Z.testbit (bitmap s) (Z.of_nat p) = bool_decide (queue p s <> [])) ->
  let s' := add_to_priority_queue t p s in
  length (queues s') = 32%nat /\ threads s' = threads s /\
  (forall j, queue j s' = if decide (p = j) then queue p s ++ [t] else queue j s) /\
  (forall j, Z.testbit (bitmap s') (Z.of_nat j) =
             if decide (p = j) then true else Z.testbit (bitmap s) (Z.of_nat j)).
Proof.
  intros Hp Hlen Hbit. unfold add_to_priority_queue.
  destruct (queue p s) as [| x q] eqn:Hq.
  - split; [simpl; rewrite length_insert; assumption |].
    split; [reflexivity |]. split.
    + intros j. rewrite queue_set_bitmap, queue_set_queues by lia. reflexivity.
    + intros j. simpl. rewrite Z.lor_spec, testbit_one_shifted.
      case_decide; [subst; rewrite bool_decide_eq_true_2 by reflexivity; apply orb_true_r |].
      rewrite bool_decide_eq_false_2 by assumption. apply orb_false_r.
  - split; [simpl; rewrite length_insert; assumption |].
    split; [reflexivity |]. split.
    + intros j. rewrite queue_set_queues by lia. reflexivity.
    + intros j. simpl. case_decide; [| reflexivity]. subst j.
      rewrite Hbit. apply bool_decide_eq_true_2. discriminate.
Qed.

(** Removing from queue [i]: the thread is unlinked, and bit [i] is cleared
    when the queue becomes empty. *)
Lemma remove_from_priority_queue_spec (t i : nat) (s : sched_priority_state) :
  (i < 32)%nat -> length (queues s) = 32%nat ->
  (Z.testbit (bitmap s) (Z.of_nat i) = bool_decide (queue i s <> [])) ->
  let s' := remove_from_priority_queue t i s in
  length (queues s') = 32%nat /\ threads s' = threads s /\
  (forall j, queue j s' = if decide (i = j) then unlink t (queue i s) else queue j s) /\
  (forall j, (j < 32)%nat -> Z.testbit (bitmap s') (Z.of_nat j) =
             if decide (i = j) then bool_decide (unlink t (queue i s) <> [])
             else Z.testbit (bitmap s) (Z.of_nat j)).
Proof.
  intros Hi Hlen Hbit. unfold remove_from_priority_queue.
  set (s1 := set_queues _ s).
  assert (forall j, queue j s1 = if decide (i = j) then unlink t (queue i s) else queue j s)
    as Hq1 by (intros j; unfold s1; rewrite queue_set_queues by lia; reflexivity).
  pose proof (Hq1 i) as Hqi. rewrite decide_True in Hqi by reflexivity.
  assert (length (queues s1) = 32%nat) as Hlen1
    by (unfold s1; simpl; rewrite length_insert; assumption).
  destruct (queue i s1) as [| x q] eqn:Hq.
  - repeat split; [assumption | exact Hq1 |].
    intros j Hj. simpl. rewrite Z.land_spec. unfold wrap_u32.
    rewrite Z.mod_pow2_bits_low by lia.
    rewrite Z.lnot_spec by lia. rewrite testbit_one_shifted.
    case_decide.
    + subst j. rewrite bool_decide_eq_true_2 by reflexivity. simpl.
      rewrite andb_false_r, <- Hqi. symmetry. apply bool_decide_eq_false_2. auto.
    + rewrite bool_decide_eq_false_2 by assumption. apply andb_true_r.
  - repeat split; [assumption | exact Hq1 |].
    intros j Hj. case_decide; [| reflexivity]. subst j. simpl. rewrite Hbit.
    rewrite <- Hqi. rewrite !bool_decide_eq_true_2; [reflexivity | discriminate |].
    intros Hnil. rewrite Hnil in Hqi. simpl in Hqi. discriminate.
Qed.

Lemma priority_inv_init (s0 : sched_priority_state) : priority_inv (priority_init s0).
Proof.
  assert (forall i, queue i (priority_init s0) = []) as Hq.
  { intros i. unfold queue.
    change (queues (priority_init s0)) with (replicate 32 ([] : list nat)).
    destruct (replicate 32 ([] : list nat) !! i) as [l|] eqn:Hl; [| reflexivity].
    apply lookup_replicate in Hl as [-> _]. reflexivity. }
  split.
  - reflexivity.
  - intros i Hi. rewrite Hq. simpl. apply Z.bits_0.
  - intros i. rewrite Hq. constructor.
  - intros i t. rewrite Hq. intros Hin. inversion Hin.
Qed.

Lemma queuedb_false (t : nat) (s : sched_priority_state) :
  queuedb t s = false -> forall i, t ∉ queue i s.
Proof.
  unfold queuedb. intros Hq i Hin. apply bool_decide_eq_false in Hq. apply Hq.
  unfold queue in Hin. destruct (queues s !! i) as [l|] eqn:Hl; simpl in Hin.
  - apply Exists_exists. exists l. split; [| assumption].
    eapply list_elem_of_lookup_2. exact Hl.
  - inversion Hin.
Qed.

Lemma thread_priority_keep (t u : nat) (f : prio_tcb -> prio_tcb)
    (s : sched_priority_state) :
  (forall c, priority (f c) = priority c) ->
  thread_priority t (set_threads (alter f u (threads s)) s) = thread_priority t s.
Proof.
  intros Hf. unfold thread_priority. simpl.
  destruct (decide (u = t)) as [-> |].
  - rewrite lookup_alter_eq. destruct (threads s !! t); simpl; auto.
  - rewrite lookup_alter_ne by assumption. reflexivity.
Qed.

Lemma priority_inv_add (t p : nat) (s : sched_priority_state) :
  priority_inv s -> (forall i, t ∉ queue i s) ->
  p = clamp_priority (thread_priority t s) ->
  priority_inv (add_to_priority_queue t p s).
Proof.
  intros [Hlen Hbits Hnd Hbk] Hfresh ->.
  set (p := clamp_priority (thread_priority t s)).
  pose proof (clamp_priority_lt (thread_priority t s)) as Hp. fold p in Hp.
  destruct (add_to_priority_queue_spec t p s Hp Hlen (Hbits p Hp))
    as (Hlen1 & Hth1 & Hq1 & Hb1).
  set (s1 := add_to_priority_queue t p s) in *.
  assert (forall u, thread_priority u s1 = thread_priority u s) as Hprio
    by (intros u; unfold thread_priority; rewrite Hth1; reflexivity).
  split.
  - exact Hlen1.
  - intros i Hi. rewrite Hb1, Hq1. case_decide.
    + symmetry. apply bool_decide_eq_true_2. intros Hnil.
      apply app_eq_nil in Hnil as [_ Hnil]. discriminate.
    + apply Hbits. exact Hi.
  - intros i. rewrite Hq1. case_decide; [| apply Hnd].
    apply NoDup_app. split; [apply Hnd |]. split; [| apply NoDup_singleton].
    intros x Hx Hx'. apply list_elem_of_singleton in Hx'. subst x. exact (Hfresh p Hx).
  - intros i u Hin. rewrite Hq1 in Hin. rewrite Hprio.
    case_decide as Hpi.
    + apply elem_of_app in Hin as [Hin | Hin].
      * rewrite <- Hpi. apply Hbk. exact Hin.
      * apply list_elem_of_singleton in Hin. subst u. exact Hpi.
    + apply Hbk. exact Hin.
Qed.

(** Writing control-block fields that leave the priorities of the queued
    threads alone keeps the invariant. *)
Lemma priority_inv_set_threads (m : gmap nat prio_tcb) (s : sched_priority_state) :
  priority_inv s ->
  (forall i u, u ∈ queue i s ->
     thread_priority u (set_threads m s) = thread_priority u s) ->
  priority_inv (set_threads m s).
Proof.
  intros [Hlen Hbits Hnd Hbk] Hsame. split; try assumption.
  intros i u Hin. change (u ∈ queue i s) in Hin.
  rewrite (Hsame i u Hin). apply Hbk. exact Hin.
Qed.

Lemma priority_inv_set_count (c : Z) (s : sched_priority_state) :
  priority_inv s -> priority_inv (set_count c s).
Proof. intros [Hlen Hbits Hnd Hbk]. split; assumption. Qed.

Lemma priority_inv_enqueue (t : nat) (s : sched_priority_state) :
  priority_inv s -> (forall i, t ∉ queue i s) ->
  priority_inv (priority_enqueue (Some t) s).
Proof.
  intros Hinv Hfresh. unfold priority_enqueue.
  apply priority_inv_set_threads.
  - apply priority_inv_set_count, priority_inv_add; auto.
  - intros i u _. apply thread_priority_keep. reflexivity.
Qed.

Lemma priority_inv_remove_from (t i : nat) (s : sched_priority_state) :
  priority_inv s -> (i < 32)%nat ->
  priority_inv (remove_from_priority_queue t i s).
Proof.
  intros [Hlen Hbits Hnd Hbk] Hi.
  destruct (remove_from_priority_queue_spec t i s Hi Hlen (Hbits i Hi))
    as (Hlen1 & Hth1 & Hq1 & Hb1).
  set (s1 := remove_from_priority_queue t i s) in *.
  split.
  - exact Hlen1.
  - intros j Hj. rewrite Hb1, Hq1 by assumption. case_decide; [reflexivity |].
    apply Hbits. exact Hj.
  - intros j. rewrite Hq1. case_decide; [apply unlink_NoDup |]; apply Hnd.
  - intros j u Hin. rewrite Hq1 in Hin. unfold thread_priority. rewrite Hth1.
    apply Hbk. case_decide; [subst j; eapply unlink_subset |]; exact Hin.
Qed.

(** What [priority_dequeue] does on a state that meets the invariant. *)
Lemma priority_dequeue_spec (s : sched_priority_state) :
  priority_inv s ->
  match priority_dequeue s with
  | (Some t, s') =>
      exists i rest, (i < 32)%nat /\ queue i s = t :: rest /\
        (forall j, (i < j)%nat -> queue j s = []) /\
        queue i s' = rest /\ (forall j, j <> i -> queue j s' = queue j s) /\
        priority_inv s'
  | (None, s') => s' = s /\ forall j, queue j s = []
  end.
Proof.
  intros Hinv. pose proof Hinv as [Hlen Hbits Hnd Hbk].
  assert (forall j, (forall k, (k < 32)%nat -> Z.testbit (bitmap s) (Z.of_nat k) = false) ->
                    queue j s = []) as Hempty.
  { intros j Hall. destruct (decide (j < 32)%nat) as [Hj |].
    - specialize (Hall j Hj). rewrite Hbits in Hall by assumption.
      apply bool_decide_eq_false in Hall. destruct (queue j s); [reflexivity |].
      exfalso. apply Hall. discriminate.
    - apply queue_out_of_range. lia. }
  unfold priority_dequeue, find_highest_priority. cbv zeta.
  destruct (decide (bitmap s = 0)) as [Hz | Hz].
  - rewrite decide_True by lia. split; [reflexivity |]. intros j. apply Hempty.
    intros k _. rewrite Hz. apply Z.bits_0.
  - change (Z.to_nat UTHREAD_PRIORITY_LEVELS) with 32%nat.
    destruct (scan_down_spec 32 (bitmap s)) as [[Hs Hall] | (i & Hi & Hs & Hb & Hall)];
      rewrite Hs.
    + rewrite decide_True by lia. split; [reflexivity |]. intros j. apply Hempty, Hall.
    + rewrite decide_False by lia. rewrite Nat2Z.id.
      rewrite Hbits in Hb by assumption. apply bool_decide_eq_true in Hb.
      destruct (queue i s) as [| t rest] eqn:Hq; [contradiction |].
      destruct (remove_from_priority_queue_spec t i s Hi Hlen (Hbits i Hi))
        as (Hlen1 & Hth1 & Hq1 & Hb1).
      exists i, rest. split; [exact Hi |]. split; [exact Hq |]. split.
      { intros j Hj. destruct (decide (j < 32)%nat) as [Hj32 |].
        - specialize (Hall j (conj Hj Hj32)). rewrite Hbits in Hall by assumption.
          apply bool_decide_eq_false in Hall. destruct (queue j s); [reflexivity |].
          exfalso. apply Hall. discriminate.
        - apply queue_out_of_range. lia. }
      split.
      { change (queue i (remove_from_priority_queue t i s) = rest).
        rewrite Hq1, decide_True, Hq by reflexivity. simpl.
        rewrite decide_True by reflexivity. reflexivity. }
      split.
      { intros j Hj. change (queue j (remove_from_priority_queue t i s) = queue j s).
        rewrite Hq1, decide_False by auto. reflexivity. }
      apply priority_inv_set_count, priority_inv_remove_from; assumption.
Qed.

Lemma find_queue_Some (t : nat) (cands : list nat) (s : sched_priority_state) (i : nat) :
  find_queue t cands s = Some i -> i ∈ cands /\ t ∈ queue i s.
Proof.
  induction cands as [| c cands IH]; simpl; [discriminate |].
  case_decide.
  - intros [= <-]. split; [left | assumption].
  - intros Hf. destruct (IH Hf). split; [right |]; assumption.
Qed.

Lemma find_queue_None (t : nat) (cands : list nat) (s : sched_priority_state) :
  find_queue t cands s = None -> forall i, i ∈ cands -> t ∉ queue i s.
Proof.
  induction cands as [| c cands IH]; simpl; intros Hf i Hi; [inversion Hi |].
  case_decide; [discriminate |].
  apply elem_of_cons in Hi as [-> | Hi]; [assumption | apply IH; assumption].
Qed.

Lemma priority_inv_remove (t : nat) (s : sched_priority_state) :
  priority_inv s -> priority_inv (priority_remove (Some t) s).
Proof.
  intros Hinv. unfold priority_remove.
  destruct (find_queue t _ s) as [i|] eqn:Hf; [| exact Hinv].
  apply find_queue_Some in Hf as [Hi _].
  apply priority_inv_set_count, priority_inv_remove_from; [exact Hinv |].
  apply elem_of_cons in Hi as [-> | Hi]; [apply clamp_priority_lt |].
  apply elem_of_seq in Hi. lia.
Qed.

Lemma remove_from_set_threads (t i : nat) (m : gmap nat prio_tcb)
    (s : sched_priority_state) :
  remove_from_priority_queue t i (set_threads m s)
  = set_threads m (remove_from_priority_queue t i s).
Proof.
  unfold remove_from_priority_queue.
  change (queue i (set_threads m s)) with (queue i s).
  set (s1 := set_queues _ s).
  change (queue i (set_queues (<[i := unlink t (queue i s)]> (queues (set_threads m s)))
                     (set_threads m s))) with (queue i s1).
  destruct (queue i s1); reflexivity.
Qed.

Lemma find_queue_set_threads (t : nat) (cands : list nat) (m : gmap nat prio_tcb)
    (s : sched_priority_state) :
  find_queue t cands (set_threads m s) = find_queue t cands s.
Proof. induction cands as [| c cands IH]; simpl; [| rewrite IH]; reflexivity. Qed.

Lemma priority_inv_setpriority (t : nat) (prio : Z) (s : sched_priority_state) :
  priority_inv s -> priority_inv (snd (uthread_setpriority (Some t) prio s)).
Proof.
  intros Hinv. unfold uthread_setpriority. case_decide as Hrange; [exact Hinv |].
  cbn [snd]. set (m := alter _ t (threads s)). unfold priority_update_priority.
  assert (forall u, u <> t ->
            thread_priority u (set_threads m s) = thread_priority u s) as Hother.
  { intros u Hu. unfold thread_priority, m. simpl.
    rewrite lookup_alter_ne by auto. reflexivity. }
  assert (clamp_priority (thread_priority t (set_threads m s))
          = Z.to_nat (thread_priority t (set_threads m s))) as Hclamp.
  { unfold thread_priority, m. simpl. rewrite lookup_alter_eq.
    destruct (threads s !! t); simpl.
    - apply clamp_priority_in_range. exact Hrange.
    - reflexivity. }
  rewrite find_queue_set_threads.
  destruct (find_queue t (seq 0 32) s) as [i|] eqn:Hf.
  - apply find_queue_Some in Hf as [Hi Hin]. apply elem_of_seq in Hi.
    rewrite remove_from_set_threads.
    pose proof Hinv as [Hlen Hbits Hnd Hbk].
    destruct (remove_from_priority_queue_spec t i s ltac:(lia) Hlen (Hbits i ltac:(lia)))
      as (Hlen1 & Hth1 & Hq1 & Hb1).
    assert (forall j, t ∉ queue j (remove_from_priority_queue t i s)) as Hgone.
    { intros j Hj. rewrite Hq1 in Hj. case_decide as Hij.
      - revert Hj. apply unlink_not_in, Hnd.
      - apply Hij. rewrite <- (Hbk i t Hin). apply Hbk. exact Hj. }
    apply priority_inv_add.
    + apply priority_inv_set_threads.
      * apply priority_inv_remove_from; [exact Hinv | lia].
      * intros j u Hu.
        change (thread_priority u (set_threads m s)
                = thread_priority u (remove_from_priority_queue t i s)).
        rewrite Hother by (intros ->; exact (Hgone j Hu)).
        unfold thread_priority. rewrite Hth1. reflexivity.
    + exact Hgone.
    + rewrite <- Hclamp. reflexivity.
  - apply priority_inv_set_threads; [exact Hinv |].
    intros j u Hu. apply Hother. intros ->.
    destruct (decide (j < 32)%nat) as [Hj |].
    + eapply (find_queue_None _ _ _ Hf j); [apply elem_of_seq; lia | exact Hu].
    + rewrite queue_out_of_range in Hu by (destruct Hinv as [Hlen _ _ _]; lia).
      inversion Hu.
Qed.

Lemma priority_inv_on_tick (t : nat) (e : Z) (s : sched_priority_state) :
  priority_inv s -> priority_inv (priority_on_tick (Some t) e s).
Proof.
  intros Hinv. apply priority_inv_set_threads; [exact Hinv |].
  intros i u _. apply thread_priority_keep. reflexivity.
Qed.

(** The invariant holds along every execution that starts with
    [priority_init]. *)
Lemma priority_run_inv (tr : list priority_call) (s s' : sched_priority_state) :
  priority_inv s -> priority_run tr s = Some s' -> priority_inv s'.
Proof.
  revert s. induction tr as [| c tr IH]; intros s Hinv Hrun; simpl in Hrun.
  - injection Hrun as <-. exact Hinv.
  - destruct (priority_step c s) as [s1|] eqn:Hstep; simpl in Hrun; [| discriminate].
    apply (IH s1); [| exact Hrun].
    destruct c as [t | | t | t prio | t e]; simpl in Hstep.
    + destruct (queuedb t s) eqn:Hq; [discriminate |]. injection Hstep as <-.
      apply priority_inv_enqueue; [exact Hinv | apply queuedb_false; exact Hq].
    + injection Hstep as <-. pose proof (priority_dequeue_spec s Hinv) as Hd.
      destruct (priority_dequeue s) as [[t|] s2]; simpl.
      * destruct Hd as (i & rest & _ & _ & _ & _ & _ & Hinv2). exact Hinv2.
      * destruct Hd as [-> _]. exact Hinv.
    + injection Hstep as <-. apply priority_inv_remove. exact Hinv.
    + injection Hstep as <-. apply priority_inv_setpriority. exact Hinv.
    + injection Hstep as <-. apply priority_inv_on_tick. exact Hinv.
Qed.

(** C7: in any state reached from [priority_init] by enqueues, dequeues,
    removals, priority changes and ticks, [priority_dequeue] returns NULL
    exactly when all 32 queues are empty, and otherwise removes and returns
    the head [t] of the non-empty queue [i] of greatest index: every queue
    above [i] is empty, queue [i] keeps its other threads in order, and the
    other queues are untouched.  Index [i] is [t]'s clamped priority, and
    every queued thread has a clamped priority of at most [i]: no thread is
    selected while a thread of strictly higher priority is queued. *)
Theorem priority_dequeue_highest (tr : list priority_call)
    (s0 s : sched_priority_state) :
  priority_run tr (priority_init s0) = Some s ->
  match priority_dequeue s with
  | (Some t, s') =>
      exists i rest, (i < 32)%nat /\ queue i s = t :: rest /\
        (forall j, (i < j)%nat -> queue j s = []) /\
        queue i s' = rest /\ (forall j, j <> i -> queue j s' = queue j s) /\
        clamp_priority (thread_priority t s) = i /\
        (forall u j, u ∈ queue j s ->
           (clamp_priority (thread_priority u s) <= clamp_priority (thread_priority t s))%nat)
  | (None, s') => s' = s /\ forall j, queue j s = []
  end.
Proof.
  intros Hrun. pose proof (priority_run_inv tr _ s (priority_inv_init s0) Hrun) as Hinv.
  pose proof (priority_dequeue_spec s Hinv) as Hd.
  destruct (priority_dequeue s) as [[t|] s']; [| exact Hd].
  destruct Hd as (i & rest & Hi & Hq & Habove & Hq' & Hother & _).
  pose proof Hinv as [_ _ _ Hbk].
  assert (clamp_priority (thread_priority t s) = i) as Hti
    by (apply Hbk; rewrite Hq; left).
  exists i, rest. repeat (split; [assumption |]).
  intros u j Hu. rewrite (Hbk j u Hu), Hti.
  destruct (decide (j <= i)%nat) as [| Hgt]; [assumption |].
  rewrite Habove in Hu by lia. inversion Hu.
Qed.

End priority_properties.

(** C7 at a concrete run: threads of priorities 10, 30 and 20 are enqueued
    in that order; the first dequeue returns thread 2 (priority 30). *)
Lemma priority_dequeue_highest_witness :
  exists s,
    Priority.priority_run [Priority.Enqueue 1; Priority.Enqueue 2; Priority.Enqueue 3]
      (Priority.priority_init three_priorities) = Some s /\
    fst (Priority.priority_dequeue s) = Some 2%nat.
Proof.
  destruct (Priority.priority_run
              [Priority.Enqueue 1; Priority.Enqueue 2; Priority.Enqueue 3]
              (Priority.priority_init three_priorities)) as [s|] eqn:Hrun;
    [| vm_compute in Hrun; discriminate].
  exists s. split; [reflexivity |].
  pose proof (priority_dequeue_highest _ _ _ Hrun) as Hd.
  pose proof Hrun as Hval. vm_compute in Hval. injection Hval as Hs.
  destruct (Priority.priority_dequeue s) as [[t|] s'] eqn:Hdq.
  - rewrite <- Hs in Hdq. vm_compute in Hdq. injection Hdq as <- _. reflexivity.
  - destruct Hd as [_ Hempty]. specialize (Hempty 30%nat).
    rewrite <- Hs in Hempty. vm_compute in Hempty. discriminate.
Defined.

(** ** The red-black tree (src/sched_cfs.c) *)

#[local] Set Warnings "-clear-no-such-hyp".

Lemma nodes_upd (p : nat) (f : Cfs.rb_node -> Cfs.rb_node) (s : Cfs.sched_cfs_state) :
  Cfs.nodes (Cfs.upd p f s) = alter f p (Cfs.nodes s).
Proof. reflexivity. Qed.

Ltac split_nodup :=
  repeat match goal with
  | H : NoDup (_ ++ _) |- _ => apply NoDup_app in H as (? & ? & ?)
  | H : NoDup (_ :: _) |- _ => apply NoDup_cons in H as (? & ?)
  end.

Ltac heap_neq := solve [ congruence | intros ->; set_solver | set_solver ].

Ltac heap_lookup :=
  repeat first
    [ rewrite nodes_upd
    | rewrite lookup_alter_eq
    | rewrite lookup_alter_ne by heap_neq ].

Ltac step H := rewrite H; cbn [mbind option_bind].

Ltac list_eq := simpl; rewrite <- ?app_assoc; simpl; rewrite <- ?app_assoc; reflexivity.

Section rbtree.
Import Cfs RBTree.

Lemma node_flip (d : dir) (c : rb_color_t) (near far : tree) (a : nat) :
  node (flip d) c far a near = node d c near a far.
Proof. destruct d; reflexivity. Qed.

Lemma node_sub (d : dir) (c : rb_color_t) (l r : tree) (a : nat) :
  N c l a r = node d c (sub d (N c l a r)) a (sub (flip d) (N c l a r)).
Proof. destruct d; reflexivity. Qed.

Lemma sub_node_near (d : dir) (c : rb_color_t) (near far : tree) (a : nat) :
  sub d (node d c near a far) = near.
Proof. destruct d; reflexivity. Qed.

Lemma sub_node_far (d : dir) (c : rb_color_t) (near far : tree) (a : nat) :
  sub (flip d) (node d c near a far) = far.
Proof. destruct d; reflexivity. Qed.

Lemma root_node (d : dir) (c : rb_color_t) (near far : tree) (a : nat) :
  root (node d c near a far) = Some a.
Proof. destruct d; reflexivity. Qed.

Lemma inorder_node (d : dir) (c : rb_color_t) (near far : tree) (a : nat) :
  inorder (node d c near a far) ≡ₚ a :: inorder near ++ inorder far.
Proof.
  destruct d; simpl.
  - symmetry. apply Permutation_middle.
  - rewrite <- Permutation_middle. apply perm_skip, Permutation_app_comm.
Qed.

Lemma rep_node (h : gmap nat rb_node) (par : option nat) (d : dir) (c : rb_color_t)
    (near far : tree) (a : nat) :
  rep h par (node d c near a far) <->
  (exists n, h !! a = Some n /\ child d n = root near /\ child (flip d) n = root far /\
             rb_parent n = par /\ rb_color n = c) /\
  rep h (Some a) near /\ rep h (Some a) far.
Proof. destruct d; simpl; split; intros ((n & ?) & ? & ?); (split; [exists n |]); tauto. Qed.

Lemma root_inorder (t : tree) (a : nat) : root t = Some a -> a ∈ inorder t.
Proof. destruct t; simpl; [discriminate |]. intros [= ->]. set_solver. Qed.


Lemma rep_frame (h h' : gmap nat rb_node) (par : option nat) (t : tree) :
  (forall a, a ∈ inorder t -> h' !! a = h !! a) ->
  rep h par t -> rep h' par t.
Proof.
  revert par. induction t as [| c l IHl a r IHr]; intros par Hsame; simpl; [done |].
  intros (Hn & Hl & Hr). split; [| split].
  - rewrite Hsame by set_solver. exact Hn.
  - apply IHl; [| exact Hl]. intros b Hb. apply Hsame. set_solver.
  - apply IHr; [| exact Hr]. intros b Hb. apply Hsame. set_solver.
Qed.

(** The parent link of the root of a subtree is rewritten. *)
Lemma rep_set_parent (h h' : gmap nat rb_node) (par par' : option nat) (t : tree) :
  NoDup (inorder t) ->
  (forall a n, root t = Some a -> h !! a = Some n -> h' !! a = Some (set_parent par' n)) ->
  (forall a, a ∈ inorder t -> root t <> Some a -> h' !! a = h !! a) ->
  rep h par t -> rep h' par' t.
Proof.
  destruct t as [| c l a r]; simpl; [done |].
  intros Hnd Hroot Hsame ((n & Hn & Hl & Hr & Hp & Hc) & Hrl & Hrr).
  apply NoDup_app in Hnd as (_ & Hlr & Hnd). apply NoDup_cons in Hnd as (Har & _).
  split; [| split].
  - exists (set_parent par' n). rewrite (Hroot a n) by done. done.
  - apply (rep_frame h); [| exact Hrl]. intros b Hb. apply Hsame; [set_solver |].
    intros [= <-]. apply (Hlr a); set_solver.
  - apply (rep_frame h); [| exact Hrr]. intros b Hb. apply Hsame; [set_solver |].
    intros [= <-]. done.
Qed.

Lemma rep_ctx_frame (h h' : gmap nat rb_node) (ctx : list frame) (hole top : option nat) :
  (forall a, a ∈ ctx_ids ctx -> h' !! a = h !! a) ->
  rep_ctx h ctx hole top -> rep_ctx h' ctx hole top.
Proof.
  revert hole. induction ctx as [| [d c a sib] rest IH]; intros hole Hsame; simpl; [done |].
  intros (Hn & Hsib & Hrest). split; [| split].
  - rewrite Hsame by set_solver. exact Hn.
  - apply (rep_frame h); [| exact Hsib]. intros b Hb. apply Hsame. set_solver.
  - apply IH; [| exact Hrest]. intros b Hb. apply Hsame. set_solver.
Qed.

(** The pointer in the hole is rewritten: in the parent of the hole, or at
    the top when the hole is the whole tree. *)
Lemma rep_ctx_rehole (h h' : gmap nat rb_node) (ctx : list frame)
    (hole hole' top top' : option nat) :
  NoDup (ctx_ids ctx) ->
  (forall d c a sib rest n, ctx = Fr d c a sib :: rest -> h !! a = Some n ->
     h' !! a = Some (set_child d hole' n)) ->
  (forall a, a ∈ ctx_ids ctx -> ctx_parent ctx <> Some a -> h' !! a = h !! a) ->
  top' = match ctx with [] => hole' | _ => top end ->
  rep_ctx h ctx hole top -> rep_ctx h' ctx hole' top'.
Proof.
  destruct ctx as [| [d c a sib] rest]; simpl; [intros; done |].
  intros Hnd Hpar Hsame -> ((n & Hn & Hh & Hs & Hp & Hc) & Hsib & Hrest).
  apply NoDup_cons in Hnd as (Ha & Hnd).
  split; [| split].
  - exists (set_child d hole' n). rewrite (Hpar d c a sib rest n) by done.
    destruct d; done.
  - apply (rep_frame h); [| exact Hsib]. intros b Hb. apply Hsame; [set_solver |].
    intros [= <-]. set_solver.
  - apply (rep_ctx_frame h); [| exact Hrest]. intros b Hb. apply Hsame; [set_solver |].
    intros [= <-]. set_solver.
Qed.

(** Moving the focus one frame up or down. *)
Lemma heap_inv_zip (s : sched_cfs_state) (f : frame) (rest : list frame) (t : tree) :
  heap_inv s (f :: rest) t <-> heap_inv s rest (plug_frame f t).
Proof.
  destruct f as [d c a sib]. unfold heap_inv. simpl.
  rewrite rep_node, root_node.
  assert ((a :: inorder sib ++ ctx_ids rest) ++ inorder t ≡ₚ
          ctx_ids rest ++ inorder (node d c t a sib)) as ->.
  { rewrite inorder_node. solve_Permutation. }
  tauto.
Qed.

Lemma heap_inv_plug (s : sched_cfs_state) (ctx : list frame) (t : tree) :
  heap_inv s ctx t <-> heap_inv s [] (plug ctx t).
Proof.
  revert t. induction ctx as [| f rest IH]; intros t; simpl; [done |].
  rewrite heap_inv_zip. apply IH.
Qed.

Lemma heap_inv_down (s : sched_cfs_state) (d : dir) (c : rb_color_t) (a : nat)
    (sib t : tree) (rest : list frame) :
  heap_inv s rest (node d c t a sib) -> heap_inv s (Fr d c a sib :: rest) t.
Proof. intros H. apply heap_inv_zip. exact H. Qed.

Lemma heap_inv_up (s : sched_cfs_state) (d : dir) (c : rb_color_t) (a : nat)
    (sib t : tree) (rest : list frame) :
  heap_inv s (Fr d c a sib :: rest) t -> heap_inv s rest (node d c t a sib).
Proof. intros H. apply heap_inv_zip in H. exact H. Qed.

(** Moving the focus to the sibling. *)
Lemma heap_inv_sibling (s : sched_cfs_state) (d : dir) (c : rb_color_t) (a : nat)
    (sib t : tree) (rest : list frame) :
  heap_inv s (Fr d c a sib :: rest) t <-> heap_inv s (Fr (flip d) c a t :: rest) sib.
Proof. rewrite !heap_inv_zip. simpl. rewrite node_flip. done. Qed.

Lemma same_payload_refl (s : sched_cfs_state) : same_payload s s.
Proof. repeat split. Qed.

Lemma same_payload_trans (s1 s2 s3 : sched_cfs_state) :
  same_payload s1 s2 -> same_payload s2 s3 -> same_payload s1 s3.
Proof.
  intros (H1 & H2 & H3 & H4 & H5) (K1 & K2 & K3 & K4 & K5).
  repeat split; congruence.
Qed.

Lemma same_payload_upd (p : nat) (f : rb_node -> rb_node) (s : sched_cfs_state) :
  (forall n, vruntime (f n) = vruntime n) -> same_payload s (upd p f s).
Proof.
  intros Hf. repeat split; simpl.
  - apply dom_alter_L.
  - intros a. destruct (decide (a = p)) as [-> |].
    + rewrite lookup_alter_eq. destruct (nodes s !! p); simpl; [f_equal; apply Hf | done].
    + rewrite lookup_alter_ne by done. done.
Qed.

Lemma same_payload_set_root (p : option nat) (s : sched_cfs_state) :
  same_payload s (set_root p s).
Proof. repeat split. Qed.

Lemma same_payload_set_color_if (p : option nat) (c : rb_color_t) (s : sched_cfs_state) :
  same_payload s (set_color_if p c s).
Proof. destruct p; simpl; [apply same_payload_upd; done | apply same_payload_refl]. Qed.

Lemma heap_inv_read (s : sched_cfs_state) (ctx : list frame) (d : dir) (c : rb_color_t)
    (near far : tree) (a : nat) :
  heap_inv s ctx (node d c near a far) ->
  exists n, nodes s !! a = Some n /\ child d n = root near /\
            child (flip d) n = root far /\ rb_parent n = ctx_parent ctx /\ rb_color n = c.
Proof. intros (_ & Hrep & _). apply rep_node in Hrep as (Hn & _). exact Hn. Qed.

Lemma heap_inv_read_N (s : sched_cfs_state) (ctx : list frame) (c : rb_color_t)
    (l r : tree) (a : nat) :
  heap_inv s ctx (N c l a r) ->
  exists n, nodes s !! a = Some n /\ rb_left n = root l /\ rb_right n = root r /\
            rb_parent n = ctx_parent ctx /\ rb_color n = c.
Proof. intros (_ & (Hn & _) & _). exact Hn. Qed.

(** [a->rb_color = c'] at the focus. *)
Lemma heap_inv_recolor (s : sched_cfs_state) (ctx : list frame) (c c' : rb_color_t)
    (l r : tree) (a : nat) :
  heap_inv s ctx (N c l a r) ->
  heap_inv (upd a (set_color c') s) ctx (N c' l a r).
Proof.
  intros (Hctx & ((n & Hn & Hl & Hr & Hp & Hc) & Hrl & Hrr) & Hnd).
  simpl in Hnd.
  assert ((a ∉ ctx_ids ctx) /\ (a ∉ inorder l) /\ (a ∉ inorder r)) as (Hac & Hal & Har).
  { apply NoDup_app in Hnd as (_ & Hd & Hnd).
    apply NoDup_app in Hnd as (_ & Hd' & Hnd). apply NoDup_cons in Hnd as (? & _).
    split; [| split]; [| | done].
    - intros Hin. apply (Hd a Hin). set_solver.
    - intros Hin. apply (Hd' a Hin). set_solver. }
  split; [| split]; [| | exact Hnd].
  - apply (rep_ctx_frame (nodes s)); [| exact Hctx].
    intros b Hb. simpl. rewrite lookup_alter_ne by (intros ->; done). done.
  - simpl. split; [| split].
    + exists (set_color c' n). rewrite lookup_alter_eq, Hn. done.
    + apply (rep_frame (nodes s)); [| exact Hrl].
      intros b Hb. rewrite lookup_alter_ne by (intros ->; done). done.
    + apply (rep_frame (nodes s)); [| exact Hrr].
      intros b Hb. rewrite lookup_alter_ne by (intros ->; done). done.
Qed.

Lemma heap_inv_recolor_if (s : sched_cfs_state) (ctx : list frame) (c : rb_color_t)
    (t : tree) :
  heap_inv s ctx t ->
  heap_inv (set_color_if (root t) c s) ctx (recolor c t).
Proof. destruct t; simpl; [done | apply heap_inv_recolor]. Qed.


Lemma rb_rotate_node (d : dir) (s : sched_cfs_state) (ctx : list frame)
    (cx cy : rb_color_t) (α β γ : tree) (x y : nat) :
  heap_inv s ctx (node d cx α x (node d cy β y γ)) ->
  exists s', rb_rotate d x s = Some s' /\
             heap_inv s' ctx (node d cy (node d cx α x β) y γ) /\
             same_payload s s'.
Proof.
  intros (Hctx & Hrep & Hnd).
  apply rep_node in Hrep as ((nx & Hx & Hxn & Hxf & Hxp & Hxc) & Hα & Hrep).
  apply rep_node in Hrep as ((ny & Hy & Hyn & Hyf & Hyp & Hyc) & Hβ & Hγ).
  rewrite !root_node in *.
  assert (NoDup (ctx_ids ctx ++ x :: inorder α ++ y :: inorder β ++ inorder γ)) as Hnd'.
  { revert Hnd. rewrite !inorder_node. done. }
  assert (NoDup (ctx_ids ctx ++ inorder (node d cy (node d cx α x β) y γ))) as Hnd2.
  { revert Hnd'. rewrite !inorder_node.
    intros Hn. eapply NoDup_Permutation_proper; [| exact Hn]. solve_Permutation. }
  clear Hnd. revert Hnd2. split_nodup. intros Hnd2.
  unfold rb_rotate. rewrite Hx. simpl. rewrite Hxf. simpl. rewrite Hy. simpl.
  rewrite Hyn, Hxp.
  set (s2 := match root β with
             | Some c => upd c (set_parent (Some x)) _
             | None => _
             end).
  assert (forall a, a <> x -> root β <> Some a -> nodes s2 !! a = nodes s !! a) as Hs2.
  { intros a Hax Hab. subst s2. destruct (root β) as [b |]; heap_lookup; done. }
  assert (same_payload s s2) as Hp2.
  { subst s2. destruct (root β).
    - eapply same_payload_trans; [| apply same_payload_upd; done].
      apply same_payload_upd. destruct d; done.
    - apply same_payload_upd. destruct d; done. }
  pose proof (root_inorder β) as Hrβ.
  assert (rb_root s2 = rb_root s) as Hr2 by (subst s2; destruct (root β); done).
  assert (nodes s2 !! x = Some (set_child (flip d) (root β) nx)) as Hs2x.
  { subst s2. destruct (root β) as [b |] eqn:Hb; heap_lookup; rewrite Hx; done. }
  assert (forall b nb, root β = Some b -> nodes s !! b = Some nb ->
                       nodes s2 !! b = Some (set_parent (Some x) nb)) as Hs2b.
  { intros b nb Hb Hnb. subst s2. rewrite Hb. heap_lookup. rewrite Hnb. done. }
  assert (x <> y) as Hxy by set_solver.
  assert (root β <> Some x) as Hbx by (intros ?%Hrβ; set_solver).
  assert (root β <> Some y) as Hby by (intros ?%Hrβ; set_solver).
  assert (exists s4,
    match ctx_parent ctx with
    | Some xp =>
        alter (set_parent (ctx_parent ctx)) y (nodes s2) !! xp
        ≫= λ nxp : rb_node,
             if decide (Some x = rb_left nxp) is left _
             then Some (upd xp (set_left (Some y))
                          (upd y (set_parent (ctx_parent ctx)) s2))
             else Some (upd xp (set_right (Some y))
                          (upd y (set_parent (ctx_parent ctx)) s2))
    | None => Some (set_root (Some y) (upd y (set_parent (ctx_parent ctx)) s2))
    end = Some s4 /\
    same_payload s s4 /\
    rb_root s4 = match ctx with [] => Some y | _ => rb_root s end /\
    nodes s4 !! x = Some (set_child (flip d) (root β) nx) /\
    nodes s4 !! y = Some (set_parent (ctx_parent ctx) ny) /\
    (forall b nb, root β = Some b -> nodes s !! b = Some nb ->
                  nodes s4 !! b = Some (set_parent (Some x) nb)) /\
    (forall d' c' xp sib rest n, ctx = Fr d' c' xp sib :: rest -> nodes s !! xp = Some n ->
                  nodes s4 !! xp = Some (set_child d' (Some y) n)) /\
    (forall a, a <> x -> a <> y -> root β <> Some a -> ctx_parent ctx <> Some a ->
               nodes s4 !! a = nodes s !! a)) as (s4 & -> & Hp4 & Hroot4 & H4x & H4y & H4b & H4p & H4o).
  { destruct ctx as [| [d' c' xp sib] rest]; simpl in *.
    - eexists. split; [reflexivity |].
      split; [eapply same_payload_trans; [exact Hp2 | apply same_payload_upd; done] |].
      split; [done |]. simpl.
      repeat split.
      + heap_lookup. exact Hs2x.
      + heap_lookup. rewrite Hs2, Hy by done. done.
      + intros b nb Hb Hnb. heap_lookup. eauto.
      + intros; discriminate.
      + intros a ? ? ? _. heap_lookup. auto.
    - destruct Hctx as ((nxp & Hxp' & Hh & Hs & Hpp & Hcc) & Hsib & Hrest).
      assert (xp <> x /\ xp <> y /\ root β <> Some xp) as (? & ? & ?).
      { split; [| split]; [set_solver | set_solver | intros ?%Hrβ; set_solver]. }
      heap_lookup. rewrite Hs2, Hxp' by done. simpl.
      pose proof (root_inorder sib) as Hrs.
      assert (exists s4, (if decide (Some x = rb_left nxp) is left _
                then Some (upd xp (set_left (Some y)) (upd y (set_parent (Some xp)) s2))
                else Some (upd xp (set_right (Some y)) (upd y (set_parent (Some xp)) s2)))
               = Some s4 /\ s4 = upd xp (set_child d' (Some y)) (upd y (set_parent (Some xp)) s2))
        as (s4 & -> & ->).
      { destruct d'; simpl in *.
        - rewrite decide_True by done. eauto.
        - rewrite decide_False; [eauto |]. rewrite Hs. intros ?%eq_sym%Hrs. set_solver. }
      eexists. split; [reflexivity |].
      split; [eapply same_payload_trans; [exact Hp2 |];
              eapply same_payload_trans; apply same_payload_upd; [| destruct d']; done |].
      split; [exact Hr2 |]. simpl.
      repeat split.
      + heap_lookup. exact Hs2x.
      + heap_lookup. rewrite Hs2, Hy by done. done.
      + intros b nb Hb Hnb. heap_lookup. eauto.
      + intros ? ? ? ? ? n [= <- <- <- <- <-] Hn. heap_lookup. rewrite Hs2 by done.
        rewrite Hn. done.
      + intros a ? ? ? ?. heap_lookup. auto. }
  simpl. eexists. split; [reflexivity |].
  clear s2 Hs2 Hp2 Hr2 Hs2x Hs2b.
  split.
  2:{ eapply same_payload_trans; [exact Hp4 |].
      eapply same_payload_trans; apply same_payload_upd; [destruct d |]; done. }
  assert (forall a, a ∈ ctx_ids ctx -> a <> x /\ a <> y /\ root β <> Some a) as Hcx.
  { intros a Ha. split; [| split]; [set_solver | set_solver | intros ?%Hrβ; set_solver]. }
  split; [| split]; [| | exact Hnd2].
  - rewrite root_node.
    apply (rep_ctx_rehole (nodes s) _ _ (Some x) (Some y) (rb_root s)); [done | | | | done].
    + intros d' c' xp sib rest n -> Hn.
      destruct (Hcx xp) as (? & ? & ?); [set_solver |].
      simpl. heap_lookup. eauto.
    + intros a Ha Hpa. destruct (Hcx a Ha) as (? & ? & ?).
      simpl. heap_lookup. auto.
    + simpl. exact Hroot4.
  - simpl. apply rep_node. rewrite root_node. split; [| split].
    + exists (set_child d (Some x) (set_parent (ctx_parent ctx) ny)).
      heap_lookup. rewrite H4y.
      destruct d; simpl in *; done.
    + apply rep_node. split; [| split].
      * exists (set_parent (Some y) (set_child (flip d) (root β) nx)).
        heap_lookup. rewrite H4x.
        destruct d; simpl in *; done.
      * apply (rep_frame (nodes s)); [| exact Hα].
        intros a Ha. heap_lookup. apply H4o; [set_solver | set_solver | | ].
        -- intros ?%Hrβ; set_solver.
        -- intros Hpa. assert (a ∈ ctx_ids ctx); [| set_solver].
           destruct ctx as [| [? ? ? ?] ?]; simpl in *; [done | set_solver].
      * apply (rep_set_parent (nodes s) _ (Some y)); [done | | | exact Hβ].
        -- intros b nb Hb Hnb. pose proof (Hrβ _ Hb). heap_lookup. eauto.
        -- intros a Ha Hra. heap_lookup. apply H4o; [set_solver | set_solver | done |].
           intros Hpa. assert (a ∈ ctx_ids ctx); [| set_solver].
           destruct ctx as [| [? ? ? ?] ?]; simpl in *; [done | set_solver].
    + apply (rep_frame (nodes s)); [| exact Hγ].
      intros a Ha. heap_lookup. apply H4o; [set_solver | set_solver | | ].
      * intros ?%Hrβ; set_solver.
      * intros Hpa. assert (a ∈ ctx_ids ctx); [| set_solver].
        destruct ctx as [| [? ? ? ?] ?]; simpl in *; [done | set_solver].
Qed.


Lemma heap_inv_recolor_node (s : sched_cfs_state) (ctx : list frame) (d : dir)
    (c c' : rb_color_t) (near far : tree) (a : nat) :
  heap_inv s ctx (node d c near a far) ->
  heap_inv (upd a (set_color c') s) ctx (node d c' near a far).
Proof. destruct d; apply heap_inv_recolor. Qed.

Lemma is_red_spec (s : sched_cfs_state) (ctx : list frame) (t : tree) :
  heap_inv s ctx t ->
  is_red (root t) s = Some (bool_decide (color t = RB_RED)).
Proof.
  destruct t as [| c l a r]; simpl; [done |].
  intros (n & Hn & _ & _ & _ & <-)%heap_inv_read_N. rewrite Hn. done.
Qed.

Lemma null_or_black_spec (s : sched_cfs_state) (ctx : list frame) (t : tree) :
  heap_inv s ctx t ->
  null_or_black (root t) s = Some (bool_decide (color t = RB_BLACK)).
Proof.
  destruct t as [| c l a r]; simpl; [done |].
  intros (n & Hn & _ & _ & _ & <-)%heap_inv_read_N. rewrite Hn. done.
Qed.

(** The test [p == parent->rb_left] finds the side of a child. *)
Lemma side_test (s : sched_cfs_state) (ctx : list frame) (d : dir) (c : rb_color_t)
    (near far : tree) (a p : nat) (n : rb_node) :
  heap_inv s ctx (node d c near a far) ->
  nodes s !! a = Some n ->
  root near = Some p ->
  (if decide (Some p = rb_left n) then Left else Right) = d.
Proof.
  intros Hinv Hn Hp.
  destruct (heap_inv_read _ _ _ _ _ _ _ Hinv) as (n' & Hn' & Hnear & Hfar & _).
  assert (n' = n) as -> by congruence.
  destruct Hinv as (_ & _ & Hnd). apply NoDup_app in Hnd as (_ & _ & Hnd).
  rewrite inorder_node in Hnd. split_nodup.
  pose proof (root_inorder _ _ Hp). pose proof (root_inorder far p).
  destruct d; simpl in *.
  - rewrite decide_True by congruence. done.
  - rewrite decide_False; [done |]. rewrite Hfar. intros Heq. symmetry in Heq. set_solver.
Qed.

(** The test [z == p->child] on the side away from [d]. *)
Lemma inner_test (s : sched_cfs_state) (ctx : list frame) (d1 d2 : dir) (c : rb_color_t)
    (t sib : tree) (p z : nat) (n : rb_node) :
  heap_inv s ctx (node d1 c t p sib) ->
  nodes s !! p = Some n ->
  root t = Some z ->
  (Some z = child (flip d2) n) <-> d1 <> d2.
Proof.
  intros Hinv Hn Hz.
  destruct (heap_inv_read _ _ _ _ _ _ _ Hinv) as (n' & Hn' & Hnear & Hfar & _).
  assert (n' = n) as -> by congruence.
  destruct Hinv as (_ & _ & Hnd). apply NoDup_app in Hnd as (_ & _ & Hnd).
  rewrite inorder_node in Hnd. split_nodup.
  pose proof (root_inorder _ _ Hz). pose proof (root_inorder sib z).
  destruct d1, d2; simpl in *; split; try done; try congruence.
  - rewrite Hfar. intros Heq. symmetry in Heq. set_solver.
  - rewrite Hfar. intros Heq. symmetry in Heq. set_solver.
Qed.

Lemma insert_fixup_outer_spec (s : sched_cfs_state) (rest : list frame) (d : dir)
    (cq cg : rb_color_t) (A B unc : tree) (q g z : nat) :
  heap_inv s (Fr d cq q B :: Fr d cg g unc :: rest) A ->
  root A = Some z ->
  exists s', insert_fixup_outer d z s = Some (s', Some z) /\
             heap_inv s' (Fr d RB_BLACK q (node d RB_RED B g unc) :: rest) A /\
             same_payload s s'.
Proof.
  intros Hinv Hz. unfold insert_fixup_outer.
  destruct A as [| cz l z' r]; simpl in Hz; [done |]. injection Hz as ->.
  destruct (heap_inv_read_N _ _ _ _ _ _ Hinv) as (nz & Hnz & _ & _ & Hpz & _).
  simpl in Hpz. step Hnz. step Hpz.
  apply heap_inv_zip in Hinv. simpl in Hinv.
  apply (heap_inv_recolor_node _ _ _ _ RB_BLACK) in Hinv.
  destruct (heap_inv_read _ _ _ _ _ _ _ Hinv) as (nq & Hnq & _ & _ & Hpq & _).
  simpl in Hpq. step Hnq. step Hpq.
  apply heap_inv_zip in Hinv. simpl in Hinv.
  apply (heap_inv_recolor_node _ _ _ _ RB_RED) in Hinv.
  rewrite <- (node_flip d RB_RED), <- (node_flip d RB_BLACK) in Hinv.
  apply rb_rotate_node in Hinv as (s' & Hrot & Hinv & Hpay). step Hrot.
  exists s'. split; [done |]. split.
  - apply heap_inv_zip. simpl. rewrite <- (node_flip d RB_BLACK), <- (node_flip d RB_RED).
    exact Hinv.
  - eapply same_payload_trans; [| exact Hpay].
    eapply same_payload_trans; apply same_payload_upd; done.
Qed.

(** One iteration of the loop of [rb_insert_fixup] is one [ins_step]. *)
Lemma insert_fixup_iter (s : sched_cfs_state) (ctx : list frame) (t : tree) (z : nat)
    (fuel : nat) :
  heap_inv s ctx t ->
  root t = Some z ->
  (ctx_color ctx = RB_RED -> 2 <= length ctx)%nat ->
  match ins_step ctx t with
  | None => rb_insert_fixup_loop (S fuel) z s = Some s
  | Some (ctx', t') =>
      exists s' z', rb_insert_fixup_loop (S fuel) z s = rb_insert_fixup_loop fuel z' s' /\
                    heap_inv s' ctx' t' /\ root t' = Some z' /\ same_payload s s'
  end.
Proof.
  intros Hinv Hz Hlen.
  destruct t as [| cz l z' r]; simpl in Hz; [done |]. injection Hz as ->.
  destruct (heap_inv_read_N _ _ _ _ _ _ Hinv) as (nz & Hnz & _ & _ & Hpz & _).
  cbn [rb_insert_fixup_loop]. step Hnz. rewrite Hpz.
  destruct ctx as [| [d1 cp p sib] rest]; [done |].
  cbn [ctx_parent].
  pose proof Hinv as Hp. apply heap_inv_zip in Hp. cbn [plug_frame] in Hp.
  destruct (heap_inv_read _ _ _ _ _ _ _ Hp) as (np & Hnp & _ & _ & Hpp & Hcp).
  step Hnp. rewrite Hcp.
  destruct cp; [| rewrite decide_False by done; done].
  rewrite decide_True by done.
  destruct rest as [| [d2 cg g unc] rest]; [simpl in Hlen; specialize (Hlen eq_refl); lia |].
  cbn [ctx_parent] in Hpp. step Hpp.
  pose proof Hp as Hg. apply heap_inv_zip in Hg. cbn [plug_frame] in Hg.
  destruct (heap_inv_read _ _ _ _ _ _ _ Hg) as (ng & Hng & _ & Hunc & _ & _).
  step Hng.
  rewrite (side_test _ _ _ _ _ _ _ _ _ Hg Hng (root_node _ _ _ _ _)).
  unfold insert_fixup_side. step Hng. rewrite Hunc.
  pose proof Hp as Hu. apply heap_inv_sibling in Hu.
  rewrite (is_red_spec _ _ _ Hu). cbn [mbind option_bind].
  cbn [ins_step].
  destruct (color unc) eqn:Hcu.
  - (* red uncle *)
    rewrite bool_decide_true by done.
    exists (upd g (set_color RB_RED)
              (set_color_if (root unc) RB_BLACK (upd p (set_color RB_BLACK) s))), g.
    split; [done |]. split; [| split].
    + apply (heap_inv_recolor_node _ _ _ _ RB_BLACK) in Hp.
      apply heap_inv_sibling in Hp. apply (heap_inv_recolor_if _ _ RB_BLACK) in Hp.
      apply heap_inv_zip in Hp. cbn [plug_frame] in Hp. rewrite node_flip in Hp.
      apply (heap_inv_recolor_node _ _ _ _ RB_RED) in Hp. exact Hp.
    + apply root_node.
    + eapply same_payload_trans; [| apply same_payload_upd; done].
      eapply same_payload_trans; [| apply same_payload_set_color_if].
      apply same_payload_upd; done.
  - (* black uncle *)
    rewrite bool_decide_false by done. step Hnp.
    pose proof (inner_test _ _ _ d2 _ _ _ _ _ _ Hp Hnp eq_refl) as Hin.
    destruct (decide (d1 = d2)) as [-> | Hd].
    + rewrite decide_False by tauto. cbn [mbind option_bind].
      destruct (insert_fixup_outer_spec _ _ _ _ _ _ _ _ _ _ _ Hinv eq_refl)
        as (s' & Hs' & Hinv' & Hpay).
      rewrite Hs'. cbn [mbind option_bind]. exists s', z. done.
    + rewrite decide_True by tauto.
      assert (d1 = flip d2) as -> by (destruct d1, d2; done).
      rewrite node_flip, (node_sub d2 cz l r z) in Hp.
      apply rb_rotate_node in Hp as (s1 & Hrot & Hinv1 & Hpay1). step Hrot.
      apply heap_inv_down in Hinv1.
      destruct (insert_fixup_outer_spec _ _ _ _ _ _ _ _ _ _ p Hinv1 (root_node _ _ _ _ _))
        as (s' & Hs' & Hinv' & Hpay).
      rewrite Hs'. cbn [mbind option_bind]. exists s', p.
      split; [done |]. split; [exact Hinv' |]. split; [apply root_node |].
      eapply same_payload_trans; eassumption.
Qed.

(** *** Insertion on trees *)

Lemma inorder_plug (ctx : list frame) (t : tree) :
  inorder (plug ctx t) = ctx_before ctx ++ inorder t ++ ctx_after ctx.
Proof.
  revert t. induction ctx as [| [[] c a sib] rest IH]; intros t; simpl.
  - rewrite app_nil_r. done.
  - rewrite IH. simpl. rewrite <- !app_assoc. done.
  - rewrite IH. simpl. rewrite <- !app_assoc. done.
Qed.

Lemma inorder_recolor (c : rb_color_t) (t : tree) : inorder (recolor c t) = inorder t.
Proof. destruct t; done. Qed.

Lemma bh_node (d : dir) (c : rb_color_t) (near far : tree) (a : nat) :
  bh near = bh far -> bh (node d c near a far) = (bh near + black c)%nat.
Proof. destruct d; simpl; congruence. Qed.

Lemma color_cases (c : rb_color_t) : c = RB_RED \/ c = RB_BLACK.
Proof. destruct c; auto. Qed.

(** A red-black subtree in a red-black context is a red-black tree. *)
Lemma plug_rb (ctx : list frame) (u : tree) :
  ctx_rb ctx (bh u) -> no_red_red u -> balanced u ->
  (ctx_color ctx = RB_RED -> color u = RB_BLACK) ->
  no_red_red (plug ctx u) /\ balanced (plug ctx u) /\
  (ctx <> [] -> color (plug ctx u) = RB_BLACK).
Proof.
  revert u. induction ctx as [| [d c a sib] rest IH]; intros u; simpl; [done |].
  intros (Hns & Hbs & Hh & Hred & Hrest) Hnu Hbu Hcu.
  destruct (IH (node d c u a sib)) as (H1 & H2 & H3).
  - rewrite bh_node by done. exact Hrest.
  - destruct d; simpl; (split; [| split]); try done; intros Hc; split; tauto.
  - destruct d; simpl; done.
  - intros Hr. destruct c; [| destruct d; done]. destruct Hred as (_ & ? & _); congruence.
  - split; [done |]. split; [done |]. intros _.
    destruct rest as [| f rest]; [| apply H3; done]. simpl.
    destruct c; [| destruct d; done]. destruct Hred as (_ & _ & ?); done.
Qed.

(** The parts of a red-black tree. *)
Lemma unplug_rb (ctx : list frame) (u : tree) :
  no_red_red (plug ctx u) -> balanced (plug ctx u) -> color (plug ctx u) = RB_BLACK ->
  ctx_rb ctx (bh u) /\ no_red_red u /\ balanced u /\
  (ctx_color ctx = RB_RED -> color u = RB_BLACK) /\
  (color u = RB_RED -> ctx <> []).
Proof.
  revert u. induction ctx as [| [d c a sib] rest IH]; intros u; simpl.
  - intros ? ? Hc. repeat split; try done. congruence.
  - intros H1 H2 H3. destruct (IH _ H1 H2 H3) as (Hrest & Hn & Hb & Hc & Hne).
    assert (bh sib = bh u /\ no_red_red sib /\ balanced sib /\ no_red_red u /\ balanced u /\
            (c = RB_RED -> color sib = RB_BLACK /\ color u = RB_BLACK) /\
            color (node d c u a sib) = c)
      as (Hh & Hns & Hbs & Hnu & Hbu & Hcc & Hcn).
    { destruct d; simpl in *; repeat split; try tauto; try lia; intros; tauto. }
    rewrite bh_node in Hrest by done. rewrite Hcn in *.
    repeat split; try done; try tauto.
    destruct (color_cases (ctx_color rest)) as [Hr |]; [| done].
    specialize (Hc Hr). congruence.
Qed.


Lemma ins_step_inorder (ctx ctx' : list frame) (t t' : tree) :
  ins_step ctx t = Some (ctx', t') ->
  inorder (plug ctx' t') = inorder (plug ctx t) /\ (length ctx' < length ctx)%nat.
Proof.
  unfold ins_step. intros Hstep.
  destruct ctx as [| [d1 [] p sib] [| [d2 cg g unc] rest]]; try done.
  destruct (color unc).
  - simplify_eq. simpl. split; [| lia]. rewrite !inorder_plug. f_equal. f_equal.
    destruct d1, d2; simpl; rewrite ?inorder_recolor; done.
  - destruct (decide (d1 = d2)) as [-> |].
    + simplify_eq. split; [| simpl; lia]. simpl. rewrite !inorder_plug. f_equal. f_equal.
      destruct d2; list_eq.
    + destruct t as [| cz l z r]; [done |]. simplify_eq.
      split; [| simpl; lia]. simpl. rewrite !inorder_plug. f_equal. f_equal.
      destruct d1, d2; try done; list_eq.
Qed.

Lemma ins_step_inv (ctx ctx' : list frame) (t t' : tree) :
  ins_inv ctx t ->
  ins_step ctx t = Some (ctx', t') ->
  ins_inv ctx' t'.
Proof.
  unfold ins_step. intros Hinv Hstep.
  destruct t as [| [] l z r]; try done.
  destruct Hinv as (Hcl & Hcr & Hnl & Hnr & (Hbl & Hbr & Hh) & Hctx).
  destruct ctx as [| [d1 [] p sib] [| [d2 cg g unc] rest]]; try done.
  destruct Hctx as (Hns & Hbs & Hhs & Hred & Hnu & Hbu & Hhu & Hredg & Hrest).
  destruct (Hred eq_refl) as (Hcs & Hcg & _). simpl in Hcg. subst cg.
  simpl in Hhs, Hhu, Hrest. rewrite Nat.add_0_r in *.
  destruct (color unc) eqn:Hcu.
  - simplify_eq. destruct unc as [| cu ul u ur]; [done |]. simpl in Hcu. subst cu.
    simpl in Hnu, Hbu, Hhu.
    destruct d1, d2; simpl; rewrite ?Nat.add_0_r, ?Nat.add_1_r in *;
      repeat split; try tauto; try lia; try congruence.
  - destruct (decide (d1 = d2)) as [-> |].
    + simplify_eq.
      destruct d2; simpl in *; rewrite ?Nat.add_0_r in *;
        repeat split; try tauto; try lia; try congruence.
    + simplify_eq.
      destruct d1, d2; try done; simpl in *; rewrite ?Nat.add_0_r in *;
        repeat split; try tauto; try lia; try congruence.
Qed.

Lemma ins_inv_length (ctx : list frame) (t : tree) :
  ins_inv ctx t -> (ctx_color ctx = RB_RED -> 2 <= length ctx)%nat.
Proof.
  destruct t as [| [] l z r]; try done. intros (_ & _ & _ & _ & _ & Hctx) Hc.
  destruct ctx as [| [d c p sib] [| f rest]]; simpl in *; try done; [| lia].
  subst c. destruct Hctx as (_ & _ & _ & Hred & _). destruct (Hred eq_refl) as (_ & _ & ?). done.
Qed.

Lemma ins_step_done (ctx : list frame) (t : tree) :
  ins_inv ctx t ->
  ins_step ctx t = None ->
  red_black (recolor RB_BLACK (plug ctx t)).
Proof.
  intros Hinv Hstep. pose proof (ins_inv_length _ _ Hinv) as Hlen.
  destruct t as [| [] l z r]; try done.
  destruct Hinv as (Hcl & Hcr & Hnl & Hnr & (Hbl & Hbr & Hh) & Hctx).
  destruct ctx as [| [d1 c1 p sib] rest].
  - simpl. repeat split; try done.
  - assert (c1 = RB_BLACK) as ->.
    { destruct c1; [| done]. exfalso. unfold ins_step in Hstep.
      destruct rest as [| [d2 cg g unc] rest]; [simpl in Hlen; specialize (Hlen eq_refl); lia |].
      destruct (color unc); [done |]. destruct (decide (d1 = d2)); done. }
    destruct (plug_rb (Fr d1 RB_BLACK p sib :: rest) (N RB_RED l z r)) as (H1 & H2 & H3).
    + exact Hctx.
    + simpl. tauto.
    + simpl. tauto.
    + done.
    + specialize (H3 ltac:(done)).
      remember (plug (Fr d1 RB_BLACK p sib :: rest) (N RB_RED l z r)) as T eqn:HT.
      clear HT. destruct T as [| c' l' a' r']; [done |].
      simpl in H3. subst c'. simpl in *. repeat split; tauto.
Qed.

Lemma ins_loop_spec (fuel : nat) (ctx : list frame) (t : tree) :
  ins_inv ctx t -> (length ctx <= fuel)%nat ->
  red_black (recolor RB_BLACK (ins_loop fuel ctx t)) /\
  inorder (ins_loop fuel ctx t) = inorder (plug ctx t).
Proof.
  revert ctx t. induction fuel as [| fuel IH]; intros ctx t Hinv Hlen.
  - destruct ctx; [| simpl in Hlen; lia]. simpl. split; [| done].
    apply (ins_step_done [] t Hinv). done.
  - simpl. destruct (ins_step ctx t) as [[ctx' t'] |] eqn:Hstep.
    + destruct (ins_step_inorder _ _ _ _ Hstep) as (Hio & Hl).
      destruct (IH ctx' t') as (H1 & H2); [eapply ins_step_inv; eassumption | lia |].
      split; [done | congruence].
    + split; [apply ins_step_done; done | done].
Qed.

Lemma rep_lookup (h : gmap nat rb_node) (par : option nat) (t : tree) (a : nat) :
  rep h par t -> a ∈ inorder t -> is_Some (h !! a).
Proof.
  revert par. induction t as [| c l IHl b r IHr]; intros par; simpl; [set_solver |].
  intros ((n & Hn & _) & Hl & Hr) [Ha | [-> | Ha]%elem_of_cons]%elem_of_app; eauto.
Qed.

Lemma rep_ctx_lookup (h : gmap nat rb_node) (ctx : list frame) (hole top : option nat)
    (a : nat) :
  rep_ctx h ctx hole top -> a ∈ ctx_ids ctx -> is_Some (h !! a).
Proof.
  revert hole. induction ctx as [| [d c b sib] rest IH]; intros hole; simpl; [set_solver |].
  intros ((n & Hn & _) & Hs & Hr) [-> | [Ha | Ha]%elem_of_app]%elem_of_cons; eauto.
  eapply rep_lookup; eassumption.
Qed.

Lemma heap_inv_lookup (s : sched_cfs_state) (ctx : list frame) (t : tree) (a : nat) :
  heap_inv s ctx t -> a ∈ ctx_ids ctx ++ inorder t -> is_Some (nodes s !! a).
Proof.
  intros (Hctx & Hrep & _) [Ha | Ha]%elem_of_app.
  - eapply rep_ctx_lookup; eassumption.
  - eapply rep_lookup; eassumption.
Qed.

(** The nodes of the tree are nodes of the memory, so no path is longer
    than [loop_bound]. *)
Lemma heap_inv_size (s : sched_cfs_state) (ctx : list frame) (t : tree) :
  heap_inv s ctx t -> (length (ctx_ids ctx ++ inorder t) < loop_bound s)%nat.
Proof.
  intros Hinv. unfold loop_bound.
  assert (length (ctx_ids ctx ++ inorder t) <= size (nodes s))%nat; [| lia].
  rewrite <- size_dom.
  rewrite <- (size_list_to_set (C := gset nat)) by apply Hinv.
  apply subseteq_size. intros a Ha%elem_of_list_to_set.
  apply elem_of_dom. eapply heap_inv_lookup; eassumption.
Qed.

Lemma ctx_ids_length (ctx : list frame) : (length ctx <= length (ctx_ids ctx))%nat.
Proof.
  induction ctx as [| [d c a sib] rest IH]; simpl; [lia |].
  rewrite length_app. lia.
Qed.

Lemma rb_insert_fixup_loop_spec (n fuel : nat) (s : sched_cfs_state) (ctx : list frame)
    (t : tree) (z : nat) :
  heap_inv s ctx t -> root t = Some z -> ins_inv ctx t ->
  (length ctx <= n)%nat -> (n < fuel)%nat ->
  exists s', rb_insert_fixup_loop fuel z s = Some s' /\
             heap_inv s' [] (ins_loop n ctx t) /\ same_payload s s'.
Proof.
  revert fuel s ctx t z. induction n as [| n IH]; intros fuel s ctx t z Hinv Hz Hins Hn Hfuel.
  - destruct ctx; [| simpl in Hn; lia]. destruct fuel as [| fuel]; [lia |].
    pose proof (insert_fixup_iter s [] t z fuel Hinv Hz (ins_inv_length _ _ Hins)) as Hit.
    simpl in Hit. exists s. split; [exact Hit |]. split; [exact Hinv | apply same_payload_refl].
  - destruct fuel as [| fuel]; [lia |].
    pose proof (insert_fixup_iter s ctx t z fuel Hinv Hz (ins_inv_length _ _ Hins)) as Hit.
    cbn [ins_loop]. destruct (ins_step ctx t) as [[ctx' t'] |] eqn:Hstep.
    + destruct Hit as (s1 & z1 & Heq & Hinv1 & Hz1 & Hpay1).
      destruct (ins_step_inorder _ _ _ _ Hstep) as (_ & Hlen).
      destruct (IH fuel s1 ctx' t' z1) as (s' & Hs' & Hinv' & Hpay');
        [done | done | eapply ins_step_inv; eassumption | lia | lia |].
      exists s'. rewrite Heq. split; [done |]. split; [done |].
      eapply same_payload_trans; eassumption.
    + exists s. split; [exact Hit |].
      split; [apply (heap_inv_plug s ctx t), Hinv | apply same_payload_refl].
Qed.

Lemma plug_not_E (ctx : list frame) (t : tree) : t <> E -> plug ctx t <> E.
Proof.
  revert t. induction ctx as [| [[] c a sib] rest IH]; intros t Ht; simpl; [done | |];
    apply IH; done.
Qed.

Lemma ins_loop_not_E (fuel : nat) (ctx : list frame) (t : tree) :
  t <> E -> ins_loop fuel ctx t <> E.
Proof.
  revert ctx t. induction fuel as [| fuel IH]; intros ctx t Ht; simpl; [apply plug_not_E, Ht |].
  destruct (ins_step ctx t) as [[ctx' t'] |] eqn:Hstep; [| apply plug_not_E, Ht].
  apply IH. unfold ins_step in Hstep.
  destruct ctx as [| [d1 [] p sib] [| [d2 cg g unc] rest]]; try done.
  destruct (color unc); [simplify_eq; destruct d2; done |].
  destruct (decide (d1 = d2)); [simplify_eq; done |].
  destruct t; [done |]. simplify_eq. destruct d2; done.
Qed.

Lemma rb_insert_fixup_spec (s : sched_cfs_state) (ctx : list frame) (t : tree) (z : nat) :
  heap_inv s ctx t -> root t = Some z -> ins_inv ctx t ->
  exists s', rb_insert_fixup z s = Some s' /\
             heap_inv s' [] (recolor RB_BLACK (ins_loop (length ctx) ctx t)) /\
             same_payload s s'.
Proof.
  intros Hinv Hz Hins. unfold rb_insert_fixup.
  destruct (rb_insert_fixup_loop_spec (length ctx) (loop_bound s) s ctx t z)
    as (s1 & Hs1 & Hinv1 & Hpay1); [done | done | done | lia | |].
  { pose proof (heap_inv_size _ _ _ Hinv) as Hsz. rewrite length_app in Hsz.
    pose proof (ctx_ids_length ctx). lia. }
  step Hs1.
  assert (ins_loop (length ctx) ctx t <> E) as Hne.
  { apply ins_loop_not_E. destruct t; done. }
  destruct (ins_loop (length ctx) ctx t) as [| c l a r] eqn:Hloop; [done |].
  pose proof Hinv1 as (Hroot & _). simpl in Hroot. step Hroot.
  destruct (heap_inv_read_N _ _ _ _ _ _ Hinv1) as (nr & Hnr & _).
  step Hnr. eexists. split; [reflexivity |]. split.
  - apply (heap_inv_recolor _ _ c). exact Hinv1.
  - eapply same_payload_trans; [exact Hpay1 | apply same_payload_upd; done].
Qed.

(** *** Order *)

Lemma sorted_app (key : nat -> Z) (l1 l2 : list nat) :
  sorted key (l1 ++ l2) <->
  sorted key l1 /\ sorted key l2 /\
  forall x y, x ∈ l1 -> y ∈ l2 -> key x <= key y.
Proof.
  induction l1 as [| a l1 IH]; simpl.
  - split; [intros ?; repeat split; [done | set_solver] | tauto].
  - rewrite IH, Forall_app, !Forall_forall. split.
    + intros ((H1 & H2) & H3 & H4 & H5). repeat split; try done.
      intros x y [-> | Hx]%elem_of_cons Hy; auto.
    + intros ((H1 & H2) & H3 & H4). repeat split; try done.
      * intros y Hy. apply H4; set_solver.
      * intros x y Hx Hy. apply H4; set_solver.
Qed.

Lemma sorted_ext (key key' : nat -> Z) (l : list nat) :
  (forall a, a ∈ l -> key' a = key a) -> sorted key l -> sorted key' l.
Proof.
  induction l as [| a l IH]; simpl; [done |].
  intros Hk (H1 & H2). split.
  - rewrite Forall_forall in *. intros b Hb. rewrite !Hk by set_solver. auto.
  - apply IH; [| done]. intros b Hb. apply Hk. set_solver.
Qed.

Lemma sorted_insert (key : nat -> Z) (l1 l2 : list nat) (z : nat) :
  sorted key (l1 ++ l2) ->
  (forall a, a ∈ l1 -> key a <= key z) ->
  (forall a, a ∈ l2 -> key z < key a) ->
  sorted key (l1 ++ z :: l2).
Proof.
  rewrite !sorted_app. simpl. rewrite Forall_forall.
  intros (H1 & H2 & H3) Hl Hr. repeat split; try done.
  - intros b Hb. specialize (Hr b Hb). lia.
  - intros x y Hx [-> | Hy]%elem_of_cons; auto.
Qed.

Lemma sorted_delete (key : nat -> Z) (l1 l2 : list nat) (z : nat) :
  sorted key (l1 ++ z :: l2) -> sorted key (l1 ++ l2).
Proof.
  rewrite !sorted_app. simpl.
  intros (H1 & (_ & H2) & H3). repeat split; try done.
  intros x y Hx Hy. apply H3; set_solver.
Qed.

(** *** The descent of [rb_insert] *)

Lemma ins_path_plug (key : nat -> Z) (k : Z) (ctx : list frame) (t : tree) :
  plug (ins_path key k ctx t) E = plug ctx t.
Proof.
  revert ctx. induction t as [| c l IHl a r IHr]; intros ctx; simpl; [done |].
  destruct (decide (k < key a)); [rewrite IHl | rewrite IHr]; done.
Qed.

Lemma ins_path_on_path (key : nat -> Z) (k : Z) (ctx : list frame) (t : tree) :
  Forall (on_path key k) ctx -> Forall (on_path key k) (ins_path key k ctx t).
Proof.
  revert ctx. induction t as [| c l IHl a r IHr]; intros ctx Hctx; simpl; [done |].
  destruct (decide (k < key a)); [apply IHl | apply IHr]; constructor; simpl; try done; lia.
Qed.

(** Everything before the place found by the descent has a key at most
    [k], everything after it a greater key. *)
Lemma on_path_order (key : nat -> Z) (k : Z) (ctx : list frame) :
  Forall (on_path key k) ctx ->
  sorted key (ctx_before ctx ++ ctx_after ctx) ->
  (forall a, a ∈ ctx_before ctx -> key a <= k) /\
  (forall a, a ∈ ctx_after ctx -> k < key a).
Proof.
  induction ctx as [| [[] c a sib] rest IH]; simpl.
  - intros _ _. split; intros a Ha; set_solver.
  - intros [Hk Hrest]%Forall_cons Hs. simpl in Hk.
    apply sorted_app in Hs as (Hb & Ha & Hba). simpl in Ha. destruct Ha as (Ha & Hs').
    apply sorted_app in Hs' as (Hsib & Hafter & Hsa).
    destruct IH as (IH1 & IH2); [done | |].
    { apply sorted_app. repeat split; try done. intros x y Hx Hy. apply Hba; set_solver. }
    split; [exact IH1 |].
    intros b [-> | [Hb' | Hb']%elem_of_app]%elem_of_cons; [done | | auto].
    rewrite Forall_forall in Ha. specialize (Ha b). assert (key a <= key b); [| lia].
    apply Ha. set_solver.
  - intros [Hk Hrest]%Forall_cons Hs. simpl in Hk.
    rewrite <- !app_assoc in Hs. simpl in Hs.
    apply sorted_app in Hs as (Hb & Ha & Hba).
    apply sorted_app in Ha as (Hsib & Ha & Hsa). simpl in Ha.
    destruct IH as (IH1 & IH2); [done | |].
    { apply sorted_app. repeat split; try done; try tauto.
      intros x y Hx Hy. apply Hba; set_solver. }
    split; [| exact IH2].
    intros b [Hb' | [Hb' | Hb']%elem_of_app]%elem_of_app; [auto | |].
    + assert (key b <= key a); [| lia]. apply Hsa; set_solver.
    + assert (b = a) as -> by set_solver. done.
Qed.

Lemma key_of_lookup (s : sched_cfs_state) (a : nat) (n : rb_node) :
  nodes s !! a = Some n -> key_of s a = vruntime n.
Proof. unfold key_of. intros ->. done. Qed.

Lemma same_payload_key (s s' : sched_cfs_state) (a : nat) :
  same_payload s s' -> key_of s' a = key_of s a.
Proof.
  intros (_ & _ & _ & _ & Hv). specialize (Hv a). unfold key_of.
  destruct (nodes s' !! a), (nodes s !! a); simpl in Hv; congruence.
Qed.

Lemma insert_descend_spec (fuel : nat) (s : sched_cfs_state) (ctx : list frame)
    (t : tree) (k : Z) :
  heap_inv s ctx t -> (length (inorder t) <= fuel)%nat ->
  insert_descend fuel k (ctx_parent ctx) (root t) s =
  Some (ctx_parent (ins_path (key_of s) k ctx t)).
Proof.
  revert fuel ctx. induction t as [| c l IHl a r IHr]; intros fuel ctx Hinv Hfuel.
  - destruct fuel; done.
  - simpl in Hfuel. rewrite length_app in Hfuel. simpl in Hfuel.
    destruct fuel as [| fuel]; [lia |].
    destruct (heap_inv_read_N _ _ _ _ _ _ Hinv) as (na & Hna & Hl & Hr & _).
    cbn [insert_descend root ins_path]. step Hna.
    rewrite (key_of_lookup _ _ _ Hna).
    destruct (decide (k < vruntime na)).
    + rewrite Hl. apply (IHl fuel (Fr Left c a r :: ctx)); [| lia].
      apply (heap_inv_down s Left). exact Hinv.
    + rewrite Hr. apply (IHr fuel (Fr Right c a l :: ctx)); [| lia].
      apply (heap_inv_down s Right). exact Hinv.
Qed.

Lemma heap_inv_ext (s s' : sched_cfs_state) (ctx : list frame) (t : tree) :
  nodes s' = nodes s -> rb_root s' = rb_root s ->
  heap_inv s ctx t -> heap_inv s' ctx t.
Proof. unfold heap_inv. intros -> ->. done. Qed.

Lemma ins_inv_leaf (ctx : list frame) (z : nat) :
  red_black (plug ctx E) -> ins_inv ctx (N RB_RED E z E).
Proof.
  intros (Hc & Hn & Hb). destruct (unplug_rb ctx E Hn Hb Hc) as (Hctx & _).
  simpl. repeat split; done.
Qed.

(** [rb_insert] on trees: the result is a red-black tree, holds the new
    node at its place in the order, and the first node changes only when
    the new key is smaller than the first key. *)
Lemma ins_spec (key : nat -> Z) (z : nat) (t : tree) :
  red_black t -> sorted key (inorder t) ->
  red_black (ins key z t) /\
  inorder t = ctx_before (ins_path key (key z) [] t) ++ ctx_after (ins_path key (key z) [] t) /\
  inorder (ins key z t) =
    ctx_before (ins_path key (key z) [] t) ++ z :: ctx_after (ins_path key (key z) [] t) /\
  sorted key (inorder (ins key z t)) /\
  head (inorder (ins key z t)) =
    match head (inorder t) with
    | None => Some z
    | Some lm => if decide (key z < key lm) then Some z else Some lm
    end.
Proof.
  intros Hrb Hs. unfold ins.
  set (ctx := ins_path key (key z) [] t).
  assert (plug ctx E = t) as Hplug by apply ins_path_plug.
  assert (inorder t = ctx_before ctx ++ ctx_after ctx) as Hio.
  { rewrite <- Hplug at 1. rewrite inorder_plug. done. }
  destruct (ins_loop_spec (length ctx) ctx (N RB_RED E z E)) as (Hrb' & Hio');
    [apply ins_inv_leaf; rewrite Hplug; done | lia |].
  rewrite inorder_recolor, Hio', inorder_plug. simpl.
  destruct (on_path_order key (key z) ctx) as (Hbefore & Hafter).
  { apply ins_path_on_path. constructor. }
  { rewrite <- Hio. done. }
  split; [done |]. split; [done |]. split; [done |]. split.
  - apply sorted_insert; [rewrite <- Hio; done | done | done].
  - rewrite Hio. destruct (ctx_before ctx) as [| b bs] eqn:Hb; simpl.
    + destruct (ctx_after ctx) as [| a l] eqn:Ha; simpl; [done |].
      rewrite decide_True; [done |]. apply Hafter. set_solver.
    + rewrite decide_False; [done |].
      assert (key b <= key z) by (apply Hbefore; set_solver). lia.
Qed.

(** The new node is linked below the node found by the descent. *)
Lemma rb_insert_link (s : sched_cfs_state) (ctx : list frame) (z : nat) (nz : rb_node) :
  heap_inv s ctx E ->
  nodes s !! z = Some nz ->
  z ∉ ctx_ids ctx ->
  Forall (on_path (key_of s) (vruntime nz)) ctx ->
  let s1 := upd z (set_color RB_RED) (upd z (set_right None) (upd z (set_left None)
              (upd z (set_parent (ctx_parent ctx)) s))) in
  exists s2,
    match ctx_parent ctx with
    | None => Some (set_root (Some z) s1)
    | Some a =>
        na ← nodes s1 !! a;
        if decide (vruntime nz < vruntime na)
        then Some (upd a (set_left (Some z)) s1)
        else Some (upd a (set_right (Some z)) s1)
    end = Some s2 /\
    heap_inv s2 ctx (N RB_RED E z E) /\ same_payload s s2.
Proof.
  intros (Hctx & _ & Hnd) Hz Hzc Hpath s1.
  assert (same_payload s s1) as Hpay1.
  { subst s1. do 3 (eapply same_payload_trans; [| apply same_payload_upd; done]).
    apply same_payload_upd; done. }
  assert (nodes s1 !! z = Some (set_color RB_RED (set_right None (set_left None
            (set_parent (ctx_parent ctx) nz))))) as Hz1.
  { subst s1. heap_lookup. rewrite Hz. done. }
  assert (forall a, a <> z -> nodes s1 !! a = nodes s !! a) as Ho1.
  { intros a Ha. subst s1. heap_lookup. done. }
  assert (rb_root s1 = rb_root s) as Hr1 by done.
  clearbody s1. rewrite app_nil_r in Hnd.
  destruct ctx as [| [d c a sib] rest].
  - eexists. split; [reflexivity |]. split; [| eapply same_payload_trans; [exact Hpay1 | apply same_payload_set_root]].
    split; [| split]; simpl.
    + done.
    + split; [| done]. eexists. split; [exact Hz1 | done].
    + apply NoDup_singleton.
  - destruct Hctx as ((na & Hna & Hh & Hs & Hp & Hc) & Hsib & Hrest).
    assert (a <> z) as Haz by (simpl in Hzc; set_solver).
    cbn [ctx_parent]. rewrite (Ho1 a Haz). step Hna.
    apply Forall_cons in Hpath as (Hk & _). rewrite <- (key_of_lookup _ _ _ Hna).
    assert (exists s2, (if decide (vruntime nz < key_of s a)
                        then Some (upd a (set_left (Some z)) s1)
                        else Some (upd a (set_right (Some z)) s1)) = Some s2 /\
                       s2 = upd a (set_child d (Some z)) s1) as (s2 & -> & ->).
    { destruct d; simpl in Hk.
      - rewrite decide_True by done. eauto.
      - rewrite decide_False by lia. eauto. }
    eexists. split; [reflexivity |].
    split; [| eapply same_payload_trans; [exact Hpay1 | apply same_payload_upd; destruct d; done]].
    split; [| split].
    + apply (rep_ctx_rehole (nodes s) _ _ None (Some z) (rb_root s)); [done | | | | ].
      * intros d' c' a' sib' rest' n [= <- <- <- <- <-] Hn. heap_lookup.
        rewrite (Ho1 a Haz), Hn. done.
      * intros b Hb Hpb. simpl in Hpb. heap_lookup. apply Ho1. intros ->. done.
      * exact Hr1.
      * simpl. split; [| done]. exists na. done.
    + simpl. split; [| done]. eexists. heap_lookup. split; [exact Hz1 | done].
    + apply NoDup_app. split; [done |]. split; [| apply NoDup_singleton].
      intros b Hb Hbz. assert (b = z) as -> by set_solver. done.
Qed.

(** [rb_insert] of a node that is not in the tree. *)
Lemma rb_insert_spec (s : sched_cfs_state) (t : tree) (z : nat) :
  rb_inv s t -> is_Some (nodes s !! z) -> z ∉ inorder t ->
  exists s', rb_insert z s = Some s' /\ rb_inv s' (ins (key_of s) z t) /\
             (forall a, key_of s' a = key_of s a) /\
             dom (nodes s') = dom (nodes s) /\
             count s' = wrap_int (count s + 1) /\
             min_vruntime s' = min_vruntime s.
Proof.
  intros [Hheap Hrb Hsorted Hcache] (nz & Hz) Hzt.
  destruct (ins_spec (key_of s) z t Hrb Hsorted) as (Hrb' & Hio & Hio' & Hsorted' & Hhead).
  rewrite (key_of_lookup _ _ _ Hz) in Hio, Hio', Hhead.
  unfold ins in Hio'. rewrite (key_of_lookup _ _ _ Hz) in Hio'.
  unfold rb_insert. step Hz.
  set (ctx := ins_path (key_of s) (vruntime nz) [] t) in *.
  assert (plug ctx E = t) as Hplug by apply ins_path_plug.
  assert (rb_root s = root t) as Hroot by apply Hheap.
  rewrite Hroot.
  pose proof (insert_descend_spec (loop_bound s) s [] t (vruntime nz) Hheap) as Hd.
  cbn [ctx_parent] in Hd. rewrite Hd.
  2:{ pose proof (heap_inv_size _ _ _ Hheap) as Hsz. simpl in Hsz. lia. }
  clear Hd. cbn [mbind option_bind]. fold ctx.
  assert (heap_inv s ctx E) as Hleaf.
  { apply heap_inv_plug. rewrite Hplug. exact Hheap. }
  assert (z ∉ ctx_ids ctx) as Hzc.
  { intros Hin. apply Hzt. destruct Hleaf as (_ & _ & Hnd).
    assert (ctx_ids ctx ++ inorder E ≡ₚ inorder (plug ctx E)) as Hperm.
    { clear. generalize E. induction ctx as [| [d c a sib] rest IH]; intros u; simpl.
      - done.
      - rewrite <- IH, inorder_node. solve_Permutation. }
    rewrite <- Hplug, <- Hperm. set_solver. }
  destruct (rb_insert_link s ctx z nz Hleaf Hz Hzc) as (s2 & Hs2 & Hinv2 & Hpay2).
  { apply ins_path_on_path. constructor. }
  cbv zeta in Hs2. step Hs2.
  assert (exists s3,
    match rb_leftmost s2 with
    | Some lm =>
        nodes s2 !! lm
        ≫= λ nl : rb_node,
             if decide (vruntime nz < vruntime nl) is left _
             then Some (set_leftmost (Some z) s2)
             else Some s2
    | None => Some (set_leftmost (Some z) s2)
    end = Some s3 /\ nodes s3 = nodes s2 /\ rb_root s3 = rb_root s2 /\
    count s3 = count s2 /\ min_vruntime s3 = min_vruntime s2 /\
    rb_leftmost s3 = head (inorder (ins (key_of s) z t))) as
    (s3 & Hs3 & Hn3 & Hr3 & Hc3 & Hm3 & Hl3).
  { destruct Hpay2 as (Hlm & _ & _ & _ & Hv).
    rewrite Hlm, Hcache, Hhead. destruct (head (inorder t)) as [lm |] eqn:Hlm'.
    - assert (is_Some (nodes s !! lm)) as (nl & Hnl).
      { eapply (heap_inv_lookup s [] t); [done |]. simpl.
        destruct (inorder t); simplify_eq; set_solver. }
      specialize (Hv lm). rewrite Hnl in Hv.
      destruct (nodes s2 !! lm) as [nl' |] eqn:Hnl'; [| done]. simpl in Hv.
      injection Hv as Hv. cbn [mbind option_bind].
      rewrite (key_of_lookup _ _ _ Hnl), Hv.
      destruct (decide (vruntime nz < vruntime nl)); eexists; (split; [reflexivity |]);
        repeat split; simpl; congruence.
    - eexists. split; [reflexivity |]. repeat split. }
  step Hs3.
  assert (heap_inv s3 ctx (N RB_RED E z E)) as Hinv3 by (eapply heap_inv_ext; eassumption).
  destruct (rb_insert_fixup_spec s3 ctx (N RB_RED E z E) z Hinv3 eq_refl)
    as (s4 & Hs4 & Hinv4 & Hpay4).
  { apply ins_inv_leaf. rewrite Hplug. exact Hrb. }
  step Hs4. eexists. split; [reflexivity |].
  assert (forall a, key_of s4 a = key_of s a) as Hkey.
  { intros a. rewrite (same_payload_key s3 s4) by done.
    unfold key_of. rewrite Hn3. apply (same_payload_key s s2). done. }
  assert (ins (key_of s) z t =
          recolor RB_BLACK (ins_loop (length ctx) ctx (N RB_RED E z E))) as Hins.
  { unfold ins. rewrite (key_of_lookup _ _ _ Hz). done. }
  split; [| split; [exact Hkey |]].
  - split.
    + rewrite Hins. eapply heap_inv_ext; [| | exact Hinv4]; done.
    + exact Hrb'.
    + eapply sorted_ext; [| exact Hsorted']. intros a _. apply Hkey.
    + simpl. destruct Hpay4 as (-> & _). exact Hl3.
  - simpl. destruct Hpay4 as (_ & Hm4 & Hc4 & Hd4 & _), Hpay2 as (_ & Hm2 & Hc2 & Hd2 & _).
    rewrite Hd4, Hn3, Hd2, Hc4, Hc3, Hc2, Hm4, Hm3, Hm2. done.
Qed.

End rbtree.

Section rbtree_remove.
Import Cfs RBTree RBRemove.

(** *** Removal on trees *)

Lemma no_red_red_recolor (t : tree) :
  match t with E => True | N _ l _ r => no_red_red l /\ no_red_red r end ->
  no_red_red (recolor RB_BLACK t).
Proof. destruct t; simpl; [done |]. intros (? & ?). repeat split; done. Qed.

Lemma balanced_recolor (c : rb_color_t) (t : tree) : balanced t -> balanced (recolor c t).
Proof. destruct t; done. Qed.

Lemma red_black_recolor (t : tree) :
  no_red_red t -> balanced t -> red_black (recolor RB_BLACK t).
Proof.
  intros Hn Hb. split; [destruct t; done |]. split; [| apply balanced_recolor, Hb].
  apply no_red_red_recolor. destruct t; simpl in *; tauto.
Qed.

Lemma del_sibling_inorder (ctx : list frame) (t : tree) :
  inorder (plug (del_sibling ctx) t) = inorder (plug ctx t) /\
  (length (ctx_ids (del_sibling ctx)) = length (ctx_ids ctx)) /\
  (ctx <> [] -> exists d cp xp w rest, del_sibling ctx = Fr d cp xp w :: rest /\
     (length (ctx_ids rest) < length (ctx_ids ctx))%nat).
Proof.
  destruct ctx as [| [d cp xp w] rest]; [done |].
  destruct w as [| [] wl w wr]; simpl.
  - split; [done |]. split; [done |]. intros _. do 5 eexists. split; [done |]. simpl. lia.
  - split; [| split].
    + rewrite !inorder_plug. f_equal. f_equal. destruct d; list_eq.
    + destruct d; simpl; rewrite !length_app; simpl; rewrite ?length_app; simpl; lia.
    + intros _. do 5 eexists. split; [done |].
      destruct d; simpl; rewrite !length_app; simpl; rewrite ?length_app; simpl; lia.
  - split; [done |]. split; [done |]. intros _. do 5 eexists. split; [done |].
    simpl. rewrite !length_app. simpl. lia.
Qed.

Lemma del_step_inorder (ctx : list frame) (t : tree) :
  ctx <> [] ->
  match del_step ctx t with
  | inl (ctx', t') =>
      inorder (plug ctx' t') = inorder (plug ctx t) /\
      (length (ctx_ids ctx') < length (ctx_ids ctx))%nat
  | inr whole => inorder whole = inorder (plug ctx t)
  end.
Proof.
  intros Hne. unfold del_step.
  destruct (del_sibling_inorder ctx t) as (Hio & Hlen & Hex).
  destruct (Hex Hne) as (d & cp & xp & w & rest & Heq & Hlt). rewrite Heq in *.
  destruct (children_black d w).
  - split; [| done]. rewrite <- Hio. simpl. rewrite !inorder_plug. f_equal. f_equal.
    destruct d; simpl; rewrite inorder_recolor; done.
  - destruct (del_inner d w) as [| cw' wl' a wr'] eqn:Hw'; [done |].
    rewrite <- Hio. simpl. rewrite !inorder_plug. f_equal. f_equal.
    assert (inorder (N cw' wl' a wr') = inorder w) as Hiw.
    { rewrite <- Hw'. unfold del_inner.
      destruct (color (sub (flip d) w)); [done |].
      destruct w as [| cw wl ww wr]; [done |].
      destruct (sub d (N cw wl ww wr)) as [| cn nl b nr] eqn:Hn; [done |].
      destruct d; simpl in *; subst; list_eq. }
    destruct d; simpl; rewrite inorder_recolor, <- Hiw; list_eq.
Qed.

Lemma del_sibling_inv (ctx : list frame) (t : tree) :
  del_inv ctx t -> ctx <> [] ->
  del_inv (del_sibling ctx) t /\
  exists d cp xp w rest, del_sibling ctx = Fr d cp xp w :: rest /\
                         color w = RB_BLACK /\ w <> E.
Proof.
  intros (Ht & Hb & Hctx) Hne.
  destruct ctx as [| [d cp xp w] rest]; [done |].
  destruct Hctx as (Hnw & Hbw & Hhw & Hred & Hrest).
  destruct w as [| [] wl w wr]; simpl in *.
  - lia.
  - destruct cp; [destruct (Hred eq_refl); done |]. simpl in Hrest.
    split.
    + split; [done |]. split; [done |].
      destruct d; simpl; rewrite ?Nat.add_0_r in *;
        repeat split; try tauto; try lia; try congruence;
        replace (bh wr) with (bh wl) by lia; rewrite Hhw; exact Hrest.
    + do 5 eexists. split; [done |].
      destruct Hnw as (_ & _ & Hc). destruct (Hc eq_refl) as (Hl & Hr).
      assert (bh wl = bh wr) by tauto.
      destruct d; simpl; (split; [done |]); intros ->; simpl in *; lia.
  - split; [repeat split; tauto |]. do 5 eexists. done.
Qed.

Lemma children_black_true (d : dir) (w : tree) :
  children_black d w = true ->
  w <> E -> color (sub d w) = RB_BLACK /\ color (sub (flip d) w) = RB_BLACK.
Proof.
  destruct w; simpl; [done |]. intros (?%bool_decide_eq_true & ?%bool_decide_eq_true)%andb_true_iff _.
  done.
Qed.

Lemma del_step_inv (ctx : list frame) (t : tree) :
  del_inv ctx t -> color t = RB_BLACK -> ctx <> [] ->
  match del_step ctx t with
  | inl (ctx', t') => del_inv ctx' t'
  | inr whole => red_black (recolor RB_BLACK whole)
  end.
Proof.
  intros Hinv Hct Hne. unfold del_step.
  destruct (del_sibling_inv ctx t Hinv Hne)
    as ((Ht & Hb & Hctx) & d & cp & xp & w & rest & Heq & Hcw & Hwne).
  rewrite Heq in *.
  assert (no_red_red t) as Hnt.
  { destruct t; simpl in *; [done |]. subst. repeat split; try tauto; congruence. }
  destruct Hctx as (Hnw & Hbw & Hhw & Hred & Hrest).
  destruct w as [| cw wl ww wr]; [done |]. simpl in Hcw. subst cw.
  destruct (children_black d (N RB_BLACK wl ww wr)) eqn:Hcb.
  - apply children_black_true in Hcb as (Hc1 & Hc2); [| done].
    simpl in Hnw, Hbw, Hhw.
    split; [| split].
    + destruct d; simpl in *; repeat split; try tauto; intros _; tauto.
    + destruct d; simpl in *; repeat split; try tauto; lia.
    + replace (S (bh (node d cp t xp (recolor RB_RED (N RB_BLACK wl ww wr)))))
        with (S (bh t) + black cp)%nat; [exact Hrest |].
      destruct d; simpl in *; lia.
  - assert (exists cn a wn wf, del_inner d (N RB_BLACK wl ww wr) = node d cn wn a wf /\
              color wf = RB_RED /\ no_red_red wn /\
              match wf with E => True | N _ l _ r => no_red_red l /\ no_red_red r end /\
              balanced wn /\ balanced wf /\ bh wn = bh t /\ bh wf = bh t)
      as (cn & a & wn & wf & Hin & Hcf & Hnn & Hnf & Hbn & Hbf & Hhn & Hhf).
    { unfold del_inner, children_black in *. simpl in Hnw, Hbw, Hhw.
      apply andb_false_iff in Hcb.
      destruct d; simpl in *.
      - destruct (color wr) eqn:Hcr.
        + exists RB_BLACK, ww, wl, wr. destruct wr; simpl in *; [done |].
          repeat split; try tauto; lia.
        + destruct wl as [| [] a wn b]; simpl in *.
          * destruct Hcb as [Hcb | Hcb];
            first [discriminate Hcb | apply bool_decide_eq_false in Hcb; congruence].
          * exists RB_BLACK, wn, a, (N RB_RED b ww wr). simpl.
            repeat split; try tauto; try lia; try congruence.
          * destruct Hcb as [Hcb | Hcb];
            first [discriminate Hcb | apply bool_decide_eq_false in Hcb; congruence].
      - destruct (color wl) eqn:Hcl.
        + exists RB_BLACK, ww, wr, wl. destruct wl; simpl in *; [done |].
          repeat split; try tauto; lia.
        + destruct wr as [| [] a wn b]; simpl in *.
          * destruct Hcb as [Hcb | Hcb];
            first [discriminate Hcb | apply bool_decide_eq_false in Hcb; congruence].
          * exists RB_BLACK, wn, b, (N RB_RED wl ww a). simpl.
            repeat split; try tauto; try lia; try congruence.
          * destruct Hcb as [Hcb | Hcb];
            first [discriminate Hcb | apply bool_decide_eq_false in Hcb; congruence]. }
    rewrite Hin.
    assert (exists x, node d cn wn a wf = N cn (sub Left (node d cn wn a wf)) x
                        (sub Right (node d cn wn a wf)) /\ x = a) as (x & Hx & ->).
    { destruct d; eexists; done. }
    rewrite Hx. rewrite <- Hx. rewrite sub_node_near, sub_node_far.
    set (u := node d cp (node d RB_BLACK t xp wn) a (recolor RB_BLACK wf)).
    destruct (plug_rb rest u) as (H1 & H2 & H3).
    + replace (bh u) with (S (bh t) + black cp)%nat; [exact Hrest |].
      subst u. clear Hx. destruct d; simpl; destruct wf; simpl in *; try done; subst; simpl in *; lia.
    + subst u. destruct wf as [| cf fl f fr]; [done |]. simpl in Hcf. subst cf.
      destruct d; simpl in *; repeat split; try tauto; congruence.
    + subst u. destruct wf as [| cf fl f fr]; [done |]. simpl in Hcf. subst cf.
      destruct d; simpl in *; repeat split; try tauto; lia.
    + intros Hr. subst u. destruct cp; [| destruct d; done].
      destruct (Hred eq_refl) as (_ & ? & _). congruence.
    + apply red_black_recolor; done.
Qed.

Lemma del_loop_spec (fuel : nat) (ctx : list frame) (t : tree) :
  del_inv ctx t -> (length (ctx_ids ctx) <= fuel)%nat ->
  red_black (del_loop fuel ctx t) /\
  inorder (del_loop fuel ctx t) = inorder (plug ctx t).
Proof.
  revert ctx t. induction fuel as [| fuel IH]; intros ctx t Hinv Hlen.
  - destruct ctx as [| [] ?]; [| simpl in Hlen; lia]. simpl.
    destruct Hinv as (Ht & Hb & _). rewrite inorder_recolor.
    split; [| done]. split; [destruct t; done |].
    split; [apply no_red_red_recolor, Ht | apply balanced_recolor, Hb].
  - destruct ctx as [| f rest] eqn:Hctx.
    { simpl. destruct Hinv as (Ht & Hb & _). rewrite inorder_recolor.
      split; [| done]. split; [destruct t; done |].
      split; [apply no_red_red_recolor, Ht | apply balanced_recolor, Hb]. }
    rewrite <- Hctx in *. assert (ctx <> []) as Hne by (subst; done).
    assert (del_loop (S fuel) ctx t =
            match color t with
            | RB_RED => plug ctx (recolor RB_BLACK t)
            | RB_BLACK =>
                match del_step ctx t with
                | inl (ctx', t') => del_loop fuel ctx' t'
                | inr whole => recolor RB_BLACK whole
                end
            end) as -> by (subst; done).
    clear Hctx f rest.
    destruct (color t) eqn:Hct.
    + destruct Hinv as (Ht & Hb & Hrb).
      destruct (plug_rb ctx (recolor RB_BLACK t)) as (H1 & H2 & H3).
      * destruct t as [| [] l a r]; try done. simpl in *. rewrite Nat.add_0_r in Hrb.
        rewrite Nat.add_1_r. exact Hrb.
      * apply no_red_red_recolor, Ht.
      * apply balanced_recolor, Hb.
      * destruct t; done.
      * split; [split; [apply H3, Hne | done] |].
        rewrite !inorder_plug, inorder_recolor. done.
    + pose proof (del_step_inv ctx t Hinv Hct Hne) as Hstep.
      pose proof (del_step_inorder ctx t Hne) as Hio.
      destruct (del_step ctx t) as [[ctx' t'] | whole].
      * destruct Hio as (Hio & Hlt). destruct (IH ctx' t' Hstep) as (H1 & H2); [lia |].
        split; [done | congruence].
      * rewrite inorder_recolor. done.
Qed.

(** *** The loop of [rb_remove_fixup] in memory *)

Lemma remove_fixup_sibling_spec (s : sched_cfs_state) (d : dir) (cp : rb_color_t)
    (xp : nat) (w t : tree) (rest : list frame) :
  heap_inv s (Fr d cp xp w :: rest) t ->
  exists s' cp' w' rest',
    del_sibling (Fr d cp xp w :: rest) = Fr d cp' xp w' :: rest' /\
    remove_fixup_sibling d xp s = Some (s', root w') /\
    heap_inv s' (Fr d cp' xp w' :: rest') t /\ same_payload s s'.
Proof.
  intros Hinv. unfold remove_fixup_sibling.
  pose proof (heap_inv_up _ _ _ _ _ _ _ Hinv) as Hup.
  destruct (heap_inv_read _ _ _ _ _ _ _ Hup) as (nxp & Hnxp & _ & Hw & _ & _).
  step Hnxp. rewrite Hw.
  pose proof Hinv as Hsib. apply heap_inv_sibling in Hsib.
  rewrite (is_red_spec _ _ _ Hsib). cbn [mbind option_bind].
  destruct w as [| [] wl ww wr].
  - exists s, cp, E, rest. rewrite bool_decide_false by done.
    split; [done |]. split; [done |]. split; [exact Hinv | apply same_payload_refl].
  - rewrite bool_decide_true by done.
    apply (heap_inv_recolor_if _ _ RB_BLACK) in Hsib.
    apply heap_inv_up in Hsib. rewrite node_flip in Hsib.
    apply (heap_inv_recolor_node _ _ _ _ RB_RED) in Hsib.
    cbn [recolor] in Hsib. rewrite (node_sub d RB_BLACK wl wr ww) in Hsib.
    apply rb_rotate_node in Hsib as (s' & Hrot & Hinv' & Hpay).
    cbn [root] in Hrot |- *. step Hrot.
    apply heap_inv_down in Hinv'.
    destruct (heap_inv_read _ _ _ _ _ _ _ Hinv') as (nxp' & Hnxp' & _ & Hw' & _ & _).
    step Hnxp'. rewrite Hw'.
    apply heap_inv_down in Hinv'.
    eexists s', RB_RED, _, _. split; [reflexivity |]. split; [reflexivity |].
    split; [exact Hinv' |].
    eapply same_payload_trans; [| exact Hpay].
    eapply same_payload_trans; [apply same_payload_set_color_if | apply same_payload_upd; done].
  - exists s, cp, (N RB_BLACK wl ww wr), rest. rewrite bool_decide_false by done.
    split; [done |]. split; [done |]. split; [exact Hinv | apply same_payload_refl].
Qed.

Lemma sibling_children_black_spec (s : sched_cfs_state) (ctx : list frame) (d : dir)
    (w : tree) :
  heap_inv s ctx w ->
  sibling_children_black d (root w) s = Some (children_black d w).
Proof.
  intros Hinv. destruct w as [| cw wl ww wr]; [done |].
  rewrite (node_sub d) in Hinv.
  destruct (heap_inv_read _ _ _ _ _ _ _ Hinv) as (nw & Hnw & Hn & Hf & _ & _).
  cbn [sibling_children_black root]. step Hnw. rewrite Hn, Hf.
  pose proof (heap_inv_down _ _ _ _ _ _ _ Hinv) as Hnear.
  rewrite <- node_flip in Hinv.
  pose proof (heap_inv_down _ _ _ _ _ _ _ Hinv) as Hfar.
  rewrite (null_or_black_spec _ _ _ Hnear), (null_or_black_spec _ _ _ Hfar). done.
Qed.

Lemma remove_fixup_inner_spec (s : sched_cfs_state) (d : dir) (cp : rb_color_t)
    (xp a : nat) (w t : tree) (rest : list frame) :
  heap_inv s (Fr d cp xp w :: rest) t ->
  root w = Some a ->
  (color (sub (flip d) w) = RB_BLACK -> sub d w <> E) ->
  exists s', remove_fixup_inner d xp a s = Some (s', root (del_inner d w)) /\
             heap_inv s' (Fr d cp xp (del_inner d w) :: rest) t /\ same_payload s s'.
Proof.
  intros Hinv Hroot Hnear. unfold remove_fixup_inner, del_inner.
  destruct w as [| cw wl a' wr]; [done |]. injection Hroot as ->.
  pose proof Hinv as Hsib. apply heap_inv_sibling in Hsib.
  rewrite (node_sub d) in Hsib.
  destruct (heap_inv_read _ _ _ _ _ _ _ Hsib) as (nw & Hnw & Hn & Hf & _ & _).
  step Hnw. rewrite Hf.
  pose proof Hsib as Hfar. rewrite <- node_flip in Hfar. apply heap_inv_down in Hfar.
  rewrite (null_or_black_spec _ _ _ Hfar). cbn [mbind option_bind].
  destruct (color (sub (flip d) (N cw wl a wr))) eqn:Hcf.
  - rewrite bool_decide_false by done. exists s.
    split; [done |]. split; [exact Hinv | apply same_payload_refl].
  - rewrite bool_decide_true by done. specialize (Hnear eq_refl).
    destruct (sub d (N cw wl a wr)) as [| cn nl b nr] eqn:Hwn; [done |].
    rewrite Hn.
    apply heap_inv_down in Hsib.
    apply (heap_inv_recolor_if _ _ RB_BLACK) in Hsib. apply heap_inv_up in Hsib.
    apply (heap_inv_recolor_node _ _ _ _ RB_RED) in Hsib.
    cbn [recolor] in Hsib. rewrite (node_sub d RB_BLACK nl nr b) in Hsib.
    rewrite <- (node_flip d RB_RED), <- (node_flip d RB_BLACK) in Hsib.
    apply rb_rotate_node in Hsib as (s' & Hrot & Hinv' & Hpay).
    cbn [root] in Hrot |- *. step Hrot.
    rewrite (node_flip d RB_RED), (node_flip d RB_BLACK) in Hinv'.
    apply heap_inv_sibling in Hinv'. rewrite <- (node_flip d RB_RED) in Hinv'.
    replace (flip (flip d)) with d in Hinv' by (destruct d; done).
    pose proof (heap_inv_up _ _ _ _ _ _ _ Hinv') as Hup.
    destruct (heap_inv_read _ _ _ _ _ _ _ Hup) as (nxp & Hnxp & _ & Hw' & _ & _).
    step Hnxp. rewrite Hw'.
    assert (node d RB_BLACK (sub d (N RB_BLACK nl b nr)) b
              (node (flip d) RB_RED (sub (flip d) (N cw wl a wr)) a
                 (sub (flip d) (N RB_BLACK nl b nr))) =
            node d RB_BLACK (sub d (N cn nl b nr)) b
              (node d RB_RED (sub (flip d) (N cn nl b nr)) a
                 (sub (flip d) (N cw wl a wr)))) as Heq by (destruct d; done).
    rewrite Heq in *.
    exists s'. split; [done |]. split.
    + exact Hinv'.
    + eapply same_payload_trans; [| exact Hpay].
      eapply same_payload_trans; [apply same_payload_set_color_if | apply same_payload_upd; done].
Qed.

Lemma remove_fixup_outer_spec (s : sched_cfs_state) (d : dir) (cp : rb_color_t)
    (xp a : nat) (w t : tree) (rest : list frame) :
  heap_inv s (Fr d cp xp w :: rest) t ->
  root w = Some a ->
  exists s', remove_fixup_outer d xp a s = Some s' /\
             heap_inv s' rest (node d cp (node d RB_BLACK t xp (sub d w)) a
                                 (recolor RB_BLACK (sub (flip d) w))) /\
             same_payload s s'.
Proof.
  intros Hinv Hroot. unfold remove_fixup_outer.
  destruct w as [| cw wl a' wr]; [done |]. injection Hroot as ->.
  pose proof (heap_inv_up _ _ _ _ _ _ _ Hinv) as Hup.
  destruct (heap_inv_read _ _ _ _ _ _ _ Hup) as (nxp & Hnxp & _ & _ & _ & Hcp).
  step Hnxp. rewrite Hcp.
  apply heap_inv_sibling in Hinv.
  destruct (heap_inv_read_N _ _ _ _ _ _ Hinv) as (na & Hna & _).
  step Hna.
  apply (heap_inv_recolor _ _ _ cp) in Hinv. apply heap_inv_up in Hinv.
  rewrite node_flip in Hinv. apply (heap_inv_recolor_node _ _ _ _ RB_BLACK) in Hinv.
  apply heap_inv_down, heap_inv_sibling in Hinv.
  rewrite (node_sub d) in Hinv.
  destruct (heap_inv_read _ _ _ _ _ _ _ Hinv) as (nw & Hnw & _ & Hf & _ & _).
  step Hnw. rewrite Hf.
  rewrite <- node_flip in Hinv. apply heap_inv_down in Hinv.
  apply (heap_inv_recolor_if _ _ RB_BLACK) in Hinv.
  apply heap_inv_up in Hinv. rewrite node_flip in Hinv.
  apply heap_inv_up in Hinv. rewrite node_flip in Hinv.
  apply rb_rotate_node in Hinv as (s' & Hrot & Hinv' & Hpay).
  exists s'. split; [exact Hrot |]. split.
  - assert (sub d (N cp wl a wr) = sub d (N cw wl a wr) /\
            sub (flip d) (N cp wl a wr) = sub (flip d) (N cw wl a wr)) as (<- & <-)
      by (destruct d; done).
    exact Hinv'.
  - eapply same_payload_trans; [| exact Hpay].
    eapply same_payload_trans; [| apply same_payload_set_color_if].
    eapply same_payload_trans; apply same_payload_upd; done.
Qed.

Lemma rep_ctx_top (h : gmap nat rb_node) (ctx : list frame) (hole top : option nat) :
  rep_ctx h ctx hole top -> ctx <> [] -> exists a, top = Some a /\ a ∈ ctx_ids ctx.
Proof.
  revert hole. induction ctx as [| [d c a sib] rest IH]; intros hole; [done |].
  intros (_ & _ & Hrest) _. destruct rest as [| f rest'].
  - exists a. simpl in *. split; [done | set_solver].
  - destruct (IH _ Hrest) as (b & -> & Hb); [done |].
    exists b. split; [done |]. simpl in *. set_solver.
Qed.

(** The test [x != rb_root]: [x] is the root only when it has no
    parent. *)
Lemma root_test (s : sched_cfs_state) (ctx : list frame) (t : tree) :
  heap_inv s ctx t -> (root t <> rb_root s <-> ctx <> []).
Proof.
  intros (Hctx & _ & Hnd). split.
  - intros Hne ->. simpl in Hctx. congruence.
  - intros Hne. destruct (rep_ctx_top _ _ _ _ Hctx Hne) as (a & -> & Ha).
    intros Hr%root_inorder. apply NoDup_app in Hnd as (_ & Hd & _).
    apply (Hd a); done.
Qed.

(** The test [x == x_parent->rb_left] finds the side of [x], which may
    be null, when its sibling is not. *)
Lemma side_test_null (s : sched_cfs_state) (d : dir) (c : rb_color_t) (xp : nat)
    (w t : tree) (rest : list frame) (n : rb_node) :
  heap_inv s (Fr d c xp w :: rest) t ->
  nodes s !! xp = Some n ->
  w <> E ->
  (if decide (root t = rb_left n) then Left else Right) = d.
Proof.
  intros Hinv Hn Hw.
  pose proof (heap_inv_up _ _ _ _ _ _ _ Hinv) as Hup.
  destruct (heap_inv_read _ _ _ _ _ _ _ Hup) as (n' & Hn' & Hnear & Hfar & _).
  assert (n' = n) as -> by congruence.
  destruct Hinv as (_ & _ & Hnd). simpl in Hnd. split_nodup.
  destruct d; simpl in *.
  - rewrite decide_True by done. done.
  - rewrite decide_False; [done |]. rewrite Hfar.
    destruct w as [| cw wl a wr]; [done |]. simpl.
    intros Hr%root_inorder. set_solver.
Qed.

(** One iteration of the loop of [rb_remove_fixup] is one [del_step]. *)
Lemma remove_fixup_iter (s : sched_cfs_state) (ctx : list frame) (t : tree) (fuel : nat) :
  heap_inv s ctx t -> del_inv ctx t -> ctx <> [] -> color t = RB_BLACK ->
  match del_step ctx t with
  | inl (ctx', t') =>
      exists s', rb_remove_fixup_loop (S fuel) (root t) (ctx_parent ctx) s =
                 rb_remove_fixup_loop fuel (root t') (ctx_parent ctx') s' /\
                 heap_inv s' ctx' t' /\ same_payload s s'
  | inr whole =>
      exists s', rb_remove_fixup_loop (S fuel) (root t) (ctx_parent ctx) s =
                 Some (s', root whole) /\
                 heap_inv s' [] whole /\ same_payload s s'
  end.
Proof.
  intros Hinv Hdel Hne Hct.
  cbn [rb_remove_fixup_loop].
  rewrite (bool_decide_true (root t <> rb_root s)) by (apply (root_test s ctx t); done).
  rewrite (null_or_black_spec _ _ _ Hinv). cbn [mbind option_bind].
  rewrite bool_decide_true by done.
  destruct ctx as [| [d cp xp w] rest]; [done |]. cbn [ctx_parent mbind option_bind].
  assert (w <> E) as Hw.
  { destruct Hdel as (_ & _ & _ & _ & Hh & _). intros ->. simpl in Hh. lia. }
  pose proof (heap_inv_up _ _ _ _ _ _ _ Hinv) as Hup.
  destruct (heap_inv_read _ _ _ _ _ _ _ Hup) as (nxp & Hnxp & _).
  step Hnxp. rewrite (side_test_null _ _ _ _ _ _ _ _ Hinv Hnxp Hw).
  unfold remove_fixup_side, del_step.
  destruct (remove_fixup_sibling_spec _ _ _ _ _ _ _ Hinv)
    as (s1 & cp' & w' & rest' & Hsib & Hs1 & Hinv1 & Hpay1).
  rewrite Hsib. step Hs1.
  pose proof Hinv1 as Hw1. apply heap_inv_sibling in Hw1.
  rewrite (sibling_children_black_spec _ _ d _ Hw1). cbn [mbind option_bind].
  destruct (children_black d w') eqn:Hcb.
  - apply (heap_inv_recolor_if _ _ RB_RED) in Hw1. apply heap_inv_up in Hw1.
    rewrite node_flip in Hw1.
    destruct (heap_inv_read _ _ _ _ _ _ _ Hw1) as (nxp' & Hnxp' & _ & _ & Hp' & _).
    step Hnxp'. rewrite Hp'. rewrite root_node.
    eexists. split; [reflexivity |]. split; [exact Hw1 |].
    eapply same_payload_trans; [exact Hpay1 | apply same_payload_set_color_if].
  - destruct w' as [| cw wl a wr]; [done |]. cbn [root mbind option_bind].
    destruct (remove_fixup_inner_spec _ _ _ _ a _ _ _ Hinv1 eq_refl)
      as (s2 & Hs2 & Hinv2 & Hpay2).
    { intros Hfar Hnear. unfold children_black in Hcb. rewrite Hnear, Hfar in Hcb. done. }
    step Hs2.
    assert (exists c' l' a' r', del_inner d (N cw wl a wr) = N c' l' a' r')
      as (c' & l' & a' & r' & Hin).
    { unfold del_inner. destruct (color (sub (flip d) (N cw wl a wr))); [eauto |].
      destruct (sub d (N cw wl a wr)); [eauto |]. destruct d; simpl; eauto. }
    rewrite Hin in *. cbn [root mbind option_bind].
    destruct (remove_fixup_outer_spec _ _ _ _ a' _ _ _ Hinv2 eq_refl)
      as (s3 & Hs3 & Hinv3 & Hpay3).
    step Hs3. apply heap_inv_plug in Hinv3.
    assert (rb_root s3 = root (plug rest' (node d cp' (node d RB_BLACK t xp
              (sub d (N c' l' a' r'))) a' (recolor RB_BLACK (sub (flip d) (N c' l' a' r'))))))
      as -> by apply Hinv3.
    eexists. split; [reflexivity |]. split; [exact Hinv3 |].
    eapply same_payload_trans; [exact Hpay1 |]. eapply same_payload_trans; eassumption.
Qed.

Lemma rb_remove_fixup_loop_spec (n fuel : nat) (s : sched_cfs_state) (ctx : list frame)
    (t : tree) :
  heap_inv s ctx t -> del_inv ctx t ->
  (length (ctx_ids ctx) <= n)%nat -> (n < fuel)%nat ->
  exists s' x, rb_remove_fixup_loop fuel (root t) (ctx_parent ctx) s = Some (s', x) /\
               heap_inv (set_color_if x RB_BLACK s') [] (del_loop n ctx t) /\
               (forall a, x = Some a -> is_Some (nodes s' !! a)) /\
               same_payload s s'.
Proof.
  revert fuel s ctx t. induction n as [| n IH]; intros fuel s ctx t Hinv Hdel Hn Hfuel.
  - destruct ctx as [| [] ?]; [| simpl in Hn; lia]. destruct fuel as [| fuel]; [lia |].
    cbn [rb_remove_fixup_loop].
    rewrite (bool_decide_false (root t <> rb_root s))
      by (rewrite (root_test s [] t Hinv); tauto).
    exists s, (root t). split; [done |]. split; [| split].
    + simpl. apply heap_inv_recolor_if, Hinv.
    + intros a Ha. apply (heap_inv_lookup s [] t a Hinv). simpl.
      apply root_inorder, Ha.
    + apply same_payload_refl.
  - destruct fuel as [| fuel]; [lia |].
    destruct (decide (ctx = [])) as [-> | Hne].
    { cbn [rb_remove_fixup_loop].
      rewrite (bool_decide_false (root t <> rb_root s))
        by (rewrite (root_test s [] t Hinv); tauto).
      exists s, (root t). split; [done |]. split; [| split].
      + simpl. apply heap_inv_recolor_if, Hinv.
      + intros a Ha. apply (heap_inv_lookup s [] t a Hinv). simpl.
        apply root_inorder, Ha.
      + apply same_payload_refl. }
    assert (del_loop (S n) ctx t =
            match color t with
            | RB_RED => plug ctx (recolor RB_BLACK t)
            | RB_BLACK =>
                match del_step ctx t with
                | inl (ctx', t') => del_loop n ctx' t'
                | inr whole => recolor RB_BLACK whole
                end
            end) as -> by (destruct ctx; done).
    destruct (color t) eqn:Hct.
    + cbn [rb_remove_fixup_loop].
      rewrite (bool_decide_true (root t <> rb_root s)) by (apply (root_test s ctx t); done).
      rewrite (null_or_black_spec _ _ _ Hinv). cbn [mbind option_bind]. rewrite Hct.
      rewrite (bool_decide_false (RB_RED = RB_BLACK)) by done.
      exists s, (root t). split; [done |]. split; [| split].
      * apply (heap_inv_plug _ ctx). apply heap_inv_recolor_if, Hinv.
      * intros a Ha. apply (heap_inv_lookup s ctx t a Hinv).
        apply elem_of_app. right. apply root_inorder, Ha.
      * apply same_payload_refl.
    + pose proof (remove_fixup_iter s ctx t fuel Hinv Hdel Hne Hct) as Hit.
      pose proof (del_step_inv ctx t Hdel Hct Hne) as Hstep.
      pose proof (del_step_inorder ctx t Hne) as Hio.
      destruct (del_step ctx t) as [[ctx' t'] | whole].
      * destruct Hit as (s1 & Heq & Hinv1 & Hpay1). destruct Hio as (_ & Hlt).
        destruct (IH fuel s1 ctx' t' Hinv1 Hstep) as (s' & x & Hs' & Hinv' & Hx & Hpay');
          [lia | lia |].
        exists s', x. rewrite Heq. split; [done |]. split; [done |]. split; [done |].
        eapply same_payload_trans; eassumption.
      * destruct Hit as (s1 & Heq & Hinv1 & Hpay1).
        exists s1, (root whole). split; [done |]. split; [| split; [| done]].
        -- apply heap_inv_recolor_if, Hinv1.
        -- intros a Ha. apply (heap_inv_lookup s1 [] whole a Hinv1). simpl.
           apply root_inorder, Ha.
Qed.

Lemma rb_remove_fixup_spec (s : sched_cfs_state) (ctx : list frame) (t : tree) :
  heap_inv s ctx t -> del_inv ctx t ->
  exists s', rb_remove_fixup (root t) (ctx_parent ctx) s = Some s' /\
             heap_inv s' [] (del_loop (length (ctx_ids ctx)) ctx t) /\
             same_payload s s'.
Proof.
  intros Hinv Hdel. unfold rb_remove_fixup.
  destruct (rb_remove_fixup_loop_spec (length (ctx_ids ctx)) (loop_bound s) s ctx t)
    as (s' & x & Hs' & Hinv' & Hx & Hpay); [done | done | lia | |].
  { pose proof (heap_inv_size _ _ _ Hinv) as Hsz. rewrite length_app in Hsz. lia. }
  step Hs'. destruct x as [a |].
  - destruct (Hx a eq_refl) as (na & Hna). step Hna.
    eexists. split; [reflexivity |]. split; [exact Hinv' |].
    eapply same_payload_trans; [exact Hpay | apply same_payload_upd; done].
  - eexists. split; [reflexivity |]. split; [exact Hinv' | exact Hpay].
Qed.

(** *** The unlinking of [rb_remove] in memory *)

Lemma min_plug (ctx : list frame) (t : tree) :
  plug (min_ctx ctx t) (min_sub t) = plug ctx t.
Proof.
  revert ctx. induction t as [| c l IHl a r _]; intros ctx; [done |].
  destruct l as [| cl ll al rl]; [done |].
  change (plug (min_ctx (Fr Left c a r :: ctx) (N cl ll al rl)) (min_sub (N cl ll al rl)) =
          plug ctx (N c (N cl ll al rl) a r)).
  rewrite IHl. done.
Qed.

Lemma min_sub_shape (t : tree) :
  t <> E -> exists cy y ry, min_sub t = N cy E y ry.
Proof.
  induction t as [| c l IHl a r _]; [done |]. intros _.
  destruct l as [| cl ll al rl]; [eauto |]. apply IHl. done.
Qed.

Lemma min_ctx_app (ctx : list frame) (t : tree) :
  min_ctx ctx t = min_ctx [] t ++ ctx.
Proof.
  revert ctx. induction t as [| c l IHl a r _]; intros ctx; [done |].
  destruct l as [| cl ll al rl]; [done |].
  change (min_ctx (Fr Left c a r :: ctx) (N cl ll al rl) =
          min_ctx [Fr Left c a r] (N cl ll al rl) ++ ctx).
  rewrite (IHl (Fr Left c a r :: ctx)), (IHl [Fr Left c a r]), <- app_assoc. done.
Qed.

Lemma min_ctx_before (t : tree) : ctx_before (min_ctx [] t) = [].
Proof.
  assert (forall ctx, ctx_before ctx = [] -> ctx_before (min_ctx ctx t) = []) as H;
    [| apply H; done].
  induction t as [| c l IHl a r _]; intros ctx Hctx; [done |].
  destruct l as [| cl ll al rl]; [done |].
  apply (IHl (Fr Left c a r :: ctx)). done.
Qed.

Lemma min_ctx_nil (t : tree) :
  min_ctx [] t = [] -> min_sub t = t.
Proof.
  destruct t as [| ct lt at' rt]; [done |]. destruct lt as [| cl ll al rl]; [done |].
  intros H. exfalso. change (min_ctx [Fr Left ct at' rt] (N cl ll al rl) = []) in H.
  rewrite min_ctx_app in H. destruct (min_ctx [] (N cl ll al rl)); done.
Qed.

Lemma ctx_before_app (c1 c2 : list frame) :
  ctx_before (c1 ++ c2) = ctx_before c2 ++ ctx_before c1.
Proof.
  induction c1 as [| [[] c a sib] rest IH]; simpl.
  - rewrite app_nil_r. done.
  - done.
  - rewrite IH, <- !app_assoc. done.
Qed.

Lemma ctx_after_app (c1 c2 : list frame) :
  ctx_after (c1 ++ c2) = ctx_after c1 ++ ctx_after c2.
Proof.
  induction c1 as [| [[] c a sib] rest IH]; simpl.
  - done.
  - rewrite IH, <- !app_assoc. done.
  - done.
Qed.

Lemma plug_app (c1 c2 : list frame) (t : tree) :
  plug (c1 ++ c2) t = plug c2 (plug c1 t).
Proof. revert t. induction c1 as [| f rest IH]; intros t; simpl; [done | apply IH]. Qed.

Lemma ctx_ids_app (c1 c2 : list frame) :
  ctx_ids (c1 ++ c2) = ctx_ids c1 ++ ctx_ids c2.
Proof.
  induction c1 as [| [d c a sib] rest IH]; simpl; [done |].
  rewrite IH, <- !app_assoc. done.
Qed.

Lemma ctx_color_rename (c1 c2 : list frame) (d : dir) (c : rb_color_t) (a a' : nat)
    (sib : tree) :
  ctx_color (c1 ++ Fr d c a sib :: c2) = ctx_color (c1 ++ Fr d c a' sib :: c2).
Proof. destruct c1 as [| [] ?]; done. Qed.

(** Replacing the node of one frame changes nothing for the colours. *)
Lemma ctx_rb_rename (c1 c2 : list frame) (d : dir) (c : rb_color_t) (a a' : nat)
    (sib : tree) (n : nat) :
  ctx_rb (c1 ++ Fr d c a sib :: c2) n -> ctx_rb (c1 ++ Fr d c a' sib :: c2) n.
Proof.
  revert n. induction c1 as [| [d1 k b s1] rest IH]; intros n; simpl; [done |].
  intros (H1 & H2 & H3 & H4 & H5).
  split; [done |]. split; [done |]. split; [done |]. split; [| apply IH; done].
  intros Hk. destruct (H4 Hk) as (? & Hc & ?). split; [done |]. split.
  - rewrite (ctx_color_rename _ _ _ _ a' a). exact Hc.
  - destruct rest; done.
Qed.

(** [rb_transplant(u, v)]: the pointer to [u] in its parent (or the root
    pointer) is replaced by [v], and [v] gets the parent of [u]. *)
Lemma rb_transplant_spec (s : sched_cfs_state) (ctx : list frame) (u : nat)
    (nu : rb_node) (v : option nat) :
  rep_ctx (nodes s) ctx (Some u) (rb_root s) ->
  NoDup (ctx_ids ctx) -> u ∉ ctx_ids ctx ->
  nodes s !! u = Some nu -> rb_parent nu = ctx_parent ctx ->
  (forall a, v = Some a -> is_Some (nodes s !! a) /\ a ∉ ctx_ids ctx) ->
  exists s', rb_transplant u v s = Some s' /\
             rep_ctx (nodes s') ctx v (rb_root s') /\
             (forall a na, v = Some a -> nodes s !! a = Some na ->
                nodes s' !! a = Some (set_parent (ctx_parent ctx) na)) /\
             (forall b, ctx_parent ctx <> Some b -> v <> Some b ->
                nodes s' !! b = nodes s !! b) /\
             same_payload s s'.
Proof.
  intros Hctx Hnd Hu Hnu Hpu Hv. unfold rb_transplant. step Hnu. rewrite Hpu.
  assert (exists s1,
    match ctx_parent ctx with
    | Some up =>
        nodes s !! up
        ≫= λ nup : rb_node,
             if decide (Some u = rb_left nup) is left _
             then Some (upd up (set_left v) s)
             else Some (upd up (set_right v) s)
    | None => Some (set_root v s)
    end = Some s1 /\
    rep_ctx (nodes s1) ctx v (rb_root s1) /\
    (forall b, ctx_parent ctx <> Some b -> nodes s1 !! b = nodes s !! b) /\
    same_payload s s1) as (s1 & -> & Hctx1 & Ho1 & Hpay1).
  { destruct ctx as [| [d c up sib] rest]; simpl in *.
    - eexists. split; [reflexivity |]. split; [done |]. split; [done |].
      apply same_payload_set_root.
    - destruct Hctx as ((nup & Hnup & Hh & Hs & Hp & Hc) & Hsib & Hrest).
      step Hnup.
      assert (exists s1, (if decide (Some u = rb_left nup) is left _
                          then Some (upd up (set_left v) s)
                          else Some (upd up (set_right v) s)) = Some s1 /\
                         s1 = upd up (set_child d v) s) as (s1 & -> & ->).
      { destruct d; simpl in *.
        - rewrite decide_True by done. eauto.
        - rewrite decide_False; [eauto |]. rewrite Hs. intros Heq. symmetry in Heq.
          apply root_inorder in Heq. set_solver. }
      eexists. split; [reflexivity |]. split; [| split].
      + apply (rep_ctx_rehole (nodes s) _ (Fr d c up sib :: rest) (Some u) v (rb_root s));
          [done | | | done |].
        * intros ? ? ? ? ? n [= <- <- <- <- <-] Hn. heap_lookup. rewrite Hn. done.
        * intros b Hb Hpb. simpl in Hpb. heap_lookup. done.
        * simpl. split; [exists nup; done | done].
      + intros b Hb. heap_lookup. done.
      + apply same_payload_upd. destruct d; done. }
  cbn [mbind option_bind]. destruct v as [a |].
  - destruct (Hv a eq_refl) as ((na & Hna) & Hac).
    assert (ctx_parent ctx <> Some a) as Hpa.
    { destruct ctx as [| [] ?]; simpl in *; [done |]. intros [= ->]. set_solver. }
    rewrite (Ho1 a Hpa). step Hna.
    eexists. split; [reflexivity |]. split; [| split; [| split]].
    + apply (rep_ctx_frame (nodes s1)); [| exact Hctx1].
      intros b Hb. heap_lookup. done.
    + intros ? ? [= <-] Hna'. heap_lookup. rewrite (Ho1 a Hpa), Hna'. done.
    + intros b Hb Hab. heap_lookup. auto.
    + eapply same_payload_trans; [exact Hpay1 | apply same_payload_upd; done].
  - eexists. split; [reflexivity |]. split; [done |]. split; [done |]. split; [| done].
    intros b Hb _. auto.
Qed.

(** A node with at most one child is replaced by that child. *)
Lemma rb_transplant_child (s : sched_cfs_state) (ctx : list frame) (d : dir)
    (cz : rb_color_t) (z : nat) (v : tree) :
  heap_inv s ctx (node d cz v z E) ->
  exists s', rb_transplant z (root v) s = Some s' /\ heap_inv s' ctx v /\
             (forall b, b ∉ ctx_ids ctx ++ inorder v -> nodes s' !! b = nodes s !! b) /\
             same_payload s s'.
Proof.
  intros (Hctx & Hrep & Hnd). rewrite root_node in Hctx.
  apply rep_node in Hrep as ((nz & Hnz & Hn & Hf & Hp & Hc) & Hv & _).
  assert (NoDup (ctx_ids ctx ++ z :: inorder v)) as Hnd'.
  { revert Hnd. rewrite inorder_node, app_nil_r. done. }
  clear Hnd. pose proof Hnd' as Hnd. split_nodup.
  destruct (rb_transplant_spec s ctx z nz (root v)) as (s' & Hs' & Hctx' & Hv' & Ho' & Hpay);
    try done.
  { set_solver. }
  { intros a Ha. pose proof (root_inorder _ _ Ha). split; [| set_solver].
    eapply rep_lookup; eassumption. }
  exists s'. split; [done |]. split; [| split; [| done]].
  - split; [done |]. split.
    + apply (rep_set_parent (nodes s) _ (Some z)); [done | | | done].
      * intros a na Ha Hna. eauto.
      * intros a Ha Hra. apply Ho'; [| done].
        destruct ctx as [| [] ?]; simpl in *; [done |]. intros [= ->]. set_solver.
    + apply NoDup_app. repeat split; try done. set_solver.
  - intros b Hb. apply Ho'.
    + destruct ctx as [| [] ?]; simpl in *; [done |]. intros [= ->]. set_solver.
    + intros Hr%root_inorder. set_solver.
Qed.

Lemma rb_minimum_loop_spec (fuel : nat) (s : sched_cfs_state) (ctx : list frame)
    (t : tree) (a : nat) :
  heap_inv s ctx t -> root t = Some a -> (length (inorder t) <= fuel)%nat ->
  rb_minimum_loop fuel a s = root (min_sub t).
Proof.
  revert fuel ctx a. induction t as [| c l IHl b r _]; intros fuel ctx a Hinv Ha Hfuel; [done |].
  injection Ha as ->. simpl in Hfuel. rewrite length_app in Hfuel. simpl in Hfuel.
  destruct fuel as [| fuel]; [lia |].
  destruct (heap_inv_read_N _ _ _ _ _ _ Hinv) as (na & Hna & Hl & _).
  cbn [rb_minimum_loop]. step Hna. rewrite Hl.
  destruct l as [| cl ll al rl]; [done |].
  apply (IHl fuel (Fr Left c a r :: ctx)); [| done | lia].
  apply (heap_inv_down s Left). exact Hinv.
Qed.

Lemma heap_inv_frame (s s' : sched_cfs_state) (ctx : list frame) (t : tree) :
  heap_inv s ctx t ->
  (forall a, a ∈ ctx_ids ctx ++ inorder t -> nodes s' !! a = nodes s !! a) ->
  rb_root s' = rb_root s ->
  heap_inv s' ctx t.
Proof.
  intros (Hctx & Hrep & Hnd) Hsame Hroot. split; [| split; [| done]].
  - rewrite Hroot. apply (rep_ctx_frame (nodes s)); [| done].
    intros a Ha. apply Hsame. set_solver.
  - apply (rep_frame (nodes s)); [| done]. intros a Ha. apply Hsame. set_solver.
Qed.

Lemma ctx_parent_in (ctx : list frame) (a : nat) :
  ctx_parent ctx = Some a -> a ∈ ctx_ids ctx.
Proof. destruct ctx as [| [] ?]; simpl; [done |]. intros [= ->]. set_solver. Qed.

(** [y] takes the place of [z]. *)
Lemma rb_remove_replace_spec (s : sched_cfs_state) (ctx : list frame) (cz : rb_color_t)
    (l r : tree) (z y : nat) (nz ny : rb_node) :
  rep_ctx (nodes s) ctx (Some z) (rb_root s) ->
  nodes s !! z = Some nz -> rb_left nz = root l -> rb_parent nz = ctx_parent ctx ->
  rb_color nz = cz ->
  rep (nodes s) (Some z) l -> l <> E ->
  nodes s !! y = Some ny -> rb_right ny = root r -> rep (nodes s) (Some y) r ->
  NoDup (ctx_ids ctx ++ z :: y :: inorder l ++ inorder r) ->
  exists s', rb_remove_replace z y s = Some s' /\ heap_inv s' ctx (N cz l y r) /\
             (forall b, b ∉ ctx_ids ctx ++ y :: inorder l ++ inorder r ->
                nodes s' !! b = nodes s !! b) /\
             same_payload s s'.
Proof.
  intros Hctx Hnz Hzl Hzp Hzc Hl Hlne Hny Hyr Hr Hnd.
  destruct l as [| cl ll a lr]; [done |].
  assert (NoDup (ctx_ids ctx ++ inorder (N cz (N cl ll a lr) y r))) as Hnd2.
  { assert (ctx_ids ctx ++ z :: y :: inorder (N cl ll a lr) ++ inorder r ≡ₚ
            z :: (ctx_ids ctx ++ inorder (N cz (N cl ll a lr) y r))) as Hperm
      by (simpl; solve_Permutation).
    rewrite Hperm in Hnd. apply NoDup_cons in Hnd as (_ & Hnd). exact Hnd. }
  revert Hnd2. simpl in Hnd. split_nodup. intros Hnd2.
  assert (z <> y) as Hzy by set_solver.
  destruct (rb_transplant_spec s ctx z nz (Some y)) as (s1 & Hs1 & Hctx1 & Hy1 & Ho1 & Hpay1);
    try done.
  { set_solver. }
  { intros ? [= <-]. split; [eauto | set_solver]. }
  unfold rb_remove_replace. step Hs1.
  assert (ctx_parent ctx <> Some z) as Hpz by (intros ?%ctx_parent_in; set_solver).
  rewrite Ho1 by congruence. step Hnz. rewrite Hzl.
  cbn [root mbind option_bind].
  assert (a <> y /\ a <> z /\ ctx_parent ctx <> Some a) as (Hay & Haz & Hpa).
  { split; [| split]; [set_solver | set_solver | intros ?%ctx_parent_in; set_solver]. }
  destruct Hl as ((na & Hna & Hal & Har & Hap & Hac) & Hll & Hlr).
  heap_lookup. rewrite Ho1 by congruence. step Hna.
  eexists. split; [reflexivity |]. split; [| split].
  - split; [| split; [| exact Hnd2]].
    + apply (rep_ctx_frame (nodes s1)); [| exact Hctx1].
      intros b Hb. heap_lookup. done.
    + simpl. split; [| split; [split; [| split] |]].
      * eexists. heap_lookup. rewrite (Hy1 y ny eq_refl Hny). split; [reflexivity |].
        simpl. done.
      * eexists. heap_lookup. rewrite Ho1 by congruence. rewrite Hna. split; [reflexivity |].
        simpl. done.
      * apply (rep_frame (nodes s)); [| exact Hll]. intros b Hb. heap_lookup.
        apply Ho1; [intros ?%ctx_parent_in; set_solver | intros [= <-]; set_solver].
      * apply (rep_frame (nodes s)); [| exact Hlr]. intros b Hb. heap_lookup.
        apply Ho1; [intros ?%ctx_parent_in; set_solver | intros [= <-]; set_solver].
      * apply (rep_frame (nodes s)); [| exact Hr]. intros b Hb. heap_lookup.
        apply Ho1; [intros ?%ctx_parent_in; set_solver | intros [= <-]; set_solver].
  - intros b Hb. heap_lookup.
    apply Ho1; [intros ?%ctx_parent_in; set_solver | intros [= <-]; set_solver].
  - eapply same_payload_trans; [exact Hpay1 |].
    do 2 (eapply same_payload_trans; [| apply same_payload_upd; done]).
    apply same_payload_upd; done.
Qed.

End rbtree_remove.

Section rbtree_unlink.
Import Cfs RBTree RBRemove RBRun.

Lemma ids_plug (ctx : list frame) (t : tree) :
  ctx_ids ctx ++ inorder t ≡ₚ inorder (plug ctx t).
Proof.
  revert t. induction ctx as [| [d c a sib] rest IH]; intros t; simpl; [done |].
  rewrite <- IH, inorder_node. solve_Permutation.
Qed.

(** Two ways to split the same tree. *)
Lemma heap_inv_refocus (s : sched_cfs_state) (c1 c2 : list frame) (t1 t2 : tree) :
  plug c1 t1 = plug c2 t2 -> heap_inv s c1 t1 -> heap_inv s c2 t2.
Proof.
  intros Heq H1. apply (heap_inv_plug s c2 t2). rewrite <- Heq.
  apply (heap_inv_plug s c1 t1), H1.
Qed.

Lemma plug_frames_not_E (ctx : list frame) (t : tree) : ctx <> [] -> plug ctx t <> E.
Proof.
  destruct ctx as [| [[] c a sib] rest]; [done | |]; intros _; simpl; apply plug_not_E; done.
Qed.

(** The successor [y], deep in the right subtree [r] of [z], is replaced
    by its right child and given the rest of [r]. *)
Lemma rb_remove_lift_spec (s : sched_cfs_state) (ctx : list frame) (cz cy : rb_color_t)
    (l r ry : tree) (z y : nat) :
  heap_inv s ctx (N cz l z r) ->
  min_sub r = N cy E y ry -> min_ctx [] r <> [] ->
  let r' := plug (min_ctx [] r) ry in
  exists s' nz ny,
    rb_remove_lift z y s = Some s' /\
    rep_ctx (nodes s') ctx (Some z) (rb_root s') /\
    nodes s' !! z = Some nz /\ rb_left nz = root l /\ rb_parent nz = ctx_parent ctx /\
    rb_color nz = cz /\ rep (nodes s') (Some z) l /\
    nodes s' !! y = Some ny /\ rb_right ny = root r' /\ rep (nodes s') (Some y) r' /\
    NoDup (ctx_ids ctx ++ z :: y :: inorder l ++ inorder r') /\
    same_payload s s'.
Proof.
  intros Hinv Hmin Hinner r'. set (inner := min_ctx [] r) in *.
  assert (plug inner (N cy E y ry) = r) as Hr.
  { rewrite <- Hmin. apply min_plug. }
  assert (heap_inv s (inner ++ Fr Right cz z l :: ctx) (node Right cy ry y E)) as Hy.
  { eapply heap_inv_refocus; [| exact Hinv]. rewrite plug_app. simpl. rewrite Hr. done. }
  destruct (heap_inv_read _ _ _ _ _ _ _ Hy) as (ny & Hny & Hyr & _).
  simpl in Hyr. unfold rb_remove_lift. step Hny. rewrite Hyr.
  pose proof Hy as (_ & _ & Hndy).
  destruct (rb_transplant_child _ _ _ _ _ _ Hy) as (s1 & Hs1 & Hinv1 & Ho1 & Hpay1).
  step Hs1.
  assert (heap_inv s1 ctx (N cz l z r')) as Hz1.
  { eapply heap_inv_refocus; [| exact Hinv1]. rewrite plug_app. done. }
  destruct Hz1 as (Hctx1 & ((nz & Hnz & Hzl & Hzr & Hzp & Hzc) & Hl1 & Hr1) & Hnd1).
  step Hnz. rewrite Hzr.
  assert (r' <> E) as Hr'ne by (apply plug_frames_not_E; done).
  assert (ctx_ids ctx ++ inorder (N cz l z r') ≡ₚ
          ctx_ids (inner ++ Fr Right cz z l :: ctx) ++ inorder ry) as Hperm.
  { rewrite !ids_plug, plug_app. done. }
  assert (y ∉ ctx_ids ctx ++ inorder (N cz l z r')) as Hyn.
  { rewrite Hperm. simpl in Hndy.
    apply NoDup_app in Hndy as (_ & Hd & Hnd'). apply NoDup_cons in Hnd' as (Hyry & _).
    intros [Hin | Hin]%elem_of_app; [| done]. apply (Hd y Hin). set_solver. }
  assert (nodes s1 !! y = Some ny) as Hny1.
  { rewrite Ho1; [done |]. rewrite <- Hperm. exact Hyn. }
  assert (NoDup (ctx_ids ctx ++ z :: y :: inorder l ++ inorder r')) as Hnd.
  { assert (ctx_ids ctx ++ z :: y :: inorder l ++ inorder r' ≡ₚ
            y :: (ctx_ids ctx ++ inorder (N cz l z r'))) as ->
      by (simpl; solve_Permutation).
    apply NoDup_cons. split; done. }
  clear Hperm Hyn Hndy Hnd1.
  destruct r' as [| cr rl rr rr'] eqn:Hr'; [done |]. cbn [root mbind option_bind].
  destruct Hr1 as ((nr & Hnr & Hrl & Hrr & Hrp & Hrc) & Hrl1 & Hrr1).
  simpl in Hnd.
  pose proof Hnd as Hnd'. revert Hnd'. split_nodup. intros Hnd'.
  assert (rr <> y) as Hry by set_solver.
  heap_lookup. step Hnr.
  exists (upd rr (set_parent (Some y)) (upd y (set_right (Some rr)) s1)), nz,
    (set_right (Some rr) ny).
  split; [done |]. split; [| split; [| split; [| split; [| split; [| split;
    [| split; [| split; [| split; [| split]]]]]]]]]; try done.
  - apply (rep_ctx_frame (nodes s1)); [| exact Hctx1]. intros b Hb. heap_lookup. done.
  - heap_lookup. done.
  - apply (rep_frame (nodes s1)); [| exact Hl1]. intros b Hb. heap_lookup. done.
  - heap_lookup. rewrite Hny1. done.
  - simpl. split; [| split].
    + eexists. heap_lookup. rewrite Hnr. split; [reflexivity |]. done.
    + apply (rep_frame (nodes s1)); [| exact Hrl1]. intros b Hb. heap_lookup. done.
    + apply (rep_frame (nodes s1)); [| exact Hrr1]. intros b Hb. heap_lookup. done.
  - eapply same_payload_trans; [exact Hpay1 |].
    eapply same_payload_trans; apply same_payload_upd; done.
Qed.

(** The unlinking of [rb_remove] is [del_focus]. *)
Lemma rb_remove_unlink_spec (s : sched_cfs_state) (ctx : list frame) (cz : rb_color_t)
    (l r : tree) (z : nat) :
  heap_inv s ctx (N cz l z r) ->
  exists s' ctx' tx cy,
    del_focus ctx (N cz l z r) = Some (ctx', tx, cy) /\
    rb_remove_unlink z s = Some (s', cy, root tx, ctx_parent ctx') /\
    heap_inv s' ctx' tx /\ same_payload s s'.
Proof.
  intros Hinv. unfold rb_remove_unlink.
  destruct (heap_inv_read_N _ _ _ _ _ _ Hinv) as (nz & Hnz & Hzl & Hzr & Hzp & Hzc).
  step Hnz. rewrite Hzl, Hzr, Hzp, Hzc.
  destruct l as [| cl ll la lr].
  { destruct (rb_transplant_child s ctx Right cz z r Hinv) as (s' & Hs' & Hinv' & _ & Hpay).
    cbn [root] in *. step Hs'. exists s', ctx, r, cz. done. }
  destruct r as [| cr rl ra rr].
  { destruct (rb_transplant_child s ctx Left cz z _ Hinv) as (s' & Hs' & Hinv' & _ & Hpay).
    cbn [root] in *. step Hs'. exists s', ctx, (N cl ll la lr), cz. done. }
  destruct (min_sub_shape (N cr rl ra rr)) as (cy & y & ry & Hmin); [done |].
  assert (del_focus ctx (N cz (N cl ll la lr) z (N cr rl ra rr)) =
          Some (min_ctx (Fr Right cz y (N cl ll la lr) :: ctx) (N cr rl ra rr), ry, cy)) as ->.
  { unfold del_focus. cbv iota beta. rewrite Hmin. done. }
  cbn [root].
  set (l := N cl ll la lr) in *. set (r := N cr rl ra rr) in *.
  pose proof (heap_inv_down s Right _ _ _ _ _ Hinv) as Hr.
  assert (heap_inv s (min_ctx [] r ++ Fr Right cz z l :: ctx) (N cy E y ry)) as Hy.
  { eapply heap_inv_refocus; [| exact Hr]. rewrite <- min_ctx_app, <- Hmin, min_plug. done. }
  unfold rb_minimum.
  rewrite (rb_minimum_loop_spec (loop_bound s) s _ r ra Hr eq_refl).
  2:{ pose proof (heap_inv_size _ _ _ Hr) as Hsz. rewrite length_app in Hsz. lia. }
  rewrite Hmin. cbn [root mbind option_bind].
  destruct (heap_inv_read_N _ _ _ _ _ _ Hy) as (ny & Hny & _ & Hyr & Hyp & Hyc).
  step Hny. rewrite Hyr, Hyp, Hyc. rewrite min_ctx_app.
  destruct (min_ctx [] r) as [| f inner] eqn:Hinner.
  - (* y is the right child of z *)
    rewrite decide_True by done. cbn [mbind option_bind app ctx_parent].
    assert (r = N cy E y ry) as Hreq by (rewrite <- Hmin; symmetry; apply min_ctx_nil, Hinner).
    rewrite Hreq in Hinv.
    destruct Hinv as (Hctx & (_ & Hl & (_ & _ & Hry)) & Hnd).
    destruct (rb_remove_replace_spec s ctx cz l ry z y nz ny) as (s' & Hs' & Hinv' & _ & Hpay);
      try done.
    { assert (ctx_ids ctx ++ z :: y :: inorder l ++ inorder ry ≡ₚ
              ctx_ids ctx ++ inorder (N cz l z (N cy E y ry))) as ->
        by (simpl; solve_Permutation).
      exact Hnd. }
    step Hs'. eexists s', _, _, _. split; [reflexivity |]. split; [done |]. split; [| done].
    apply (heap_inv_down s' Right). exact Hinv'.
  - (* y is deeper *)
    rewrite decide_False.
    2:{ destruct f as [df cf af sf]. simpl. intros [= ->].
        destruct Hy as (_ & _ & Hnd). simpl in Hnd. rewrite ctx_ids_app in Hnd. simpl in Hnd.
        apply NoDup_cons in Hnd as (Hn & _). apply Hn. set_solver. }
    destruct (rb_remove_lift_spec s ctx cz cy l r ry z y Hinv Hmin)
      as (s1 & nz1 & ny1 & Hs1 & H1 & H2 & H3 & H4 & H5 & H6 & H7 & H8 & H9 & H10 & Hpay1).
    { rewrite Hinner. done. }
    step Hs1.
    destruct (rb_remove_replace_spec s1 ctx cz l (plug (min_ctx [] r) ry) z y nz1 ny1
                H1 H2 H3 H4 H5 H6)
      as (s' & Hs' & Hinv' & _ & Hpay); try done.
    step Hs'. eexists s', _, _, _. split; [reflexivity |]. split; [| split].
    + destruct f; done.
    + eapply heap_inv_refocus; [| exact Hinv']. rewrite Hinner, plug_app. done.
    + eapply same_payload_trans; eassumption.
Qed.

(** *** [rb_remove] *)

Lemma locate (t : tree) (a : nat) :
  a ∈ inorder t -> exists ctx c l r, t = plug ctx (N c l a r).
Proof.
  induction t as [| c l IHl b r IHr]; simpl; [set_solver |].
  intros [Ha | [-> | Ha]%elem_of_cons]%elem_of_app.
  - destruct (IHl Ha) as (ctx & c' & l' & r' & ->).
    exists (ctx ++ [Fr Left c b r]), c', l', r'. rewrite plug_app. done.
  - exists [], c, l, r. done.
  - destruct (IHr Ha) as (ctx & c' & l' & r' & ->).
    exists (ctx ++ [Fr Right c b l]), c', l', r'. rewrite plug_app. done.
Qed.

Lemma min_sub_head (t : tree) : root (min_sub t) = head (inorder t).
Proof.
  induction t as [| c l IHl a r _]; [done |].
  destruct l as [| cl ll al rl]; [done |].
  change (root (min_sub (N cl ll al rl)) = head (inorder (N cl ll al rl) ++ a :: inorder r)).
  rewrite IHl. simpl. destruct (inorder ll); done.
Qed.

(** The unlinking on trees: the node is gone and the order of the others
    is kept; if a black node was taken out, its place is one black node
    short, otherwise the tree is red-black. *)
Lemma del_focus_spec (ctx ctx' : list frame) (cz cy : rb_color_t) (l r tx : tree)
    (z : nat) :
  red_black (plug ctx (N cz l z r)) ->
  del_focus ctx (N cz l z r) = Some (ctx', tx, cy) ->
  inorder (plug ctx' tx) = ctx_before ctx ++ inorder l ++ inorder r ++ ctx_after ctx /\
  match cy with
  | RB_BLACK => del_inv ctx' tx
  | RB_RED => red_black (plug ctx' tx)
  end.
Proof.
  intros (Hc & Hn & Hb) Hfocus.
  assert (forall c t,
            ctx_rb ctx (bh t + black c) -> no_red_red t -> balanced t ->
            (ctx_color ctx = RB_RED -> c = RB_BLACK) -> (c = RB_RED -> ctx <> []) ->
            (c = RB_RED -> color t = RB_BLACK) ->
            match c with
            | RB_BLACK => del_inv ctx t
            | RB_RED => red_black (plug ctx t)
            end) as Hone.
  { intros c t Hctx Hnt Hbt Hcc Hne Hct. destruct c; simpl in Hctx.
    - rewrite Nat.add_0_r in Hctx.
      destruct (plug_rb ctx t Hctx Hnt Hbt) as (H1 & H2 & H3); [auto |].
      split; [apply H3; auto | done].
    - rewrite Nat.add_1_r in Hctx. split; [| done]. destruct t; simpl in *; tauto. }
  destruct l as [| cl ll la lr].
  { injection Hfocus as <- <- <-. rewrite inorder_plug. split; [done |].
    destruct (unplug_rb _ _ Hn Hb Hc) as (Hctx & Hnz & Hbz & Hcc & Hne).
    simpl in *. apply Hone; try tauto.
    replace (bh r) with 0%nat by lia. exact Hctx. }
  destruct r as [| cr rl ra rr].
  { injection Hfocus as <- <- <-. rewrite inorder_plug, app_nil_l. split; [done |].
    destruct (unplug_rb _ _ Hn Hb Hc) as (Hctx & Hnz & Hbz & Hcc & Hne).
    apply Hone; simpl in *; tauto. }
  destruct (min_sub_shape (N cr rl ra rr)) as (cy' & y & ry & Hmin); [done |].
  assert (del_focus ctx (N cz (N cl ll la lr) z (N cr rl ra rr)) =
          Some (min_ctx (Fr Right cz y (N cl ll la lr) :: ctx) (N cr rl ra rr), ry, cy'))
    as Heq.
  { unfold del_focus. cbv iota beta. rewrite Hmin. done. }
  rewrite Heq in Hfocus. clear Heq.
  remember (N cl ll la lr) as l eqn:Hl. remember (N cr rl ra rr) as r eqn:Hr0.
  clear Hl Hr0. injection Hfocus as <- <- <-.
  rewrite min_ctx_app. set (inner := min_ctx [] r).
  assert (plug inner (N cy' E y ry) = r) as Hr by (rewrite <- Hmin; apply min_plug).
  split.
  - rewrite inorder_plug, ctx_before_app, ctx_after_app.
    rewrite <- Hr at 1. rewrite inorder_plug. unfold inner. rewrite min_ctx_before.
    simpl. rewrite <- !app_assoc. simpl. done.
  - assert (plug ctx (N cz l z r) = plug (inner ++ Fr Right cz z l :: ctx) (N cy' E y ry)) as HT.
    { rewrite plug_app. simpl. rewrite Hr. done. }
    rewrite HT in Hn, Hb, Hc.
    destruct (unplug_rb _ _ Hn Hb Hc) as (Hctx & Hny & Hby & Hcc & Hne).
    apply (ctx_rb_rename _ _ _ _ _ y) in Hctx.
    rewrite (ctx_color_rename _ _ _ _ _ y) in Hcc.
    assert (inner ++ Fr Right cz y l :: ctx <> []) as Hne' by (destruct inner; done).
    simpl in Hny, Hby, Hctx, Hcc.
    destruct Hby as (_ & Hbry & Hh). destruct Hny as (_ & Hnry & Hcr).
    destruct cy'; simpl in Hctx.
    + simpl in Hh. rewrite Hh in Hctx.
      destruct (plug_rb _ ry Hctx Hnry Hbry) as (H1 & H2 & H3).
      { intros _. apply Hcr. done. }
      split; [apply H3; done | done].
    + split; [destruct ry; simpl in *; tauto |]. split; [done |].
      replace (bh ry) with 0%nat by (simpl in Hh; lia). exact Hctx.
Qed.

Lemma head_app_cons (L R : list nat) (z : nat) :
  NoDup (L ++ z :: R) ->
  (head (L ++ z :: R) = Some z <-> L = []) /\
  (L <> [] -> head (L ++ R) = head (L ++ z :: R)).
Proof.
  intros Hnd. destruct L as [| a L]; simpl; [done |].
  split; [| done]. split; [| done]. intros [= ->].
  apply NoDup_cons in Hnd as (Hnd & _). set_solver.
Qed.

(** [rb_remove] of a node of the tree. *)
Lemma rb_remove_spec (s : sched_cfs_state) (t : tree) (z : nat) :
  rb_inv s t -> z ∈ inorder t ->
  exists s' t' L R,
    rb_remove (Some z) s = Some s' /\ rb_inv s' t' /\
    inorder t = L ++ z :: R /\ inorder t' = L ++ R /\
    (forall a, key_of s' a = key_of s a) /\
    dom (nodes s') = dom (nodes s) /\
    count s' = wrap_int (count s - 1) /\
    min_vruntime s' = min_vruntime s.
Proof.
  intros [Hheap Hrb Hsorted Hcache] Hz.
  destruct (locate t z Hz) as (ctx & cz & l & r & ->).
  assert (NoDup (inorder (plug ctx (N cz l z r)))) as Hnd.
  { destruct Hheap as (_ & _ & Hnd). exact Hnd. }
  apply (heap_inv_plug s ctx) in Hheap.
  destruct (rb_remove_unlink_spec s ctx cz l r z Hheap)
    as (s1 & ctx' & tx & cy & Hfocus & Hs1 & Hinv1 & Hpay1).
  destruct (del_focus_spec ctx ctx' cz cy l r tx z Hrb Hfocus) as (Hio1 & Hcy).
  set (L := ctx_before ctx ++ inorder l). set (R := inorder r ++ ctx_after ctx).
  assert (inorder (plug ctx (N cz l z r)) = L ++ z :: R) as HioT.
  { rewrite inorder_plug. subst L R. simpl. rewrite <- !app_assoc. done. }
  assert (inorder (plug ctx' tx) = L ++ R) as HioT1.
  { rewrite Hio1. subst L R. rewrite <- !app_assoc. done. }
  rewrite HioT in Hnd, Hsorted, Hcache.
  destruct (head_app_cons L R z Hnd) as (Hhead1 & Hhead2).
  cbn [rb_remove]. step Hs1.
  pose proof Hinv1 as Hwhole. apply heap_inv_plug in Hwhole.
  (* the cache *)
  assert (exists s2,
    (if decide (Some z = rb_leftmost s1)
     then match rb_root s1 with
          | Some r => rb_minimum r s1 ≫= λ m, Some (set_leftmost (Some m) s1)
          | None => Some (set_leftmost None s1)
          end
     else Some s1) = Some s2 /\
    nodes s2 = nodes s1 /\ rb_root s2 = rb_root s1 /\ count s2 = count s1 /\
    min_vruntime s2 = min_vruntime s1 /\ rb_leftmost s2 = head (L ++ R))
    as (s2 & Hs2 & Hn2 & Hr2 & Hc2 & Hm2 & Hl2).
  { destruct Hpay1 as (Hlm & _). rewrite Hlm, Hcache.
    destruct (decide (Some z = head (L ++ z :: R))) as [Heq | Hneq].
    - symmetry in Heq. apply Hhead1 in Heq. rewrite Heq in *. simpl in HioT1 |- *.
      assert (rb_root s1 = root (plug ctx' tx)) as Hroot1 by apply Hwhole.
      destruct (plug ctx' tx) as [| c0 l0 a0 r0] eqn:Hpl; rewrite Hroot1.
      + eexists. split; [reflexivity |]. rewrite <- HioT1. simpl. rewrite ?Hroot1. done.
      + cbn [root]. unfold rb_minimum.
        rewrite (rb_minimum_loop_spec (loop_bound s1) s1 [] _ a0 Hwhole eq_refl).
        2:{ pose proof (heap_inv_size _ _ _ Hwhole) as Hsz. cbn [ctx_ids app] in Hsz. lia. }
        rewrite min_sub_head, HioT1.
        destruct R as [| m R']; [simpl in HioT1; destruct (inorder l0); done |].
        cbn [head mbind option_bind]. eexists. split; [reflexivity |].
        simpl. rewrite ?Hroot1. done.
    - eexists. split; [reflexivity |]. repeat split; try done.
      rewrite Hlm, Hcache. symmetry. apply Hhead2. intros HL. apply Hneq.
      symmetry. apply Hhead1, HL. }
  step Hs2.
  assert (heap_inv s2 ctx' tx) as Hinv2 by (eapply heap_inv_ext; eassumption).
  assert (heap_inv s2 [] (plug ctx' tx)) as Hwhole2 by (eapply heap_inv_ext; eassumption).
  (* the colours *)
  assert (exists s3,
    (if decide (cy = RB_BLACK /\ rb_root s2 <> None)
     then rb_remove_fixup (root tx) (ctx_parent ctx') s2
     else Some s2) = Some s3 /\
    heap_inv s3 [] (del ctx (N cz l z r)) /\ same_payload s2 s3)
    as (s3 & Hs3 & Hinv3 & Hpay3).
  { unfold del. rewrite Hfocus. destruct cy.
    - rewrite decide_False by (intros (? & _); done).
      eexists. split; [reflexivity |]. split; [done | apply same_payload_refl].
    - destruct (decide (RB_BLACK = RB_BLACK /\ rb_root s2 <> None)) as [(_ & Hroot) | Hno].
      + apply rb_remove_fixup_spec; done.
      + exists s2. split; [done |]. split; [| apply same_payload_refl].
        assert (rb_root s2 = None) as Hnone.
        { destruct (rb_root s2); [exfalso; apply Hno; done | done]. }
        assert (root (plug ctx' tx) = None) as Hpl.
        { rewrite <- Hnone. symmetry. apply Hwhole2. }
        destruct ctx' as [| f ctx''].
        * simpl in Hpl. destruct tx; [exact Hwhole2 | done].
        * exfalso. pose proof (plug_frames_not_E (f :: ctx'') tx) as Hne.
          destruct (plug (f :: ctx'') tx); [apply Hne; done | done]. }
  step Hs3.
  assert (red_black (del ctx (N cz l z r)) /\ inorder (del ctx (N cz l z r)) = L ++ R)
    as (Hrb' & Hio').
  { unfold del. rewrite Hfocus. destruct cy; [rewrite HioT1; done |].
    destruct (del_loop_spec (length (ctx_ids ctx')) ctx' tx Hcy) as (H1 & H2); [lia |].
    rewrite H2, HioT1. done. }
  assert (z ∉ L ++ R) as HzLR.
  { apply NoDup_app in Hnd as (_ & Hd & Hnd'). apply NoDup_cons in Hnd' as (? & _).
    intros [Hin | Hin]%elem_of_app; [| done]. apply (Hd z Hin). set_solver. }
  eexists _, (del ctx (N cz l z r)), L, R.
  split; [reflexivity |].
  assert (forall a, key_of s3 a = key_of s a) as Hkey.
  { intros a. rewrite (same_payload_key s2 s3) by done.
    unfold key_of. rewrite Hn2. apply (same_payload_key s s1). done. }
  split; [| split; [done | split; [done |]]].
  - split.
    + apply (heap_inv_frame s3); [exact Hinv3 | | done].
      intros a Ha. simpl in Ha. rewrite Hio' in Ha. simpl. heap_lookup. done.
    + exact Hrb'.
    + rewrite Hio'. apply sorted_delete in Hsorted.
      eapply sorted_ext; [| exact Hsorted]. intros a _.
      unfold key_of. simpl.
      destruct (decide (a = z)) as [-> |].
      * heap_lookup. specialize (Hkey z). unfold key_of in Hkey.
        destruct (nodes s3 !! z); simpl; exact Hkey.
      * heap_lookup. apply Hkey.
    + simpl. rewrite Hio'. destruct Hpay3 as (-> & _). exact Hl2.
  - split; [| split; [| split]].
    + intros a. unfold key_of. simpl.
      destruct (decide (a = z)) as [-> |].
      * heap_lookup. specialize (Hkey z). unfold key_of in Hkey.
        destruct (nodes s3 !! z); simpl; exact Hkey.
      * heap_lookup. apply Hkey.
    + simpl. rewrite !dom_alter_L.
      destruct Hpay3 as (_ & _ & _ & -> & _). rewrite Hn2.
      destruct Hpay1 as (_ & _ & _ & -> & _). done.
    + simpl. destruct Hpay3 as (_ & _ & -> & _). rewrite Hc2.
      destruct Hpay1 as (_ & _ & -> & _). done.
    + simpl. destruct Hpay3 as (_ & -> & _). rewrite Hm2.
      destruct Hpay1 as (_ & -> & _). done.
Qed.

(** *** Executions *)

Lemma rb_inv_init (s0 : sched_cfs_state) : rb_inv (cfs_init s0) E.
Proof.
  split.
  - split; [done |]. split; [done |]. apply NoDup_nil_2.
  - done.
  - done.
  - done.
Qed.

(** Writing the key of a thread that is not in the tree. *)
Lemma rb_inv_set_vruntime (s : sched_cfs_state) (t : tree) (z : nat) (v : Z) :
  rb_inv s t -> z ∉ inorder t -> rb_inv (upd z (set_vruntime v) s) t.
Proof.
  intros [Hheap Hrb Hsorted Hcache] Hz. split; [| done | | done].
  - apply (heap_inv_frame s); [done | | done].
    intros a Ha. simpl in Ha. heap_lookup. done.
  - eapply sorted_ext; [| exact Hsorted]. intros a Ha. unfold key_of.
    heap_lookup. done.
Qed.

(** The first node of an ordered tree has the least key. *)
Lemma rb_inv_leftmost (s : sched_cfs_state) (t : tree) :
  rb_inv s t ->
  match rb_leftmost s with
  | None => t = E
  | Some m => m ∈ inorder t /\ forall a, a ∈ inorder t -> key_of s m <= key_of s a
  end.
Proof.
  intros [Hheap Hrb Hsorted Hcache]. rewrite Hcache.
  destruct (inorder t) as [| m rest] eqn:Hio; simpl.
  - destruct t as [| c l a r]; [done |]. simpl in Hio. destruct (inorder l); done.
  - split; [set_solver |]. destruct Hsorted as (Hall & _).
    rewrite Forall_forall in Hall.
    intros a [-> | Ha]%elem_of_cons; [lia | auto].
Qed.

Lemma rb_run_inv (cs : list rb_call) (s : sched_cfs_state) (t : tree) (m : gset nat) :
  rb_inv s t -> list_to_set (inorder t) = m ->
  legal (dom (nodes s)) cs m = true ->
  exists s' t', rb_run cs s = Some s' /\ rb_inv s' t' /\
                list_to_set (inorder t') = members cs m.
Proof.
  revert s t m. induction cs as [| c cs IH]; intros s t m Hinv Hm Hlegal.
  - exists s, t. done.
  - pose proof Hinv as [Hheap _ _ _]. destruct Hheap as (_ & _ & Hnd). simpl in Hnd.
    destruct c as [z | z | z v]; cbn [legal rb_run rb_step members] in Hlegal |- *.
    + apply andb_true_iff in Hlegal as (Hlegal & Hrest).
      apply andb_true_iff in Hlegal as (Hz%bool_decide_eq_true & Hzm%bool_decide_eq_true).
      destruct (rb_insert_spec s t z Hinv) as (s1 & Hs1 & Hinv1 & _ & Hdom & _).
      { apply elem_of_dom, Hz. }
      { rewrite <- Hm in Hzm. set_solver. }
      rewrite Hs1. cbn [mbind option_bind].
      apply (IH s1 _ (m ∪ {[z]}) Hinv1); [| rewrite Hdom; exact Hrest].
      destruct Hinv as [_ Hrb Hsorted _].
      destruct (ins_spec (key_of s) z t Hrb Hsorted) as (_ & Hio & Hio' & _).
      rewrite Hio', <- Hm, Hio. set_solver.
    + apply andb_true_iff in Hlegal as (Hz%bool_decide_eq_true & Hrest).
      destruct (rb_remove_spec s t z Hinv)
        as (s1 & t1 & L & R & Hs1 & Hinv1 & Hio & Hio1 & _ & Hdom & _).
      { rewrite <- Hm in Hz. set_solver. }
      rewrite Hs1. cbn [mbind option_bind].
      apply (IH s1 t1 (m ∖ {[z]}) Hinv1); [| rewrite Hdom; exact Hrest].
      rewrite Hio1, <- Hm, Hio. rewrite Hio in Hnd.
      apply NoDup_app in Hnd as (_ & Hd & Hnd'). apply NoDup_cons in Hnd' as (HzR & _).
      assert (z ∉ L) by (intros Hin; apply (Hd z Hin); set_solver).
      set_solver.
    + apply andb_true_iff in Hlegal as (Hz%bool_decide_eq_true & Hrest).
      cbn [mbind option_bind].
      apply (IH _ t m); [| done |].
      * apply rb_inv_set_vruntime; [done |]. rewrite <- Hm in Hz. set_solver.
      * simpl. rewrite dom_alter_L. exact Hrest.
Qed.

(** C6.  Starting from the empty tree ([cfs_init]), every legal sequence
    of [rb_insert] and [rb_remove] calls (a thread is inserted only while
    it is not in the tree, removed only while it is in it; the [vruntime]
    of threads outside the tree may be written in between) runs to the
    end, and the resulting memory holds a tree [t] that is a red-black
    tree (black root, no red node with a red child, the same number of
    black nodes on every path), lists its nodes in non-decreasing order of
    [vruntime], holds exactly the inserted and not yet removed threads,
    and whose first node is the cached [rb_leftmost], a node of least
    [vruntime]; the cache is null exactly when the tree is empty. *)
Theorem rb_tree_invariant (s0 : sched_cfs_state) (cs : list rb_call) :
  legal (dom (nodes s0)) cs ∅ = true ->
  exists s t,
    rb_run cs (cfs_init s0) = Some s /\
    heap_inv s [] t /\ red_black t /\ sorted (key_of s) (inorder t) /\
    list_to_set (inorder t) = members cs ∅ /\
    rb_leftmost s = head (inorder t) /\
    match rb_leftmost s with
    | None => t = E
    | Some m => m ∈ inorder t /\ forall a, a ∈ inorder t -> key_of s m <= key_of s a
    end.
Proof.
  intros Hlegal.
  destruct (rb_run_inv cs (cfs_init s0) E ∅ (rb_inv_init s0) eq_refl Hlegal)
    as (s & t & Hrun & Hinv & Hm).
  exists s, t. pose proof (rb_inv_leftmost s t Hinv) as Hmin.
  destruct Hinv as [Hheap Hrb Hsorted Hcache]. done.
Qed.

End rbtree_unlink.

Lemma rb_tree_invariant_witness :
  exists s t,
    RBRun.rb_run RBRun.five_calls (Cfs.cfs_init RBRun.five_threads) = Some s /\
    RBTree.heap_inv s [] t /\ RBTree.red_black t /\
    RBTree.sorted (RBTree.key_of s) (RBTree.inorder t) /\
    list_to_set (RBTree.inorder t) = RBRun.members RBRun.five_calls ∅ /\
    Cfs.rb_leftmost s = head (RBTree.inorder t) /\
    match Cfs.rb_leftmost s with
    | None => t = RBTree.E
    | Some m =>
        m ∈ RBTree.inorder t /\
        forall a, a ∈ RBTree.inorder t -> RBTree.key_of s m <= RBTree.key_of s a
    end.
Proof. apply rb_tree_invariant. vm_compute. reflexivity. Defined.

(** The run of [five_calls] leaves threads 3, 5 and 2 in the tree, and
    thread 3, of virtual runtime 20, is the cached leftmost. *)
Example five_calls_result :
  (fun s => (Cfs.rb_leftmost s, Cfs.count s, RBTree.key_of s 3)) <$>
    RBRun.rb_run RBRun.five_calls (Cfs.cfs_init RBRun.five_threads) =
  Some (Some 3%nat, 3, 20).
Proof. vm_compute. reflexivity. Qed.
(** ** The fair-share policy (src/sched_cfs.c) *)

(** Taking a successful run of option binds apart, one bind at a time. *)
Ltac bind_inv :=
  repeat match goal with
  | H : Some _ = Some _ |- _ => inversion H; subst; clear H
  | H : None = Some _ |- _ => discriminate H
  | H : mbind _ ?x = Some _ |- _ =>
      destruct x eqn:?; [cbn [mbind option_bind] in H | discriminate H]
  | H : match ?x with Some _ => _ | None => _ end = Some _ |- _ => destruct x eqn:?
  | H : (if ?c then _ else _) = Some _ |- _ => destruct c eqn:?
  | H : (let '(_, _) := ?x in _) = Some _ |- _ => destruct x eqn:?
  | H : match ?x with inl _ => _ | inr _ => _ end = Some _ |- _ => destruct x eqn:?
  end.

Section sched_cfs_frame.
Import Cfs SchedCfs.

Lemma same_data_refl (s : sched_cfs_state) : same_data s s.
Proof. split; done. Qed.

Lemma same_data_upd (a : nat) (f : rb_node -> rb_node) (s0 s : sched_cfs_state) :
  keeps_payload f -> same_data s0 s -> same_data s0 (upd a f s).
Proof.
  intros Hf [Hm Hp]. split; [exact Hm|]. intros b. rewrite <- Hp, nodes_upd.
  destruct (decide (a = b)) as [->|Hne].
  - rewrite lookup_alter_eq. destruct (nodes s !! b); simpl; [f_equal; apply Hf | done].
  - rewrite lookup_alter_ne by done. done.
Qed.

Lemma keeps_set_left p : keeps_payload (set_left p).
Proof. by intros []. Qed.
Lemma keeps_set_right p : keeps_payload (set_right p).
Proof. by intros []. Qed.
Lemma keeps_set_parent p : keeps_payload (set_parent p).
Proof. by intros []. Qed.
Lemma keeps_set_color c : keeps_payload (set_color c).
Proof. by intros []. Qed.
Lemma keeps_set_child d p : keeps_payload (set_child d p).
Proof. by intros []; destruct d. Qed.

Lemma same_data_fields (s0 s s' : sched_cfs_state) :
  nodes s' = nodes s -> min_vruntime s' = min_vruntime s ->
  same_data s0 s -> same_data s0 s'.
Proof. intros Hn Hm [H1 H2]. split; [congruence|]. intros a. rewrite Hn. apply H2. Qed.

Lemma same_data_set_root p s0 s : same_data s0 s -> same_data s0 (set_root p s).
Proof. by apply same_data_fields. Qed.
Lemma same_data_set_leftmost p s0 s : same_data s0 s -> same_data s0 (set_leftmost p s).
Proof. by apply same_data_fields. Qed.
Lemma same_data_set_count c s0 s : same_data s0 s -> same_data s0 (set_count c s).
Proof. by apply same_data_fields. Qed.
Lemma same_data_set_color_if p c s0 s :
  same_data s0 s -> same_data s0 (set_color_if p c s).
Proof. destruct p; [apply same_data_upd, keeps_set_color | done]. Qed.

Create HintDb cfs_data.
#[local] Hint Resolve same_data_refl same_data_upd keeps_set_left keeps_set_right
  keeps_set_parent keeps_set_color keeps_set_child same_data_set_root
  same_data_set_leftmost same_data_set_count same_data_set_color_if : cfs_data.

Ltac same_data :=
  bind_inv;
  repeat match goal with
         | |- context [if ?c then _ else _] => destruct c
         | |- context [match ?c with Some _ => _ | None => _ end] => destruct c
         end;
  eauto 30 with cfs_data.

Lemma rb_rotate_data (d : dir) (x : nat) (s0 s s' : sched_cfs_state) :
  rb_rotate d x s = Some s' -> same_data s0 s -> same_data s0 s'.
Proof. unfold rb_rotate. intros H H0. same_data. Qed.
#[local] Hint Resolve rb_rotate_data : cfs_data.

Lemma insert_fixup_outer_data d z s0 s s' r :
  insert_fixup_outer d z s = Some (s', r) -> same_data s0 s -> same_data s0 s'.
Proof. unfold insert_fixup_outer. intros H H0. same_data. Qed.
#[local] Hint Resolve insert_fixup_outer_data : cfs_data.

Lemma insert_fixup_side_data d z p g s0 s s' r :
  insert_fixup_side d z p g s = Some (s', r) -> same_data s0 s -> same_data s0 s'.
Proof. unfold insert_fixup_side, is_red. intros H H0. same_data. Qed.
#[local] Hint Resolve insert_fixup_side_data : cfs_data.

Lemma rb_insert_fixup_loop_data fuel z s0 s s' :
  rb_insert_fixup_loop fuel z s = Some s' -> same_data s0 s -> same_data s0 s'.
Proof.
  revert z s. induction fuel as [|fuel IH]; intros z s H H0; simpl in H; [done|].
  same_data.
Qed.
#[local] Hint Resolve rb_insert_fixup_loop_data : cfs_data.

Lemma rb_insert_fixup_data z s0 s s' :
  rb_insert_fixup z s = Some s' -> same_data s0 s -> same_data s0 s'.
Proof. unfold rb_insert_fixup. intros H H0. same_data. Qed.
#[local] Hint Resolve rb_insert_fixup_data : cfs_data.

Lemma rb_insert_data z s0 s s' :
  rb_insert z s = Some s' -> same_data s0 s -> same_data s0 s'.
Proof. unfold rb_insert. intros H H0. same_data. Qed.

Lemma rb_transplant_data u v s0 s s' :
  rb_transplant u v s = Some s' -> same_data s0 s -> same_data s0 s'.
Proof. unfold rb_transplant. intros H H0. same_data. Qed.
#[local] Hint Resolve rb_transplant_data : cfs_data.

Lemma remove_fixup_sibling_data d xp s0 s s' r :
  remove_fixup_sibling d xp s = Some (s', r) -> same_data s0 s -> same_data s0 s'.
Proof. unfold remove_fixup_sibling, is_red. intros H H0. same_data. Qed.
#[local] Hint Resolve remove_fixup_sibling_data : cfs_data.

Lemma remove_fixup_inner_data d xp a s0 s s' r :
  remove_fixup_inner d xp a s = Some (s', r) -> same_data s0 s -> same_data s0 s'.
Proof. unfold remove_fixup_inner. intros H H0. same_data. Qed.
#[local] Hint Resolve remove_fixup_inner_data : cfs_data.

Lemma remove_fixup_outer_data d xp a s0 s s' :
  remove_fixup_outer d xp a s = Some s' -> same_data s0 s -> same_data s0 s'.
Proof. unfold remove_fixup_outer. intros H H0. same_data. Qed.
#[local] Hint Resolve remove_fixup_outer_data : cfs_data.

Lemma remove_fixup_side_data d xp s0 s s' r :
  remove_fixup_side d xp s = Some (s', r) -> same_data s0 s -> same_data s0 s'.
Proof. unfold remove_fixup_side. intros H H0. same_data. Qed.
#[local] Hint Resolve remove_fixup_side_data : cfs_data.

Lemma rb_remove_fixup_loop_data fuel x xp s0 s s' r :
  rb_remove_fixup_loop fuel x xp s = Some (s', r) -> same_data s0 s -> same_data s0 s'.
Proof.
  revert x xp s. induction fuel as [|fuel IH]; intros x xp s H H0; simpl in H; [done|].
  same_data.
Qed.
#[local] Hint Resolve rb_remove_fixup_loop_data : cfs_data.

Lemma rb_remove_fixup_data x xp s0 s s' :
  rb_remove_fixup x xp s = Some s' -> same_data s0 s -> same_data s0 s'.
Proof. unfold rb_remove_fixup. intros H H0. same_data. Qed.
#[local] Hint Resolve rb_remove_fixup_data : cfs_data.

Lemma rb_remove_replace_data z y s0 s s' :
  rb_remove_replace z y s = Some s' -> same_data s0 s -> same_data s0 s'.
Proof. unfold rb_remove_replace. intros H H0. same_data. Qed.
#[local] Hint Resolve rb_remove_replace_data : cfs_data.

Lemma rb_remove_lift_data z y s0 s s' :
  rb_remove_lift z y s = Some s' -> same_data s0 s -> same_data s0 s'.
Proof. unfold rb_remove_lift. intros H H0. same_data. Qed.
#[local] Hint Resolve rb_remove_lift_data : cfs_data.

Lemma rb_remove_unlink_data z s0 s s' c x xp :
  rb_remove_unlink z s = Some (s', c, x, xp) -> same_data s0 s -> same_data s0 s'.
Proof. unfold rb_remove_unlink. intros H H0. same_data. Qed.
#[local] Hint Resolve rb_remove_unlink_data : cfs_data.

Lemma rb_remove_data z s0 s s' :
  rb_remove z s = Some s' -> same_data s0 s -> same_data s0 s'.
Proof. unfold rb_remove. intros H H0. same_data. Qed.

End sched_cfs_frame.

Section sched_cfs.
Import Cfs RBTree RBRemove SchedCfs.

Lemma cfs_queue_NoDup (s : sched_cfs_state) (l : list nat) : cfs_queue s l -> NoDup l.
Proof. intros (t & [(_ & _ & Hnd) _ _ _] & <-). exact Hnd. Qed.

Lemma same_data_key (s s' : sched_cfs_state) (a : nat) :
  same_data s s' -> key_of s' a = key_of s a.
Proof.
  intros [_ Hp]. specialize (Hp a). unfold key_of.
  destruct (nodes s' !! a), (nodes s !! a); simpl in Hp; try done.
  by injection Hp.
Qed.

Lemma queue_of_three_inv : rb_inv queue_of_three tree_of_three.
Proof.
  split.
  - split; [reflexivity|]. split.
    + simpl. repeat split; eexists; (split; [reflexivity|]); simpl; done.
    + apply (bool_decide_unpack _). vm_compute. exact I.
  - apply (bool_decide_unpack _). vm_compute. exact I.
  - simpl. repeat split; repeat constructor; vm_compute; discriminate.
  - reflexivity.
Qed.

Lemma rep_alter_links (f : rb_node -> rb_node) (a : nat) (h : gmap nat rb_node)
    (par : option nat) (t : tree) :
  keeps_links f -> rep h par t -> rep (alter f a h) par t.
Proof.
  intros Hf. revert par. induction t as [| c l IHl b r IHr]; intros par; simpl; [done |].
  intros ((n & Hn & H1 & H2 & H3 & H4) & Hl & Hr). split; [| by auto].
  destruct (Hf n) as (F1 & F2 & F3 & F4 & _).
  destruct (decide (a = b)) as [-> | Hne].
  - exists (f n). rewrite lookup_alter_eq, Hn. simpl. repeat split; congruence.
  - exists n. rewrite lookup_alter_ne by done. done.
Qed.

Lemma key_of_upd_links (f : rb_node -> rb_node) (a b : nat) (s : sched_cfs_state) :
  keeps_links f -> key_of (upd a f s) b = key_of s b.
Proof.
  intros Hf. unfold key_of. rewrite nodes_upd.
  destruct (decide (a = b)) as [-> | Hne].
  - rewrite lookup_alter_eq. destruct (nodes s !! b) as [n |]; simpl; [| done]. apply Hf.
  - by rewrite lookup_alter_ne.
Qed.

Lemma rb_inv_upd_links (f : rb_node -> rb_node) (a : nat) (s : sched_cfs_state)
    (t : tree) :
  keeps_links f -> rb_inv s t -> rb_inv (upd a f s) t.
Proof.
  intros Hf [(Hc & Hr & Hnd) Hrb Hsorted Hcache]. split; [| done | | done].
  - split; [exact Hc |]. split; [| exact Hnd]. by apply rep_alter_links.
  - eapply sorted_ext; [| exact Hsorted]. intros b _. by apply key_of_upd_links.
Qed.

Lemma keeps_links_timeslice (v : Z) : keeps_links (set_timeslice_remaining v).
Proof. by intros []. Qed.

Lemma keeps_links_weight (w : Z) : keeps_links (set_weight w).
Proof. by intros []. Qed.

Lemma key_of_set_vruntime (a b : nat) (v : Z) (s : sched_cfs_state) :
  is_Some (nodes s !! a) ->
  key_of (upd a (set_vruntime v) s) b = if decide (a = b) then v else key_of s b.
Proof.
  intros [n Hn]. unfold key_of. rewrite nodes_upd. destruct (decide (a = b)) as [-> | Hne].
  - by rewrite lookup_alter_eq, Hn.
  - by rewrite lookup_alter_ne.
Qed.

(** The two clamps at the head of [cfs_enqueue]. *)
Lemma cfs_enqueue_clamp (s : sched_cfs_state) (t : nat) (n : rb_node) :
  nodes s !! t = Some n ->
  let v := if decide (vruntime n = 0 \/ vruntime n < min_vruntime s)
           then min_vruntime s else vruntime n in
  exists s1 n1,
    (forall s', (s2 ← rb_insert t s1; n2 ← nodes s2 !! t;
                 slice ← cfs_timeslice (weight n2) (count s2);
                 Some (upd t (set_timeslice_remaining slice) s2)) = s' ->
                cfs_enqueue (Some t) s = s') /\
    nodes s1 !! t = Some n1 /\ vruntime n1 = v /\ weight n1 = weight n /\
    (s1 = s \/ s1 = upd t (set_vruntime v) s) /\
    min_vruntime s1 = min_vruntime s /\ count s1 = count s.
Proof.
  intros Hn v. unfold cfs_enqueue. rewrite Hn. cbn [mbind option_bind].
  destruct (decide (vruntime n = 0)) as [H0 | H0].
  - rewrite nodes_upd, lookup_alter_eq, Hn. cbn [fmap option_fmap option_map mbind option_bind].
    destruct n as [v0 w st ts lf rt pa co]. simpl in *. subst v0.
    destruct (decide (min_vruntime s < min_vruntime s)) as [? | _]; [lia |].
    eexists _, _. split; [intros s' <-; reflexivity |].
    rewrite nodes_upd, lookup_alter_eq, Hn. simpl.
    split; [reflexivity |]. subst v. simpl. auto 10.
  - rewrite Hn. cbn [mbind option_bind].
    destruct (decide (vruntime n < min_vruntime s)) as [Hlt | Hge].
    + eexists _, _. split; [intros s' <-; reflexivity |].
      rewrite nodes_upd, lookup_alter_eq, Hn. simpl.
      split; [reflexivity |]. subst v.
      destruct (decide _) as [Hd | Hd]; [| exfalso; apply Hd; auto].
      destruct n; simpl. auto 10.
    + eexists _, _. split; [intros s' <-; reflexivity |].
      split; [exact Hn |]. subst v.
      destruct (decide _) as [Hd | Hd]; [tauto | auto 10].
Qed.

(** X1 (src/sched_cfs.c, cfs_dequeue): on a well-formed queue, dequeuing
    returns NULL and changes nothing when the queue is empty; otherwise it
    returns the first thread of the queue, whose virtual runtime is the
    least of all queued threads, and leaves the other threads queued in
    their order, with the scheduling data of every thread untouched and
    the counter one less. *)
Theorem cfs_dequeue_least (s : sched_cfs_state) (l : list nat) :
  cfs_queue s l ->
  match l with
  | [] => cfs_dequeue s = Some (None, s)
  | m :: rest =>
      exists s', cfs_dequeue s = Some (Some m, s') /\
        cfs_queue s' rest /\
        (forall a, a ∈ rest -> key_of s m <= key_of s a) /\
        same_data s s' /\
        count s' = wrap_int (count s - 1)
  end.
Proof.
  intros Hq. pose proof (cfs_queue_NoDup _ _ Hq) as Hnd.
  destruct Hq as (t & Hinv & <-).
  pose proof (rb_cache _ _ Hinv) as Hc. pose proof (rb_sorted _ _ Hinv) as Hs.
  unfold cfs_dequeue. rewrite Hc.
  destruct (inorder t) as [|m rest] eqn:Hl; [reflexivity|]. cbn [head].
  destruct (rb_remove_spec s t m Hinv) as (s' & t' & L & R & Hr & Hinv' & HL & HL' & _ & _ & Hcnt & _).
  { rewrite Hl. left. }
  rewrite Hr. cbn [mbind option_bind]. exists s'. split; [reflexivity|].
  assert (L = [] /\ R = rest) as [-> ->].
  { rewrite Hl in HL. destruct L as [|x L]; simplify_eq/=; [done|].
    exfalso. apply NoDup_cons in Hnd as [Hnd _]. apply Hnd. set_solver. }
  repeat split.
  - exists t'. done.
  - intros a Ha. destruct Hs as [Hs _]. rewrite Forall_forall in Hs. by apply Hs.
  - eapply rb_remove_data; [exact Hr | apply same_data_refl].
  - intros a. destruct (rb_remove_data _ _ _ _ Hr (same_data_refl s)) as [_ Hp]. apply Hp.
  - exact Hcnt.
Qed.

Lemma cfs_dequeue_least_witness :
  exists s', cfs_dequeue queue_of_three = Some (Some 2%nat, s') /\
    cfs_queue s' [1%nat; 3%nat] /\
    (forall a, a ∈ [1%nat; 3%nat] -> key_of queue_of_three 2 <= key_of queue_of_three a) /\
    same_data queue_of_three s' /\
    count s' = wrap_int (count queue_of_three - 1).
Proof.
  apply (cfs_dequeue_least queue_of_three [2%nat; 1%nat; 3%nat]).
  exists tree_of_three. split; [apply queue_of_three_inv | reflexivity].
Defined.

Lemma cfs_timeslice_some (w c : Z) : w <> 0 -> is_Some (cfs_timeslice w c).
Proof.
  intros Hw. unfold cfs_timeslice.
  destruct (decide (wrap_int (c * CFS_NICE_0_WEIGHT) = 0)) as [H0 | H0].
  - destruct (decide _) as [[? | [Hp ->]] | _]; [done | | eauto].
    exfalso. vm_compute in Hp. discriminate.
  - destruct (decide _) as [[? | [_ Hm]] | _]; [done | | eauto].
    exfalso. unfold wrap_int, CFS_NICE_0_WEIGHT in Hm.
    pose proof (Z.div_mod (c * 1024 + 2 ^ 31) (2 ^ 32)). lia.
Qed.

(** X2 (src/sched_cfs.c, cfs_enqueue): enqueuing a thread that is not
    queued and whose weight is not zero succeeds on a well-formed queue.
    The thread enters with virtual runtime [min_vruntime] if it had never
    run (virtual runtime 0) or had fallen behind [min_vruntime], with its
    own otherwise; it is placed after every queued thread whose virtual
    runtime is not greater and before every thread whose virtual runtime is
    greater, so threads of equal virtual runtime leave in arrival order.
    The virtual runtimes of the other threads and [min_vruntime] are
    unchanged and the counter is one more. *)
Theorem cfs_enqueue_ordered (s : sched_cfs_state) (l : list nat) (t : nat) (n : rb_node) :
  cfs_queue s l -> t ∉ l -> nodes s !! t = Some n -> weight n <> 0 ->
  let v := if decide (vruntime n = 0 \/ vruntime n < min_vruntime s)
           then min_vruntime s else vruntime n in
  exists s' l1 l2,
    cfs_enqueue (Some t) s = Some s' /\
    l = l1 ++ l2 /\ cfs_queue s' (l1 ++ t :: l2) /\
    key_of s' t = v /\ min_vruntime s <= v /\
    (forall a, a <> t -> key_of s' a = key_of s a) /\
    (forall a, a ∈ l1 -> key_of s a <= v) /\
    (forall a, a ∈ l2 -> v < key_of s a) /\
    min_vruntime s' = min_vruntime s /\
    count s' = wrap_int (count s + 1).
Proof.
  intros (tr & Hinv & <-) Ht Hn Hw v.
  destruct (cfs_enqueue_clamp s t n Hn) as (s1 & n1 & Hrun & Hn1 & Hv1 & Hw1 & Hs1 & Hm1 & Hc1).
  fold v in Hv1, Hs1.
  assert (rb_inv s1 tr) as Hinv1.
  { destruct Hs1 as [-> | ->]; [done | by apply rb_inv_set_vruntime]. }
  assert (forall a, key_of s1 a = if decide (t = a) then v else key_of s a) as Hkey1.
  { intros a. destruct (decide (t = a)) as [<- | Hne].
    - unfold key_of. by rewrite Hn1.
    - destruct Hs1 as [-> | ->]; [done |]. rewrite key_of_set_vruntime by eauto.
      by rewrite decide_False. }
  destruct (rb_insert_spec s1 tr t Hinv1) as (s2 & Hins & Hinv2 & Hkey2 & Hdom2 & Hc2 & Hm2);
    [eauto | done |].
  pose proof (rb_insert_data _ _ _ _ Hins (same_data_refl s1)) as [_ Hpay].
  specialize (Hpay t). rewrite Hn1 in Hpay.
  destruct (nodes s2 !! t) as [n2 |] eqn:Hn2; [| done].
  simpl in Hpay. injection Hpay as _ Hw2 _ _.
  destruct (cfs_timeslice_some (weight n2) (count s2)) as [slice Hslice]; [congruence |].
  eexists (upd t (set_timeslice_remaining slice) s2), _, _.
  split.
  { apply Hrun. rewrite Hins. cbn [mbind option_bind]. rewrite Hn2. cbn [mbind option_bind].
    rewrite Hslice. reflexivity. }
  destruct (ins_spec (key_of s1) t tr) as (_ & Hio & Hio' & _ & _);
    [apply Hinv1 | apply Hinv1 |].
  destruct (on_path_order (key_of s1) (key_of s1 t) (ins_path (key_of s1) (key_of s1 t) [] tr))
    as [Hbefore Hafter].
  { apply ins_path_on_path. constructor. }
  { rewrite <- Hio. apply Hinv1. }
  assert (key_of s1 t = v) as Hkt by (rewrite Hkey1; by rewrite decide_True).
  assert (forall a, a ∈ inorder tr -> key_of s1 a = key_of s a) as Hold.
  { intros a Ha. rewrite Hkey1. rewrite decide_False; [done |]. intros <-. done. }
  split; [exact Hio |]. split.
  { exists (ins (key_of s1) t tr). split; [| exact Hio'].
    apply rb_inv_upd_links; [apply keeps_links_timeslice | exact Hinv2]. }
  split. { rewrite key_of_upd_links by apply keeps_links_timeslice. by rewrite Hkey2. }
  split. { subst v. destruct (decide _) as [_ | Hd]; lia. }
  split.
  { intros a Ha. rewrite key_of_upd_links by apply keeps_links_timeslice.
    rewrite Hkey2, Hkey1. by rewrite decide_False. }
  split.
  { intros a Ha. rewrite <- Hold by (rewrite Hio; set_solver). rewrite <- Hkt. by apply Hbefore. }
  split.
  { intros a Ha. rewrite <- Hold by (rewrite Hio; set_solver). rewrite <- Hkt. by apply Hafter. }
  split; simpl; congruence.
Qed.

Lemma cfs_enqueue_ordered_witness :
  exists s' l1 l2,
    cfs_enqueue (Some 4%nat) queue_of_three = Some s' /\
    [2%nat; 1%nat; 3%nat] = l1 ++ l2 /\ cfs_queue s' (l1 ++ 4%nat :: l2) /\
    key_of s' 4 = 10 /\ min_vruntime queue_of_three <= 10 /\
    (forall a, a <> 4%nat -> key_of s' a = key_of queue_of_three a) /\
    (forall a, a ∈ l1 -> key_of queue_of_three a <= 10) /\
    (forall a, a ∈ l2 -> 10 < key_of queue_of_three a) /\
    min_vruntime s' = min_vruntime queue_of_three /\
    count s' = wrap_int (count queue_of_three + 1).
Proof.
  apply (cfs_enqueue_ordered queue_of_three [2%nat; 1%nat; 3%nat] 4
           (mk_node 0 87 0 0 None None None RB_RED)).
  - exists tree_of_three. split; [apply queue_of_three_inv | reflexivity].
  - apply (bool_decide_unpack _). vm_compute. exact I.
  - reflexivity.
  - simpl. lia.
Defined.

Lemma cfs_timeslice_range (w c slice : Z) :
  cfs_timeslice w c = Some slice ->
  CFS_MIN_GRANULARITY_NS <= slice < 2 ^ 64 /\
  (0 <= CFS_TARGET_LATENCY_NS * w <= INT_MAX ->
   0 < c * CFS_NICE_0_WEIGHT <= INT_MAX ->
   slice = Z.max CFS_MIN_GRANULARITY_NS
             (CFS_TARGET_LATENCY_NS * w / (c * CFS_NICE_0_WEIGHT))).
Proof.
  unfold cfs_timeslice. intros H. destruct (decide (_ \/ _)) as [| _]; [done |].
  injection H as <-.
  unfold CFS_MIN_GRANULARITY_NS, CFS_TARGET_LATENCY_NS, CFS_NICE_0_WEIGHT.
  split.
  - destruct (decide _) as [_ | Hge]; [lia |].
    split; [lia |]. unfold wrap_u64. apply Z.mod_pos_bound. lia.
  - intros Hp Hc. rewrite (wrap_int_small (c * _)) by (unfold INT_MIN, INT_MAX in *; lia).
    rewrite (decide_False (P := c * 1024 = 0)) by lia.
    rewrite (wrap_int_small (_ * w)) by (unfold INT_MIN, INT_MAX in *; lia).
    rewrite Z.quot_div_nonneg by lia.
    assert (0 <= 20 * 1000 * 1000 * w / (c * 1024) <= INT_MAX) as Hq.
    { split; [apply Z.div_pos; lia |].
      apply Z.div_le_upper_bound; [lia |]. unfold INT_MAX in *. nia. }
    unfold wrap_u64. rewrite Z.mod_small by (unfold INT_MAX in Hq; lia).
    destruct (decide _); lia.
Qed.

(** X3 (src/sched_cfs.c, cfs_enqueue): the time slice a thread receives on
    entering the queue is at least the minimum granularity of 1 ms; when
    neither the product of the target latency (20 ms) and the weight nor
    1024 times the new number of queued threads leaves the range of [int],
    it is the larger of 1 ms and 20 ms * weight / (1024 * count).  The
    weight and the start time of the thread are not changed. *)
Theorem cfs_enqueue_timeslice (s s' : sched_cfs_state) (t : nat) (n : rb_node) :
  nodes s !! t = Some n -> cfs_enqueue (Some t) s = Some s' ->
  exists n', nodes s' !! t = Some n' /\
    weight n' = weight n /\ start_time n' = start_time n /\
    CFS_MIN_GRANULARITY_NS <= timeslice_remaining n' < 2 ^ 64 /\
    (0 <= CFS_TARGET_LATENCY_NS * weight n <= INT_MAX ->
     0 < count s' * CFS_NICE_0_WEIGHT <= INT_MAX ->
     timeslice_remaining n' =
       Z.max CFS_MIN_GRANULARITY_NS
         (CFS_TARGET_LATENCY_NS * weight n / (count s' * CFS_NICE_0_WEIGHT))).
Proof.
  intros Hn Hrun.
  destruct (cfs_enqueue_clamp s t n Hn) as (s1 & n1 & Hcont & Hn1 & _ & Hw1 & Hs1 & _).
  erewrite Hcont in Hrun by reflexivity.
  destruct (rb_insert t s1) as [s2 |] eqn:Hins; [| done]. cbn [mbind option_bind] in Hrun.
  destruct (nodes s2 !! t) as [n2 |] eqn:Hn2; [| done]. cbn [mbind option_bind] in Hrun.
  destruct (cfs_timeslice (weight n2) (count s2)) as [slice |] eqn:Hslice; [| done].
  injection Hrun as <-.
  pose proof (rb_insert_data _ _ _ _ Hins (same_data_refl s1)) as [_ Hpay].
  specialize (Hpay t). rewrite Hn1, Hn2 in Hpay. simpl in Hpay. injection Hpay as _ Hw2 Hst2 _.
  assert (start_time n1 = start_time n) as Hst1.
  { destruct Hs1 as [-> | ->]; [congruence |].
    rewrite nodes_upd, lookup_alter_eq, Hn in Hn1. injection Hn1 as <-. by destruct n. }
  exists (set_timeslice_remaining slice n2).
  rewrite nodes_upd, lookup_alter_eq, Hn2. split; [reflexivity |].
  destruct n2; simpl in *. split; [congruence |]. split; [congruence |].
  rewrite Hw2, Hw1 in Hslice. by apply cfs_timeslice_range in Hslice.
Qed.

Lemma cfs_enqueue_timeslice_witness :
  exists s' n', cfs_enqueue (Some 4%nat) (cfs_init queue_of_three) = Some s' /\
    nodes s' !! 4%nat = Some n' /\ weight n' = 87 /\
    CFS_MIN_GRANULARITY_NS <= timeslice_remaining n' < 2 ^ 64 /\
    timeslice_remaining n' = 1699218.
Proof.
  destruct (cfs_enqueue (Some 4%nat) (cfs_init queue_of_three)) as [s' |] eqn:E;
    [| vm_compute in E; discriminate].
  destruct (cfs_enqueue_timeslice (cfs_init queue_of_three) s' 4
              (mk_node 0 87 0 0 None None None RB_RED) eq_refl E)
    as (n' & Hn' & Hw & _ & Hr & Hf).
  exists s', n'. repeat split; try done; try apply Hr.
  assert (count s' = 1) as Hc by (vm_compute in E; by injection E as <-).
  rewrite Hf; rewrite ?Hc; [reflexivity | vm_compute; split; discriminate
                           | vm_compute; split; [reflexivity | discriminate]].
Defined.

Lemma cfs_remove_search_spec (fuel : nat) (s : sched_cfs_state) (ctx : list frame)
    (t : tree) (z : nat) :
  heap_inv s ctx t -> is_Some (nodes s !! z) -> (length (inorder t) <= fuel)%nat ->
  cfs_remove_search fuel z (root t) s = Some (search (key_of s) z t).
Proof.
  intros Hinv [nz Hz]. revert fuel ctx Hinv.
  induction t as [| c l IHl a r IHr]; intros fuel ctx Hinv Hfuel; [by destruct fuel |].
  simpl in Hfuel. rewrite length_app in Hfuel. simpl in Hfuel.
  destruct fuel as [| fuel]; [lia |].
  cbn [root search cfs_remove_search].
  destruct (decide (a = z)) as [-> | Hne]; [done |].
  destruct (heap_inv_read_N _ _ _ _ _ _ Hinv) as (na & Hna & Hl & Hr & _).
  step Hz. step Hna.
  rewrite (key_of_lookup _ _ _ Hna), (key_of_lookup _ _ _ Hz).
  destruct (decide (vruntime nz < vruntime na)).
  - rewrite Hl. apply (IHl fuel (Fr Left c a r :: ctx)); [| lia].
    apply (heap_inv_down s Left). exact Hinv.
  - rewrite Hr. apply (IHr fuel (Fr Right c a l :: ctx)); [| lia].
    apply (heap_inv_down s Right). exact Hinv.
Qed.

Lemma search_member (key : nat -> Z) (z : nat) (t : tree) :
  search key z t = true -> z ∈ inorder t.
Proof.
  induction t as [| c l IHl a r IHr]; simpl; [done |].
  destruct (decide (a = z)) as [-> | _]; [set_solver |].
  destruct (decide _); set_solver.
Qed.

Lemma search_unique (key : nat -> Z) (z : nat) (t : tree) :
  sorted key (inorder t) -> z ∈ inorder t ->
  (forall a, a ∈ inorder t -> a <> z -> key a <> key z) ->
  search key z t = true.
Proof.
  induction t as [| c l IHl a r IHr]; simpl; [set_solver |].
  intros Hs Hz Hu. destruct (decide (a = z)) as [-> | Hne]; [done |].
  apply sorted_app in Hs as (Hsl & (Hall & Hsr) & Hlr). rewrite Forall_forall in Hall.
  assert (key a <> key z) as Hk by (apply Hu; [set_solver | done]).
  destruct (decide (key z < key a)) as [Hlt | Hge].
  - apply IHl; [done | | intros; apply Hu; [set_solver | done]].
    apply elem_of_app in Hz as [Hz | [-> | Hz]%elem_of_cons]; [done.. |].
    specialize (Hall _ Hz). lia.
  - apply IHr; [done | | intros; apply Hu; [set_solver | done]].
    apply elem_of_app in Hz as [Hz | [-> | Hz]%elem_of_cons]; [| done..].
    assert (key z <= key a) by (apply Hlr; set_solver). lia.
Qed.

(** X4 (src/sched_cfs.c, cfs_remove): on a well-formed queue the call
    returns.  For a thread that is not queued it changes nothing.  For a
    queued thread it either changes nothing or unlinks exactly that thread,
    keeping the others in order and every thread's scheduling data; it does
    unlink the thread whenever no other queued thread has the same virtual
    runtime (the search walks down by virtual runtime and can pass by a
    thread whose virtual runtime is shared). *)
Theorem cfs_remove_unlinks (s : sched_cfs_state) (l : list nat) (z : nat) :
  cfs_queue s l -> is_Some (nodes s !! z) ->
  exists s', cfs_remove (Some z) s = Some s' /\
    let removed :=
      exists l1 l2, l = l1 ++ z :: l2 /\ cfs_queue s' (l1 ++ l2) /\
                    same_data s s' /\ count s' = wrap_int (count s - 1) in
    (z ∉ l -> s' = s) /\
    (z ∈ l -> s' = s \/ removed) /\
    (z ∈ l -> (forall a, a ∈ l -> a <> z -> key_of s a <> key_of s z) -> removed).
Proof.
  intros (t & Hinv & <-) Hz. unfold cfs_remove.
  pose proof (rb_heap _ _ Hinv) as Hheap.
  assert (rb_root s = root t) as -> by (destruct Hheap as (Hr & _); exact Hr).
  rewrite (cfs_remove_search_spec _ s [] t z Hheap Hz).
  2:{ pose proof (heap_inv_size _ _ _ Hheap) as Hsz. simpl in Hsz. lia. }
  cbn [mbind option_bind].
  assert (z ∈ inorder t -> exists s', rb_remove (Some z) s = Some s' /\
            exists l1 l2, inorder t = l1 ++ z :: l2 /\ cfs_queue s' (l1 ++ l2) /\
                          same_data s s' /\ count s' = wrap_int (count s - 1)) as Hrem.
  { intros Hin.
    destruct (rb_remove_spec s t z Hinv Hin)
      as (s' & t' & L & R & Hr & Hinv' & HL & HL' & _ & _ & Hcnt & _).
    exists s'. split; [exact Hr |]. exists L, R. split; [exact HL |].
    split; [by exists t' |]. split; [| exact Hcnt].
    eapply rb_remove_data; [exact Hr | apply same_data_refl]. }
  destruct (search (key_of s) z t) eqn:Hsearch.
  - destruct (Hrem (search_member _ _ _ Hsearch)) as (s' & Hr & Hrm).
    exists s'. split; [exact Hr |]. cbn zeta. split; [| by auto].
    intros Hnot. exfalso. apply Hnot. by eapply search_member.
  - exists s. split; [reflexivity |]. cbn zeta. split; [done |]. split; [by left |].
    intros Hin Hu. rewrite search_unique in Hsearch; [done | apply Hinv | done..].
Qed.

Lemma cfs_remove_unlinks_witness :
  exists s', cfs_remove (Some 1%nat) queue_of_three = Some s' /\
    exists l1 l2, [2%nat; 1%nat; 3%nat] = l1 ++ 1%nat :: l2 /\ cfs_queue s' (l1 ++ l2) /\
                  same_data queue_of_three s' /\
                  count s' = wrap_int (count queue_of_three - 1).
Proof.
  destruct (cfs_remove_unlinks queue_of_three [2%nat; 1%nat; 3%nat] 1) as (s' & Hr & _ & _ & Hu).
  - exists tree_of_three. split; [apply queue_of_three_inv | reflexivity].
  - vm_compute. eauto.
  - exists s'. split; [exact Hr |]. apply Hu.
    + set_solver.
    + intros a Ha Hne. repeat (apply elem_of_cons in Ha as [-> | Ha]); try done;
        try (vm_compute; discriminate). set_solver.
Defined.

(** X5 (src/sched_cfs.c, rb_insert and rb_remove with their fix-up loops
    and rotations): whatever the shape of the links, a tree operation that
    returns has written links and colours only: every thread keeps its
    virtual runtime, weight, start time and remaining time slice, no node
    appears or disappears, and [min_vruntime] is unchanged. *)
Theorem tree_ops_keep_scheduling_data (z : nat) (s s' : sched_cfs_state) :
  rb_insert z s = Some s' \/ rb_remove (Some z) s = Some s' ->
  min_vruntime s' = min_vruntime s /\
  dom (nodes s') = dom (nodes s) /\
  forall a n', nodes s' !! a = Some n' ->
    exists n, nodes s !! a = Some n /\
      vruntime n' = vruntime n /\ weight n' = weight n /\
      start_time n' = start_time n /\
      timeslice_remaining n' = timeslice_remaining n.
Proof.
  intros H.
  assert (same_data s s') as [Hm Hp].
  { destruct H as [H | H]; [eapply rb_insert_data | eapply rb_remove_data];
      eauto using same_data_refl. }
  split; [exact Hm |]. split.
  - apply set_eq. intros a. rewrite !elem_of_dom. specialize (Hp a).
    destruct (nodes s' !! a), (nodes s !! a); simpl in Hp; try done;
      split; intros [? ?]; eauto; done.
  - intros a n' Hn'. specialize (Hp a). rewrite Hn' in Hp.
    destruct (nodes s !! a) as [n |]; simpl in Hp; [| done].
    exists n. split; [reflexivity |]. injection Hp as -> -> -> ->. done.
Qed.

Lemma tree_ops_keep_scheduling_data_witness :
  exists s', rb_insert 4 queue_of_three = Some s' /\
    min_vruntime s' = min_vruntime queue_of_three /\
    dom (nodes s') = dom (nodes queue_of_three) /\
    forall a n', nodes s' !! a = Some n' ->
      exists n, nodes queue_of_three !! a = Some n /\
        vruntime n' = vruntime n /\ weight n' = weight n /\
        start_time n' = start_time n /\
        timeslice_remaining n' = timeslice_remaining n.
Proof.
  destruct (rb_insert 4 queue_of_three) as [s' |] eqn:E; [| vm_compute in E; discriminate].
  exists s'. split; [reflexivity |].
  apply (tree_ops_keep_scheduling_data 4 queue_of_three s'). left. exact E.
Defined.

Lemma cfs_step_min_vruntime (c : cfs_call) (s s' : sched_cfs_state) :
  cfs_step c s = Some s' -> min_vruntime s <= min_vruntime s'.
Proof.
  destruct c as [t | | t | t now | t e | t nice]; cbn [cfs_step].
  - intros H. destruct (nodes s !! t) as [n |] eqn:Hn;
      [| unfold cfs_enqueue in H; rewrite Hn in H; done].
    destruct (cfs_enqueue_clamp s t n Hn) as (s1 & n1 & Hcont & _ & _ & _ & _ & Hm1 & _).
    erewrite Hcont in H by reflexivity.
    destruct (rb_insert t s1) as [s2 |] eqn:Hins; [| done].
    pose proof (rb_insert_data _ _ _ _ Hins (same_data_refl s1)) as [Hm2 _].
    bind_inv. simpl. lia.
  - unfold cfs_dequeue. intros H.
    destruct (rb_leftmost s) as [t |]; [| injection H as <-; lia].
    destruct (rb_remove (Some t) s) as [s1 |] eqn:Hr; [| done].
    cbn [mbind option_bind fmap option_fmap option_map snd] in H. injection H as <-.
    pose proof (rb_remove_data _ _ _ _ Hr (same_data_refl s)) as [Hm _]. lia.
  - unfold cfs_remove. intros H.
    destruct (cfs_remove_search _ _ _ _) as [[|] |]; cbn [mbind option_bind] in H;
      [| injection H as <-; lia | done].
    pose proof (rb_remove_data _ _ _ _ H (same_data_refl s)) as [Hm _]. lia.
  - unfold cfs_on_yield. intros H. bind_inv; simpl; lia.
  - unfold cfs_on_tick. intros H. bind_inv. simpl. case_decide; simpl in *; lia.
  - intros H. injection H as <-. destruct (Some t); simpl; lia.
Qed.

(** X6 (src/sched_cfs.c, cfs_enqueue, cfs_dequeue, cfs_remove,
    cfs_on_yield, cfs_on_tick, cfs_update_priority): [min_vruntime] never
    decreases along a sequence of policy calls. *)
Theorem cfs_min_vruntime_monotone (cs : list cfs_call) (s s' : sched_cfs_state) :
  cfs_run cs s = Some s' -> min_vruntime s <= min_vruntime s'.
Proof.
  revert s. induction cs as [| c cs IH]; intros s H; simpl in H.
  - injection H as <-. lia.
  - destruct (cfs_step c s) as [s1 |] eqn:Hstep; [| done].
    apply cfs_step_min_vruntime in Hstep. apply IH in H. lia.
Qed.

Lemma cfs_min_vruntime_monotone_witness :
  exists s', cfs_run [Dequeue; OnTick 2 5000000; Enqueue 2; Enqueue 4] queue_of_three = Some s' /\
    min_vruntime s' = 5000010 /\
    min_vruntime queue_of_three <= min_vruntime s'.
Proof.
  destruct (cfs_run [Dequeue; OnTick 2 5000000; Enqueue 2; Enqueue 4] queue_of_three)
    as [s' |] eqn:E; [| vm_compute in E; discriminate].
  exists s'. split; [reflexivity |]. split.
  - vm_compute in E. by injection E as <-.
  - apply (cfs_min_vruntime_monotone _ _ _ E).
Defined.

End sched_cfs.

(** ** Weights (src/context.c) and the virtual time charged (src/sched_cfs.c) *)

Lemma weight_table_sorted :
  forallb (fun i => forallb (fun j =>
             implb (i <=? j)%nat (nth j weight_table 0 <=? nth i weight_table 0))
             (seq 0 40)) (seq 0 40) = true.
Proof. vm_compute. reflexivity. Qed.

Lemma weight_table_antitone (i j : nat) :
  (i <= j < 40)%nat -> nth j weight_table 0 <= nth i weight_table 0.
Proof.
  intros Hij. pose proof weight_table_sorted as H.
  rewrite forallb_forall in H. specialize (H i). rewrite forallb_forall in H.
  specialize (H ltac:(apply in_seq; lia) j ltac:(apply in_seq; lia)).
  destruct (Nat.leb_spec i j); [| lia]. cbn [implb] in H. by apply Z.leb_le in H.
Qed.

Lemma nice_to_weight_index (nice : Z) :
  exists i, (i < 40)%nat /\ nice_to_weight nice = nth i weight_table 0 /\
            Z.of_nat i = Z.max (-20) (Z.min 19 nice) + 20.
Proof.
  unfold nice_to_weight. repeat case_decide; eexists; (split; [| split; [reflexivity |]]); lia.
Qed.

Lemma nice_to_weight_order (nice1 nice2 : Z) :
  nice1 <= nice2 ->
  15 <= nice_to_weight nice2 <= nice_to_weight nice1 /\ nice_to_weight nice1 <= 88761.
Proof.
  intros Hle.
  destruct (nice_to_weight_index nice1) as (i & Hi & -> & Hi').
  destruct (nice_to_weight_index nice2) as (j & Hj & -> & Hj').
  pose proof (weight_table_antitone i j ltac:(lia)).
  pose proof (weight_table_antitone 0 i ltac:(lia)) as H0.
  pose proof (weight_table_antitone j 39 ltac:(lia)) as H39.
  change (nth 0 weight_table 0) with 88761 in H0.
  change (nth 39 weight_table 0) with 15 in H39.
  lia.
Qed.

(** X7 (src/context.c, nice_to_weight): a larger nice value never gives a
    larger weight; every weight, also for a nice value outside -20..19
    (which is clamped), lies between 15 and 88761, so it is never zero; and
    nice 0 has the weight 1024 of the fair-share policy. *)
Theorem nice_to_weight_antitone (nice1 nice2 : Z) :
  nice1 <= nice2 ->
  15 <= nice_to_weight nice2 <= nice_to_weight nice1 /\
  nice_to_weight nice1 <= 88761 /\
  nice_to_weight 0 = CFS_NICE_0_WEIGHT /\
  (nice1 < -20 -> nice_to_weight nice1 = nice_to_weight (-20)) /\
  (19 < nice2 -> nice_to_weight nice2 = nice_to_weight 19).
Proof.
  intros Hle.
  destruct (nice_to_weight_index nice1) as (i & Hi & -> & Hi').
  destruct (nice_to_weight_index nice2) as (j & Hj & -> & Hj').
  pose proof (weight_table_antitone i j ltac:(lia)).
  pose proof (weight_table_antitone 0 i ltac:(lia)) as H0.
  pose proof (weight_table_antitone j 39 ltac:(lia)) as H39.
  change (nth 0 weight_table 0) with 88761 in H0.
  change (nth 39 weight_table 0) with 15 in H39.
  repeat split; try lia.
  - intros Hlt. replace i with 0%nat by lia. reflexivity.
  - intros Hgt. replace j with 39%nat by lia. reflexivity.
Qed.

Lemma nice_to_weight_antitone_witness :
  15 <= nice_to_weight 3 <= nice_to_weight (-5) /\ nice_to_weight (-5) <= 88761.
Proof.
  destruct (nice_to_weight_antitone (-5) 3) as (H1 & H2 & _); [lia |]. exact (conj H1 H2).
Defined.

Section sched_cfs_tick.
Import Cfs RBTree SchedCfs.

(** X8 (src/sched_cfs.c, cfs_on_tick, with nice_to_weight of
    src/context.c): for a thread whose weight comes from a nice value, and
    as long as the 64-bit arithmetic does not wrap, a tick of [e]
    nanoseconds returns, advances the virtual runtime by
    [e * 1024 / weight] (by [e] itself for a thread of nice 0), raises
    [min_vruntime] to the new virtual runtime if that is larger, and
    takes [e] off the remaining time slice, stopping at 0.  For the same
    [e], a thread of larger nice value is charged at least as much. *)
Theorem cfs_on_tick_charge (s : sched_cfs_state) (t : nat) (n : rb_node) (nice e : Z) :
  nodes s !! t = Some n -> weight n = nice_to_weight nice ->
  0 <= e -> e * CFS_NICE_0_WEIGHT < 2 ^ 64 ->
  0 <= vruntime n -> vruntime n + e * CFS_NICE_0_WEIGHT / nice_to_weight nice < 2 ^ 64 ->
  exists s' n',
    cfs_on_tick (Some t) e s = Some s' /\ nodes s' !! t = Some n' /\
    vruntime n' = vruntime n + e * CFS_NICE_0_WEIGHT / nice_to_weight nice /\
    vruntime n <= vruntime n' /\
    (nice = 0 -> vruntime n' = vruntime n + e) /\
    min_vruntime s' = Z.max (min_vruntime s) (vruntime n') /\
    timeslice_remaining n' = Z.max 0 (timeslice_remaining n - e) /\
    weight n' = weight n /\
    (forall nice', nice <= nice' ->
       e * CFS_NICE_0_WEIGHT / nice_to_weight nice <=
       e * CFS_NICE_0_WEIGHT / nice_to_weight nice').
Proof.
  intros Hn Hw He Hmul Hv Hsum.
  destruct (nice_to_weight_order nice nice ltac:(lia)) as ((Hlo & _) & Hhi).
  unfold cfs_on_tick, vruntime_delta. rewrite Hn. cbn [mbind option_bind].
  rewrite Hw. unfold wrap_u64 in *. unfold CFS_NICE_0_WEIGHT in *.
  rewrite (Z.mod_small (nice_to_weight nice)) by lia.
  rewrite (decide_False (P := nice_to_weight nice = 0)) by lia. cbn [mbind option_bind].
  rewrite (Z.mod_small (e * 1024)) by lia.
  assert (0 <= e * 1024 / nice_to_weight nice) as Hd by (apply Z.div_pos; lia).
  rewrite (Z.mod_small (vruntime n + _)) by lia.
  eexists _, _. split; [reflexivity |].
  rewrite !nodes_upd.
  assert (forall v' (s0 : sched_cfs_state),
            nodes (if decide (v' > min_vruntime (upd t (set_vruntime v') s))
                   then set_min_vruntime v' s0 else s0) = nodes s0) as Hnodes
    by (intros; case_decide; reflexivity).
  rewrite Hnodes, nodes_upd, lookup_alter_eq, lookup_alter_eq, Hn. simpl.
  split; [reflexivity |]. destruct n as [v w st ts lf rt pa co]; simpl in *. subst w.
  split; [reflexivity |]. split; [lia |]. split.
  { intros ->. change (nice_to_weight 0) with 1024. rewrite Z.div_mul by lia. reflexivity. }
  split. { case_decide; simpl; lia. }
  split. { case_decide; lia. }
  split; [reflexivity |].
  intros nice' Hle.
  destruct (nice_to_weight_order nice nice' Hle) as ((Hlo' & Hle') & _).
  apply Z.div_le_compat_l; lia.
Qed.

Lemma cfs_on_tick_charge_witness :
  exists s' n',
    cfs_on_tick (Some 4%nat) 3000000 queue_of_three = Some s' /\
    nodes s' !! 4%nat = Some n' /\
    vruntime n' = 0 + 3000000 * CFS_NICE_0_WEIGHT / nice_to_weight 11 /\
    min_vruntime s' = Z.max 10 (vruntime n').
Proof.
  destruct (cfs_on_tick_charge queue_of_three 4 (mk_node 0 87 0 0 None None None RB_RED)
              11 3000000) as (s' & n' & H1 & H2 & H3 & _ & _ & H4 & _);
    [reflexivity | reflexivity | lia | reflexivity | simpl; lia | reflexivity |].
  exists s', n'. auto.
Defined.

End sched_cfs_tick.

(** ** The preemption counter and the interval timer (src/timer.c) *)

Section timer.
Import Timer.

Lemma timer_step_inv (ev : timer_event) (st st' : timer_state) (tick : bool) :
  timer_step ev st = (st', tick) ->
  0 <= s_preemption_disabled st -> s_preemption_disabled st < INT_MAX ->
  0 <= s_preemption_disabled st' <= s_preemption_disabled st + 1 /\
  (tick = true -> s_preemption_disabled st' = 0) /\
  (if tick then 1 else 0) + pending_bit st' <=
    pending_bit st + (if is_signal ev then 1 else 0).
Proof.
  unfold INT_MAX, pending_bit. intros H H0 Hmax.
  destruct ev as [| v | v]; simpl in H.
  - injection H as <- <-. simpl. rewrite wrap_int_small by (unfold INT_MIN, INT_MAX; lia).
    repeat split; try lia; try done.
  - unfold preemption_enable in H.
    rewrite (wrap_int_small (_ - 1)) in H by (unfold INT_MIN, INT_MAX; lia).
    repeat (case_decide || case_match); simplify_eq/=; repeat case_decide;
      repeat split; try lia; try done.
  - unfold timer_signal_handler in H.
    repeat (case_decide || case_match); simplify_eq/=; repeat case_decide;
      repeat split; try lia; try done.
Qed.

(** X9 (src/timer.c, preemption_disable, preemption_enable,
    timer_signal_handler): along any sequence of disable calls, enable
    calls and signal deliveries that starts with a counter that is not
    negative and cannot overflow, the counter stays non-negative (an
    enable at zero is ignored), the calls of [scheduler_tick] are never
    more than the signals delivered plus one for a tick already pending at
    the start, and no such call is made while the counter is positive: an
    event that calls [scheduler_tick] leaves the counter at zero. *)
Theorem preemption_counter_sound (evs : list timer_event) (st st' : timer_state)
    (ticks : list bool) :
  0 <= s_preemption_disabled st ->
  s_preemption_disabled st + Z.of_nat (length evs) <= INT_MAX ->
  timer_run evs st = (st', ticks) ->
  0 <= s_preemption_disabled st' /\
  ticks_in ticks <= signals evs + (if decide (s_preempt_pending st = 0) then 0 else 1) /\
  forall pre ev post st1 st2 ticks1,
    evs = pre ++ ev :: post -> timer_run pre st = (st1, ticks1) ->
    timer_step ev st1 = (st2, true) -> s_preemption_disabled st2 = 0.
Proof.
  fold (pending_bit st). revert st st' ticks.
  induction evs as [| ev evs IH]; intros st st' ticks H0 Hmax Hrun.
  - simpl in Hrun. injection Hrun as <- <-. simpl. split; [done |]. split.
    + unfold pending_bit. case_decide; lia.
    + intros pre ev post ? ? ? Hnil. by destruct pre.
  - cbn [timer_run] in Hrun. rewrite length_cons in Hmax.
    destruct (timer_step ev st) as [st1 tick] eqn:Hstep.
    destruct (timer_run evs st1) as [st2 ticks2] eqn:Hrest. injection Hrun as <- <-.
    destruct (timer_step_inv _ _ _ _ Hstep H0) as (Hd & Ht & Hp); [lia |].
    destruct (IH st1 st2 ticks2) as (IH1 & IH2 & IH3); [lia | lia | done |].
    split; [done |]. split; [cbn [ticks_in signals]; lia |].
    intros pre ev' post st3 st4 ticks1 Hsplit Hpre Hstep'.
    destruct pre as [| e pre]; simpl in Hsplit; injection Hsplit as <- ->.
    + simpl in Hpre. injection Hpre as <- <-. rewrite Hstep in Hstep'.
      injection Hstep' as <- ->. by apply Ht.
    + cbn [timer_run] in Hpre. rewrite Hstep in Hpre.
      destruct (timer_run pre st1) as [st5 ticks5] eqn:Hpre'. injection Hpre as <- <-.
      eapply IH3; eauto.
Qed.

Lemma preemption_counter_sound_witness :
  let st := mk_timer 0 0 1 10000000 true (0, 10000) in
  let evs := [Disable; Disable; Signal user_code; Signal user_code; Enable user_code;
              Enable user_code; Enable user_code; Signal user_code] in
  timer_run evs st = (st, [false; false; false; false; false; true; false; true]) /\
  ticks_in (snd (timer_run evs st)) <= signals evs + 0.
Proof.
  intros st evs. split; [reflexivity |].
  destruct (preemption_counter_sound evs st st
              [false; false; false; false; false; true; false; true]) as (_ & H & _);
    [simpl; lia | vm_compute; discriminate | reflexivity |].
  exact H.
Defined.

Lemma timer_run_user_code (evs : list timer_event) (st st' : timer_state)
    (ticks : list bool) (u : bool) :
  Forall (fun ev => view_of ev = user_code) evs ->
  0 <= s_preemption_disabled st ->
  s_preemption_disabled st + Z.of_nat (length evs) <= INT_MAX ->
  (u = true <-> s_preempt_pending st <> 0) ->
  (s_preempt_pending st <> 0 -> s_preemption_disabled st > 0) ->
  timer_run evs st = (st', ticks) ->
  (unserved evs ticks u = true <-> s_preempt_pending st' <> 0) /\
  (s_preempt_pending st' <> 0 -> s_preemption_disabled st' > 0).
Proof.
  revert st st' ticks u.
  induction evs as [| ev evs IH]; intros st st' ticks u Hall H0 Hmax Hu Hp Hrun.
  - simpl in Hrun. injection Hrun as <- <-. done.
  - cbn [timer_run] in Hrun. rewrite length_cons in Hmax.
    apply Forall_cons in Hall as [Hv Hall].
    destruct (timer_step ev st) as [st1 tick] eqn:Hstep.
    destruct (timer_run evs st1) as [st2 ticks2] eqn:Hrest. injection Hrun as <- <-.
    cbn [unserved].
    destruct (timer_step_inv _ _ _ _ Hstep H0) as (Hd & _ & _); [lia |].
    apply (IH st1 st2 ticks2); [done | lia | lia | | | done].
    + destruct ev as [| v | v]; simpl in Hv, Hstep; subst.
      * injection Hstep as <- <-. simpl. rewrite orb_false_r. done.
      * unfold preemption_enable in Hstep.
        rewrite (wrap_int_small (_ - 1)) in Hstep by (unfold INT_MIN, INT_MAX in *; lia).
        repeat (case_decide || case_match); simplify_eq/=; rewrite ?orb_false_r;
          try tauto; try (split; [done | lia]); split; try done; intros; lia.
      * unfold timer_signal_handler in Hstep.
        repeat (case_decide || case_match); simplify_eq/=; rewrite ?orb_true_r;
          try tauto; try (split; [done | lia]); split; try done; intros; lia.
    + destruct ev as [| v | v]; simpl in Hv, Hstep; subst.
      * injection Hstep as <- <-. simpl.
        rewrite wrap_int_small by (unfold INT_MIN, INT_MAX in *; lia). intros; lia.
      * unfold preemption_enable in Hstep.
        rewrite (wrap_int_small (_ - 1)) in Hstep by (unfold INT_MIN, INT_MAX in *; lia).
        repeat (case_decide || case_match); simplify_eq/=; try tauto; intros; lia.
      * unfold timer_signal_handler in Hstep.
        repeat (case_decide || case_match); simplify_eq/=; try tauto; intros; lia.
Qed.

(** X10 (src/timer.c, preemption_disable, preemption_enable,
    timer_signal_handler): while threads run ordinary code (not inside the
    scheduler, not in a critical section), no timer signal is lost.
    Starting with the counter at zero and nothing pending, after any
    sequence of disable calls, enable calls and signals, a signal that no
    call of [scheduler_tick] has followed yet exists exactly when a tick is
    pending, and a tick is pending only while the counter is positive: as
    soon as the counter is back at zero, every signal has been followed by
    a call of [scheduler_tick]. *)
Theorem deferred_tick_delivered (evs : list timer_event) (st st' : timer_state)
    (ticks : list bool) :
  Forall (fun ev => view_of ev = user_code) evs ->
  s_preemption_disabled st = 0 -> s_preempt_pending st = 0 ->
  Z.of_nat (length evs) <= INT_MAX ->
  timer_run evs st = (st', ticks) ->
  (unserved evs ticks false = true <-> s_preempt_pending st' <> 0) /\
  (s_preempt_pending st' <> 0 -> s_preemption_disabled st' > 0) /\
  (s_preemption_disabled st' = 0 -> unserved evs ticks false = false).
Proof.
  intros Hall H0 Hp Hmax Hrun.
  destruct (timer_run_user_code evs st st' ticks false Hall) as [H1 H2];
    [lia | lia | by rewrite Hp | by rewrite Hp | done |].
  split; [done |]. split; [done |]. intros Hz.
  destruct (unserved evs ticks false); [| done].
  assert (s_preempt_pending st' <> 0) as Hne by (by apply H1). apply H2 in Hne. lia.
Qed.

Lemma deferred_tick_delivered_witness :
  let st := mk_timer 0 0 1 10000000 true (0, 10000) in
  let evs := [Disable; Disable; Signal user_code; Signal user_code; Enable user_code;
              Enable user_code; Enable user_code; Signal user_code] in
  timer_run evs st = (st, [false; false; false; false; false; true; false; true]) /\
  unserved evs [false; false; false; false; false; true; false; true] false = false.
Proof.
  intros st evs. split; [reflexivity |].
  destruct (deferred_tick_delivered evs st st
              [false; false; false; false; false; true; false; true]) as (_ & _ & H).
  - repeat constructor.
  - reflexivity.
  - reflexivity.
  - vm_compute. discriminate.
  - reflexivity.
  - apply H. reflexivity.
Defined.

Lemma timer_set_interval_spec (setitimer_ok : bool) (ns : Z) (st : timer_state) :
  let st' := timer_set_interval setitimer_ok ns st in
  s_preemption_disabled st' = s_preemption_disabled st /\
  s_preempt_pending st' = s_preempt_pending st /\
  timeslice_ns st' = ns /\
  (s_timer_active st = 0 -> s_timer_active st' = 0 /\ itimer st' = itimer st) /\
  (s_timer_active st <> 0 -> setitimer_ok = false ->
   s_timer_active st' = 0 /\ itimer st' = (0, 0)) /\
  (s_timer_active st <> 0 -> setitimer_ok = true ->
   s_timer_active st' = 1 /\
   itimer st' = (ns / 1000000000, (ns mod 1000000000) / 1000)).
Proof.
  unfold timer_set_interval, timer_stop.
  destruct (decide (s_timer_active st = 0)) as [Ha | Ha].
  - rewrite bool_decide_eq_false_2 by lia. simpl. repeat split; try done; lia.
  - rewrite bool_decide_eq_true_2 by lia. unfold timer_start. simpl.
    destruct setitimer_ok; simpl; repeat split; try done; lia.
Qed.

Lemma preemption_enable_fields (v : sched_view) (st st' : timer_state) (tick : bool) :
  preemption_enable v st = (st', tick) ->
  0 < s_preemption_disabled st <= INT_MAX ->
  s_preemption_disabled st' = s_preemption_disabled st - 1 /\
  timeslice_ns st' = timeslice_ns st /\ s_timer_active st' = s_timer_active st /\
  itimer st' = itimer st.
Proof.
  unfold preemption_enable. intros H Hd.
  rewrite wrap_int_small in H by (unfold INT_MIN, INT_MAX in *; lia).
  destruct v as [vi vs vc]. destruct vs, vc;
    repeat case_decide; simplify_eq/=; repeat split; try done; lia.
Qed.

(** X11 (src/uthread.c, uthread_set_timeslice; src/timer.c,
    timer_set_interval, timer_stop, timer_start): a time slice below 1 ms,
    or a call before initialisation, is rejected with EINVAL and changes
    nothing.  An accepted call stores the time slice and leaves the
    preemption counter as it was.  If the timer was running and
    [setitimer] succeeds, the timer runs again with an interval that is the
    time slice rounded down to a whole microsecond, hence not zero; if
    [setitimer] fails, the timer is left stopped; if the timer was not
    running, it is not started. *)
Theorem set_timeslice_interval (v : sched_view) (setitimer_ok : bool) (ns : Z)
    (st : timer_state) :
  0 <= s_preemption_disabled st < INT_MAX ->
  let '(ret, st', tick) := uthread_set_timeslice v setitimer_ok ns st in
  (initialized v = false \/ ns < 1000000 ->
   ret = UTHREAD_EINVAL /\ st' = st /\ tick = false) /\
  (initialized v = true -> 1000000 <= ns ->
   ret = UTHREAD_SUCCESS /\ uthread_get_timeslice st' = ns /\
   s_preemption_disabled st' = s_preemption_disabled st /\
   (s_timer_active st = 0 -> s_timer_active st' = 0 /\ itimer st' = itimer st) /\
   (s_timer_active st <> 0 -> setitimer_ok = false ->
    s_timer_active st' = 0 /\ itimer st' = (0, 0)) /\
   (s_timer_active st <> 0 -> setitimer_ok = true ->
    s_timer_active st' = 1 /\
    let '(sec, usec) := itimer st' in
    0 <= usec < 1000000 /\ 0 <= sec /\ (sec, usec) <> (0, 0) /\
    sec * 1000000000 + usec * 1000 <= ns < sec * 1000000000 + usec * 1000 + 1000)).
Proof.
  intros Hd. unfold uthread_set_timeslice.
  destruct (initialized v) eqn:Hi; simpl.
  2:{ split; [done |]. intros; done. }
  destruct (decide (ns < 1000000)) as [Hlt | Hge].
  { split; [done |]. intros; lia. }
  destruct (preemption_enable v _) as [st' tick] eqn:Hen.
  split; [intros [? | ?]; [done | lia] |]. intros _ _.
  pose proof (timer_set_interval_spec setitimer_ok ns
                (set_timeslice_ns ns (preemption_disable st))) as Hset.
  cbn zeta in Hset. destruct Hset as (S1 & _ & S3 & S4 & S5 & S6).
  assert (s_preemption_disabled (set_timeslice_ns ns (preemption_disable st)) =
          s_preemption_disabled st + 1) as Hdis.
  { unfold preemption_disable. simpl. apply wrap_int_small.
    unfold INT_MIN, INT_MAX in *. lia. }
  rewrite Hdis in S1.
  apply preemption_enable_fields in Hen as (E1 & E2 & E3 & E4); [| rewrite S1; lia].
  unfold uthread_get_timeslice. rewrite E1, E2, E3, E4, S1, S3.
  split; [done |]. split; [done |]. split; [lia |].
  split; [exact S4 |]. split; [exact S5 |].
  intros Ha Hok. destruct (S6 Ha Hok) as [-> ->]. split; [done |].
  assert (0 <= ns `mod` 1000000000 / 1000 < 1000000) as Husec.
  { pose proof (Z.mod_pos_bound ns 1000000000 ltac:(lia)).
    split; [apply Z.div_pos; lia | apply Z.div_lt_upper_bound; lia]. }
  assert (0 <= ns / 1000000000) as Hsec by (apply Z.div_pos; lia).
  pose proof (Z.div_mod ns 1000000000 ltac:(lia)).
  pose proof (Z.div_mod (ns `mod` 1000000000) 1000 ltac:(lia)).
  pose proof (Z.mod_pos_bound (ns `mod` 1000000000) 1000 ltac:(lia)).
  repeat split; try lia. intros Hz. injection Hz as Hz1 Hz2. lia.
Qed.

Lemma set_timeslice_interval_witness :
  let st := mk_timer 0 0 1 10000000 true (0, 10000) in
  exists st',
    uthread_set_timeslice user_code true 2500000999 st = (UTHREAD_SUCCESS, st', false) /\
    uthread_get_timeslice st' = 2500000999 /\ itimer st' = (2, 500000).
Proof.
  intros st.
  pose proof (set_timeslice_interval user_code true 2500000999 st) as H.
  destruct (uthread_set_timeslice user_code true 2500000999 st) as [[ret st'] tick] eqn:E.
  destruct H as [_ H]; [vm_compute; split; [discriminate | reflexivity] |].
  destruct H as (-> & Hts & _); [reflexivity | lia |].
  exists st'. vm_compute in E. injection E as <- <-. done.
Defined.

End timer.

(** ** Wait queues and the scheduler core (src/scheduler.c) *)

Section scheduler_more.
Context {Q : Type} `{scheduler_ops Q}.

Lemma wq_threads_set_wq (a b : nat) (l : list nat) (g : scheduler_state Q) :
  wq_threads b (set_wq a l g) = if decide (a = b) then l else wq_threads b g.
Proof.
  unfold wq_threads, set_wq. simpl. destruct (decide (a = b)) as [-> | Hne].
  - by rewrite lookup_insert_eq.
  - by rewrite lookup_insert_ne.
Qed.

(** One turn of the loop of [wait_queue_wake_all]. *)
Lemma wake_step (a t : nat) (rest : list nat) (g : scheduler_state Q) :
  wq_threads a g = t :: rest ->
  exists g2,
    (forall n, wake_all_loop (S n) (Some a) g = wake_all_loop n (Some a) g2) /\
    wait_queue_wake_one (Some a) g = g2 /\
    wq_threads a g2 = rest /\
    (forall b, b <> a -> wq_threads b g2 = wq_threads b g) /\
    runq g2 = rq_enqueue t (runq g) /\ current g2 = current g /\
    tcbs g2 = alter (set_state UTHREAD_STATE_READY) t
                (alter (set_blocked_queue None) t (tcbs g)).
Proof.
  intros Hq. eexists. split; [| split].
  - intros n. cbn [wake_all_loop wait_queue_remove]. rewrite Hq. reflexivity.
  - unfold wait_queue_wake_one, wait_queue_remove. rewrite Hq. reflexivity.
  - split; [| split; [| done]].
    + unfold wq_threads. simpl. by rewrite lookup_insert_eq.
    + intros b Hb. unfold wq_threads. simpl. by rewrite lookup_insert_ne.
Qed.

Lemma wake_all_loop_spec (a : nat) (ts : list nat) (g : scheduler_state Q) :
  wq_threads a g = ts ->
  let g' := wake_all_loop (length ts) (Some a) g in
  wq_threads a g' = [] /\
  (forall b, b <> a -> wq_threads b g' = wq_threads b g) /\
  runq g' = foldl (fun q t => rq_enqueue t q) (runq g) ts /\
  current g' = current g /\
  (forall t, t ∉ ts -> tcbs g' !! t = tcbs g !! t) /\
  (forall t, t ∈ ts ->
     state <$> tcbs g' !! t = (fun _ => UTHREAD_STATE_READY) <$> tcbs g !! t /\
     tcb_blocked_queue t g' = None).
Proof.
  revert g. induction ts as [| t rest IH]; intros g Hq; cbn zeta.
  - simpl. do 5 (split; [done |]). intros u Hu. by apply elem_of_nil in Hu.
  - destruct (wake_step a t rest g Hq) as (g2 & Hloop & _ & Hq2 & Hother & Hrq & Hcur & Htcbs).
    cbn [length]. rewrite Hloop.
    destruct (IH g2 Hq2) as (I1 & I2 & I3 & I4 & I5 & I6).
    split; [exact I1 |]. split; [intros b Hb; rewrite I2, Hother; done |].
    split; [rewrite I3, Hrq; done |]. split; [congruence |]. split.
    + intros u Hu. rewrite I5 by set_solver. rewrite Htcbs.
      rewrite !lookup_alter_ne by set_solver. done.
    + intros u Hu. destruct (decide (u ∈ rest)) as [Hin | Hnin].
      * destruct (I6 u Hin) as [S1 S2]. split; [| exact S2].
        rewrite S1, Htcbs. destruct (decide (t = u)) as [-> | Hne].
        -- rewrite !lookup_alter_eq. by destruct (tcbs g !! u).
        -- by rewrite !lookup_alter_ne.
      * assert (u = t) as -> by set_solver.
        unfold tcb_blocked_queue. rewrite (I5 t Hnin), Htcbs, !lookup_alter_eq.
        by destruct (tcbs g !! t).
Qed.

Lemma wake_all_runq (a : nat) (g : scheduler_state Q) :
  let g' := wait_queue_wake_all (Some a) g in
  wait_queue_empty (Some a) g' = true /\
  runq g' = foldl (fun q t => rq_enqueue t q) (runq g) (wq_threads a g).
Proof.
  cbn zeta. unfold wait_queue_wake_all.
  destruct (wake_all_loop_spec a (wq_threads a g) g eq_refl) as (H1 & _ & H3 & _).
  split; [unfold wait_queue_empty; by rewrite H1 | exact H3].
Qed.

(** X12 (src/scheduler.c, wait_queue_wake_all, wait_queue_remove,
    scheduler_unblock): waking all waiters empties the wait queue and hands
    its threads to the run queue in the order in which they waited, each
    marked READY and unlinked from the queue; the other wait queues, the
    control blocks of the other threads and the running thread are
    untouched.  Waking on a NULL queue does nothing. *)
Theorem wake_all_fifo (a : nat) (g : scheduler_state Q) :
  let g' := wait_queue_wake_all (Some a) g in
  wait_queue_empty (Some a) g' = true /\
  (forall b, b <> a -> wq_threads b g' = wq_threads b g) /\
  runq g' = foldl (fun q t => rq_enqueue t q) (runq g) (wq_threads a g) /\
  current g' = current g /\
  (forall t, t ∉ wq_threads a g -> tcbs g' !! t = tcbs g !! t) /\
  (forall t, t ∈ wq_threads a g ->
     state <$> tcbs g' !! t = (fun _ => UTHREAD_STATE_READY) <$> tcbs g !! t /\
     tcb_blocked_queue t g' = None) /\
  wait_queue_wake_all None g = g.
Proof.
  cbn zeta. unfold wait_queue_wake_all at 1 2 3 4 5 6.
  destruct (wake_all_loop_spec a (wq_threads a g) g eq_refl) as (H1 & H2 & H3 & H4 & H5 & H6).
  split; [unfold wait_queue_empty; by rewrite H1 |]. done.
Qed.

End scheduler_more.

(** X13 (src/scheduler.c, scheduler_yield, scheduler_schedule;
    src/sched_rr.c, rr_enqueue, rr_dequeue): under round-robin, when a
    running thread other than the idle thread yields while another thread
    heads the run queue, that thread becomes the running thread and is
    marked RUNNING, and the caller is marked READY and goes to the tail of
    the run queue behind the threads that were waiting. *)
Theorem scheduler_yield_rotates (g : scheduler_state (list nat)) (c t : nat)
    (rest : list nat) :
  current g = Some c -> c <> idle_thread ->
  tcb_state c g = Some UTHREAD_STATE_RUNNING ->
  runq g = t :: rest -> t <> c ->
  let g' := scheduler_yield g in
  current g' = Some t /\ runq g' = rest ++ [c] /\
  tcb_state c g' = Some UTHREAD_STATE_READY /\
  (is_Some (tcbs g !! t) -> tcb_state t g' = Some UTHREAD_STATE_RUNNING) /\
  (forall u, u <> c -> u <> t -> tcbs g' !! u = tcbs g !! u) /\
  wqs g' = wqs g.
Proof.
  intros Hc Hidle Hrun Hq Hne. cbn zeta.
  assert (scheduler_yield g =
          mk_sched (Some t)
            (alter (set_state UTHREAD_STATE_RUNNING) t
               (alter (set_state UTHREAD_STATE_READY) c (tcbs g)))
            (wqs g) (rest ++ [c]) (all_threads g) (thread_count g) (next_tid g)
            (total_threads_created g) (initialized g)) as ->.
  { unfold scheduler_yield. rewrite Hc. rewrite decide_False by done.
    rewrite decide_True by done. unfold scheduler_schedule.
    set (g1 := update_tcb c (set_state UTHREAD_STATE_READY) g).
    change (runq (set_runq ?q _)) with q.
    change (rq_enqueue c (runq g1)) with (runq g ++ [c]). rewrite Hq.
    change (rq_dequeue ((t :: rest) ++ [c])) with (Some t, rest ++ [c]).
    cbn beta iota. cbn [default].
    set (g2 := set_runq (rest ++ [c]) _).
    assert (current g2 = Some c) as Hc2 by exact Hc.
    assert (tcb_state c g2 = Some UTHREAD_STATE_READY) as Hst.
    { unfold tcb_state in *. simpl. rewrite lookup_alter_eq. by destruct (tcbs g !! c). }
    rewrite Hc2. unfold id. rewrite decide_False by congruence.
    rewrite decide_False by (rewrite Hst; done). reflexivity. }
  unfold tcb_state in *. simpl. repeat split.
  - rewrite lookup_alter_ne by done. rewrite lookup_alter_eq. by destruct (tcbs g !! c).
  - intros [n Hn]. rewrite lookup_alter_eq, lookup_alter_ne by done. by rewrite Hn.
  - intros u Hu1 Hu2. by rewrite !lookup_alter_ne.
Qed.

Lemma scheduler_yield_rotates_witness :
  let g' := scheduler_yield two_threads in
  current g' = Some 2%nat /\ runq g' = [] ++ [1%nat] /\
  tcb_state 1 g' = Some UTHREAD_STATE_READY.
Proof.
  destruct (scheduler_yield_rotates two_threads 1 2 []) as (H1 & H2 & H3 & _);
    [reflexivity | done | reflexivity | reflexivity | done |].
  exact (conj H1 (conj H2 H3)).
Defined.

(** X14 (src/scheduler.c, scheduler_yield, scheduler_schedule;
    src/sched_rr.c, rr_enqueue, rr_dequeue; src/uthread.c, uthread_init):
    under round-robin, when a running thread yields while the run queue is
    empty, the call comes back to the caller (it is queued and dequeued at
    once) but leaves the caller marked READY, not RUNNING.  A second yield
    of the same thread then queues nothing and calls scheduler_schedule on
    the empty run queue: the thread picked is the idle thread, whose
    context uthread_init never sets up, and the process dies in the
    switch. *)
Theorem scheduler_yield_alone (g : scheduler_state (list nat)) (c : nat) :
  current g = Some c -> c <> idle_thread ->
  tcb_state c g = Some UTHREAD_STATE_RUNNING ->
  runq g = [] ->
  let g1 := scheduler_yield g in
  current g1 = Some c /\ runq g1 = [] /\ tcb_state c g1 = Some UTHREAD_STATE_READY /\
  wqs g1 = wqs g /\
  scheduler_yield g1 = scheduler_schedule g1 /\
  switch_target g1 = idle_thread /\
  scheduler_schedule_switch g1 = None.
Proof.
  intros Hc Hidle Hrun Hq. cbn zeta.
  assert (scheduler_yield g =
          mk_sched (Some c) (alter (set_state UTHREAD_STATE_READY) c (tcbs g)) (wqs g) []
            (all_threads g) (thread_count g) (next_tid g) (total_threads_created g)
            (initialized g)) as ->.
  { unfold scheduler_yield. rewrite Hc. rewrite decide_False by done.
    rewrite decide_True by done. unfold scheduler_schedule.
    set (g1 := update_tcb c (set_state UTHREAD_STATE_READY) g).
    change (runq (set_runq ?q _)) with q.
    change (rq_enqueue c (runq g1)) with (runq g ++ [c]). rewrite Hq.
    change (rq_dequeue ([] ++ [c])) with (Some c, @nil nat).
    cbn beta iota. cbn [default]. unfold id.
    set (g2 := set_runq [] _).
    assert (current g2 = Some c) as Hc2 by exact Hc.
    rewrite Hc2. rewrite decide_True by done.
    subst g2 g1. unfold set_runq, update_tcb, set_tcbs. simpl. by rewrite Hc. }
  set (g1 := mk_sched _ _ _ _ _ _ _ _ _).
  assert (tcb_state c g1 = Some UTHREAD_STATE_READY) as Hst.
  { unfold tcb_state in *. simpl. rewrite lookup_alter_eq. by destruct (tcbs g !! c). }
  split; [done |]. split; [done |]. split; [exact Hst |]. split; [done |].
  split; [| split; [reflexivity |]].
  - unfold scheduler_yield. change (current g1) with (Some c). cbn beta iota.
    rewrite decide_False by done. rewrite decide_False by (rewrite Hst; done).
    reflexivity.
  - unfold scheduler_schedule_switch, survives_switch.
    change (switch_target g1) with idle_thread. change (current g1) with (Some c).
    rewrite bool_decide_eq_false_2; [reflexivity |]. intros [[=] | ?]; congruence.
Qed.

Lemma scheduler_yield_alone_witness :
  let g1 := scheduler_yield after_init in
  current g1 = Some 1%nat /\ tcb_state 1 g1 = Some UTHREAD_STATE_READY /\
  scheduler_yield g1 = scheduler_schedule g1 /\
  scheduler_schedule_switch g1 = None.
Proof.
  destruct (scheduler_yield_alone after_init 1) as (H1 & _ & H3 & _ & H5 & _ & H7);
    [reflexivity | done | reflexivity | reflexivity |].
  exact (conj H1 (conj H3 (conj H5 H7))).
Defined.

(** ** The thread table (src/scheduler.c, src/uthread.c) *)

Section registry.
Context {Q : Type} `{scheduler_ops Q}.

Lemma find_slot_lookup (p : option nat) (l : list (option nat)) (i : nat) :
  find_slot p l = Some i -> l !! i = Some p.
Proof.
  revert i. induction l as [| x l IH]; intros i; simpl; [done |].
  destruct (decide (x = p)) as [-> | Hne].
  - intros [= <-]. done.
  - destruct (find_slot p l) as [j |]; simpl; [| done]. intros [= <-]. simpl. by apply IH.
Qed.

Lemma occupied_le (l : list (option nat)) : (length (omap id l) <= length l)%nat.
Proof. induction l as [| [x |] l IH]; cbn [omap list_omap length id] in *; lia. Qed.

Lemma occupied_fill (l : list (option nat)) (i t : nat) :
  l !! i = Some None ->
  length (omap id (<[i := Some t]> l)) = S (length (omap id l)).
Proof.
  revert i. induction l as [| x l IH]; intros i; [done |].
  destruct i as [| i]; cbn [lookup list_lookup insert list_insert].
  - intros [= ->]. done.
  - intros Hi. specialize (IH i Hi).
    destruct x; cbn [omap list_omap length id] in *; [f_equal |]; exact IH.
Qed.

Lemma occupied_clear (l : list (option nat)) (i t : nat) :
  l !! i = Some (Some t) ->
  S (length (omap id (<[i := None]> l))) = length (omap id l).
Proof.
  revert i. induction l as [| x l IH]; intros i; [done |].
  destruct i as [| i]; cbn [lookup list_lookup insert list_insert].
  - intros [= ->]. done.
  - intros Hi. specialize (IH i Hi).
    destruct x; cbn [omap list_omap length id] in *; [f_equal |]; exact IH.
Qed.

Lemma registry_ok_ext (g g' : scheduler_state Q) :
  registry g' = registry g -> registry_ok g -> registry_ok g'.
Proof. unfold registry, registry_ok, registered. intros [= -> ->]. done. Qed.

Lemma scheduler_add_thread_registry (p : option nat) (g g' : scheduler_state Q) :
  scheduler_add_thread p g = Some g' -> registry_ok g ->
  registry_ok g' /\ length (all_threads g') = length (all_threads g).
Proof.
  unfold scheduler_add_thread. destruct p as [t |]; [| by intros [= <-]].
  destruct (find_slot None (all_threads g)) as [i |] eqn:Hslot; [| done].
  intros [= <-] [Hc Hlen]. apply find_slot_lookup in Hslot.
  unfold registry_ok, registered in *. simpl. rewrite length_insert.
  split; [| done]. split; [| done].
  rewrite (occupied_fill _ _ _ Hslot), Hc.
  pose proof (occupied_le (<[i := Some t]> (all_threads g))) as Hle.
  rewrite (occupied_fill _ _ _ Hslot), length_insert in Hle.
  rewrite wrap_int_small by (unfold INT_MIN, INT_MAX in *; lia). lia.
Qed.

Lemma scheduler_remove_thread_registry (p : option nat) (g : scheduler_state Q) :
  registry_ok g ->
  registry_ok (scheduler_remove_thread p g) /\
  length (all_threads (scheduler_remove_thread p g)) = length (all_threads g).
Proof.
  unfold scheduler_remove_thread. destruct p as [t |]; [| done].
  destruct (find_slot (Some t) (all_threads g)) as [i |] eqn:Hslot; [| done].
  intros [Hc Hlen]. apply find_slot_lookup in Hslot.
  unfold registry_ok, registered in *. simpl. rewrite length_insert.
  split; [| done]. split; [| done].
  pose proof (occupied_clear _ _ _ Hslot) as Hocc.
  pose proof (occupied_le (all_threads g)) as Hle.
  rewrite Hc. rewrite wrap_int_small by (unfold INT_MIN, INT_MAX in *; lia). lia.
Qed.

Lemma update_tcb_registry (t : nat) (f : uthread_internal -> uthread_internal)
    (g : scheduler_state Q) :
  registry (update_tcb t f g) = registry g.
Proof. reflexivity. Qed.

Lemma scheduler_schedule_registry (g : scheduler_state Q) :
  registry (scheduler_schedule g) = registry g.
Proof.
  unfold scheduler_schedule. destruct (rq_dequeue (runq g)) as [r q'].
  repeat (case_decide || case_match); reflexivity.
Qed.

Lemma thread_free_registry (p : option nat) (g : scheduler_state Q) :
  registry (thread_free p g) = registry g.
Proof. by destruct p. Qed.

Lemma wait_queue_wake_one_registry (wq : option nat) (g : scheduler_state Q) :
  registry (wait_queue_wake_one wq g) = registry g.
Proof.
  unfold wait_queue_wake_one, wait_queue_remove.
  destruct wq as [a |]; [| done]. by destruct (wq_threads a g).
Qed.

Lemma wake_all_loop_registry (n : nat) (wq : option nat) (g : scheduler_state Q) :
  registry (wake_all_loop n wq g) = registry g.
Proof.
  revert g. induction n as [| n IH]; intros g; [done |]. simpl.
  unfold wait_queue_remove. destruct wq as [a |]; [| done].
  destruct (wq_threads a g); [done |]. by rewrite IH.
Qed.

Lemma scheduler_yield_registry (g : scheduler_state Q) :
  registry (scheduler_yield g) = registry g.
Proof.
  unfold scheduler_yield. destruct (current g); [| done].
  repeat case_decide; rewrite ?scheduler_schedule_registry; reflexivity.
Qed.

Lemma scheduler_block_registry (wq : option nat) (g : scheduler_state Q) :
  registry (scheduler_block wq g) = registry g.
Proof.
  unfold scheduler_block. destruct (current g); [| done].
  rewrite scheduler_schedule_registry. by destruct wq.
Qed.

Lemma reclaim_registry (t : nat) (g : scheduler_state Q) :
  registry_ok g ->
  registry_ok (thread_free (Some t) (scheduler_remove_thread (Some t) g)) /\
  length (all_threads (thread_free (Some t) (scheduler_remove_thread (Some t) g))) =
    length (all_threads g).
Proof.
  intros Hok. destruct (scheduler_remove_thread_registry (Some t) g Hok) as [H1 H2].
  split; [| exact H2]. eapply registry_ok_ext; [| exact H1]. reflexivity.
Qed.

Lemma join_loop_registry (out : bool) (t : nat) (g : scheduler_state Q) :
  registry_ok g ->
  match join_loop out t g with
  | Returned _ (_, g') | Suspended _ (_, g') =>
      registry_ok g' /\ length (all_threads g') = length (all_threads g)
  | Crashed => True
  end.
Proof.
  intros Hok. unfold join_loop. destruct (tcbs g !! t) as [c |]; [| done].
  destruct (exited c); [by apply reclaim_registry |].
  destruct (current g) as [self |]; [| done].
  destruct (tcbs g !! self); [| done].
  split; [eapply registry_ok_ext; [| exact Hok] |];
    rewrite ?scheduler_schedule_registry; try reflexivity.
  change (length (all_threads ?x)) with (length (fst (registry x))).
  by rewrite scheduler_schedule_registry.
Qed.

Lemma uthread_join_registry (thread : option nat) (out : bool) (g : scheduler_state Q) :
  registry_ok g ->
  match uthread_join thread out g with
  | Returned _ (_, g') | Suspended _ (_, g') =>
      registry_ok g' /\ length (all_threads g') = length (all_threads g)
  | Crashed => True
  end.
Proof.
  intros Hok. unfold uthread_join. destruct thread as [t |]; [| done].
  destruct (negb (initialized g)); [done |]. case_decide; [done |].
  destruct (tcbs g !! t) as [c |]; [| done].
  destruct (detached c); [done |]. case_decide; [done |]. by apply join_loop_registry.
Qed.

Lemma uthread_exit_registry (v : Z) (g g' : scheduler_state Q) :
  uthread_exit v g = Some g' -> registry_ok g ->
  registry_ok g' /\ length (all_threads g') = length (all_threads g).
Proof.
  unfold uthread_exit. intros Hex Hok.
  destruct (negb (initialized g)); [done |].
  destruct (current g) as [self |]; [| done].
  destruct (tcbs g !! self) as [c |]; [| done].
  destruct (detached c); [done |]. injection Hex as <-.
  set (g1 := match joiner c with Some _ => _ | None => _ end).
  assert (registry g1 = registry g) as Hg1 by (subst g1; by destruct (joiner c)).
  pose proof (registry_ok_ext _ _ Hg1 Hok) as Hok1.
  assert (length (all_threads g1) = length (all_threads g)) as Hlen1
    by (change (length (fst (registry g1)) = length (fst (registry g))); by rewrite Hg1).
  split; [eapply registry_ok_ext; [apply scheduler_schedule_registry | exact Hok1] |].
  change (length (all_threads ?x)) with (length (fst (registry x))).
  rewrite scheduler_schedule_registry. exact Hlen1.
Qed.

Lemma uthread_create_registry (o : alloc_oracle) (out : bool)
    (attr : option uthread_attr_t) (start : option (Z -> Z)) (a : Z)
    (g g' : scheduler_state Q) (r : Z) (h : option nat) :
  uthread_create o out attr start a g = Some (r, h, g') -> registry_ok g ->
  registry_ok g' /\ length (all_threads g') = length (all_threads g).
Proof.
  unfold uthread_create. intros Hcr Hok.
  destruct (negb (initialized g)); [by injection Hcr as <- <- <- |].
  destruct (negb out || negb (is_Some_b start)); [by injection Hcr as <- <- <- |].
  unfold thread_alloc in Hcr. destruct (calloc_ok o); [| by injection Hcr as <- <- <-].
  set (t := fresh _) in Hcr.
  set (g1 := match attr with Some _ => _ | None => _ end) in Hcr.
  assert (registry g1 = registry g) as Hg1 by (subst g1; by destruct attr).
  destruct (tcbs g1 !! t) as [c |]; [| done].
  destruct (thread_setup_stack o _ c) as [[| p | p] c'].
  - destruct (context_init _); [| done].
    destruct (scheduler_add_thread (Some t) _) as [g2 |] eqn:Hadd; [| done].
    injection Hcr as <- <- <-.
    apply scheduler_add_thread_registry in Hadd as [H1 H2];
      [| eapply registry_ok_ext; [| exact Hok]; exact Hg1].
    split; [eapply registry_ok_ext; [| exact H1]; reflexivity |].
    simpl. rewrite H2. simpl.
    change (length (fst (registry g1)) = length (fst (registry g))). by rewrite Hg1.
  - injection Hcr as <- <- <-.
    split; [eapply registry_ok_ext; [| exact Hok]; exact Hg1 |].
    change (length (fst (registry g1)) = length (fst (registry g))). by rewrite Hg1.
  - injection Hcr as <- <- <-.
    split; [eapply registry_ok_ext; [| exact Hok]; exact Hg1 |].
    change (length (fst (registry g1)) = length (fst (registry g))). by rewrite Hg1.
Qed.

Lemma uthread_detach_registry (thread : option nat) (g g' : scheduler_state Q) (r : Z) :
  uthread_detach thread g = Some (r, g') -> registry_ok g ->
  registry_ok g' /\ length (all_threads g') = length (all_threads g).
Proof.
  unfold uthread_detach. intros Hd Hok. destruct thread as [t |]; [| by injection Hd as <- <-].
  destruct (negb (initialized g)); [by injection Hd as <- <- |].
  destruct (tcbs g !! t) as [c |]; [| done].
  destruct (detached c); [by injection Hd as <- <- |].
  case_decide; [by injection Hd as <- <- |].
  destruct (exited c); injection Hd as <- <-; [| done].
  apply (reclaim_registry t (update_tcb t (set_detached true) g)). exact Hok.
Qed.

Lemma thread_step_registry (c : thread_call) (g g' : scheduler_state Q) :
  thread_step c g = Some g' -> registry_ok g ->
  registry_ok g' /\ length (all_threads g') = length (all_threads g).
Proof.
  intros Hstep Hok.
  assert (forall g1 : scheduler_state Q, registry g1 = registry g ->
            registry_ok g1 /\ length (all_threads g1) = length (all_threads g)) as Hsame.
  { intros g1 Hg1. split; [by eapply registry_ok_ext |].
    change (length (fst (registry g1)) = length (fst (registry g))). by rewrite Hg1. }
  destruct c as [v | | thread out | t out | o attr start a | thread | | wq | wq | wq];
    cbn [thread_step] in Hstep.
  - by eapply uthread_exit_registry.
  - unfold context_entry_wrapper, scheduler_current in Hstep.
    destruct (current g) as [self |]; [| done].
    destruct (tcbs g !! self) as [tc |]; [| done].
    destruct (start_routine tc); [| done]. by eapply uthread_exit_registry.
  - pose proof (uthread_join_registry thread out g Hok) as Hj.
    destruct (uthread_join thread out g) as [? [? ?] | ? [? ?] |]; by simplify_eq.
  - pose proof (join_loop_registry out t g Hok) as Hj.
    destruct (join_loop out t g) as [? [? ?] | ? [? ?] |]; by simplify_eq.
  - destruct (uthread_create o true attr start a g) as [[[r h] g1] |] eqn:Hcr; [| done].
    injection Hstep as <-. by eapply uthread_create_registry.
  - destruct (uthread_detach thread g) as [[r g1] |] eqn:Hd; [| done].
    injection Hstep as <-. by eapply uthread_detach_registry.
  - injection Hstep as <-. apply Hsame, scheduler_yield_registry.
  - injection Hstep as <-. apply Hsame, scheduler_block_registry.
  - injection Hstep as <-. apply Hsame, wait_queue_wake_one_registry.
  - injection Hstep as <-. apply Hsame. unfold wait_queue_wake_all.
    destruct wq; [apply wake_all_loop_registry | done].
Qed.

(** X15 (src/scheduler.c, scheduler_add_thread, scheduler_remove_thread;
    src/uthread.c, uthread_create, uthread_join, uthread_detach,
    uthread_exit): along any execution of thread operations (create, join,
    detach, exit, return from the start routine, yield, block, wake), the
    counter [thread_count] stays equal to the number of occupied slots of
    the thread table, the table keeps its length, and the counter stays
    between 0 and that length. *)
Theorem thread_count_counts (tr : list thread_call) (g g' : scheduler_state Q)
    (exits exits' : gmap nat Z) :
  thread_run tr g exits = Some (g', exits') ->
  thread_count g = registered g ->
  Z.of_nat (length (all_threads g)) <= INT_MAX ->
  thread_count g' = registered g' /\
  length (all_threads g') = length (all_threads g) /\
  0 <= thread_count g' <= Z.of_nat (length (all_threads g)).
Proof.
  intros Hrun Hc Hlen.
  assert (registry_ok g' /\ length (all_threads g') = length (all_threads g)) as [[H1 H2] H3].
  { assert (registry_ok g) as Hok by done. clear Hc Hlen.
    revert g exits Hrun Hok. induction tr as [| c tr IH]; intros g exits Hrun Hok.
    - simpl in Hrun. by injection Hrun as <- <-.
    - cbn [thread_run] in Hrun.
      destruct (thread_step c g) as [g1 |] eqn:Hstep; [| done].
      cbn [mbind option_bind] in Hrun.
      destruct (thread_step_registry _ _ _ Hstep Hok) as [Hok1 Hlen1].
      destruct (IH _ _ Hrun Hok1) as [Hok' Hlen']. split; [done | congruence]. }
  split; [done |]. split; [done |]. rewrite H1, <- H3. unfold registered.
  pose proof (occupied_le (all_threads g')). lia.
Qed.

End registry.

Lemma thread_count_counts_witness :
  exists g exits,
    thread_run (create_then_join 2) after_init ∅ = Some (g, exits) /\
    thread_count g = registered g /\ length (all_threads g) = 1024%nat.
Proof.
  destruct (thread_run (create_then_join 2) after_init ∅) as [[g exits] |] eqn:Hrun;
    [| vm_compute in Hrun; discriminate].
  exists g, exits. split; [reflexivity |].
  destruct (thread_count_counts (create_then_join 2) after_init g ∅ exits Hrun)
    as (H1 & H2 & _); [vm_compute; reflexivity | vm_compute; discriminate |].
  split; [exact H1 |]. rewrite H2. vm_compute. reflexivity.
Defined.


(** ** Thread creation, detaching and exit (src/uthread.c) *)

Section lifecycle.
Context {Q : Type} `{scheduler_ops Q}.

Lemma thread_setup_stack_fields (o : alloc_oracle) (size : Z) (c c' : uthread_internal)
    (r : Z) :
  thread_setup_stack o size c = (r, c') ->
  (r = UTHREAD_SUCCESS \/ r = UTHREAD_ENOMEM) /\
  tid c' = tid c /\ state c' = state c /\ start_routine c' = start_routine c /\
  arg c' = arg c /\ exited c' = exited c /\ joiner c' = joiner c /\
  blocked_queue c' = blocked_queue c /\ detached c' = detached c /\
  priority c' = priority c /\ nice c' = nice c.
Proof.
  unfold thread_setup_stack. intros Hs.
  destruct (mmap_region o); [destruct (mprotect_ok o) | destruct (aligned_alloc_ptr o)];
    injection Hs as <- <-; simpl; auto 20.
Qed.

(** X16 (src/uthread.c, uthread_create, thread_alloc, thread_free;
    src/scheduler.c, scheduler_add_thread): a call of uthread_create that
    comes back returns 0, EINVAL or ENOMEM and never touches the running
    thread or a wait queue.  On failure no handle is stored and the control
    blocks, the run queue, the thread table and the creation counter are as
    before (only the next thread id may have been used up).  On success
    the handle is a control block that did not exist before and is not the
    idle thread; it carries the next thread id, state READY, the start
    routine and its argument, the attributes' priority, nice value and
    detach state (or the defaults), is not exited, has no joiner and waits
    in no queue; it is appended to the run queue and entered in the
    thread table, and no other control block changes. *)
Theorem uthread_create_outcome (o : alloc_oracle) (out : bool)
    (attr : option uthread_attr_t) (start : option (Z -> Z)) (a : Z)
    (g g' : scheduler_state Q) (r : Z) (h : option nat) :
  uthread_create o out attr start a g = Some (r, h, g') ->
  current g' = current g /\ wqs g' = wqs g /\
  (r = UTHREAD_SUCCESS \/ r = UTHREAD_EINVAL \/ r = UTHREAD_ENOMEM) /\
  (r <> UTHREAD_SUCCESS ->
   h = None /\ tcbs g' = tcbs g /\ runq g' = runq g /\ registry g' = registry g /\
   total_threads_created g' = total_threads_created g) /\
  (r = UTHREAD_SUCCESS ->
   exists t c,
     h = Some t /\ t <> idle_thread /\ tcbs g !! t = None /\
     tcbs g' = <[t := c]> (tcbs g) /\
     tid c = next_tid g /\ next_tid g' = wrap_int (next_tid g + 1) /\
     state c = UTHREAD_STATE_READY /\ start_routine c = start /\ arg c = a /\
     exited c = false /\ joiner c = None /\ blocked_queue c = None /\
     priority c = match attr with Some atr => attr_priority atr
                  | None => UTHREAD_PRIORITY_DEFAULT end /\
     nice c = match attr with Some atr => attr_nice atr | None => 0 end /\
     detached c = match attr with
                  | Some atr => bool_decide (attr_detach_state atr = UTHREAD_CREATE_DETACHED)
                  | None => false
                  end /\
     runq g' = rq_enqueue t (runq g) /\ Some t ∈ all_threads g' /\
     total_threads_created g' = wrap_int (total_threads_created g + 1)).
Proof.
  unfold uthread_create. intros Hcr.
  destruct (negb (initialized g)).
  { injection Hcr as <- <- <-. do 2 (split; [done |]). split; [auto |].
    split; [done |]. intros Heq. discriminate Heq. }
  destruct (negb out || negb (is_Some_b start)).
  { injection Hcr as <- <- <-. do 2 (split; [done |]). split; [auto |].
    split; [done |]. intros Heq. discriminate Heq. }
  unfold thread_alloc in Hcr. destruct (calloc_ok o).
  2:{ injection Hcr as <- <- <-. do 2 (split; [done |]). split; [auto |].
      split; [done |]. intros Heq. discriminate Heq. }
  set (t := fresh _) in Hcr.
  assert (t ∉ ({[idle_thread]} : gset nat) ∪ dom (tcbs g)) as Hfresh by apply is_fresh.
  assert (t <> idle_thread) as Hidle by set_solver.
  assert (tcbs g !! t = None) as Hnew by (apply not_elem_of_dom; set_solver).
  set (f := match attr with
            | Some atr =>
                set_attrs (next_tid g) (attr_priority atr) (attr_nice atr)
                  (bool_decide (attr_detach_state atr = UTHREAD_CREATE_DETACHED))
            | None => set_attrs (next_tid g) UTHREAD_PRIORITY_DEFAULT 0 false
            end).
  set (g1 := match attr with Some _ => _ | None => _ end) in Hcr.
  assert (g1 = mk_sched (current g) (<[t := f zeroed_tcb]> (tcbs g)) (wqs g) (runq g)
                 (all_threads g) (thread_count g) (wrap_int (next_tid g + 1))
                 (total_threads_created g) (initialized g)) as Hg1.
  { subst g1 f. destruct attr; unfold update_tcb, set_tcbs, set_next_tid; simpl;
      by rewrite alter_insert_eq. }
  rewrite Hg1 in Hcr. cbn [tcbs] in Hcr. rewrite lookup_insert_eq in Hcr.
  destruct (thread_setup_stack o _ (f zeroed_tcb)) as [r0 c'] eqn:Hstack.
  destruct (thread_setup_stack_fields _ _ _ _ _ Hstack)
    as (Hr0 & S1 & S2 & S3 & S4 & S5 & S6 & S7 & S8 & S9 & S10).
  destruct Hr0 as [-> | ->]; cbn beta iota in Hcr.
  - destruct (context_init _); [| done].
    destruct (scheduler_add_thread (Some t) _) as [g2 |] eqn:Hadd; [| done].
    injection Hcr as <- <- <-.
    unfold scheduler_add_thread in Hadd. cbn [all_threads set_tcbs] in Hadd.
    destruct (find_slot None (all_threads g)) as [i |] eqn:Hslot; [| done].
    injection Hadd as <-. simpl.
    split; [done |]. split; [done |]. split; [by left |]. split; [done |]. intros _.
    exists t, (set_entry start a c'). split; [done |]. split; [done |]. split; [done |].
    split; [by rewrite insert_insert_eq |].
    apply find_slot_lookup in Hslot.
    assert (Some t ∈ <[i := Some t]> (all_threads g)) as Hin.
    { apply list_elem_of_lookup. exists i. apply list_lookup_insert_eq.
      by eapply lookup_lt_Some. }
    destruct c'; simpl in *. subst f.
    destruct attr; simpl in *; repeat split; try done; congruence.
  - injection Hcr as <- <- <-. simpl.
    rewrite delete_insert_eq, delete_id by done.
    split; [done |]. split; [done |]. split; [by right; right |].
    split; [done |]. intros Heq. discriminate Heq.
Qed.

(** X17 (src/uthread.c, uthread_detach, uthread_join): detaching a thread
    that is already detached, or that another thread is joining, fails with
    EINVAL and changes nothing.  Otherwise the call succeeds: a thread that
    has already exited is reclaimed at once (its control block is freed);
    a live thread is only marked detached, after which a second detach
    fails with EINVAL and so does a join by any other thread, both without
    changing anything. *)
Theorem uthread_detach_outcome (t : nat) (g : scheduler_state Q) (c : uthread_internal) :
  initialized g = true -> tcbs g !! t = Some c ->
  exists r g', uthread_detach (Some t) g = Some (r, g') /\
    (detached c = true \/ joiner c <> None -> r = UTHREAD_EINVAL /\ g' = g) /\
    (detached c = false -> joiner c = None ->
     r = UTHREAD_SUCCESS /\ current g' = current g /\ runq g' = runq g /\
     wqs g' = wqs g /\
     (exited c = true -> tcbs g' = delete t (tcbs g)) /\
     (exited c = false ->
      tcbs g' = <[t := set_detached true c]> (tcbs g) /\
      uthread_detach (Some t) g' = Some (UTHREAD_EINVAL, g') /\
      (current g <> Some t ->
       forall out, uthread_join (Some t) out g' = Returned UTHREAD_EINVAL (None, g')))).
Proof.
  intros Hinit Hc. unfold uthread_detach at 1. rewrite Hinit, Hc. cbn [negb].
  destruct (detached c) eqn:Hdet.
  { eexists _, _. split; [reflexivity |]. split; [done |]. done. }
  destruct (decide (joiner c <> None)) as [Hj | Hj].
  { eexists _, _. split; [reflexivity |]. split; [done |]. intros _ Hn. done. }
  assert (joiner c = None) as Hjn by (destruct (joiner c); [exfalso; by apply Hj | done]).
  assert (alter (set_detached true) t (tcbs g) = <[t := set_detached true c]> (tcbs g)) as Halt.
  { apply map_eq. intros u. destruct (decide (t = u)) as [<- | Hne].
    - by rewrite lookup_alter_eq, lookup_insert_eq, Hc.
    - by rewrite lookup_alter_ne, lookup_insert_ne. }
  destruct (exited c) eqn:Hex.
  - eexists _, _. split; [reflexivity |]. split; [intros [? | ?]; done |]. intros _ _.
    split; [done |].
    unfold scheduler_remove_thread, thread_free.
    destruct (find_slot _ _); simpl; (do 3 (split; [done |])); (split; [| done]);
      intros _; rewrite Halt; by rewrite delete_insert_eq.
  - eexists _, _. split; [reflexivity |]. split; [intros [? | ?]; done |]. intros _ _.
    do 4 (split; [done |]). split; [done |]. intros _.
    split; [exact Halt |].
    unfold uthread_detach, uthread_join. cbn [initialized update_tcb set_tcbs tcbs current].
    rewrite Hinit, Halt, lookup_insert_eq. cbn [negb].
    destruct c; simpl in *. split; [done |]. intros Hcur out.
    rewrite decide_False by congruence. done.
Qed.

(** What [scheduler_schedule] does to the control blocks: unless the
    thread it picks is the caller, the picked thread becomes RUNNING and a
    RUNNING caller becomes READY. *)
Lemma scheduler_schedule_lookup (g : scheduler_state Q) :
  let next := default idle_thread (fst (rq_dequeue (runq g))) in
  runq (scheduler_schedule g) = snd (rq_dequeue (runq g)) /\
  wqs (scheduler_schedule g) = wqs g /\
  current (scheduler_schedule g) = Some next /\
  forall u,
    tcbs (scheduler_schedule g) !! u =
      if decide (current g = Some next) then tcbs g !! u
      else if decide (u = next) then set_state UTHREAD_STATE_RUNNING <$> tcbs g !! u
      else if decide (current g = Some u /\ tcb_state u g = Some UTHREAD_STATE_RUNNING)
      then set_state UTHREAD_STATE_READY <$> tcbs g !! u
      else tcbs g !! u.
Proof.
  cbn zeta. unfold scheduler_schedule. destruct (rq_dequeue (runq g)) as [r q'].
  cbn [fst snd]. set (next := default idle_thread r).
  change (current (set_runq q' g)) with (current g).
  destruct (decide (current g = Some next)) as [Heq | Hne]; [done |].
  split; [by destruct (current g) as [c |]; [case_decide |] |].
  split; [by destruct (current g) as [c |]; [case_decide |] |].
  split; [done |]. intros u. cbn [tcbs set_current update_tcb set_tcbs].
  destruct (decide (u = next)) as [-> | Hu].
  - rewrite lookup_alter_eq. f_equal.
    destruct (current g) as [c |]; [| done]. case_decide; [| done].
    cbn [tcbs update_tcb set_tcbs set_runq]. rewrite lookup_alter_ne by congruence. done.
  - rewrite lookup_alter_ne by done.
    destruct (current g) as [c |]; [| by rewrite decide_False by (intros [? _]; done)].
    change (tcb_state c (set_runq q' g)) with (tcb_state c g).
    destruct (decide (tcb_state c g = Some UTHREAD_STATE_RUNNING)) as [Hr | Hr].
    + cbn [tcbs update_tcb set_tcbs set_runq]. destruct (decide (c = u)) as [-> | Hcu].
      * rewrite lookup_alter_eq. by rewrite decide_True.
      * rewrite lookup_alter_ne by done. rewrite decide_False; [done |].
        intros [[= ->] _]. done.
    + cbn [tcbs set_runq]. destruct (decide _) as [[[= ->] Hr'] |]; done.
Qed.

(** X18 (src/uthread.c, uthread_exit, thread_free; src/scheduler.c,
    scheduler_schedule): uthread_exit of the running thread, with the
    library initialised.  A detached caller frees its own stack and
    control block before scheduler_schedule runs, and the process ends
    there.  A joinable caller is marked exited and TERMINATED and keeps
    the exit value; it is taken out of the run queue, its joiner, if any,
    no longer waits on anything, is made READY and appended to the run
    queue, and scheduler_schedule picks the head of that queue.  The
    process survives the switch exactly when the queue is not empty (its
    head then runs, marked RUNNING); with an empty queue the switch goes
    into the idle thread and the process dies.  No wait queue changes. *)
Theorem uthread_exit_outcome (v : Z) (g : scheduler_state Q) (self : nat)
    (c : uthread_internal) :
  initialized g = true -> current g = Some self -> tcbs g !! self = Some c ->
  self <> idle_thread -> joiner c <> Some self ->
  (detached c = true -> uthread_exit v g = None) /\
  (detached c = false ->
   exists g1,
     uthread_exit v g = Some (scheduler_schedule g1) /\
     runq g1 = (let q := rq_remove self (runq g) in
                match joiner c with Some j => rq_enqueue j q | None => q end) /\
     current g1 = Some self /\ wqs g1 = wqs g /\
     (exists c', tcbs g1 !! self = Some c' /\ exited c' = true /\ retval c' = v /\
                 state c' = UTHREAD_STATE_TERMINATED /\ detached c' = false) /\
     (forall j cj, joiner c = Some j -> tcbs g !! j = Some cj ->
        exists cj', tcbs g1 !! j = Some cj' /\ waiting_on cj' = None /\
                    state cj' = UTHREAD_STATE_READY) /\
     (forall u, u <> self -> joiner c <> Some u -> tcbs g1 !! u = tcbs g !! u) /\
     (forall t q', rq_dequeue (runq g1) = (Some t, q') -> t <> idle_thread ->
        scheduler_schedule_switch g1 = Some (scheduler_schedule g1) /\
        current (scheduler_schedule g1) = Some t /\ runq (scheduler_schedule g1) = q' /\
        wqs (scheduler_schedule g1) = wqs g /\
        (t <> self -> tcbs (scheduler_schedule g1) !! t
                      = set_state UTHREAD_STATE_RUNNING <$> tcbs g1 !! t) /\
        (forall u, u <> t -> tcbs (scheduler_schedule g1) !! u = tcbs g1 !! u)) /\
     (fst (rq_dequeue (runq g1)) = None -> scheduler_schedule_switch g1 = None)).
Proof.
  intros Hinit Hcur Hc Hidle Hjs. unfold uthread_exit. rewrite Hinit, Hcur, Hc. cbn [negb].
  split; [intros ->; reflexivity |]. intros Hdet. rewrite Hdet. cbn zeta.
  set (m1 := alter (set_state UTHREAD_STATE_TERMINATED) self
               (alter (set_exited true) self (alter (set_retval v) self (tcbs g)))).
  set (q1 := rq_remove self (runq g)).
  set (m2 := match joiner c with
             | Some j => alter (set_state UTHREAD_STATE_READY) j
                           (alter (set_waiting_on None) j m1)
             | None => m1
             end).
  set (q2 := match joiner c with Some j => rq_enqueue j q1 | None => q1 end).
  set (g3 := match joiner c with Some j => _ | None => _ end).
  assert (tcbs g3 = m2 /\ runq g3 = q2 /\ current g3 = Some self /\ wqs g3 = wqs g)
    as (Ht3 & Hq3 & Hc3 & Hw3).
  { subst g3 m2 q2 m1 q1. destruct (joiner c); simpl; done. }
  clearbody g3. exists g3. split; [reflexivity |]. split; [exact Hq3 |].
  split; [exact Hc3 |]. split; [exact Hw3 |].
  assert (m1 !! self = Some (set_state UTHREAD_STATE_TERMINATED
                               (set_exited true (set_retval v c)))) as Hm1.
  { subst m1. by rewrite !lookup_alter_eq, Hc. }
  assert (m2 !! self = m1 !! self) as Hm2.
  { subst m2. destruct (joiner c) as [j |]; [| done].
    rewrite !lookup_alter_ne by congruence. done. }
  assert (tcb_state self g3 <> Some UTHREAD_STATE_RUNNING) as Hnr.
  { unfold tcb_state. rewrite Ht3, Hm2, Hm1. simpl. done. }
  split.
  { rewrite Ht3, Hm2, Hm1. eexists. split; [reflexivity |]. by destruct c. }
  split.
  { intros j cj Hj Hcj. assert (j <> self) as Hne by congruence.
    rewrite Ht3. subst m2 m1. rewrite Hj.
    rewrite !lookup_alter_eq, !lookup_alter_ne by done. rewrite Hcj.
    eexists. split; [reflexivity |]. by destruct cj. }
  split.
  { intros u Hu Hju. rewrite Ht3. subst m2 m1. destruct (joiner c) as [j |].
    - rewrite !lookup_alter_ne by congruence. done.
    - by rewrite !lookup_alter_ne. }
  destruct (scheduler_schedule_lookup g3) as (Hrq & Hwq & Hcu & Hlk).
  split.
  - intros t q' Hdq Ht. rewrite Hdq in Hrq, Hcu, Hlk. cbn [fst snd default] in *.
    unfold id in *.
    split.
    { unfold scheduler_schedule_switch, survives_switch, switch_target. rewrite Hdq.
      cbn [fst default]. rewrite bool_decide_eq_true_2 by (by right). reflexivity. }
    split; [exact Hcu |]. split; [exact Hrq |]. split; [congruence |]. split.
    + intros Hts. rewrite Hlk, Hc3. unfold id. rewrite decide_False by congruence.
      rewrite decide_True by done. reflexivity.
    + intros u Hu. rewrite Hlk, Hc3. unfold id.
      destruct (decide (Some self = Some t)); [done |].
      rewrite decide_False by done.
      destruct (decide (Some self = Some u /\ _)) as [[He Hs] |]; [| done].
      exfalso. injection He as <-. done.
  - intros Hnone. unfold scheduler_schedule_switch, survives_switch, switch_target.
    rewrite Hnone. cbn [default]. rewrite Hc3.
    rewrite bool_decide_eq_false_2; [reflexivity |]. intros [[=] | ?]; congruence.
Qed.

End lifecycle.

Lemma uthread_detach_outcome_witness :
  exists g', uthread_detach (Some 2%nat) two_threads = Some (UTHREAD_SUCCESS, g') /\
    uthread_detach (Some 2%nat) g' = Some (UTHREAD_EINVAL, g') /\
    uthread_join (Some 2%nat) true g' = Returned UTHREAD_EINVAL (None, g').
Proof.
  destruct (uthread_detach_outcome 2 two_threads (blank_tcb 2 UTHREAD_STATE_READY))
    as (r & g' & Hd & _ & Hs); [reflexivity | reflexivity |].
  destruct Hs as (-> & _ & _ & _ & _ & Hlive); [reflexivity | reflexivity |].
  destruct Hlive as (_ & H2 & H3); [reflexivity |].
  exists g'. split; [exact Hd |]. split; [exact H2 |]. apply H3. done.
Defined.

Lemma uthread_exit_outcome_witness :
  exists g1,
    uthread_exit 7 two_threads = Some (scheduler_schedule g1) /\
    scheduler_schedule_switch g1 = Some (scheduler_schedule g1) /\
    current (scheduler_schedule g1) = Some 2%nat /\ runq (scheduler_schedule g1) = [] /\
    exists c', tcbs g1 !! 1%nat = Some c' /\ exited c' = true /\ retval c' = 7 /\
               state c' = UTHREAD_STATE_TERMINATED /\ detached c' = false.
Proof.
  destruct (uthread_exit_outcome 7 two_threads 1 (blank_tcb 1 UTHREAD_STATE_RUNNING))
    as [_ Hjoinable]; [reflexivity | reflexivity | reflexivity | done | done |].
  destruct (Hjoinable eq_refl) as (g1 & He & Hq & _ & _ & Hc' & _ & _ & Hnext & _).
  destruct (Hnext 2%nat []) as (H1 & H2 & H3 & _); [rewrite Hq; reflexivity | done |].
  exists g1. split; [exact He |]. split; [exact H1 |]. split; [exact H2 |].
  split; [exact H3 | exact Hc'].
Defined.

Lemma uthread_create_outcome_witness :
  exists t c g',
    uthread_create mmap_succeeds true None (Some (fun x => x + 1)) 41 after_init
      = Some (UTHREAD_SUCCESS, Some t, g') /\
    tcbs after_init !! t = None /\ tcbs g' = <[t := c]> (tcbs after_init) /\
    tid c = 2 /\ state c = UTHREAD_STATE_READY /\ runq g' = [t].
Proof.
  destruct (uthread_create mmap_succeeds true None (Some (fun x => x + 1)) 41 after_init)
    as [[[r h] g'] |] eqn:E; [| vm_compute in E; discriminate].
  assert (r = UTHREAD_SUCCESS) as -> by (vm_compute in E; by injection E as <- _ _).
  destruct (uthread_create_outcome _ _ _ _ _ _ _ _ _ E) as (_ & _ & _ & _ & Hs).
  destruct (Hs eq_refl) as (t & c & -> & _ & H1 & H2 & H3 & _ & H4 & _ & _ & _ & _ & _ & _ & _ & _ & H5 & _).
  exists t, c, g'. repeat split; done.
Defined.

(** ** Mutexes (src/mutex.c) *)

Section mutex_more.
Context {Q : Type} `{scheduler_ops Q}.
Import Mutex.

Lemma relock_held (g : scheduler_state Q) (m : uthread_mutex_t) (self : nat) :
  current g = Some self -> type m = UTHREAD_MUTEX_RECURSIVE -> initialized m = true ->
  lock m = 1 -> owner m = Some self -> recursion_count m < INT_MAX ->
  0 <= recursion_count m ->
  relock g m = set_recursion_count (recursion_count m + 1) m /\
  uthread_mutex_lock true (Some m) g =
    Returned UTHREAD_SUCCESS (Some (set_recursion_count (recursion_count m + 1) m), g).
Proof.
  intros Hc Ht Hi Hl Ho Hmax Hmin. unfold relock, uthread_mutex_lock, ensure_waiters.
  rewrite Hi. unfold scheduler_current. rewrite Hc, Ho, decide_True by done. rewrite Ht.
  rewrite wrap_int_small by (unfold INT_MIN, INT_MAX in *; lia). done.
Qed.

Lemma relock_iter (g : scheduler_state Q) (m : uthread_mutex_t) (self : nat) (n : nat) :
  current g = Some self -> type m = UTHREAD_MUTEX_RECURSIVE -> initialized m = true ->
  lock m = 1 -> owner m = Some self -> 0 <= recursion_count m ->
  recursion_count m + Z.of_nat n <= INT_MAX ->
  Nat.iter n (relock g) m = set_recursion_count (recursion_count m + Z.of_nat n) m.
Proof.
  intros Hc Ht Hi Hl Ho Hmin. induction n as [| n IH]; intros Hmax.
  - simpl. rewrite Z.add_0_r. by destruct m.
  - rewrite Nat.iter_succ. rewrite IH by lia.
    destruct (relock_held g (set_recursion_count (recursion_count m + Z.of_nat n) m) self)
      as [-> _]; try done; simpl; try lia.
    unfold set_recursion_count. simpl. f_equal. lia.
Qed.

Lemma unlock_once_held (g : scheduler_state Q) (m : uthread_mutex_t) (self : nat) :
  current g = Some self -> type m = UTHREAD_MUTEX_RECURSIVE -> initialized m = true ->
  owner m = Some self -> 1 < recursion_count m <= INT_MAX ->
  unlock_once g m = set_recursion_count (recursion_count m - 1) m /\
  uthread_mutex_unlock (Some m) g =
    (UTHREAD_SUCCESS, Some (set_recursion_count (recursion_count m - 1) m), g).
Proof.
  intros Hc Ht Hi Ho Hk. unfold unlock_once, uthread_mutex_unlock.
  rewrite Hi. cbn [negb]. unfold scheduler_current. rewrite Hc, Ht, Ho.
  rewrite decide_False by (intros [? _]; done). rewrite decide_True by done.
  rewrite wrap_int_small by (unfold INT_MIN, INT_MAX in *; lia).
  cbn [recursion_count set_recursion_count]. rewrite decide_True by lia. done.
Qed.

Lemma unlock_iter (g : scheduler_state Q) (m : uthread_mutex_t) (self : nat) (j : nat) :
  current g = Some self -> type m = UTHREAD_MUTEX_RECURSIVE -> initialized m = true ->
  owner m = Some self -> Z.of_nat j < recursion_count m <= INT_MAX ->
  Nat.iter j (unlock_once g) m = set_recursion_count (recursion_count m - Z.of_nat j) m.
Proof.
  intros Hc Ht Hi Ho. induction j as [| j IH]; intros Hk.
  - simpl. rewrite Z.sub_0_r. by destruct m.
  - rewrite Nat.iter_succ. rewrite IH by lia.
    destruct (unlock_once_held g (set_recursion_count (recursion_count m - Z.of_nat j) m) self)
      as [-> _]; try done; simpl; try lia.
    unfold set_recursion_count. simpl. f_equal. lia.
Qed.

Lemma unlock_last (g : scheduler_state Q) (m : uthread_mutex_t) (self : nat) :
  current g = Some self -> type m = UTHREAD_MUTEX_RECURSIVE -> initialized m = true ->
  owner m = Some self -> recursion_count m = 1 ->
  exists g', uthread_mutex_unlock (Some m) g =
               (UTHREAD_SUCCESS, Some (set_held 0 None 0 m), g').
Proof.
  intros Hc Ht Hi Ho Hk. unfold uthread_mutex_unlock.
  rewrite Hi. cbn [negb]. unfold scheduler_current. rewrite Hc, Ht, Ho.
  rewrite decide_False by (intros [? _]; done). rewrite decide_True by done.
  rewrite Hk. change (wrap_int (1 - 1)) with 0.
  cbn [recursion_count set_recursion_count]. rewrite decide_False by lia.
  unfold mutex_release. destruct (negb (wait_queue_empty _ _)); eexists; reflexivity.
Qed.

(** X19 (src/mutex.c, uthread_mutex_lock, uthread_mutex_unlock): a free,
    initialised RECURSIVE mutex that the running thread locks n times
    (n >= 1, fewer than INT_MAX) is held by that thread with recursion
    count n, and every one of these calls returns at once with success.
    After j < n unlocks by the same thread it is still locked and owned by
    it, with recursion count n - j; the n-th unlock returns success and
    leaves it free, without owner and with recursion count 0. *)
Theorem recursive_mutex_depth (g : scheduler_state Q) (m : uthread_mutex_t)
    (self : nat) (n j : nat) :
  current g = Some self -> type m = UTHREAD_MUTEX_RECURSIVE -> initialized m = true ->
  lock m = 0 -> owner m = None ->
  (1 <= n)%nat -> Z.of_nat n < INT_MAX -> (j < n)%nat ->
  let held := Nat.iter n (relock g) m in
  lock held = 1 /\ owner held = Some self /\ recursion_count held = Z.of_nat n /\
  (let m' := Nat.iter j (unlock_once g) held in
   lock m' = 1 /\ owner m' = Some self /\ recursion_count m' = Z.of_nat n - Z.of_nat j) /\
  (let m' := Nat.iter n (unlock_once g) held in
   lock m' = 0 /\ owner m' = None /\ recursion_count m' = 0) /\
  (forall i, (i < n)%nat ->
     exists m1, uthread_mutex_lock true (Some (Nat.iter i (relock g) m)) g =
                  Returned UTHREAD_SUCCESS (Some m1, g)) /\
  fst (fst (uthread_mutex_unlock (Some (Nat.iter (n - 1) (unlock_once g) held)) g))
    = UTHREAD_SUCCESS.
Proof.
  intros Hc Ht Hi Hl Ho Hn Hmax Hj. cbn zeta.
  assert (uthread_mutex_lock true (Some m) g =
          Returned UTHREAD_SUCCESS (Some (set_held 1 (Some self) 1 m), g)) as Hfirst.
  { unfold uthread_mutex_lock, ensure_waiters. rewrite Hi. unfold scheduler_current.
    rewrite Hc, Ho, decide_False by done. unfold mutex_lock_loop, scheduler_current.
    rewrite Hl, decide_False by lia. by rewrite Hc. }
  set (m1 := set_held 1 (Some self) 1 m).
  assert (forall i, Nat.iter (S i) (relock g) m = Nat.iter i (relock g) m1) as Hshift.
  { intros i. rewrite Nat.iter_succ_r. f_equal. unfold relock. by rewrite Hfirst. }
  assert (forall i, (Z.of_nat i < INT_MAX)%Z ->
            Nat.iter (S i) (relock g) m = set_recursion_count (1 + Z.of_nat i) m1) as Hlocked.
  { intros i Hi'. rewrite Hshift. rewrite (relock_iter g m1 self) by (simpl; try done; lia).
    done. }
  destruct n as [| n]; [lia |]. rewrite Hlocked by lia.
  set (held := set_recursion_count (1 + Z.of_nat n) m1).
  split; [done |]. split; [done |]. split; [simpl; lia |].
  split; [| split; [| split]].
  - rewrite (unlock_iter g held self) by (simpl; try done; lia). simpl. repeat split; lia.
  - rewrite Nat.iter_succ. rewrite (unlock_iter g held self) by (simpl; try done; lia).
    destruct (unlock_last g (set_recursion_count (recursion_count held - Z.of_nat n) held) self)
      as (g' & Hu); try done; [simpl; lia |].
    unfold unlock_once. rewrite Hu. done.
  - intros i Hi'. destruct i as [| i]; [simpl; eauto |].
    rewrite Hlocked by lia.
    destruct (relock_held g (set_recursion_count (1 + Z.of_nat i) m1) self) as [_ ->];
      try done; simpl; try lia. eauto.
  - replace (S n - 1)%nat with n by lia.
    rewrite (unlock_iter g held self) by (simpl; try done; lia).
    destruct (unlock_last g (set_recursion_count (recursion_count held - Z.of_nat n) held) self)
      as (g' & Hu); try done; [simpl; lia |].
    by rewrite Hu.
Qed.

(** X20 (src/mutex.c, uthread_mutex_lock, uthread_mutex_unlock with
    UTHREAD_MUTEX_INITIALIZER of include/uthread.h; src/scheduler.c,
    wait_queue_add): a mutex set up by the static initialiser is marked
    initialised but has no wait queue.  When it is held and another thread
    calls uthread_mutex_lock, the caller is marked BLOCKED and gives up the
    CPU without being linked into any wait queue; and every later
    uthread_mutex_unlock of that mutex returns success, frees the mutex and
    wakes nobody: it leaves the scheduler state as it found it. *)
Theorem static_mutex_loses_waiter (malloc_ok : bool) (l k : Z) (o : option nat)
    (g : scheduler_state Q) (self : nat) (c : uthread_internal) :
  l <> 0 -> o <> Some self ->
  current g = Some self -> tcbs g !! self = Some c ->
  let m := set_held l o k UTHREAD_MUTEX_INITIALIZER in
  exists g',
    uthread_mutex_lock malloc_ok (Some m) g = Suspended tt (Some m, g') /\
    wqs g' = wqs g /\
    (forall u, tcb_blocked_queue u g' = tcb_blocked_queue u g) /\
    runq g' = snd (rq_dequeue (runq g)) /\
    (current g' <> Some self -> tcb_state self g' = Some UTHREAD_STATE_BLOCKED) /\
    forall g2, uthread_mutex_unlock (Some m) g2 =
                 (UTHREAD_SUCCESS, Some UTHREAD_MUTEX_INITIALIZER, g2).
Proof.
  intros Hl Ho Hc Htc. cbn zeta.
  unfold uthread_mutex_lock, ensure_waiters, UTHREAD_MUTEX_INITIALIZER, set_held.
  cbn [initialized owner type waiters]. unfold scheduler_current. rewrite Hc.
  rewrite decide_False by done. unfold mutex_lock_loop, scheduler_current.
  cbn [lock waiters]. rewrite Hc, decide_True by done.
  cbn [wait_queue_add]. eexists. split; [reflexivity |].
  set (g1 := update_tcb self (set_state UTHREAD_STATE_BLOCKED) g).
  destruct (scheduler_schedule_lookup g1) as (Hrq & Hwq & Hcu & Hlk).
  split; [exact Hwq |]. split; [| split; [exact Hrq |]; split].
  - intros u. unfold tcb_blocked_queue. rewrite Hlk. subst g1. cbn [tcbs update_tcb set_tcbs].
    assert (blocked_queue <$> alter (set_state UTHREAD_STATE_BLOCKED) self (tcbs g) !! u =
            blocked_queue <$> tcbs g !! u) as Hb.
    { destruct (decide (self = u)) as [-> | ?].
      - rewrite lookup_alter_eq. by destruct (tcbs g !! u).
      - by rewrite lookup_alter_ne. }
    repeat case_decide;
      destruct (alter _ self (tcbs g) !! u) as [x |], (tcbs g !! u) as [y |];
      simpl in *; try done; injection Hb as Hb; by destruct x.
  - intros Hne. unfold tcb_state. rewrite Hlk. rewrite Hcu in Hne.
    change (current g1) with (current g). rewrite Hc.
    rewrite decide_False by congruence. rewrite decide_False by congruence.
    assert (tcb_state self g1 = Some UTHREAD_STATE_BLOCKED) as Hst.
    { unfold tcb_state. subst g1. cbn [tcbs update_tcb set_tcbs].
      by rewrite lookup_alter_eq, Htc. }
    rewrite decide_False by (rewrite Hst; intros [_ ?]; done). exact Hst.
  - intros g2. unfold uthread_mutex_unlock. cbn [initialized negb type].
    rewrite decide_False by (intros [? _]; done).
    rewrite decide_False by (intros [? _]; done). reflexivity.
Qed.

End mutex_more.

Lemma recursive_mutex_depth_witness :
  let m := Mutex.mk_mutex 0 None (Some 5%nat) Mutex.UTHREAD_MUTEX_RECURSIVE 0 true in
  let held := Nat.iter 3 (relock two_threads) m in
  Mutex.lock held = 1 /\ Mutex.owner held = Some 1%nat /\ Mutex.recursion_count held = 3 /\
  Mutex.lock (Nat.iter 2 (unlock_once two_threads) held) = 1 /\
  Mutex.lock (Nat.iter 3 (unlock_once two_threads) held) = 0.
Proof.
  intros m held.
  destruct (recursive_mutex_depth two_threads m 1 3 2) as (H1 & H2 & H3 & H4 & H5 & _);
    [reflexivity | reflexivity | reflexivity | reflexivity | reflexivity | lia
    | vm_compute; reflexivity | lia |].
  cbn zeta in H4, H5. destruct H4 as (H4 & _). destruct H5 as (H5 & _).
  exact (conj H1 (conj H2 (conj H3 (conj H4 H5)))).
Defined.

Lemma static_mutex_loses_waiter_witness :
  let m := Mutex.set_held 1 (Some 2%nat) 1 Mutex.UTHREAD_MUTEX_INITIALIZER in
  exists g',
    Mutex.uthread_mutex_lock true (Some m) two_threads = Suspended tt (Some m, g') /\
    wqs g' = wqs two_threads /\ tcb_state 1 g' = Some UTHREAD_STATE_BLOCKED /\
    Mutex.uthread_mutex_unlock (Some m) g' =
      (UTHREAD_SUCCESS, Some Mutex.UTHREAD_MUTEX_INITIALIZER, g').
Proof.
  intros m.
  destruct (static_mutex_loses_waiter true 1 1 (Some 2%nat) two_threads 1
              (blank_tcb 1 UTHREAD_STATE_RUNNING))
    as (g' & H1 & H2 & _ & _ & H3 & H4); [done | done | reflexivity | reflexivity |].
  exists g'. split; [exact H1 |]. split; [exact H2 |]. split; [| apply H4].
  apply H3. injection H1 as <-. vm_compute. discriminate.
Defined.

(** ** Read-write locks (src/rwlock.c) *)

Section rwlock_more.
Context {Q : Type} `{scheduler_ops Q}.
Import Rwlock.

Lemma ensure_rwlock_initialized (ok1 ok2 : bool) (l : uthread_rwlock_t)
    (g : scheduler_state Q) :
  initialized l = true -> ensure_rwlock ok1 ok2 l g = inl (l, g).
Proof. unfold ensure_rwlock. by intros ->. Qed.

Lemma release_length (t : option nat) (l : list (option nat)) :
  t ∈ l -> S (length (release t l)) = length l.
Proof.
  induction l as [| u l IH]; intros Hin; [by apply elem_of_nil in Hin |].
  simpl. case_decide; [done |]. simpl. rewrite IH; [done |].
  apply elem_of_cons in Hin as [-> | Hin]; [done | exact Hin].
Qed.

(** One segment on a lock that is not destroyed, run by a thread that
    unlocks only what it holds. *)
Lemma rw_track_agree (c : rw_call) (g : scheduler_state Q) (l l' : uthread_rwlock_t)
    (r : option Z) (h h' : rw_holders) :
  rw_step c g l = (r, l') -> c <> CallDestroy ->
  rw_track c r (scheduler_current g) h = Some h' ->
  rw_agree l h -> Z.of_nat (length (read_holders h)) < INT_MAX ->
  rw_agree l' h' /\ (length (read_holders h') <= S (length (read_holders h)))%nat.
Proof.
  intros Hstep Hnd Htrack (Hi & Hrd & Hwr & Hex) Hmax.
  assert (0 <= readers l < INT_MAX) as Hrange by lia.
  assert (forall x, -1 <= x - readers l <= 1 -> wrap_int x = x) as Hwrap.
  { intros x Hx. apply wrap_int_small. unfold INT_MIN, INT_MAX in *. lia. }
  assert (writer l = 0 \/ writer l = 1 /\ readers l = 0) as Hw.
  { destruct Hex as [Hnil | [Hone Hno]]; rewrite Hwr, Hrd.
    - left. by rewrite Hnil.
    - right. by rewrite Hone, Hno. }
  unfold rw_track in Htrack. unfold rw_agree.
  destruct c; [| | | | | | | done]; cbn [rw_step] in Hstep;
    unfold uthread_rwlock_rdlock, uthread_rwlock_tryrdlock, uthread_rwlock_wrlock,
      uthread_rwlock_trywrlock, uthread_rwlock_unlock, rdlock_loop, wrlock_loop in Hstep;
    rewrite ?(ensure_rwlock_initialized _ _ _ _ Hi) in Hstep;
    cbn [grants_read grants_write is_unlock] in Htrack.
  (* rdlock, resumed rdlock, tryrdlock *)
  1-3: revert Hstep;
    destruct (decide (writer l <> 0 \/ pending_writers l > 0)) as [Hb | Hb];
    simpl; intros [= <- <-];
    [ rewrite bool_decide_eq_false_2 in Htrack by done; injection Htrack as <-;
      split; [done | lia]
    | rewrite bool_decide_eq_true_2 in Htrack by done; injection Htrack as <-;
      cbn [read_holders write_holders initialized readers writer set_readers length];
      rewrite Hwrap by lia;
      (destruct Hex as [Hnil | [Hone _]];
         [| rewrite Hone in Hwr; simpl in Hwr; lia]);
      split; [| lia]; split; [done |]; split; [lia |]; split; [done |]; by left ].
  (* wrlock, resumed wrlock, trywrlock *)
  1-3: revert Hstep;
    match goal with
    | |- context [decide (?P \/ ?R)] => destruct (decide (P \/ R)) as [Hb | Hb]
    end;
    simpl; intros [= <- <-];
    [ rewrite bool_decide_eq_false_2 in Htrack by done; injection Htrack as <-;
      split; [done | lia]
    | rewrite bool_decide_eq_true_2 in Htrack by done; injection Htrack as <-;
      cbn [read_holders write_holders initialized readers writer writer_owner
           set_writer set_pending_writers length] in *;
      (destruct Hex as [Hnil | [Hone _]];
         [| rewrite Hone in Hwr; simpl in Hwr; lia]);
      assert (read_holders h = []) as Hrh
        by (destruct (read_holders h); [done | simpl in *; lia]);
      rewrite Hnil; split; [| lia]; split; [done |]; split; [lia |];
      split; [simpl; lia |]; right; done ].
  (* unlock *)
  rewrite Hi in Hstep. cbn [negb] in Hstep. revert Hstep.
  destruct (decide (writer l <> 0)) as [Hheld | Hfree].
  - destruct Hex as [Hnil | [Hone Hno]]; [rewrite Hnil in Hwr; simpl in Hwr; lia |].
    destruct (decide (writer_owner l <> scheduler_current g)) as [Hother | Hown].
    + intros [= <- <-]. rewrite bool_decide_eq_false_2 in Htrack by done.
      injection Htrack as <-. split; [| lia]. split; [done |]. split; [done |].
      split; [done |]. right. done.
    + assert (writer_owner l = scheduler_current g) as Ho
        by (destruct (decide (writer_owner l = scheduler_current g)); [done | tauto]).
      intros Hstep.
      assert (r = Some UTHREAD_SUCCESS /\ initialized l' = true /\ readers l' = readers l /\
              writer l' = 0) as (-> & Hi' & Hr' & Hw').
      { revert Hstep. destruct (negb (wait_queue_empty _ g)); intros [= <- <-]; done. }
      rewrite bool_decide_eq_true_2 in Htrack by done.
      rewrite Hone, <- Ho in Htrack. rewrite decide_True in Htrack by (left).
      injection Htrack as <-. cbn [read_holders write_holders release].
      rewrite decide_True by done. split; [| lia].
      split; [done |]. split; [lia |]. split; [done |]. by left.
  - assert (writer l = 0) as Hw0 by lia.
    destruct Hex as [Hnil | [Hone _]]; [| rewrite Hone in Hwr; simpl in Hwr; lia].
    destruct (decide (readers l > 0)) as [Hr | Hr].
    + intros Hstep.
      assert (r = Some UTHREAD_SUCCESS /\ initialized l' = true /\
              readers l' = readers l - 1 /\ writer l' = 0) as (-> & Hi' & Hr' & Hw').
      { revert Hstep. cbn [readers write_waiters set_readers].
        destruct (_ && _); intros [= <- <-]; cbn [initialized readers writer];
          rewrite Hwrap by lia; done. }
      rewrite bool_decide_eq_true_2 in Htrack by done.
      rewrite Hnil in Htrack. rewrite decide_False in Htrack by (apply not_elem_of_nil).
      destruct (decide (scheduler_current g ∈ read_holders h)) as [Hin |]; [| done].
      injection Htrack as <-. cbn [read_holders write_holders].
      pose proof (release_length _ _ Hin) as Hlen. split; [| lia].
      split; [done |]. split; [lia |]. split; [simpl; lia |]. by left.
    + intros [= <- <-]. rewrite bool_decide_eq_false_2 in Htrack by done.
      injection Htrack as <-. split; [| lia]. split; [done |]. split; [done |].
      split; [done |]. by left.
Qed.

Lemma rw_run_held_agree (tr : list (rw_call * scheduler_state Q)) (l l' : uthread_rwlock_t)
    (h h' : rw_holders) :
  Forall (fun cg => fst cg <> CallDestroy) tr ->
  rw_agree l h ->
  Z.of_nat (length (read_holders h)) + Z.of_nat (length tr) <= INT_MAX ->
  rw_run_held tr l h = Some (l', h') -> rw_agree l' h'.
Proof.
  revert l h. induction tr as [| [c g] tr IH]; intros l h Hall Hag Hmax Hrun.
  - injection Hrun as <- <-. exact Hag.
  - cbn [rw_run_held] in Hrun. rewrite length_cons in Hmax.
    apply Forall_cons in Hall as [Hc Hall].
    destruct (rw_step c g l) as [r l1] eqn:Hstep.
    destruct (rw_track c r (scheduler_current g) h) as [h1 |] eqn:Htrack; [| done].
    cbn [mbind option_bind] in Hrun.
    destruct (rw_track_agree c g l l1 r h h1 Hstep Hc Htrack Hag ltac:(lia)) as [Hag1 Hlen].
    apply (IH l1 h1); [exact Hall | exact Hag1 | lia | exact Hrun].
Qed.

(** X21 (src/rwlock.c, uthread_rwlock_rdlock, uthread_rwlock_tryrdlock,
    uthread_rwlock_wrlock, uthread_rwlock_trywrlock, uthread_rwlock_unlock):
    exclusion holds for callers that unlock only what they hold.  On a
    freshly initialised lock that is not destroyed meanwhile, along any
    sequence of at most INT_MAX lock, trylock and unlock segments in which
    every successful unlock is made by a thread that holds a lock, the
    threads that hold a read lock are as many as the field [readers]
    says, a thread that holds the write lock is the only holder and is
    the recorded owner, and no thread holds a read lock while another
    holds the write lock.  The condition on the callers is needed: the
    code makes no check of the caller when a read lock is released, so
    that an unlock by any thread, holder or not, succeeds and takes one off
    [readers]. *)
Theorem rwlock_exclusion (tr : list (rw_call * scheduler_state Q))
    (old : uthread_rwlock_t) (l0 l : uthread_rwlock_t) (g0 g1 : scheduler_state Q)
    (h : rw_holders) :
  uthread_rwlock_init true true (Some old) g0 = (UTHREAD_SUCCESS, Some l0, g1) ->
  Forall (fun cg => fst cg <> CallDestroy) tr ->
  Z.of_nat (length tr) <= INT_MAX ->
  rw_run_held tr l0 (mk_holders [] []) = Some (l, h) ->
  (readers l = Z.of_nat (length (read_holders h)) /\
   writer l = Z.of_nat (length (write_holders h)) /\
   (write_holders h = [] \/
    write_holders h = [writer_owner l] /\ read_holders h = [])) /\
  (forall (l1 : uthread_rwlock_t) (g : scheduler_state Q),
     initialized l1 = true -> writer l1 = 0 -> 0 < readers l1 <= INT_MAX ->
     exists l2 g2,
       uthread_rwlock_unlock (Some l1) g = (UTHREAD_SUCCESS, Some l2, g2) /\
       readers l2 = readers l1 - 1).
Proof.
  intros Hinit Hall Hlen Hrun. split.
  - assert (rw_agree l0 (mk_holders [] [])) as Hag0.
    { unfold uthread_rwlock_init, malloc_wait_queue in Hinit. simplify_eq/=.
      split; [done |]. split; [done |]. split; [done |]. by left. }
    destruct (rw_run_held_agree tr l0 l _ h Hall Hag0 ltac:(simpl; lia) Hrun)
      as (_ & H1 & H2 & H3). done.
  - intros l1 g Hi Hw Hr. unfold uthread_rwlock_unlock. rewrite Hi. cbn [negb].
    rewrite decide_False by lia. rewrite decide_True by lia.
    assert (wrap_int (readers l1 - 1) = readers l1 - 1) as Hwrap
      by (apply wrap_int_small; unfold INT_MIN, INT_MAX in *; lia).
    destruct (_ && _); eexists _, _; (split; [reflexivity |]); exact Hwrap.
Qed.


(** X23 (src/rwlock.c, uthread_rwlock_unlock; src/scheduler.c,
    wait_queue_wake_one, wait_queue_wake_all): releasing a write lock.
    A thread that is not the owner gets EPERM and changes nothing, and so
    does any thread when the lock is held by nobody.  The owner's unlock
    succeeds and clears [writer] and the owner.  If a writer waits, exactly
    the first waiting writer is woken (made READY, appended to the run
    queue) and no reader is; otherwise all waiting readers are woken in
    the order in which they waited and the readers' queue is left empty. *)
Theorem rwlock_write_unlock (l : uthread_rwlock_t) (g : scheduler_state Q) :
  initialized l = true ->
  (writer l = 0 -> readers l <= 0 ->
   uthread_rwlock_unlock (Some l) g = (UTHREAD_EPERM, Some l, g)) /\
  (writer l <> 0 -> writer_owner l <> scheduler_current g ->
   uthread_rwlock_unlock (Some l) g = (UTHREAD_EPERM, Some l, g)) /\
  (writer l <> 0 -> writer_owner l = scheduler_current g ->
   exists g', uthread_rwlock_unlock (Some l) g =
                (UTHREAD_SUCCESS, Some (set_writer 0 None l), g') /\
     current g' = current g /\
     match write_waiters l with
     | Some b =>
         match wq_threads b g with
         | t :: rest =>
             wq_threads b g' = rest /\ runq g' = rq_enqueue t (runq g) /\
             (forall a, a <> b -> wq_threads a g' = wq_threads a g) /\
             (forall u, u <> t -> tcbs g' !! u = tcbs g !! u)
         | [] => g' = wait_queue_wake_all (read_waiters l) g
         end
     | None => g' = wait_queue_wake_all (read_waiters l) g
     end /\
     (wait_queue_empty (write_waiters l) g = true ->
      forall a, read_waiters l = Some a ->
        wait_queue_empty (Some a) g' = true /\
        runq g' = foldl (fun q t => rq_enqueue t q) (runq g) (wq_threads a g))).
Proof.
  intros Hi. unfold uthread_rwlock_unlock. rewrite Hi. cbn [negb].
  split; [| split].
  - intros Hw Hr. rewrite decide_False by lia. rewrite decide_False by lia. done.
  - intros Hw Ho. rewrite decide_True by done. rewrite decide_True by done. done.
  - intros Hw Ho. rewrite decide_True by done. rewrite decide_False by (intros ?; done).
    cbn [write_waiters read_waiters set_writer].
    destruct (write_waiters l) as [b |] eqn:Hb.
    + unfold wait_queue_empty at 1. destruct (wq_threads b g) as [| t rest] eqn:Hq.
      * cbn [negb]. eexists. split; [reflexivity |].
        split; [| split; [done |]].
        { unfold wait_queue_wake_all. destruct (read_waiters l) as [a |]; [| done].
          by destruct (wake_all_loop_spec a (wq_threads a g) g eq_refl) as (_ & _ & _ & ? & _). }
        intros _ a Ha. rewrite Ha.
        destruct (wake_all_runq a g) as (W1 & W3). done.
      * cbn [negb]. eexists. split; [reflexivity |].
        destruct (wake_step b t rest g Hq) as (g2 & _ & -> & W1 & W2 & W3 & W4 & W5).
        split; [done |]. split.
        { split; [done |]. split; [done |]. split; [done |].
          intros u Hu. rewrite W5. by rewrite !lookup_alter_ne. }
        unfold wait_queue_empty. rewrite Hq. done.
    + cbn [wait_queue_empty negb]. eexists. split; [reflexivity |].
      split; [| split; [done |]].
      { unfold wait_queue_wake_all. destruct (read_waiters l) as [a |]; [| done].
        by destruct (wake_all_loop_spec a (wq_threads a g) g eq_refl) as (_ & _ & _ & ? & _). }
      intros _ a Ha. rewrite Ha.
      destruct (wake_all_runq a g) as (W1 & W3). done.
Qed.

End rwlock_more.


Lemma rwlock_write_unlock_witness :
  let l := Rwlock.set_writer 1 (Some 1%nat) fresh_rwlock in
  exists g', Rwlock.uthread_rwlock_unlock (Some l) two_threads =
               (UTHREAD_SUCCESS, Some fresh_rwlock, g') /\
    current g' = Some 1%nat.
Proof.
  intros l.
  destruct (rwlock_write_unlock l two_threads) as (_ & _ & Hu); [reflexivity |].
  destruct Hu as (g' & H1 & H2 & _); [simpl; lia | reflexivity |].
  exists g'. split; [exact H1 | exact H2].
Defined.

Lemma rwlock_exclusion_witness :
  fst (Rwlock.uthread_rwlock_init true true (Some Rwlock.UTHREAD_RWLOCK_INITIALIZER)
         two_threads) = (UTHREAD_SUCCESS, Some fresh_rwlock) /\
  exists l h,
    Rwlock.rw_run_held readers_then_writer fresh_rwlock (Rwlock.mk_holders [] []) =
      Some (l, h) /\
    Rwlock.read_holders h = [] /\ Rwlock.write_holders h = [Some 2%nat] /\
    Rwlock.readers l = 0 /\ Rwlock.writer l = 1.
Proof.
  split; [vm_compute; reflexivity |].
  destruct (Rwlock.rw_run_held readers_then_writer fresh_rwlock (Rwlock.mk_holders [] []))
    as [[l h] |] eqn:Hrun; [| vm_compute in Hrun; discriminate].
  destruct (rwlock_exclusion readers_then_writer Rwlock.UTHREAD_RWLOCK_INITIALIZER fresh_rwlock
              l two_threads
              (snd (Rwlock.uthread_rwlock_init true true
                      (Some Rwlock.UTHREAD_RWLOCK_INITIALIZER) two_threads)) h)
    as [(Hr & Hw & _) _].
  - vm_compute. reflexivity.
  - repeat constructor; done.
  - vm_compute. discriminate.
  - exact Hrun.
  - pose proof Hrun as Hval. vm_compute in Hval. injection Hval as Hl Hh.
    exists l, h. split; [reflexivity |].
    assert (Rwlock.read_holders h = []) as Hrh by (rewrite <- Hh; reflexivity).
    assert (Rwlock.write_holders h = [Some 2%nat]) as Hwh by (rewrite <- Hh; reflexivity).
    split; [exact Hrh |]. split; [exact Hwh |].
    rewrite Hr, Hw, Hrh, Hwh. split; reflexivity.
Defined.

(** ** The priority policy (src/sched_priority.c) *)

Section priority_more.
Import Priority.

Lemma find_highest_priority_spec (s : sched_priority_state) :
  priority_inv s ->
  (find_highest_priority s = -1 /\ forall j, queue j s = []) \/
  (exists i, (i < 32)%nat /\ find_highest_priority s = Z.of_nat i /\
             queue i s <> [] /\ forall j, (i < j)%nat -> queue j s = []).
Proof.
  intros Hinv. pose proof Hinv as [Hlen Hbits Hnd Hbk].
  assert (forall j, (j < 32)%nat -> Z.testbit (bitmap s) (Z.of_nat j) = false ->
                    queue j s = []) as Hclear.
  { intros j Hj Hb. rewrite Hbits in Hb by assumption.
    apply bool_decide_eq_false in Hb. destruct (queue j s); [reflexivity |].
    exfalso. apply Hb. discriminate. }
  assert (forall j, (32 <= j)%nat -> queue j s = []) as Hout
    by (intros j Hj; apply queue_out_of_range; lia).
  unfold find_highest_priority. destruct (decide (bitmap s = 0)) as [Hz | Hz].
  - left. split; [reflexivity |]. intros j. destruct (decide (j < 32)%nat); [| apply Hout; lia].
    apply Hclear; [done |]. rewrite Hz. apply Z.bits_0.
  - change (Z.to_nat UTHREAD_PRIORITY_LEVELS) with 32%nat.
    destruct (scan_down_spec 32 (bitmap s)) as [[Hs Hall] | (i & Hi & Hs & Hb & Hall)].
    + left. split; [exact Hs |]. intros j.
      destruct (decide (j < 32)%nat); [apply Hclear; auto | apply Hout; lia].
    + right. exists i. split; [exact Hi |]. split; [exact Hs |]. split.
      * rewrite Hbits in Hb by assumption. by apply bool_decide_eq_true in Hb.
      * intros j Hj. destruct (decide (j < 32)%nat); [apply Hclear; auto | apply Hout; lia].
Qed.

(** X24 (src/sched_priority.c, priority_should_preempt,
    find_highest_priority): in any state reached from priority_init, for a
    running thread whose priority is in 0..31, priority_should_preempt
    answers true exactly when a queued thread has a strictly higher
    priority, or the running thread's time slice is used up and a thread of
    its own priority is queued.  For a NULL thread it answers false. *)
Theorem priority_should_preempt_spec (tr : list priority_call)
    (s0 s : sched_priority_state) (c : nat) (tc : prio_tcb) :
  priority_run tr (priority_init s0) = Some s ->
  threads s !! c = Some tc -> 0 <= priority tc < 32 ->
  (priority_should_preempt (Some c) s = true <->
   (exists u, queued u s /\ priority tc < Z.of_nat (clamp_priority (thread_priority u s))) \/
   (timeslice_remaining tc = 0 /\ queue (Z.to_nat (priority tc)) s <> [])) /\
  priority_should_preempt None s = false.
Proof.
  intros Hrun Hc Hp. split; [| reflexivity].
  pose proof (priority_run_inv tr _ s (priority_inv_init s0) Hrun) as Hinv.
  pose proof Hinv as [_ _ _ Hbk].
  unfold priority_should_preempt. rewrite Hc.
  destruct (find_highest_priority_spec s Hinv) as [[Hh Hall] | (i & Hi & Hh & Hne & Hall)];
    rewrite Hh.
  - rewrite decide_False by lia. rewrite bool_decide_eq_true. split.
    + intros Ht. by right.
    + intros [(u & [j Hu] & _) | Ht]; [| done]. rewrite Hall in Hu. by apply elem_of_nil in Hu.
  - destruct (decide (Z.of_nat i > priority tc)) as [Hgt | Hle].
    + split; [intros _ | done]. left. destruct (queue i s) as [| u rest] eqn:Hq; [done |].
      assert (u ∈ queue i s) as Hu by (rewrite Hq; left).
      exists u. split; [by exists i |]. rewrite (Hbk i u Hu). lia.
    + rewrite bool_decide_eq_true. split; [by right |].
      intros [(u & [j Hu] & Hlt) | Ht]; [| done]. exfalso.
      rewrite (Hbk j u Hu) in Hlt.
      destruct (decide (j <= i)%nat) as [| Hji]; [lia |].
      rewrite Hall in Hu by lia. by apply elem_of_nil in Hu.
Qed.

(** X25 (src/uthread.c, uthread_setpriority; src/sched_priority.c,
    priority_update_priority, remove_from_priority_queue,
    add_to_priority_queue): in any state reached from priority_init, a
    priority outside 0..31 is rejected with EINVAL and changes nothing.
    An accepted call stores the priority and leaves every other control
    block alone; a thread that is queued is taken out of its queue and
    appended to the tail of the queue of the new priority (also when the
    priority is the old one), the other threads keeping their places; for
    a thread that is not queued no queue changes. *)
Theorem uthread_setpriority_moves (tr : list priority_call)
    (s0 s : sched_priority_state) (t : nat) (prio : Z) (tc : prio_tcb) :
  priority_run tr (priority_init s0) = Some s ->
  threads s !! t = Some tc ->
  let '(r, s') := uthread_setpriority (Some t) prio s in
  (prio < 0 \/ prio > 31 -> r = UTHREAD_EINVAL /\ s' = s) /\
  (0 <= prio <= 31 ->
   r = UTHREAD_SUCCESS /\
   threads s' = <[t := mk_prio_tcb prio (timeslice_remaining tc)]> (threads s) /\
   (forall i, t ∈ queue i s ->
      forall j, queue j s' =
                (if decide (i = j) then unlink t (queue j s) else queue j s) ++
                (if decide (Z.to_nat prio = j) then [t] else [])) /\
   ((forall i, t ∉ queue i s) -> forall j, queue j s' = queue j s)).
Proof.
  intros Hrun Ht.
  pose proof (priority_run_inv tr _ s (priority_inv_init s0) Hrun) as Hinv.
  pose proof Hinv as [Hlen Hbits Hnd Hbk].
  unfold uthread_setpriority, UTHREAD_PRIORITY_MIN, UTHREAD_PRIORITY_MAX.
  destruct (decide (prio < 0 \/ prio > 31)) as [Hbad | Hok].
  { split; [done |]. intros; lia. }
  split; [intros; tauto |]. intros _. split; [done |].
  set (m := alter _ t (threads s)).
  assert (m = <[t := mk_prio_tcb prio (timeslice_remaining tc)]> (threads s)) as Hm.
  { subst m. apply map_eq. intros u. destruct (decide (t = u)) as [<- | Hne].
    - by rewrite lookup_alter_eq, lookup_insert_eq, Ht.
    - by rewrite lookup_alter_ne, lookup_insert_ne. }
  unfold priority_update_priority. rewrite find_queue_set_threads.
  assert (thread_priority t (set_threads m s) = prio) as Hprio.
  { unfold thread_priority. simpl. by rewrite Hm, lookup_insert_eq. }
  destruct (find_queue t (seq 0 32) s) as [i |] eqn:Hf.
  - apply find_queue_Some in Hf as [Hi Hin]. apply elem_of_seq in Hi.
    rewrite remove_from_set_threads.
    destruct (remove_from_priority_queue_spec t i s ltac:(lia) Hlen (Hbits i ltac:(lia)))
      as (Hlen1 & Hth1 & Hq1 & Hb1).
    set (s1 := remove_from_priority_queue t i s) in *.
    assert (priority_inv s1) as Hinv1 by (apply priority_inv_remove_from; [done | lia]).
    destruct (add_to_priority_queue_spec t (Z.to_nat prio) (set_threads m s1))
      as (Hlen2 & Hth2 & Hq2 & Hb2); [lia | exact Hlen1 | |].
    { change (queue ?j (set_threads m s1)) with (queue j s1).
      apply Hinv1. lia. }
    rewrite Hprio. split; [rewrite Hth2; simpl; exact Hm |]. split.
    + intros i' Hin' j. assert (i' = i) as -> by (rewrite <- (Hbk i' t Hin'); by apply Hbk).
      rewrite Hq2. change (queue ?j (set_threads m s1)) with (queue j s1).
      rewrite !Hq1. repeat case_decide; rewrite ?app_nil_r; congruence.
    + intros Hnot. exfalso. by apply (Hnot i).
  - split; [exact Hm |]. split; [| done].
    intros i Hin. exfalso.
    destruct (decide (i < 32)%nat) as [Hi |].
    + eapply (find_queue_None _ _ _ Hf i); [apply elem_of_seq; lia | exact Hin].
    + rewrite queue_out_of_range in Hin by lia. by apply elem_of_nil in Hin.
Qed.

End priority_more.

Lemma priority_should_preempt_spec_witness :
  exists s,
    Priority.priority_run [Priority.Enqueue 2; Priority.Enqueue 3]
      (Priority.priority_init three_priorities) = Some s /\
    Priority.priority_should_preempt (Some 1%nat) s = true.
Proof.
  destruct (Priority.priority_run [Priority.Enqueue 2; Priority.Enqueue 3]
              (Priority.priority_init three_priorities)) as [s |] eqn:Hrun;
    [| vm_compute in Hrun; discriminate].
  exists s. split; [reflexivity |].
  pose proof Hrun as Hval. vm_compute in Hval. injection Hval as Hs.
  destruct (priority_should_preempt_spec _ _ _ 1 (Priority.mk_prio_tcb 10 0) Hrun) as [[_ H] _].
  - rewrite <- Hs. reflexivity.
  - simpl. lia.
  - apply H. left. exists 2%nat. split.
    + exists 30%nat. rewrite <- Hs. vm_compute. left.
    + rewrite <- Hs. vm_compute. reflexivity.
Defined.

Lemma uthread_setpriority_moves_witness :
  exists s s',
    Priority.priority_run [Priority.Enqueue 1; Priority.Enqueue 2; Priority.Enqueue 3]
      (Priority.priority_init three_priorities) = Some s /\
    Priority.uthread_setpriority (Some 1%nat) 30 s = (UTHREAD_SUCCESS, s') /\
    Priority.queue 30 s' = [2%nat; 1%nat] /\ Priority.queue 10 s' = [].
Proof.
  destruct (Priority.priority_run
              [Priority.Enqueue 1; Priority.Enqueue 2; Priority.Enqueue 3]
              (Priority.priority_init three_priorities)) as [s |] eqn:Hrun;
    [| vm_compute in Hrun; discriminate].
  pose proof (uthread_setpriority_moves _ _ _ 1 30 (Priority.mk_prio_tcb 10 10000000) Hrun)
    as Hmove.
  pose proof Hrun as Hval. vm_compute in Hval. injection Hval as Hs.
  destruct (Priority.uthread_setpriority (Some 1%nat) 30 s) as [r s'] eqn:Hset.
  destruct Hmove as [_ Hmove]; [rewrite <- Hs; reflexivity |].
  destruct Hmove as (-> & _ & Hq & _); [lia |].
  exists s, s'. split; [reflexivity |]. split; [exact Hset |].
  assert (1%nat ∈ Priority.queue 10 s) as Hin by (rewrite <- Hs; vm_compute; left).
  split.
  - rewrite (Hq 10%nat Hin 30%nat). rewrite <- Hs. vm_compute. reflexivity.
  - rewrite (Hq 10%nat Hin 10%nat). rewrite <- Hs. vm_compute. reflexivity.
Defined.

(** ** More about semaphores (src/semaphore.c) *)

Section semaphore_more.
Context {Q : Type} `{scheduler_ops Q}.
Import Semaphore.

(** One segment on a semaphore whose count is not negative and below
    [INT_MAX]: the count moves by exactly the post or the wait that
    succeeded, and a wait succeeds only on a positive count. *)
Lemma sem_step_count (c : sem_call) (g : scheduler_state Q) (s : uthread_sem_t) :
  0 <= value s < INT_MAX ->
  let '(r, s') := sem_step c g s in
  let ok := bool_decide (r = Some UTHREAD_SUCCESS) in
  value s' = value s + (if ok && is_post c then 1 else 0)
                     - (if ok && is_wait c then 1 else 0) /\
  0 <= value s'.
Proof.
  intros Hv.
  assert (wrap_int (value s + 1) = value s + 1) as Hup
    by (apply wrap_int_small; unfold INT_MIN, INT_MAX in *; lia).
  assert (wrap_int (value s - 1) = value s - 1) as Hdown
    by (apply wrap_int_small; unfold INT_MIN, INT_MAX in *; lia).
  destruct c; unfold sem_step, uthread_sem_post, uthread_sem_wait, sem_wait_loop,
    uthread_sem_trywait, uthread_sem_timedwait, sem_timedwait_resume,
    sem_timedwait_loop, uthread_sem_getvalue, uthread_sem_destroy;
    repeat (case_decide || case_match); simplify_eq; simpl;
    rewrite ?Hup, ?Hdown; try discriminate; lia.
Qed.

(** X26 (src/semaphore.c, uthread_sem_post, uthread_sem_wait,
    uthread_sem_trywait, uthread_sem_timedwait): a semaphore cannot be
    overdrawn.  Starting from a count that is not negative, and as long as
    the posts cannot carry the count past [INT_MAX], after any execution
    the count is the initial count plus the successful posts minus the
    successful waits, it is not negative, and so the waits that succeeded
    never outnumber the initial count plus the posts. *)
Theorem sem_no_overdraw (tr : list (sem_call * scheduler_state Q)) (s : uthread_sem_t) :
  0 <= value s -> value s + Z.of_nat (length tr) <= INT_MAX ->
  let '(s', posts, waits) := sem_run tr s in
  0 <= posts <= Z.of_nat (length tr) /\ 0 <= waits /\
  value s' = value s + posts - waits /\ 0 <= value s' /\
  waits <= value s + posts.
Proof.
  revert s. induction tr as [| [c g] rest IH]; intros s Hv Hlen.
  - simpl. lia.
  - cbn [sem_run]. cbn [length] in Hlen.
    pose proof (sem_step_count c g s ltac:(lia)) as Hstep.
    destruct (sem_step c g s) as [r s1]. cbn zeta in Hstep.
    destruct Hstep as [Hs1 Hpos].
    assert (value s1 + Z.of_nat (length rest) <= INT_MAX) as Hlen1.
    { rewrite Hs1. destruct (bool_decide _ && is_post c), (bool_decide _ && is_wait c); lia. }
    specialize (IH s1 Hpos Hlen1).
    destruct (sem_run rest s1) as [[s2 posts] waits].
    cbn [length]. rewrite Hs1 in IH.
    destruct (bool_decide _ && is_post c), (bool_decide _ && is_wait c); lia.
Qed.

End semaphore_more.

Lemma sem_no_overdraw_witness :
  let s := Semaphore.mk_sem 1 (Some 5%nat) true in
  let tr := [(Semaphore.CallTrywait, two_threads); (Semaphore.CallTrywait, two_threads);
             (Semaphore.CallPost, two_threads); (Semaphore.CallWait, two_threads)] in
  Semaphore.sem_run tr s = (Semaphore.mk_sem 0 (Some 5%nat) true, 1, 2) /\
  2 <= Semaphore.value s + 1.
Proof.
  intros s tr.
  pose proof (sem_no_overdraw tr s ltac:(simpl; lia) ltac:(vm_compute; discriminate)) as Hrun.
  assert (Semaphore.sem_run tr s = (Semaphore.mk_sem 0 (Some 5%nat) true, 1, 2)) as Heq
    by (vm_compute; reflexivity).
  rewrite Heq in Hrun. split; [exact Heq | apply Hrun].
Defined.

(** ** More about condition variables (src/condvar.c) *)

Section condvar_more.
Context {Q : Type} `{scheduler_ops Q}.
Import Condvar.

Lemma wake_one_other_queue (b : option nat) (a : nat) (g : scheduler_state Q) :
  b <> Some a -> wq_threads a (wait_queue_wake_one b g) = wq_threads a g.
Proof.
  intros Hne. destruct b as [b |]; [| done].
  destruct (wq_threads b g) as [| t rest] eqn:Hq.
  - unfold wait_queue_wake_one, wait_queue_remove. by rewrite Hq.
  - destruct (wake_step b t rest g Hq) as (g2 & _ & -> & _ & Hother & _).
    apply Hother. congruence.
Qed.

(** X27 (src/condvar.c, uthread_cond_wait): entering a wait on an
    initialised condition variable always parks the running thread: the
    caller is appended to the tail of the condition variable's wait queue
    and the mutex is left unlocked and without owner, whether or not the
    caller held it (the call makes no ownership check and never answers
    EPERM).  When the waiter runs again and finds the mutex free, the call
    returns success with the mutex locked by the waiter at recursion depth
    1, whatever the depth was at entry. *)
Theorem cond_wait_releases_mutex (ok : bool) (c : uthread_cond_t)
    (m : Mutex.uthread_mutex_t) (g : scheduler_state Q) (self a : nat) :
  initialized c = true -> waiters c = Some a -> Mutex.waiters m <> Some a ->
  scheduler_current g = Some self ->
  exists m' g',
    uthread_cond_wait ok (Some c) (Some m) g =
      Suspended (Reacquire UTHREAD_SUCCESS) (Some c, Some m', g') /\
    Mutex.lock m' = 0 /\ Mutex.owner m' = None /\
    Mutex.recursion_count m' = Mutex.recursion_count m /\
    wq_threads a g' = wq_threads a g ++ [self] /\
    forall now (g2 : scheduler_state Q), scheduler_current g2 = Some self ->
      exists m'',
        cond_resume (Reacquire UTHREAD_SUCCESS) now c m' g2 =
          Returned UTHREAD_SUCCESS (Some c, Some m'', g2) /\
        Mutex.lock m'' = 1 /\ Mutex.owner m'' = Some self /\
        Mutex.recursion_count m'' = 1.
Proof.
  intros Hinit Hw Hne Hcur.
  unfold uthread_cond_wait, ensure_cond. rewrite Hinit, Hcur.
  unfold cond_enqueue_release. cbn [Mutex.waiters]. rewrite Hw.
  set (g1 := wait_queue_add (Some a) (Some self) _).
  set (m' := Mutex.mk_mutex 0 None _ _ _ _).
  assert (wq_threads a g1 = wq_threads a g ++ [self]) as Hq1.
  { subst g1. unfold wait_queue_add, wq_threads, update_tcb. simpl.
    by rewrite lookup_insert_eq. }
  assert (forall now (g2 : scheduler_state Q), scheduler_current g2 = Some self ->
            exists m'',
              cond_resume (Reacquire UTHREAD_SUCCESS) now c m' g2 =
                Returned UTHREAD_SUCCESS (Some c, Some m'', g2) /\
              Mutex.lock m'' = 1 /\ Mutex.owner m'' = Some self /\
              Mutex.recursion_count m'' = 1) as Hresume.
  { intros now g2 Hc2. unfold cond_resume, cond_reacquire. rewrite Hc2.
    rewrite decide_False by (simpl; lia). eexists. split; [reflexivity |]. done. }
  destruct (negb (wait_queue_empty (Mutex.waiters m) g1)).
  - eexists m', _. split; [reflexivity |]. do 3 (split; [done |]).
    split; [| exact Hresume].
    destruct (scheduler_schedule_lookup
                (wait_queue_wake_one (Mutex.waiters m) g1)) as (_ & Hwqs & _).
    unfold wq_threads at 1. rewrite Hwqs.
    change (wq_threads a (wait_queue_wake_one (Mutex.waiters m) g1) =
            wq_threads a g ++ [self]).
    by rewrite wake_one_other_queue.
  - eexists m', _. split; [reflexivity |]. do 3 (split; [done |]).
    split; [| exact Hresume].
    destruct (scheduler_schedule_lookup g1) as (_ & Hwqs & _).
    unfold wq_threads at 1. rewrite Hwqs. exact Hq1.
Qed.

(** X28 (src/condvar.c, uthread_cond_signal, uthread_cond_broadcast;
    src/scheduler.c, wait_queue_wake_one, wait_queue_wake_all): on an
    initialised condition variable both calls return success and add one
    to the sequence number.  A signal wakes the thread that has waited
    longest: it leaves the wait queue, is marked READY and enters the run
    queue, and the other waiters keep their places; a broadcast empties
    the wait queue and hands all waiters to the run queue in the order in
    which they waited.  With no waiter neither call changes the scheduler
    state: the signal is not remembered for a later wait. *)
Theorem cond_signal_wakes_longest_waiter (ok : bool) (c : uthread_cond_t)
    (g : scheduler_state Q) (a : nat) :
  initialized c = true -> waiters c = Some a ->
  (exists g',
     uthread_cond_signal ok (Some c) g =
       (UTHREAD_SUCCESS, Some (mk_cond (Some a) (wrap_u64 (signal_seq c + 1)) true), g') /\
     match wq_threads a g with
     | [] => g' = g
     | t :: rest =>
         wq_threads a g' = rest /\ runq g' = rq_enqueue t (runq g) /\
         tcb_state t g' = (fun _ => UTHREAD_STATE_READY) <$> tcbs g !! t /\
         tcb_blocked_queue t g' = None /\
         (forall u, u <> t -> tcbs g' !! u = tcbs g !! u) /\
         (forall b, b <> a -> wq_threads b g' = wq_threads b g)
     end) /\
  (exists g',
     uthread_cond_broadcast ok (Some c) g =
       (UTHREAD_SUCCESS, Some (mk_cond (Some a) (wrap_u64 (signal_seq c + 1)) true), g') /\
     wq_threads a g' = [] /\
     runq g' = foldl (fun q t => rq_enqueue t q) (runq g) (wq_threads a g) /\
     (forall t, t ∈ wq_threads a g ->
        tcb_state t g' = (fun _ => UTHREAD_STATE_READY) <$> tcbs g !! t /\
        tcb_blocked_queue t g' = None) /\
     (forall u, u ∉ wq_threads a g -> tcbs g' !! u = tcbs g !! u) /\
     (wq_threads a g = [] -> g' = g)).
Proof.
  intros Hinit Hw. split.
  - unfold uthread_cond_signal, ensure_cond. rewrite Hinit. cbn [waiters initialized signal_seq].
    rewrite Hw, ?Hinit. destruct (wq_threads a g) as [| t rest] eqn:Hq.
    + unfold wait_queue_empty. rewrite Hq. cbn [negb]. eexists. split; [reflexivity | done].
    + unfold wait_queue_empty. rewrite Hq. cbn [negb]. eexists. split; [reflexivity |].
      destruct (wake_step a t rest g Hq) as (g2 & _ & -> & Hq2 & Hother & Hrq & _ & Htcbs).
      split; [exact Hq2 |]. split; [exact Hrq |].
      split; [| split; [| split; [| exact Hother]]].
      * unfold tcb_state. rewrite Htcbs, !lookup_alter_eq. by destruct (tcbs g !! t).
      * unfold tcb_blocked_queue. rewrite Htcbs, !lookup_alter_eq. by destruct (tcbs g !! t).
      * intros u Hu. rewrite Htcbs. by rewrite !lookup_alter_ne.
  - unfold uthread_cond_broadcast, ensure_cond. rewrite Hinit. cbn [waiters initialized signal_seq].
    rewrite Hw, ?Hinit. eexists. split; [reflexivity |].
    unfold wait_queue_wake_all.
    destruct (wake_all_loop_spec a (wq_threads a g) g eq_refl) as (H1 & H2 & H3 & H4 & H5 & H6).
    split; [exact H1 |]. split; [exact H3 |]. split; [exact H6 |]. split; [exact H5 |].
    intros ->. reflexivity.
Qed.

End condvar_more.

Lemma cond_wait_releases_mutex_witness :
  exists g' m'',
    Condvar.uthread_cond_wait true (Some cond_at_10) (Some mutex_at_11_depth_3) two_threads =
      Suspended (Condvar.Reacquire UTHREAD_SUCCESS)
        (Some cond_at_10,
         Some (Mutex.mk_mutex 0 None (Some 11%nat) Mutex.UTHREAD_MUTEX_RECURSIVE 3 true), g') /\
    wq_threads 10 g' = [1%nat] /\
    Condvar.cond_resume (Condvar.Reacquire UTHREAD_SUCCESS) 0 cond_at_10
      (Mutex.mk_mutex 0 None (Some 11%nat) Mutex.UTHREAD_MUTEX_RECURSIVE 3 true) two_threads =
      Returned UTHREAD_SUCCESS (Some cond_at_10, Some m'', two_threads) /\
    Mutex.recursion_count m'' = 1.
Proof.
  destruct (cond_wait_releases_mutex true cond_at_10 mutex_at_11_depth_3 two_threads 1 10)
    as (m' & g' & Hwait & _ & _ & _ & Hq & Hresume);
    [reflexivity | reflexivity | discriminate | reflexivity |].
  assert (m' = Mutex.mk_mutex 0 None (Some 11%nat) Mutex.UTHREAD_MUTEX_RECURSIVE 3 true) as ->.
  { vm_compute in Hwait. by injection Hwait. }
  destruct (Hresume 0 two_threads eq_refl) as (m'' & Hret & _ & _ & Hdepth).
  exists g', m''. split; [exact Hwait |]. split; [exact Hq |]. split; [exact Hret | exact Hdepth].
Defined.

Lemma cond_signal_wakes_longest_waiter_witness :
  (exists g',
     Condvar.uthread_cond_signal true (Some cond_at_10) two_waiters =
       (UTHREAD_SUCCESS, Some (Condvar.mk_cond (Some 10%nat) 1 true), g') /\
     wq_threads 10 g' = [3%nat] /\ runq g' = [2%nat]) /\
  (exists g',
     Condvar.uthread_cond_broadcast true (Some cond_at_10) two_waiters =
       (UTHREAD_SUCCESS, Some (Condvar.mk_cond (Some 10%nat) 1 true), g') /\
     wq_threads 10 g' = [] /\ runq g' = [2%nat; 3%nat]).
Proof.
  destruct (cond_signal_wakes_longest_waiter true cond_at_10 two_waiters 10 eq_refl eq_refl)
    as [(g1 & Hsig & Hone) [g2 (Hbc & Hq & Hrq & _)]].
  split.
  - exists g1. split; [exact Hsig |]. destruct Hone as (Hq1 & Hrq1 & _).
    split; [exact Hq1 | exact Hrq1].
  - exists g2. split; [exact Hbc |]. split; [exact Hq | exact Hrq].
Defined.

(** ** The thread count of the priority policy (src/sched_priority.c) *)

Section priority_count.
Import Priority.

Lemma unlink_length (t : nat) (l : list nat) :
  t ∈ l -> S (length (unlink t l)) = length l.
Proof.
  induction l as [| u l IH]; intros Hin; [by apply elem_of_nil in Hin |].
  simpl. case_decide; [done |]. simpl. rewrite IH; [done |].
  apply elem_of_cons in Hin as [-> | Hin]; [done | exact Hin].
Qed.

Lemma concat_insert_length (qs : list (list nat)) (i : nat) (l : list nat) :
  (i < length qs)%nat ->
  (length (concat (<[i := l]> qs)) + length (default [] (qs !! i)) =
   length (concat qs) + length l)%nat.
Proof.
  revert i. induction qs as [| q qs IH]; intros i Hi; simpl in Hi; [lia |].
  destruct i as [| i]; simpl.
  - rewrite !length_app. lia.
  - rewrite !length_app. specialize (IH i ltac:(lia)). lia.
Qed.

Lemma concat_all_empty (qs : list (list nat)) :
  (forall j, default [] (qs !! j) = []) -> concat qs = [].
Proof.
  induction qs as [| q qs IH]; intros Hall; [done |].
  simpl. rewrite (Hall 0%nat : q = []). apply IH. intros j. exact (Hall (S j)).
Qed.

Lemma add_to_priority_queue_count (t p : nat) (s : sched_priority_state) :
  (p < length (queues s))%nat ->
  let s' := add_to_priority_queue t p s in
  count s' = count s /\
  length (concat (queues s')) = S (length (concat (queues s))).
Proof.
  intros Hp. cbn zeta.
  assert (queues (add_to_priority_queue t p s) = <[p := queue p s ++ [t]]> (queues s)) as ->
    by (unfold add_to_priority_queue; by destruct (queue p s)).
  split; [unfold add_to_priority_queue; by destruct (queue p s) |].
  pose proof (concat_insert_length (queues s) p (queue p s ++ [t]) Hp) as Hl.
  rewrite length_app in Hl. simpl in Hl. unfold queue in *. lia.
Qed.

Lemma remove_from_priority_queue_count (t i : nat) (s : sched_priority_state) :
  (i < length (queues s))%nat -> t ∈ queue i s ->
  let s' := remove_from_priority_queue t i s in
  count s' = count s /\
  S (length (concat (queues s'))) = length (concat (queues s)).
Proof.
  intros Hi Hin. cbn zeta. unfold remove_from_priority_queue.
  set (s1 := set_queues _ s).
  assert (queues (match queue i s1 with
                  | [] => set_bitmap
                            (Z.land (bitmap s1) (wrap_u32 (Z.lnot (Z.shiftl 1 (Z.of_nat i))))) s1
                  | _ :: _ => s1
                  end) = <[i := unlink t (queue i s)]> (queues s)) as ->
    by (by destruct (queue i s1)).
  split; [by destruct (queue i s1) |].
  pose proof (concat_insert_length (queues s) i (unlink t (queue i s)) Hi) as Hl.
  pose proof (unlink_length t (queue i s) Hin) as Hu. unfold queue in *. lia.
Qed.

(** One call of the policy keeps [count] equal to the number of queued
    threads, and raises it by at most one. *)
Lemma priority_step_count (c : priority_call) (s s' : sched_priority_state) :
  priority_inv s -> count s = Z.of_nat (length (concat (queues s))) ->
  count s < INT_MAX ->
  priority_step c s = Some s' ->
  count s' = Z.of_nat (length (concat (queues s'))) /\ count s' <= count s + 1.
Proof.
  intros Hinv Hc Hmax Hstep. pose proof Hinv as [Hlen Hbits Hnd Hbk].
  assert (wrap_int (count s + 1) = count s + 1) as Hup
    by (apply wrap_int_small; unfold INT_MIN, INT_MAX in *; lia).
  destruct c as [t | | t | t prio | t e]; cbn [priority_step] in Hstep.
  - destruct (queuedb t s); [discriminate |]. apply (inj Some) in Hstep; subst s'.
    unfold priority_enqueue. cbn [count queues set_threads set_count].
    destruct (add_to_priority_queue_count t (clamp_priority (thread_priority t s)) s)
      as [Hc1 Hl1]; [rewrite Hlen; apply clamp_priority_lt |].
    rewrite Hc1, Hl1, Hup. lia.
  - apply (inj Some) in Hstep; subst s'. unfold priority_dequeue.
    destruct (find_highest_priority_spec s Hinv) as [[Hh _] | (i & Hi & Hh & Hne & _)].
    + rewrite Hh. rewrite decide_True by lia. simpl. lia.
    + rewrite Hh, decide_False by lia. rewrite Nat2Z.id.
      destruct (queue i s) as [| t rest] eqn:Hq; [done |].
      cbn [snd count queues set_count].
      destruct (remove_from_priority_queue_count t i s) as [Hc1 Hl1];
        [lia | rewrite Hq; left |].
      rewrite Hc1. rewrite wrap_int_small by (unfold INT_MIN, INT_MAX in *; lia). lia.
  - apply (inj Some) in Hstep; subst s'. unfold priority_remove.
    destruct (find_queue t (clamp_priority (thread_priority t s) :: seq 0 32) s)
      as [i |] eqn:Hf; [| cbn beta iota; lia].
    apply find_queue_Some in Hf as [Hi Hin].
    assert (i < 32)%nat as Hi32.
    { apply elem_of_cons in Hi as [-> | Hi]; [apply clamp_priority_lt |].
      apply elem_of_seq in Hi. lia. }
    cbn [count queues set_count].
    destruct (remove_from_priority_queue_count t i s) as [Hc1 Hl1]; [lia | exact Hin |].
    rewrite Hc1. rewrite wrap_int_small by (unfold INT_MIN, INT_MAX in *; lia). lia.
  - apply (inj Some) in Hstep; subst s'. unfold uthread_setpriority.
    case_decide as Hr; [simpl; lia |]. cbn [snd].
    unfold priority_update_priority. rewrite find_queue_set_threads.
    destruct (find_queue t (seq 0 32) s) as [i |] eqn:Hf; [| simpl; lia].
    apply find_queue_Some in Hf as [Hi Hin]. apply elem_of_seq in Hi.
    rewrite remove_from_set_threads.
    destruct (remove_from_priority_queue_count t i s) as [Hc1 Hl1]; [lia | exact Hin |].
    destruct (remove_from_priority_queue_spec t i s ltac:(lia) Hlen (Hbits i ltac:(lia)))
      as (Hlen1 & _).
    set (s1 := remove_from_priority_queue t i s) in *.
    set (p := Z.to_nat _).
    assert (p < 32)%nat as Hp.
    { subst p. unfold thread_priority. cbn [threads set_threads].
      unfold UTHREAD_PRIORITY_MIN, UTHREAD_PRIORITY_MAX in Hr.
      destruct (decide (t ∈ dom (threads s))) as [Hd | Hd].
      - apply elem_of_dom in Hd as [tc Htc]. rewrite lookup_alter_eq, Htc. simpl. lia.
      - apply not_elem_of_dom in Hd. rewrite lookup_alter_eq, Hd. simpl. lia. }
    destruct (add_to_priority_queue_count t p (set_threads
                (alter (fun c => mk_prio_tcb prio (timeslice_remaining c)) t (threads s)) s1))
      as [Hc2 Hl2]; [cbn [queues set_threads]; lia |].
    rewrite Hc2, Hl2. cbn [count queues set_threads]. lia.
  - apply (inj Some) in Hstep; subst s'. simpl. lia.
Qed.

Lemma priority_run_count (tr : list priority_call) (s s' : sched_priority_state) :
  priority_inv s -> count s = Z.of_nat (length (concat (queues s))) ->
  count s + Z.of_nat (length tr) <= INT_MAX ->
  priority_run tr s = Some s' ->
  count s' = Z.of_nat (length (concat (queues s'))).
Proof.
  revert s. induction tr as [| c rest IH]; intros s Hinv Hc Hmax Hrun.
  - injection Hrun as <-. exact Hc.
  - cbn [priority_run] in Hrun. cbn [length] in Hmax.
    destruct (priority_step c s) as [s1 |] eqn:Hstep; [| discriminate].
    cbn [mbind option_bind] in Hrun.
    destruct (priority_step_count c s s1 Hinv Hc ltac:(lia) Hstep) as [Hc1 Hle].
    apply (IH s1); [| exact Hc1 | lia | exact Hrun].
    apply (priority_run_inv [c] s s1 Hinv). cbn [priority_run]. by rewrite Hstep.
Qed.

(** X29 (src/sched_priority.c, priority_enqueue, priority_dequeue,
    priority_remove, priority_update_priority): in any state reached from
    [priority_init] by fewer than 2^31 enqueues, dequeues, removals,
    priority changes and ticks, the field [count] is the number of threads
    linked into the 32 queues; a priority change moves a thread without
    counting it twice, and removing a thread that is not queued changes
    nothing.  So [count] is zero exactly when [priority_dequeue] has no
    thread to return. *)
Theorem priority_count_counts (tr : list priority_call)
    (s0 s : sched_priority_state) :
  priority_run tr (priority_init s0) = Some s ->
  Z.of_nat (length tr) <= INT_MAX ->
  count s = Z.of_nat (length (concat (queues s))) /\
  (count s = 0 <-> fst (priority_dequeue s) = None).
Proof.
  intros Hrun Hlen.
  pose proof (priority_run_inv tr _ s (priority_inv_init s0) Hrun) as Hinv.
  assert (count s = Z.of_nat (length (concat (queues s)))) as Hc.
  { apply (priority_run_count tr (priority_init s0)); [apply priority_inv_init | | | exact Hrun].
    - reflexivity.
    - simpl. lia. }
  split; [exact Hc |].
  pose proof (priority_dequeue_spec s Hinv) as Hd.
  destruct (priority_dequeue s) as [[t |] s']; cbn [fst].
  - destruct Hd as (i & rest & Hi & Hq & _). split; [| discriminate].
    intros H0. exfalso. rewrite H0 in Hc.
    assert (concat (queues s) = []) as Hnil
      by (destruct (concat (queues s)); [done | simpl in Hc; lia]).
    pose proof Hinv as [Hl _ _ _].
    pose proof (concat_insert_length (queues s) i [] ltac:(lia)) as Hins.
    rewrite Hnil in Hins. unfold queue in Hq. rewrite Hq in Hins. simpl in Hins. lia.
  - destruct Hd as [_ Hall]. split; [done |]. intros _.
    rewrite Hc, (concat_all_empty (queues s)); [done | exact Hall].
Qed.

End priority_count.

Lemma priority_count_counts_witness :
  exists s,
    Priority.priority_run
      [Priority.Enqueue 1; Priority.Enqueue 2; Priority.Setpriority 1 31;
       Priority.Remove 3; Priority.Dequeue]
      (Priority.priority_init three_priorities) = Some s /\
    Priority.count s = 1 /\ concat (Priority.queues s) = [2%nat].
Proof.
  destruct (Priority.priority_run
              [Priority.Enqueue 1; Priority.Enqueue 2; Priority.Setpriority 1 31;
               Priority.Remove 3; Priority.Dequeue]
              (Priority.priority_init three_priorities)) as [s |] eqn:Hrun;
    [| vm_compute in Hrun; discriminate].
  destruct (priority_count_counts _ _ _ Hrun ltac:(vm_compute; discriminate)) as [Hc _].
  pose proof Hrun as Hval. vm_compute in Hval. injection Hval as Hs.
  assert (concat (Priority.queues s) = [2%nat]) as Hq by (rewrite <- Hs; reflexivity).
  exists s. split; [reflexivity |]. split; [| exact Hq].
  rewrite Hc, Hq. reflexivity.
Defined.

(** ** Exit and join (src/uthread.c) *)

Section exit_join.
Context {Q : Type} `{scheduler_ops Q}.

(** What [uthread_exit] leaves of the control block of a joinable caller. *)
Lemma uthread_exit_joinable (v : Z) (g : scheduler_state Q) (self : nat)
    (c : uthread_internal) :
  initialized g = true -> current g = Some self -> tcbs g !! self = Some c ->
  detached c = false -> joiner c <> Some self ->
  exists g' c', uthread_exit v g = Some g' /\ initialized g' = true /\
    tcbs g' !! self = Some c' /\ exited c' = true /\ retval c' = v /\
    detached c' = false /\ joiner c' = joiner c.
Proof.
  intros Hinit Hcur Hc Hdet Hjs. unfold uthread_exit. rewrite Hinit, Hcur, Hc, Hdet.
  cbn [negb]. cbn zeta.
  set (m1 := alter (set_state UTHREAD_STATE_TERMINATED) self
               (alter (set_exited true) self (alter (set_retval v) self (tcbs g)))).
  set (m2 := match joiner c with
             | Some j => alter (set_state UTHREAD_STATE_READY) j
                           (alter (set_waiting_on None) j m1)
             | None => m1
             end).
  set (g3 := match joiner c with Some j => _ | None => _ end).
  assert (tcbs g3 = m2 /\ current g3 = Some self /\ initialized g3 = true)
    as (Ht3 & Hc3 & Hi3).
  { subst g3 m2 m1. destruct (joiner c); simpl; done. }
  clearbody g3.
  assert (m2 !! self = Some (set_state UTHREAD_STATE_TERMINATED
                               (set_exited true (set_retval v c)))) as Hm2.
  { subst m2 m1. destruct (joiner c) as [j |].
    - rewrite !lookup_alter_ne by congruence. by rewrite !lookup_alter_eq, Hc.
    - by rewrite !lookup_alter_eq, Hc. }
  assert (initialized (scheduler_schedule g3) = true) as Hi'.
  { unfold scheduler_schedule. destruct (rq_dequeue (runq g3)) as [r q'].
    case_decide; [exact Hi3 |].
    destruct (current (set_runq q' g3)); [case_decide |]; exact Hi3. }
  destruct (scheduler_schedule_lookup g3) as (_ & _ & _ & Hlk).
  assert (tcb_state self g3 <> Some UTHREAD_STATE_RUNNING) as Hnr.
  { unfold tcb_state. rewrite Ht3, Hm2. simpl. done. }
  specialize (Hlk self). rewrite Ht3, Hm2, Hc3 in Hlk.
  assert (exists c', tcbs (scheduler_schedule g3) !! self = Some c' /\
            exited c' = true /\ retval c' = v /\ detached c' = false /\
            joiner c' = joiner c) as (c' & Hl & Hfields).
  { repeat case_decide; try tauto; simpl in Hlk;
      (eexists; split; [exact Hlk |]); destruct c; simpl in *; done. }
  exists (scheduler_schedule g3), c'. split; [reflexivity |]. split; [exact Hi' |].
  split; [exact Hl | exact Hfields].
Qed.

(** X30 (src/uthread.c, uthread_exit, uthread_join, thread_free): the value
    a joinable thread passes to uthread_exit is the value a join collects.
    In the state that uthread_exit leaves, the loop of uthread_join (where
    a parked joiner continues) returns success at once, stores the exit
    value through a non-NULL retval, and frees the control block of the
    exited thread, leaving the other control blocks alone; a first
    uthread_join by another thread that is then running does the same. *)
Theorem exit_then_join (v : Z) (g : scheduler_state Q) (self : nat)
    (c : uthread_internal) :
  initialized g = true -> current g = Some self -> tcbs g !! self = Some c ->
  detached c = false -> joiner c <> Some self ->
  exists g', uthread_exit v g = Some g' /\
    forall out, exists g'',
      join_loop out self g' =
        Returned UTHREAD_SUCCESS (if out then Some v else None, g'') /\
      tcbs g'' !! self = None /\
      (forall u, u <> self -> tcbs g'' !! u = tcbs g' !! u) /\
      (current g' <> Some self -> joiner c = None ->
       uthread_join (Some self) out g' = join_loop out self g').
Proof.
  intros Hinit Hcur Hc Hdet Hjs.
  destruct (uthread_exit_joinable v g self c Hinit Hcur Hc Hdet Hjs)
    as (g' & c' & Hexit & Hi' & Hc' & Hex & Hret & Hdet' & Hj').
  exists g'. split; [exact Hexit |]. intros out.
  unfold join_loop at 1. rewrite Hc', Hex, Hret. eexists. split; [reflexivity |].
  assert (forall u, tcbs (thread_free (Some self) (scheduler_remove_thread (Some self) g')) !! u
                    = delete self (tcbs g') !! u) as Hfree.
  { intros u. unfold thread_free, scheduler_remove_thread.
    destruct (find_slot (Some self) (all_threads g')); reflexivity. }
  split; [by rewrite Hfree, lookup_delete_eq |].
  split; [intros u Hu; by rewrite Hfree, lookup_delete_ne |].
  intros Hne Hjn. unfold uthread_join. rewrite Hi'. cbn [negb].
  rewrite decide_False by congruence. rewrite Hc', Hdet'.
  rewrite decide_False; [reflexivity |]. rewrite Hj', Hjn. tauto.
Qed.

End exit_join.

Lemma exit_then_join_witness :
  exists g' g'',
    uthread_exit 42 two_threads = Some g' /\ current g' = Some 2%nat /\
    uthread_join (Some 1%nat) true g' = Returned UTHREAD_SUCCESS (Some 42, g'') /\
    tcbs g'' !! 1%nat = None.
Proof.
  destruct (exit_then_join 42 two_threads 1 (blank_tcb 1 UTHREAD_STATE_RUNNING))
    as (g' & Hexit & Hjoin); [reflexivity | reflexivity | reflexivity | reflexivity | discriminate |].
  destruct (Hjoin true) as (g'' & Hloop & Hfreed & _ & Hentry).
  assert (current g' = Some 2%nat) as Hcur.
  { vm_compute in Hexit. injection Hexit as <-. reflexivity. }
  exists g', g''. split; [exact Hexit |]. split; [exact Hcur |]. split; [| exact Hfreed].
  rewrite Hentry; [exact Hloop | rewrite Hcur; discriminate | reflexivity].
Defined.

(** ** The places of threads along the executions of the library *)

(** Round-robin is such a run queue. *)
#[global] Instance sched_rr_queue_laws : run_queue_laws (list nat).
Proof.
  refine {| rq_wf := fun q => NoDup q |}; simpl.
  - constructor.
  - intros t [].
  - intros t q Hq Hin. apply NoDup_app. split; [exact Hq |]. split.
    + intros x Hx Hx'. apply list_elem_of_singleton in Hx' as ->.
      apply Hin. by apply list_elem_of_In.
    + apply NoDup_singleton.
  - intros t u q Hin. apply in_app_or in Hin as [Hin | [-> | []]]; auto.
  - intros q r q' Hq Hdq. destruct q; simpl in Hdq; simplify_eq; [constructor |].
    by apply NoDup_cons in Hq as [_ Hq].
  - intros q r q' u Hdq Hin. destruct q; simpl in Hdq; simplify_eq; simpl; auto.
  - intros q t q' Hq Hdq. destruct q; simpl in Hdq; simplify_eq.
    apply NoDup_cons in Hq as [Hn _]. split; [simpl; auto |].
    intros Hin. apply Hn. by apply list_elem_of_In.
  - intros t q Hq. unfold rr_remove. induction Hq as [| x l Hx Hl IH]; simpl; [constructor |].
    case_decide; [exact Hl |]. constructor; [| exact IH].
    intros Hin. apply Hx. clear -Hin. induction l as [| y l IHl]; simpl in *.
    + by apply elem_of_nil in Hin.
    + case_decide; [by right |]. apply elem_of_cons in Hin as [-> | Hin]; [by left |].
      right. by apply IHl.
  - intros t u q. unfold rr_remove. induction q as [| x q IH]; simpl; [auto |].
    case_decide; simpl; intuition.
Defined.


Section places.
Context {Q : Type} `{scheduler_ops Q} `{!run_queue_laws Q}.

(** *** What the invariant reads of a state *)

Lemma places_ok_weaken (X : option nat) (g : scheduler_state Q) :
  places_ok X g -> places_ok None g.
Proof.
  intros []. split; try done.
  - intros a t Ht. split; [done |]. by eapply po_wq_excl0.
  - intros t Ht. split; [done |]. by eapply po_join_excl0.
Qed.

(** The invariant depends on the run queue, the wait queues and three
    fields of the control blocks only. *)
Lemma places_ok_frame (X : option nat) (g g' : scheduler_state Q) :
  runq g' = runq g ->
  (forall a, wq_threads a g' = wq_threads a g) ->
  (forall t, live_tcb g' t <-> live_tcb g t) ->
  (forall t, tcb_blocked_queue t g' = tcb_blocked_queue t g) ->
  (forall T t, joins g' T t <-> joins g T t) ->
  places_ok X g -> places_ok X g'.
Proof.
  intros Hrq Hwq Hlive Hbq Hj [].
  assert (forall t, joining g' t <-> joining g t) as Hjg
    by (intros t; unfold joining; by setoid_rewrite Hj).
  assert (forall t, waiting g' t <-> waiting g t) as Hwg
    by (intros t; unfold waiting; by setoid_rewrite Hwq).
  split; rewrite ?Hrq; try setoid_rewrite Hwq; try setoid_rewrite Hlive;
    try setoid_rewrite Hbq; try setoid_rewrite Hjg; try setoid_rewrite Hwg;
    try setoid_rewrite Hj; try done.
Qed.

Lemma live_tcb_update (t u : nat) (f : uthread_internal -> uthread_internal)
    (g : scheduler_state Q) :
  (forall c, exited (f c) = exited c) ->
  live_tcb (update_tcb t f g) u <-> live_tcb g u.
Proof.
  intros Hf. unfold live_tcb, update_tcb. simpl. destruct (decide (t = u)) as [-> | Hne].
  - rewrite lookup_alter_eq. destruct (tcbs g !! u) as [c |]; simpl.
    + split; intros (c' & [= <-] & He); eexists; (split; [done |]); by rewrite ?Hf in *.
    + split; intros (c' & [=] & _).
  - by rewrite lookup_alter_ne.
Qed.

Lemma joins_update (t T u : nat) (f : uthread_internal -> uthread_internal)
    (g : scheduler_state Q) :
  (forall c, exited (f c) = exited c /\ joiner (f c) = joiner c) ->
  joins (update_tcb t f g) T u <-> joins g T u.
Proof.
  intros Hf. unfold joins, update_tcb. simpl. destruct (decide (t = T)) as [-> | Hne].
  - rewrite lookup_alter_eq. destruct (tcbs g !! T) as [c |]; simpl.
    + destruct (Hf c) as [He Hj].
      split; intros (c' & [= <-] & H1 & H2); eexists; (split; [done |]);
        rewrite ?He, ?Hj in *; done.
    + split; intros (c' & [=] & _).
  - by rewrite lookup_alter_ne.
Qed.

Lemma blocked_queue_update (t u : nat) (f : uthread_internal -> uthread_internal)
    (g : scheduler_state Q) :
  (forall c, blocked_queue (f c) = blocked_queue c) ->
  tcb_blocked_queue u (update_tcb t f g) = tcb_blocked_queue u g.
Proof.
  intros Hf. unfold tcb_blocked_queue, update_tcb. simpl.
  destruct (decide (t = u)) as [-> | Hne].
  - rewrite lookup_alter_eq. destruct (tcbs g !! u); simpl; [apply Hf | done].
  - by rewrite lookup_alter_ne.
Qed.

(** A write to a field other than [exited], [joiner] and [blocked_queue]. *)
Lemma places_ok_update (X : option nat) (t : nat)
    (f : uthread_internal -> uthread_internal) (g : scheduler_state Q) :
  keeps_places f -> places_ok X g -> places_ok X (update_tcb t f g).
Proof.
  intros Hf. apply places_ok_frame; [done | done | | |].
  - intros u. apply live_tcb_update. intros c. apply Hf.
  - intros u. apply blocked_queue_update. intros c. apply Hf.
  - intros T u. apply joins_update. intros c. destruct (Hf c) as (? & ? & ?). done.
Qed.

Lemma keeps_places_set_state (s : uthread_state_t) : keeps_places (set_state s).
Proof. by intros []. Qed.
Lemma keeps_places_set_waiting_on (p : option nat) : keeps_places (set_waiting_on p).
Proof. by intros []. Qed.
Lemma keeps_places_set_detached (b : bool) : keeps_places (set_detached b).
Proof. by intros []. Qed.
Lemma keeps_places_set_retval (v : Z) : keeps_places (set_retval v).
Proof. by intros []. Qed.
Lemma keeps_places_set_priority (p : Z) : keeps_places (set_priority p).
Proof. by intros []. Qed.
Lemma keeps_places_set_nice (n : Z) : keeps_places (set_nice n).
Proof. by intros []. Qed.


(** The three readings of the control blocks depend on the control blocks
    only, and not on their [state]. *)
Lemma tcb_views_same (g g' : scheduler_state Q) :
  (forall u, tcbs g' !! u = tcbs g !! u \/
             exists s, tcbs g' !! u = set_state s <$> tcbs g !! u) ->
  (forall t, live_tcb g' t <-> live_tcb g t) /\
  (forall t, tcb_blocked_queue t g' = tcb_blocked_queue t g) /\
  (forall T t, joins g' T t <-> joins g T t).
Proof.
  intros Hlk.
  assert (forall u, (exists s, tcbs g' !! u = set_state s <$> tcbs g !! u) \/
                    tcbs g' !! u = tcbs g !! u /\ tcbs g !! u = None) as Hlk'.
  { intros u. destruct (Hlk u) as [Hu | Hu]; [| by left].
    destruct (tcbs g !! u) as [c |] eqn:Hc; [| by right].
    left. exists (state c). rewrite Hu. by destruct c. }
  clear Hlk. split; [| split].
  - intros t. unfold live_tcb. destruct (Hlk' t) as [[s ->] | [-> ->]]; [| done].
    destruct (tcbs g !! t) as [c |]; simpl; [| naive_solver].
    split; intros (c' & [= <-] & He); eexists; (split; [done |]); by destruct c.
  - intros t. unfold tcb_blocked_queue. destruct (Hlk' t) as [[s ->] | [-> ->]]; [| done].
    destruct (tcbs g !! t) as [c |]; simpl; [by destruct c | done].
  - intros T t. unfold joins. destruct (Hlk' T) as [[s ->] | [-> ->]]; [| done].
    destruct (tcbs g !! T) as [c |]; simpl; [| naive_solver].
    split; intros (c' & [= <-] & He & Hj); eexists; (split; [done |]); by destruct c.
Qed.

(** *** Wait queues *)

(** The running thread links itself into a wait queue. *)
Lemma places_ok_link (wq : option nat) (self : nat) (g : scheduler_state Q) :
  places_ok (Some self) g -> places_ok None (wait_queue_add wq (Some self) g).
Proof.
  intros Hinv. destruct wq as [a |]; [| by eapply places_ok_weaken].
  unfold wait_queue_add.
  set (g1 := set_wq a (wq_threads a g ++ [self]) g).
  set (g2 := update_tcb self (set_blocked_queue (Some a)) g1).
  assert (forall b t, t ∈ wq_threads b g2 <-> t ∈ wq_threads b g \/ (b = a /\ t = self))
    as Hwq.
  { intros b t. change (wq_threads b g2) with (wq_threads b g1). subst g1.
    rewrite wq_threads_set_wq. case_decide as Hab.
    - subst. rewrite elem_of_app, list_elem_of_singleton. naive_solver.
    - naive_solver. }
  assert (forall t, live_tcb g2 t <-> live_tcb g t) as Hlive.
  { intros t. subst g2. rewrite live_tcb_update by (by intros []). done. }
  assert (forall T t, joins g2 T t <-> joins g T t) as Hj.
  { intros T t. subst g2. rewrite joins_update by (by intros []). done. }
  assert (forall t, t <> self -> tcb_blocked_queue t g2 = tcb_blocked_queue t g) as Hbq.
  { intros t Ht. unfold tcb_blocked_queue. simpl. by rewrite lookup_alter_ne. }
  destruct Hinv as [Hwf Hct Hcu Hcq Hrt Hru Hwt Hwe Hwn Hw1 Hjt Hje Hju Hj1].
  assert (forall b, self ∉ wq_threads b g) as Hself.
  { intros b Hin. by destruct (Hwe b self Hin). }
  split.
  - exact Hwf.
  - intros t [=].
  - intros t [=].
  - intros t [=].
  - intros t Ht. apply Hlive. by apply Hrt.
  - intros t Ht. rewrite Hbq; [by apply Hru |]. intros ->. by eapply Hcq.
  - intros b t Ht. apply Hlive. apply Hwq in Ht as [Ht | [-> ->]]; [by eapply Hwt | by apply Hct].
  - intros b t Ht. split; [done |].
    apply Hwq in Ht as [Ht | [-> ->]]; [by eapply Hwe | by apply Hcq].
  - intros b. change (wq_threads b g2) with (wq_threads b g1). subst g1.
    rewrite wq_threads_set_wq. case_decide; [| apply Hwn].
    apply NoDup_app. split; [apply Hwn |]. split; [| apply NoDup_singleton].
    intros x Hx Hx'. apply list_elem_of_singleton in Hx' as ->. by eapply Hself.
  - intros b1 b2 t H1 H2. apply Hwq in H1, H2.
    destruct H1 as [H1 | [E1 E1']], H2 as [H2 | [E2 E2']]; subst;
      [by eapply Hw1 | exfalso; by eapply Hself | exfalso; by eapply Hself | done].
  - intros t [T Ht]. apply Hlive. apply Hjt. exists T. by apply Hj.
  - intros t [T Ht]. apply Hj in Ht.
    destruct (Hje t) as (H1 & H2 & H3); [by exists T |].
    split; [done |]. split; [done |]. intros [b Hb].
    apply Hwq in Hb as [Hb | [-> ->]]; [apply H3; by exists b | done].
  - intros t [T Ht]. apply Hj in Ht. assert (joining g t) as Hjg by (by exists T).
    rewrite Hbq; [by apply Hju |]. intros ->. by destruct (Hje self Hjg).
  - intros T1 T2 t H1 H2. apply Hj in H1, H2. by eapply Hj1.
Qed.

(** Threads leaving wait queues, links being cleared: the invariant
    survives when nothing else changes. *)
Lemma places_ok_shrink (X : option nat) (g g' : scheduler_state Q) :
  runq g' = runq g ->
  (forall a t, t ∈ wq_threads a g' -> t ∈ wq_threads a g) ->
  (forall a, NoDup (wq_threads a g')) ->
  (forall t, live_tcb g' t <-> live_tcb g t) ->
  (forall t, tcb_blocked_queue t g' = tcb_blocked_queue t g \/
             tcb_blocked_queue t g' = None) ->
  (forall T t, joins g' T t <-> joins g T t) ->
  places_ok X g -> places_ok X g'.
Proof.
  intros Hrq Hwq Hnd Hlive Hbq Hj
    [Hwf Hct Hcu Hcq Hrt Hru Hwt Hwe Hwn Hw1 Hjt Hje Hju Hj1].
  assert (forall t, tcb_blocked_queue t g = None -> tcb_blocked_queue t g' = None) as Hbq'.
  { intros t Ht. destruct (Hbq t) as [-> | ->]; done. }
  assert (forall t, joining g' t -> joining g t) as Hjg.
  { intros t [T Ht]. exists T. by apply Hj. }
  split; rewrite ?Hrq.
  - exact Hwf.
  - intros t Ht. apply Hlive. by apply Hct.
  - intros t Ht. apply Hbq'. by apply Hcu.
  - exact Hcq.
  - intros t Ht. apply Hlive. by apply Hrt.
  - intros t Ht. apply Hbq'. by apply Hru.
  - intros a t Ht. apply Hlive. eapply Hwt. by apply Hwq.
  - intros a t Ht. eapply Hwe. by apply Hwq.
  - exact Hnd.
  - intros a b t H1 H2. eapply Hw1; by apply Hwq.
  - intros t Ht. apply Hlive. apply Hjt. by apply Hjg.
  - intros t Ht. destruct (Hje t (Hjg t Ht)) as (H1 & H2 & H3).
    split; [done |]. split; [done |]. intros [a Ha]. apply H3. exists a. by apply Hwq.
  - intros t Ht. apply Hbq'. apply Hju. by apply Hjg.
  - intros T1 T2 t H1 H2. apply Hj in H1, H2. by eapply Hj1.
Qed.

(** Waking the first thread of a wait queue. *)
Lemma places_ok_wake_one (X : option nat) (wq : option nat) (g : scheduler_state Q) :
  places_ok X g -> places_ok X (wait_queue_wake_one wq g).
Proof.
  intros Hinv. destruct wq as [a |]; [| done].
  destruct (wq_threads a g) as [| t rest] eqn:Hq.
  { unfold wait_queue_wake_one, wait_queue_remove. by rewrite Hq. }
  destruct (wake_step a t rest g Hq) as (g2 & _ & -> & Hq2 & Hother & Hrq & _ & Htcbs).
  destruct Hinv as [Hwf Hct Hcu Hcq Hrt Hru Hwt Hwe Hwn Hw1 Hjt Hje Hju Hj1].
  assert (t ∈ wq_threads a g) as Hta by (rewrite Hq; left).
  pose proof (Hwn a) as Hnd. rewrite Hq in Hnd. apply NoDup_cons in Hnd as [Htr Hndr].
  assert (forall b u, u ∈ wq_threads b g2 -> u ∈ wq_threads b g /\ u <> t) as Hsub.
  { intros b u Hu. destruct (decide (b = a)) as [-> | Hne].
    - rewrite Hq2 in Hu. split; [rewrite Hq; by right | by intros ->].
    - rewrite Hother in Hu by done. split; [done |]. intros ->. by apply Hne, (Hw1 b a t). }
  destruct (tcb_views_same (update_tcb t (set_blocked_queue None) g) g2)
    as (Hl1 & Hb1 & Hj1').
  { intros u. rewrite Htcbs. destruct (decide (t = u)) as [-> | Hne].
    - right. exists UTHREAD_STATE_READY. by rewrite lookup_alter_eq.
    - left. by rewrite lookup_alter_ne. }
  assert (forall u, live_tcb g2 u <-> live_tcb g u) as Hlive.
  { intros u. rewrite Hl1. apply live_tcb_update. by intros []. }
  assert (forall T u, joins g2 T u <-> joins g T u) as Hj.
  { intros T u. rewrite Hj1'. apply joins_update. by intros []. }
  assert (tcb_blocked_queue t g2 = None) as Hbt.
  { rewrite Hb1. apply tcb_blocked_queue_unlink. }
  assert (forall u, u <> t -> tcb_blocked_queue u g2 = tcb_blocked_queue u g) as Hbq.
  { intros u Hu. rewrite Hb1. by apply tcb_blocked_queue_update_other. }
  assert (forall u, tcb_blocked_queue u g = None -> tcb_blocked_queue u g2 = None) as Hbq'.
  { intros u Hu. destruct (decide (u = t)) as [-> |]; [done | by rewrite Hbq]. }
  assert (~ joining g t) as Hnj.
  { intros Hjt'. destruct (Hje t Hjt') as (_ & _ & H3). apply H3. by exists a. }
  assert (forall u, joining g2 u -> joining g u) as Hjg.
  { intros u [T Hu]. exists T. by apply Hj. }
  split; rewrite ?Hrq.
  - apply rq_enqueue_wf; [done |]. by eapply Hwe.
  - intros u Hu. apply Hlive. by apply Hct.
  - intros u Hu. apply Hbq'. by apply Hcu.
  - intros u Hu Hin. apply rq_enqueue_in in Hin as [-> | Hin]; [| by eapply Hcq].
    by destruct (Hwe a t Hta).
  - intros u Hin. apply Hlive. apply rq_enqueue_in in Hin as [-> | Hin];
      [by eapply Hwt | by apply Hrt].
  - intros u Hin. apply rq_enqueue_in in Hin as [-> | Hin]; [done |]. apply Hbq'. by apply Hru.
  - intros b u Hu. apply Hlive. eapply Hwt. by apply Hsub.
  - intros b u Hu. destruct (Hsub b u Hu) as [Hu' Hne].
    destruct (Hwe b u Hu') as [H1 H2]. split; [done |].
    intros Hin. apply rq_enqueue_in in Hin as [-> | Hin]; done.
  - intros b. destruct (decide (b = a)) as [-> | Hne]; [by rewrite Hq2 |].
    rewrite Hother by done. apply Hwn.
  - intros b1 b2 u H1 H2. eapply Hw1; by apply Hsub.
  - intros u Hu. apply Hlive. apply Hjt. by apply Hjg.
  - intros u Hu. pose proof (Hjg u Hu) as Hu'. destruct (Hje u Hu') as (H1 & H2 & H3).
    split; [done |]. split.
    + intros Hin. apply rq_enqueue_in in Hin as [-> | Hin]; done.
    + intros [b Hb]. apply H3. exists b. by apply Hsub.
  - intros u Hu. apply Hbq'. apply Hju. by apply Hjg.
  - intros T1 T2 u H1 H2. apply Hj in H1, H2. by eapply Hj1.
Qed.

Lemma places_ok_wake_all_loop (X : option nat) (a : nat) (n : nat)
    (g : scheduler_state Q) :
  length (wq_threads a g) = n -> places_ok X g ->
  places_ok X (wake_all_loop n (Some a) g).
Proof.
  revert g. induction n as [| n IH]; intros g Hlen Hinv; [done |].
  destruct (wq_threads a g) as [| t rest] eqn:Hq; [done |].
  destruct (wake_step a t rest g Hq) as (g2 & Hloop & Hone & Hq2 & _).
  rewrite Hloop. apply IH.
  - rewrite Hq2. simpl in Hlen. lia.
  - rewrite <- Hone. by apply places_ok_wake_one.
Qed.

Lemma places_ok_wake_all (X : option nat) (wq : option nat) (g : scheduler_state Q) :
  places_ok X g -> places_ok X (wait_queue_wake_all wq g).
Proof.
  intros Hinv. destruct wq as [a |]; [| done].
  by apply places_ok_wake_all_loop.
Qed.

(** Unlinking a thread from a wait queue. *)
Lemma places_ok_remove_specific (X : option nat) (wq thread : option nat)
    (g : scheduler_state Q) :
  places_ok X g -> places_ok X (snd (wait_queue_remove_specific wq thread g)).
Proof.
  intros Hinv. unfold wait_queue_remove_specific.
  destruct wq as [a |], thread as [t |]; try done. case_decide; [| done].
  cbn [snd]. eapply places_ok_shrink; [| | | | | | exact Hinv].
  - done.
  - intros b u. change (wq_threads b (update_tcb ?t ?f ?g')) with (wq_threads b g').
    rewrite wq_threads_set_wq. case_decide; [| done]. subst. apply unlink_subset.
  - intros b. change (wq_threads b (update_tcb ?t ?f ?g')) with (wq_threads b g').
    rewrite wq_threads_set_wq. case_decide; [| by apply Hinv].
    apply unlink_NoDup. by apply Hinv.
  - intros u. rewrite live_tcb_update by (by intros []). done.
  - intros u. destruct (decide (u = t)) as [-> | Hne].
    + right. apply tcb_blocked_queue_unlink.
    + left. by rewrite tcb_blocked_queue_update_other.
  - intros T u. rewrite joins_update by (by intros []). done.
Qed.

(** Allocating and freeing a wait queue. *)
Lemma places_ok_malloc (X : option nat) (ok : bool) (g : scheduler_state Q) :
  places_ok X g -> places_ok X (snd (malloc_wait_queue ok g)).
Proof.
  intros Hinv. unfold malloc_wait_queue. destruct ok; [| done]. cbn [snd].
  eapply places_ok_frame; [| | | | | exact Hinv]; try done.
  intros b. rewrite wq_threads_set_wq. case_decide; [| done]. subst b.
  unfold wq_threads. by rewrite (not_elem_of_dom_1 _ _ (is_fresh (dom (wqs g)))).
Qed.

Lemma places_ok_free_wait_queue (X : option nat) (wq : option nat)
    (g : scheduler_state Q) :
  places_ok X g -> places_ok X (free_wait_queue wq g).
Proof.
  intros Hinv. destruct wq as [a |]; [| done].
  assert (forall b, wq_threads b (free_wait_queue (Some a) g) =
                    if decide (a = b) then [] else wq_threads b g) as Hwq.
  { intros b. unfold wq_threads, free_wait_queue. simpl. case_decide.
    - subst. by rewrite lookup_delete_eq.
    - by rewrite lookup_delete_ne. }
  eapply places_ok_shrink; [| | | | | | exact Hinv]; try done.
  - intros b t. rewrite Hwq. case_decide; [by intros ?%elem_of_nil | done].
  - intros b. rewrite Hwq. case_decide; [constructor | by apply Hinv].
  - intros t. by left.
Qed.

(** *** The run queue *)

(** The running thread goes to the run queue. *)
Lemma places_ok_enqueue_self (self : nat) (g : scheduler_state Q) :
  places_ok (Some self) g ->
  places_ok None (set_runq (rq_enqueue self (runq g)) g).
Proof.
  intros [Hwf Hct Hcu Hcq Hrt Hru Hwt Hwe Hwn Hw1 Hjt Hje Hju Hj1].
  split; cbn [runq set_runq]; try done.
  - apply rq_enqueue_wf; [done | by apply Hcq].
  - intros u Hin. apply rq_enqueue_in in Hin as [-> | Hin]; [by apply Hct | by apply Hrt].
  - intros u Hin. apply rq_enqueue_in in Hin as [-> | Hin]; [by apply Hcu | by apply Hru].
  - intros b u Hu. destruct (Hwe b u Hu) as [H1 H2]. split; [done |].
    intros Hin. apply rq_enqueue_in in Hin as [-> | Hin]; done.
  - intros u Hu. destruct (Hje u Hu) as (H1 & H2 & H3). split; [done |]. split; [| done].
    intros Hin. apply rq_enqueue_in in Hin as [-> | Hin]; done.
Qed.

(** [scheduler_schedule] once the caller is accounted for elsewhere (in a
    queue, as a joiner, or nowhere): if the process survives the switch,
    the thread that runs next is counted as on the CPU. *)
Lemma places_ok_schedule (g : scheduler_state Q) :
  places_ok None g -> alive (scheduler_schedule g) = true ->
  places_ok (current (scheduler_schedule g)) (scheduler_schedule g).
Proof.
  intros Hinv Halive.
  destruct (scheduler_schedule_lookup g) as (Hrq & Hwq & Hcu' & Hlk).
  cbn zeta in *. destruct (rq_dequeue (runq g)) as [r q'] eqn:Hdq. cbn [fst snd] in *.
  unfold alive in Halive. apply bool_decide_eq_true in Halive. rewrite Hcu' in Halive.
  destruct r as [t |]; [| done]. cbn [default] in *. unfold id in *.
  destruct (tcb_views_same g (scheduler_schedule g)) as (Hlive & Hbq & Hj).
  { intros u. rewrite Hlk. repeat case_decide; eauto. }
  destruct Hinv as [Hwf Hct Hcu Hcq Hrt Hru Hwt Hwe Hwn Hw1 Hjt Hje Hju Hj1].
  destruct (rq_dequeue_head _ _ _ Hwf Hdq) as [Hin Hout].
  assert (forall u, rq_queued q' u -> rq_queued (runq g) u) as Hsub
    by (intros u; by eapply rq_dequeue_in).
  assert (forall a, wq_threads a (scheduler_schedule g) = wq_threads a g) as Hwq'
    by (intros a; unfold wq_threads; by rewrite Hwq).
  assert (forall u, joining (scheduler_schedule g) u -> joining g u) as Hjg.
  { intros u [T Hu]. exists T. by apply Hj. }
  rewrite Hcu'. split; rewrite ?Hrq.
  - by eapply rq_dequeue_wf.
  - intros u [= <-]. apply Hlive. by apply Hrt.
  - intros u [= <-]. rewrite Hbq. by apply Hru.
  - intros u [= <-]. done.
  - intros u Hu. apply Hlive. by apply Hrt, Hsub.
  - intros u Hu. rewrite Hbq. by apply Hru, Hsub.
  - intros a u Hu. rewrite Hwq' in Hu. apply Hlive. by eapply Hwt.
  - intros a u Hu. rewrite Hwq' in Hu. destruct (Hwe a u Hu) as [_ H2].
    split; [intros [= ->]; done | intros Hq; by apply H2, Hsub].
  - intros a. rewrite Hwq'. apply Hwn.
  - intros a b u H1 H2. rewrite Hwq' in H1, H2. by eapply Hw1.
  - intros u Hu. apply Hlive. by apply Hjt, Hjg.
  - intros u Hu. destruct (Hje u (Hjg u Hu)) as (_ & H2 & H3).
    split; [intros [= ->]; done |]. split; [intros Hq; by apply H2, Hsub |].
    intros [a Ha]. rewrite Hwq' in Ha. apply H3. by exists a.
  - intros u Hu. rewrite Hbq. by apply Hju, Hjg.
  - intros T1 T2 u H1 H2. apply Hj in H1, H2. by eapply Hj1.
Qed.

(** *** Threads that come and go *)

(** A thread that is in no place is put on the CPU. *)
Lemma places_ok_promote (self : nat) (g : scheduler_state Q) :
  places_ok None g -> nowhere g self -> places_ok (Some self) g.
Proof.
  intros [Hwf Hct Hcu Hcq Hrt Hru Hwt Hwe Hwn Hw1 Hjt Hje Hju Hj1] (Hl & Hb & Hq & Hw & Hj).
  split; try done.
  - by intros t [= <-].
  - by intros t [= <-].
  - by intros t [= <-].
  - intros a t Ht. split; [| by eapply Hwe]. intros [= ->]. apply Hw. by exists a.
  - intros t Ht. destruct (Hje t Ht) as (_ & H2 & H3). split; [| done]. by intros [= ->].
Qed.

(** A thread without a live control block is in no place. *)
Lemma dead_nowhere (X : option nat) (t : nat) (g : scheduler_state Q) :
  places_ok X g -> ~ live_tcb g t ->
  X <> Some t /\ ~ rq_queued (runq g) t /\ ~ waiting g t /\ ~ joining g t.
Proof.
  intros [Hwf Hct Hcu Hcq Hrt Hru Hwt Hwe Hwn Hw1 Hjt Hje Hju Hj1] Hd.
  split; [| split; [| split]].
  - intros HX. by apply Hd, Hct.
  - intros Hq. by apply Hd, Hrt.
  - intros [a Ha]. by eapply Hd, Hwt.
  - intros Hj. by apply Hd, Hjt.
Qed.

(** A thread that is in no place goes to the run queue. *)
Lemma places_ok_enqueue_free (X : option nat) (t : nat) (g : scheduler_state Q) :
  places_ok X g -> X <> Some t -> nowhere g t ->
  places_ok X (set_runq (rq_enqueue t (runq g)) g).
Proof.
  intros [Hwf Hct Hcu Hcq Hrt Hru Hwt Hwe Hwn Hw1 Hjt Hje Hju Hj1] HX
    (Hl & Hb & Hq & Hw & Hj).
  split; cbn [runq set_runq]; try done.
  - by apply rq_enqueue_wf.
  - intros u Hu Hin. apply rq_enqueue_in in Hin as [-> | Hin]; [done | by eapply Hcq].
  - intros u Hin. apply rq_enqueue_in in Hin as [-> | Hin]; [done | by apply Hrt].
  - intros u Hin. apply rq_enqueue_in in Hin as [-> | Hin]; [done | by apply Hru].
  - intros b u Hu. destruct (Hwe b u Hu) as [H1 H2]. split; [done |].
    intros Hin. apply rq_enqueue_in in Hin as [-> | Hin]; [| done]. apply Hw. by exists b.
  - intros u Hu. destruct (Hje u Hu) as (H1 & H2 & H3). split; [done |]. split; [| done].
    intros Hin. apply rq_enqueue_in in Hin as [-> | Hin]; done.
Qed.

(** [ops->remove] takes a thread out of the run queue. *)
Lemma places_ok_rq_remove (X : option nat) (t : nat) (g : scheduler_state Q) :
  places_ok X g -> places_ok X (set_runq (rq_remove t (runq g)) g).
Proof.
  intros [Hwf Hct Hcu Hcq Hrt Hru Hwt Hwe Hwn Hw1 Hjt Hje Hju Hj1].
  assert (forall u, rq_queued (rq_remove t (runq g)) u -> rq_queued (runq g) u) as Hsub
    by (intros u; apply rq_remove_in).
  split; cbn [runq set_runq]; try done.
  - by apply rq_remove_wf.
  - intros u Hu Hin. by eapply Hcq, Hsub.
  - intros u Hin. by apply Hrt, Hsub.
  - intros u Hin. by apply Hru, Hsub.
  - intros b u Hu. destruct (Hwe b u Hu) as [H1 H2]. split; [done |]. intros Hin. by apply H2, Hsub.
  - intros u Hu. destruct (Hje u Hu) as (H1 & H2 & H3). split; [done |]. split; [| done].
    intros Hin. by apply H2, Hsub.
Qed.

Lemma live_tcb_update_ne (t u : nat) (f : uthread_internal -> uthread_internal)
    (g : scheduler_state Q) :
  u <> t -> live_tcb (update_tcb t f g) u <-> live_tcb g u.
Proof. intros Hne. unfold live_tcb, update_tcb. simpl. by rewrite lookup_alter_ne. Qed.

Lemma joins_update_ne (t T u : nat) (f : uthread_internal -> uthread_internal)
    (g : scheduler_state Q) :
  T <> t -> joins (update_tcb t f g) T u <-> joins g T u.
Proof. intros Hne. unfold joins, update_tcb. simpl. by rewrite lookup_alter_ne. Qed.

Lemma nowhere_update (t u : nat) (f : uthread_internal -> uthread_internal)
    (g : scheduler_state Q) :
  keeps_places f -> nowhere g u -> nowhere (update_tcb t f g) u.
Proof.
  intros Hf (Hl & Hb & Hq & Hw & Hj). split; [| split; [| split; [| split]]].
  - apply live_tcb_update; [intros c; apply Hf | done].
  - rewrite blocked_queue_update; [done | intros c; apply Hf].
  - done.
  - done.
  - intros [T HT]. apply Hj. exists T. eapply joins_update; [| exact HT].
    intros c. destruct (Hf c) as (? & ? & ?). done.
Qed.

(** The thread on the CPU marks itself as exited: it is in no place any
    more, and neither is the thread that was parked as its joiner. *)
Lemma places_ok_mark_exited (self : nat) (g : scheduler_state Q) :
  places_ok (Some self) g ->
  places_ok None (update_tcb self (set_exited true) g) /\
  forall j, joins g self j -> nowhere (update_tcb self (set_exited true) g) j.
Proof.
  intros [Hwf Hct Hcu Hcq Hrt Hru Hwt Hwe Hwn Hw1 Hjt Hje Hju Hj1].
  set (g' := update_tcb self (set_exited true) g).
  assert (forall u, live_tcb g' u <-> live_tcb g u /\ u <> self) as Hlive.
  { intros u. destruct (decide (u = self)) as [-> | Hne].
    - unfold live_tcb, g', update_tcb. simpl. rewrite lookup_alter_eq.
      destruct (tcbs g !! self) as [c |]; simpl; [| naive_solver].
      split; [intros (c' & [= <-] & He); by destruct c | naive_solver].
    - subst g'. rewrite live_tcb_update_ne by done. naive_solver. }
  assert (forall u, tcb_blocked_queue u g' = tcb_blocked_queue u g) as Hbq.
  { intros u. apply blocked_queue_update. by intros []. }
  assert (forall T u, joins g' T u <-> joins g T u /\ T <> self) as Hj.
  { intros T u. destruct (decide (T = self)) as [-> | Hne].
    - unfold joins, g', update_tcb. simpl. rewrite lookup_alter_eq.
      destruct (tcbs g !! self) as [c |]; simpl; [| naive_solver].
      split; [intros (c' & [= <-] & He & _); by destruct c | naive_solver].
    - subst g'. rewrite joins_update_ne by done. naive_solver. }
  assert (forall u, joining g' u -> joining g u) as Hjg.
  { intros u [T Hu]. exists T. by apply Hj. }
  assert (forall u, joining g u -> u <> self) as Hjs.
  { intros u Hu ->. by destruct (Hje self Hu). }
  split.
  - split; try done.
    + intros u Hu. apply Hlive. split; [by apply Hrt |]. intros ->. by eapply Hcq.
    + intros u Hu. rewrite Hbq. by apply Hru.
    + intros a u Hu. apply Hlive. split; [by eapply Hwt |]. intros ->.
      by destruct (Hwe a self Hu).
    + intros a u Hu. split; [done |]. by eapply Hwe.
    + intros u Hu. apply Hlive. split; [by apply Hjt, Hjg | by apply Hjs, Hjg].
    + intros u Hu. destruct (Hje u (Hjg u Hu)) as (_ & H2 & H3). done.
    + intros u Hu. rewrite Hbq. by apply Hju, Hjg.
    + intros T1 T2 u H1 H2. apply Hj in H1 as [H1 _], H2 as [H2 _]. by eapply Hj1.
  - intros j Hjn. assert (joining g j) as Hjj by (by exists self).
    destruct (Hje j Hjj) as (_ & H2 & H3).
    split; [| split; [| split; [| split]]].
    + apply Hlive. split; [by apply Hjt | by apply Hjs].
    + rewrite Hbq. by apply Hju.
    + done.
    + done.
    + intros [T HT]. apply Hj in HT as [HT Hne]. apply Hne. by eapply Hj1.
Qed.

(** The thread on the CPU registers as the joiner of [t]. *)
Lemma places_ok_set_joiner (self t : nat) (g : scheduler_state Q) :
  places_ok (Some self) g -> live_tcb g t ->
  places_ok None (update_tcb t (set_joiner (Some self)) g).
Proof.
  intros [Hwf Hct Hcu Hcq Hrt Hru Hwt Hwe Hwn Hw1 Hjt Hje Hju Hj1] (c & Hc & Hex).
  set (g' := update_tcb t (set_joiner (Some self)) g).
  assert (forall u, live_tcb g' u <-> live_tcb g u) as Hlive.
  { intros u. apply live_tcb_update. by intros []. }
  assert (forall u, tcb_blocked_queue u g' = tcb_blocked_queue u g) as Hbq.
  { intros u. apply blocked_queue_update. by intros []. }
  assert (forall T u, joins g' T u -> (T <> t /\ joins g T u) \/ (T = t /\ u = self)) as Hj.
  { intros T u HT. destruct (decide (T = t)) as [-> | Hne].
    - right. split; [done |]. destruct HT as (c' & Hc' & _ & Hjc').
      unfold g', update_tcb in Hc'. simpl in Hc'. rewrite lookup_alter_eq, Hc in Hc'.
      simpl in Hc'. injection Hc' as <-. simpl in Hjc'. congruence.
    - left. split; [done |]. subst g'. by rewrite joins_update_ne in HT. }
  assert (~ joining g self) as Hns.
  { intros Hs. by destruct (Hje self Hs). }
  assert (forall u, joining g' u -> joining g u \/ u = self) as Hjg.
  { intros u [T Hu]. apply Hj in Hu as [[_ Hu] | [_ ->]]; [left; by exists T | by right]. }
  assert (live_tcb g self) as Hls by (by apply Hct).
  split; try done.
  - intros u Hu. apply Hlive. by apply Hrt.
  - intros u Hu. rewrite Hbq. by apply Hru.
  - intros a u Hu. apply Hlive. by eapply Hwt.
  - intros a u Hu. split; [done |]. by eapply Hwe.
  - intros u Hu. apply Hlive. destruct (Hjg u Hu) as [Hu' | ->]; [by apply Hjt | done].
  - intros u Hu. split; [done |]. destruct (Hjg u Hu) as [Hu' | ->].
    + destruct (Hje u Hu') as (_ & H2 & H3). done.
    + split; [by apply Hcq |]. intros [a Ha]. by destruct (Hwe a self Ha).
  - intros u Hu. rewrite Hbq. destruct (Hjg u Hu) as [Hu' | ->]; [by apply Hju | by apply Hcu].
  - intros T1 T2 u H1 H2. apply Hj in H1, H2.
    destruct H1 as [[Hn1 H1] | [-> ->]], H2 as [[Hn2 H2] | [E2 E2']]; subst.
    + by eapply Hj1.
    + exfalso. apply Hns. by exists T1.
    + exfalso. apply Hns. by exists T2.
    + done.
Qed.

(** Changes of the registry, of the thread counters and of nothing else. *)
Lemma places_ok_same (X : option nat) (g g' : scheduler_state Q) :
  runq g' = runq g -> wqs g' = wqs g -> tcbs g' = tcbs g ->
  places_ok X g -> places_ok X g'.
Proof.
  intros Hrq Hwq Htc. apply places_ok_frame; [done | | | |].
  - intros a. unfold wq_threads. by rewrite Hwq.
  - intros t. unfold live_tcb. by rewrite Htc.
  - intros t. unfold tcb_blocked_queue. by rewrite Htc.
  - intros T t. unfold joins. by rewrite Htc.
Qed.

Lemma places_ok_remove_thread (X : option nat) (p : option nat) (g : scheduler_state Q) :
  places_ok X g -> places_ok X (scheduler_remove_thread p g).
Proof.
  apply places_ok_same; unfold scheduler_remove_thread;
    destruct p; try done; by destruct (find_slot _ _).
Qed.

(** The control block of a thread that is in no place is freed. *)
Lemma places_ok_delete (X : option nat) (t : nat) (g : scheduler_state Q) :
  places_ok X g ->
  X <> Some t -> ~ rq_queued (runq g) t -> ~ waiting g t -> ~ joining g t ->
  places_ok X (thread_free (Some t) g).
Proof.
  intros [Hwf Hct Hcu Hcq Hrt Hru Hwt Hwe Hwn Hw1 Hjt Hje Hju Hj1] HX Hq Hw Hjn.
  set (g' := thread_free (Some t) g).
  assert (forall u, u <> t -> live_tcb g u -> live_tcb g' u) as Hlive.
  { intros u Hne. unfold live_tcb, g', thread_free. simpl. by rewrite lookup_delete_ne. }
  assert (forall u, tcb_blocked_queue u g = None -> tcb_blocked_queue u g' = None) as Hbq.
  { intros u. unfold tcb_blocked_queue, g', thread_free. simpl.
    destruct (decide (t = u)) as [-> | Hne];
      [by rewrite lookup_delete_eq | by rewrite lookup_delete_ne]. }
  assert (forall T u, joins g' T u -> joins g T u) as Hj.
  { intros T u. unfold joins, g', thread_free. simpl.
    destruct (decide (t = T)) as [-> | Hne];
      [rewrite lookup_delete_eq; naive_solver | by rewrite lookup_delete_ne]. }
  assert (forall u, joining g' u -> joining g u) as Hjg.
  { intros u [T Hu]. exists T. by apply Hj. }
  split; try done.
  - intros u Hu. apply Hlive; [congruence | by apply Hct].
  - intros u Hu. apply Hbq. by apply Hcu.
  - intros u Hu. apply Hlive; [by intros -> | by apply Hrt].
  - intros u Hu. apply Hbq. by apply Hru.
  - intros a u Hu. apply Hlive; [| by eapply Hwt]. intros ->. apply Hw. by exists a.
  - intros u Hu. apply Hlive; [| by apply Hjt, Hjg]. intros ->. by apply Hjn, Hjg.
  - intros u Hu. by apply Hje, Hjg.
  - intros u Hu. apply Hbq. by apply Hju, Hjg.
  - intros T1 T2 u H1 H2. apply Hj in H1, H2. by eapply Hj1.
Qed.

Lemma places_ok_free_dead (X : option nat) (t : nat) (g : scheduler_state Q) :
  places_ok X g -> ~ live_tcb g t -> places_ok X (thread_free (Some t) g).
Proof.
  intros Hinv Hd. destruct (dead_nowhere X t g Hinv Hd) as (H1 & H2 & H3 & H4).
  by apply places_ok_delete.
Qed.

(** A new thread: a control block that was not there, for a thread that
    has not exited, has no joiner and is not linked, and the thread in the
    run queue. *)
Lemma places_ok_spawn (X : option nat) (t : nat) (c : uthread_internal)
    (g g' : scheduler_state Q) :
  places_ok X g -> tcbs g !! t = None ->
  runq g' = rq_enqueue t (runq g) -> wqs g' = wqs g ->
  tcbs g' !! t = Some c -> exited c = false -> joiner c = None -> blocked_queue c = None ->
  (forall u, u <> t -> tcbs g' !! u = tcbs g !! u) ->
  places_ok X g'.
Proof.
  intros Hinv Hnone Hrq Hwq Hc Hex Hjc Hbc Hother.
  assert (~ live_tcb g t) as Hd by (intros (c' & Hc' & _); congruence).
  destruct (dead_nowhere X t g Hinv Hd) as (HX & Hq & Hw & Hjn).
  destruct Hinv as [Hwf Hct Hcu Hcq Hrt Hru Hwt Hwe Hwn Hw1 Hjt Hje Hju Hj1].
  assert (forall a, wq_threads a g' = wq_threads a g) as Hwq'
    by (intros a; unfold wq_threads; by rewrite Hwq).
  assert (forall u, live_tcb g u -> live_tcb g' u) as Hlive.
  { intros u Hu. assert (u <> t) as Hne by (by intros ->).
    unfold live_tcb. by rewrite Hother. }
  assert (live_tcb g' t) as Hlt by (by exists c).
  assert (forall u, tcb_blocked_queue u g' = tcb_blocked_queue u g) as Hbq.
  { intros u. unfold tcb_blocked_queue. destruct (decide (u = t)) as [-> | Hne].
    - by rewrite Hc, Hnone.
    - by rewrite Hother. }
  assert (forall T u, joins g' T u -> joins g T u) as Hj.
  { intros T u. unfold joins. destruct (decide (T = t)) as [-> | Hne].
    - rewrite Hc. intros (c' & [= <-] & _ & Hjc'). congruence.
    - by rewrite Hother. }
  assert (forall u, joining g' u -> joining g u) as Hjg.
  { intros u [T Hu]. exists T. by apply Hj. }
  assert (forall u, waiting g' u -> waiting g u) as Hwg.
  { intros u [a Hu]. exists a. by rewrite <- Hwq'. }
  split; rewrite ?Hrq.
  - by apply rq_enqueue_wf.
  - intros u Hu. by apply Hlive, Hct.
  - intros u Hu. rewrite Hbq. by apply Hcu.
  - intros u Hu Hin. apply rq_enqueue_in in Hin as [-> | Hin]; [done | by eapply Hcq].
  - intros u Hin. apply rq_enqueue_in in Hin as [-> | Hin]; [done | by apply Hlive, Hrt].
  - intros u Hin. rewrite Hbq. apply rq_enqueue_in in Hin as [-> | Hin]; [| by apply Hru].
    unfold tcb_blocked_queue. by rewrite Hnone.
  - intros a u Hu. rewrite Hwq' in Hu. by eapply Hlive, Hwt.
  - intros a u Hu. rewrite Hwq' in Hu. destruct (Hwe a u Hu) as [H1 H2]. split; [done |].
    intros Hin. apply rq_enqueue_in in Hin as [-> | Hin]; [| done]. apply Hw. by exists a.
  - intros a. rewrite Hwq'. apply Hwn.
  - intros a b u H1 H2. rewrite Hwq' in H1, H2. by eapply Hw1.
  - intros u Hu. by apply Hlive, Hjt, Hjg.
  - intros u Hu. destruct (Hje u (Hjg u Hu)) as (H1 & H2 & H3).
    split; [done |]. split; [| by intros ?%Hwg].
    intros Hin. apply rq_enqueue_in in Hin as [-> | Hin]; [by apply Hjn, Hjg | done].
  - intros u Hu. rewrite Hbq. by apply Hju, Hjg.
  - intros T1 T2 u H1 H2. apply Hj in H1, H2. by eapply Hj1.
Qed.

(** *** The segments keep the invariant *)

Lemma current_wake_one (wq : option nat) (g : scheduler_state Q) :
  current (wait_queue_wake_one wq g) = current g.
Proof.
  destruct wq as [a |]; [| done]. unfold wait_queue_wake_one, wait_queue_remove.
  by destruct (wq_threads a g).
Qed.

Lemma current_wake_all (wq : option nat) (g : scheduler_state Q) :
  current (wait_queue_wake_all wq g) = current g.
Proof.
  destruct wq as [a |]; [| done]. unfold wait_queue_wake_all.
  generalize (length (wq_threads a g)). intros n. revert g.
  induction n as [| n IH]; intros g; [done |].
  cbn [wake_all_loop]. unfold wait_queue_remove.
  destruct (wq_threads a g); [done |]. by rewrite IH.
Qed.

Lemma current_remove_specific (wq thread : option nat) (g : scheduler_state Q) :
  current (snd (wait_queue_remove_specific wq thread g)) = current g.
Proof.
  unfold wait_queue_remove_specific. destruct wq, thread; try done. by case_decide.
Qed.

Lemma current_free_wait_queue (wq : option nat) (g : scheduler_state Q) :
  current (free_wait_queue wq g) = current g.
Proof. by destruct wq. Qed.

Lemma current_remove_thread (p : option nat) (g : scheduler_state Q) :
  current (scheduler_remove_thread p g) = current g.
Proof. unfold scheduler_remove_thread. destruct p; [| done]. by destruct (find_slot _ _). Qed.

Lemma current_thread_free (p : option nat) (g : scheduler_state Q) :
  current (thread_free p g) = current g.
Proof. by destruct p. Qed.

Lemma places_ok_fresh_wq (X : option nat) (g : scheduler_state Q) :
  places_ok X g -> places_ok X (set_wq (fresh (dom (wqs g))) [] g).
Proof. intros Hinv. by apply (places_ok_malloc X true g). Qed.

(** A segment that leaves the same thread on the CPU. *)
Lemma sched_inv_keep (g g' : scheduler_state Q) :
  current g' = current g -> places_ok (current g) g' -> sched_inv g'.
Proof. unfold sched_inv. by intros ->. Qed.

Ltac cur :=
  rewrite ?current_wake_one, ?current_wake_all, ?current_remove_specific,
    ?current_free_wait_queue, ?current_thread_free, ?current_remove_thread;
  reflexivity.

Ltac places_step :=
  lazymatch goal with
  | |- places_ok _ (scheduler_schedule _) => apply places_ok_schedule; [| assumption]
  | |- places_ok None (wait_queue_add _ (Some _) _) => apply places_ok_link
  | |- places_ok _ (update_tcb _ (set_state _) _) =>
      apply places_ok_update; [apply keeps_places_set_state |]
  | |- places_ok _ (update_tcb _ (set_waiting_on _) _) =>
      apply places_ok_update; [apply keeps_places_set_waiting_on |]
  | |- places_ok _ (update_tcb _ (set_detached _) _) =>
      apply places_ok_update; [apply keeps_places_set_detached |]
  | |- places_ok _ (update_tcb _ (set_retval _) _) =>
      apply places_ok_update; [apply keeps_places_set_retval |]
  | |- places_ok _ (update_tcb _ (set_priority _) _) =>
      apply places_ok_update; [apply keeps_places_set_priority |]
  | |- places_ok _ (update_tcb _ (set_nice _) _) =>
      apply places_ok_update; [apply keeps_places_set_nice |]
  | |- places_ok _ (wait_queue_wake_one _ _) => apply places_ok_wake_one
  | |- places_ok _ (wait_queue_wake_all _ _) => apply places_ok_wake_all
  | |- places_ok _ (snd (wait_queue_remove_specific _ _ _)) =>
      apply places_ok_remove_specific
  | |- places_ok _ (free_wait_queue _ _) => apply places_ok_free_wait_queue
  | |- places_ok _ (set_wq (fresh (dom (wqs ?g))) [] ?g) => apply places_ok_fresh_wq
  | |- places_ok None (set_runq (rq_enqueue _ _) _) => apply places_ok_enqueue_self
  | |- places_ok _ (scheduler_remove_thread _ _) => apply places_ok_remove_thread
  end.

Ltac places_base :=
  lazymatch goal with
  | H : places_ok ?X ?g |- places_ok ?X ?g => exact H
  | H : places_ok (current ?g) ?g, Hc : current ?g = ?X |- places_ok ?X ?g =>
      rewrite <- Hc; exact H
  | H : places_ok _ ?g |- places_ok None ?g => exact (places_ok_weaken _ _ H)
  end.

Ltac places :=
  unfold sched_inv in *;
  first [ apply places_ok_schedule; [| assumption]
        | match goal with
          | H : places_ok (current ?g) ?g |- _ => apply (sched_inv_keep g); [cur |]
          end ];
  repeat places_step; places_base.

Lemma sched_inv_park (wq : option nat) (self : nat) (g : scheduler_state Q) :
  let g' := scheduler_schedule
              (wait_queue_add wq (Some self)
                 (update_tcb self (set_state UTHREAD_STATE_BLOCKED) g)) in
  sched_inv g -> current g = Some self -> alive g' = true -> sched_inv g'.
Proof. intros g' Hinv Hcur Halive. subst g'. places. Qed.

Lemma sched_inv_block (wq : option nat) (g : scheduler_state Q) :
  sched_inv g -> alive (scheduler_block wq g) = true -> sched_inv (scheduler_block wq g).
Proof.
  unfold scheduler_block. intros Hinv.
  destruct (current g) as [self |] eqn:Hcur; [| done]. by apply sched_inv_park.
Qed.

Lemma sched_inv_yield (g : scheduler_state Q) :
  sched_inv g -> alive (scheduler_yield g) = true -> sched_inv (scheduler_yield g).
Proof.
  unfold scheduler_yield. intros Hinv.
  destruct (current g) as [self |] eqn:Hcur; [| done].
  repeat case_decide; [done | |]; intros Halive; places.
Qed.

Lemma sched_inv_tick (p : bool) (g : scheduler_state Q) :
  sched_inv g -> alive (scheduler_tick p g) = true -> sched_inv (scheduler_tick p g).
Proof.
  unfold scheduler_tick. intros Hinv.
  destruct (current g) as [self |] eqn:Hcur; [| done].
  case_decide; [done |]. destruct p; [| done]. intros Halive. places.
Qed.

(** [uthread_exit] of a joinable thread. *)
Lemma sched_inv_exit (v : Z) (g g' : scheduler_state Q) :
  uthread_exit v g = Some g' -> sched_inv g -> alive g' = true -> sched_inv g'.
Proof.
  unfold uthread_exit. intros Hex Hinv Halive.
  destruct (negb (initialized g)); [done |].
  destruct (current g) as [self |] eqn:Hcur; [| done].
  destruct (tcbs g !! self) as [c |] eqn:Hc; [| done].
  destruct (detached c); [done |]. apply (inj Some) in Hex. subst g'.
  unfold sched_inv in Hinv. rewrite Hcur in Hinv.
  apply places_ok_schedule; [| done].
  set (g1 := update_tcb self (set_retval v) g) in *.
  assert (places_ok (Some self) g1) as H1
    by (apply places_ok_update; [apply keeps_places_set_retval | done]).
  destruct (places_ok_mark_exited self g1 H1) as [H2 Hjn].
  set (g2 := update_tcb self (set_exited true) g1) in *.
  set (g3 := update_tcb self (set_state UTHREAD_STATE_TERMINATED) g2) in *.
  assert (places_ok None (set_runq (rq_remove self (runq g3)) g3)) as H4.
  { apply places_ok_rq_remove. apply places_ok_update; [apply keeps_places_set_state | done]. }
  destruct (joiner c) as [j |] eqn:Hj; [| exact H4].
  assert (joins g1 self j) as Hjs.
  { apply (joins_update self self j (set_retval v) g); [by intros [] |].
    exists c. split; [done |]. split; [| done].
    destruct (po_cpu_tcb _ _ Hinv self eq_refl) as (c' & Hc' & He). congruence. }
  apply places_ok_enqueue_free; [| done |].
  - do 2 (apply places_ok_update;
          [first [apply keeps_places_set_state | apply keeps_places_set_waiting_on] |]).
    exact H4.
  - do 2 (apply nowhere_update;
          [first [apply keeps_places_set_state | apply keeps_places_set_waiting_on] |]).
    destruct (Hjn j Hjs) as (Hl & Hb & Hq & Hw & Hjg).
    split; [| split; [| split; [| split]]].
    + apply live_tcb_update; [by intros [] | done].
    + etrans; [| exact Hb].
      apply (blocked_queue_update self j (set_state UTHREAD_STATE_TERMINATED) g2).
      by intros [].
    + intros Hin. apply Hq. cbn [runq set_runq] in Hin. by apply rq_remove_in in Hin.
    + done.
    + intros [T HT]. apply Hjg. exists T.
      eapply (joins_update self T j (set_state UTHREAD_STATE_TERMINATED)); [by intros [] |].
      exact HT.
Qed.

Lemma sched_inv_entry_wrapper (g g' : scheduler_state Q) :
  context_entry_wrapper g = Some g' -> sched_inv g -> alive g' = true -> sched_inv g'.
Proof.
  unfold context_entry_wrapper, scheduler_current. intros Hw.
  repeat case_match; try done. intros Hinv Halive. eapply sched_inv_exit; eauto.
Qed.

Lemma sched_inv_join_loop (out : bool) (t : nat) (g g' : scheduler_state Q) :
  outcome_state (join_loop out t g) = Some g' ->
  sched_inv g -> alive g' = true -> sched_inv g'.
Proof.
  unfold join_loop. intros Hj Hinv Halive.
  destruct (tcbs g !! t) as [c |] eqn:Hc; [| done].
  destruct (exited c) eqn:Hex.
  - apply (inj Some) in Hj. subst g'. apply (sched_inv_keep g); [cur |].
    apply places_ok_free_dead; [by apply places_ok_remove_thread |].
    intros (c' & Hc' & He). rewrite scheduler_remove_thread_tcbs in Hc'. congruence.
  - destruct (current g) as [self |] eqn:Hcur; [| done].
    destruct (tcbs g !! self) as [cs |] eqn:Hcs; [| done].
    apply (inj Some) in Hj. subst g'. unfold sched_inv in Hinv. rewrite Hcur in Hinv.
    apply places_ok_schedule; [| done]. repeat places_step.
    apply places_ok_set_joiner; [done |]. by exists c.
Qed.

Lemma sched_inv_join (thread : option nat) (out : bool) (g g' : scheduler_state Q) :
  outcome_state (uthread_join thread out g) = Some g' ->
  sched_inv g -> alive g' = true -> sched_inv g'.
Proof.
  unfold uthread_join. intros Hj.
  repeat (case_match; try done); simplify_eq; try done;
    try (cbn [outcome_state] in Hj; by simplify_eq).
  all: by eapply sched_inv_join_loop.
Qed.

Lemma sched_inv_detach (thread : option nat) (r : Z) (g g' : scheduler_state Q) :
  uthread_detach thread g = Some (r, g') -> sched_inv g -> sched_inv g'.
Proof.
  unfold uthread_detach. intros Hd Hinv.
  destruct thread as [t |]; [| by simplify_eq].
  destruct (negb (initialized g)); [by simplify_eq |].
  destruct (tcbs g !! t) as [c |] eqn:Hc; [| done].
  destruct (detached c); [by simplify_eq |].
  case_decide; [by simplify_eq |].
  destruct (exited c) eqn:Hex; simplify_eq.
  - apply (sched_inv_keep g); [cur |].
    apply places_ok_free_dead; [apply places_ok_remove_thread; by places_step |].
    intros (c' & Hc' & He). rewrite scheduler_remove_thread_tcbs in Hc'.
    unfold update_tcb in Hc'. simpl in Hc'. rewrite lookup_alter_eq, Hc in Hc'.
    simpl in Hc'. injection Hc' as <-. simpl in He. congruence.
  - by places.
Qed.

Lemma scheduler_add_thread_same (p : option nat) (g g' : scheduler_state Q) :
  scheduler_add_thread p g = Some g' ->
  runq g' = runq g /\ wqs g' = wqs g /\ tcbs g' = tcbs g /\ current g' = current g.
Proof.
  unfold scheduler_add_thread. destruct p; [| by intros [= <-]].
  destruct (find_slot None (all_threads g)); [| done]. by intros [= <-].
Qed.

Lemma sched_inv_create (o : alloc_oracle) (out : bool) (attr : option uthread_attr_t)
    (start : option (Z -> Z)) (a r : Z) (h : option nat) (g g' : scheduler_state Q) :
  uthread_create o out attr start a g = Some (r, h, g') -> sched_inv g -> sched_inv g'.
Proof.
  unfold uthread_create. intros Hcr Hinv.
  destruct (negb (initialized g)); [by simplify_eq |].
  destruct (negb out || negb (is_Some_b start)); [by simplify_eq |].
  unfold thread_alloc in Hcr. destruct (calloc_ok o); [| by simplify_eq].
  set (t := fresh ({[idle_thread]} ∪ dom (tcbs g))) in *.
  assert (tcbs g !! t = None) as Hnone.
  { apply not_elem_of_dom. pose proof (is_fresh ({[idle_thread]} ∪ dom (tcbs g))) as Hf.
    fold t in Hf. set_solver. }
  cbn zeta in Hcr.
  set (g1 := set_next_tid _ (set_tcbs (<[t := zeroed_tcb]> (tcbs g)) g)) in *.
  set (id := next_tid (set_tcbs (<[t := zeroed_tcb]> (tcbs g)) g)) in *.
  assert (exists f, keeps_places f /\
            match attr with
            | Some atr =>
                update_tcb t
                  (set_attrs id (attr_priority atr) (attr_nice atr)
                     (bool_decide (attr_detach_state atr = UTHREAD_CREATE_DETACHED))) g1
            | None => update_tcb t (set_attrs id UTHREAD_PRIORITY_DEFAULT 0 false) g1
            end = update_tcb t f g1) as (f & Hf & Hg).
  { destruct attr; eexists; (split; [| reflexivity]); by intros []. }
  rewrite Hg in Hcr. clear Hg.
  assert (tcbs (update_tcb t f g1) !! t = Some (f zeroed_tcb)) as Hlk.
  { unfold update_tcb, g1. simpl. by rewrite lookup_alter_eq, lookup_insert_eq. }
  rewrite Hlk in Hcr.
  destruct (thread_setup_stack o _ (f zeroed_tcb)) as [rc c1] eqn:Hst.
  apply thread_setup_stack_fields in Hst
    as (_ & _ & _ & _ & _ & He & Hj & Hb & _).
  destruct (Hf zeroed_tcb) as (He0 & Hj0 & Hb0).
  assert (forall u, u <> t -> tcbs (update_tcb t f g1) !! u = tcbs g !! u) as Hother.
  { intros u Hne. unfold update_tcb, g1. simpl.
    by rewrite lookup_alter_ne, lookup_insert_ne. }
  destruct (decide (rc = 0)) as [-> | Hrc].
  - destruct (context_init _); [| done].
    destruct (scheduler_add_thread _ _) as [g5 |] eqn:Hadd; [| done].
    apply scheduler_add_thread_same in Hadd as (Hrq & Hwq & Htc & Hcu).
    simplify_eq. apply (sched_inv_keep g);
      [cbn [current set_total_threads_created set_runq]; by rewrite Hcu |].
    eapply (places_ok_spawn _ t (set_entry start a c1)); [exact Hinv | exact Hnone | ..].
    + cbn [runq set_total_threads_created set_runq]. by rewrite Hrq.
    + cbn [wqs set_total_threads_created set_runq]. by rewrite Hwq.
    + cbn [tcbs set_total_threads_created set_runq]. rewrite Htc. simpl.
      by rewrite lookup_insert_eq.
    + simpl. by rewrite He, He0.
    + simpl. by rewrite Hj, Hj0.
    + simpl. by rewrite Hb, Hb0.
    + intros u Hne. cbn [tcbs set_total_threads_created set_runq]. rewrite Htc. simpl.
      rewrite lookup_insert_ne by done. by apply Hother.
  - assert (g' = thread_free (Some t) (update_tcb t f g1)) as ->.
    { destruct rc; simplify_eq; done. }
    apply (sched_inv_keep g); [done |].
    eapply places_ok_same; [| | | exact Hinv]; try done.
    apply map_eq. intros u. simpl. destruct (decide (u = t)) as [-> | Hne].
    + by rewrite lookup_delete_eq.
    + rewrite lookup_delete_ne by done. by apply Hother.
Qed.

Lemma sched_inv_thread_step (c : thread_call) (g g' : scheduler_state Q) :
  thread_step c g = Some g' -> sched_inv g -> alive g' = true -> sched_inv g'.
Proof.
  destruct c; cbn [thread_step]; intros Hstep Hinv Halive.
  - by eapply sched_inv_exit.
  - by eapply sched_inv_entry_wrapper.
  - apply (sched_inv_join thread retval_out g g'); [| done | done].
    destruct (uthread_join thread retval_out g) as [? [] | ? [] |]; simplify_eq; done.
  - apply (sched_inv_join_loop retval_out t g g'); [| done | done].
    destruct (join_loop retval_out t g) as [? [] | ? [] |]; simplify_eq; done.
  - destruct (uthread_create o true attr start a g) as [[[r h] g1] |] eqn:Hcr; [| done].
    simplify_eq. by eapply sched_inv_create.
  - destruct (uthread_detach thread g) as [[r g1] |] eqn:Hd; [| done].
    simpl in Hstep. simplify_eq. by eapply sched_inv_detach.
  - simplify_eq. by apply sched_inv_yield.
  - simplify_eq. by apply sched_inv_block.
  - simplify_eq. places.
  - simplify_eq. places.
Qed.

(** The calls on mutexes, semaphores and read-write locks: a case analysis
    along the code, each case being a chain of the steps above. *)
Ltac segment :=
  unfold scheduler_current, malloc_wait_queue in *;
  repeat (case_match || case_decide); simplify_eq;
  cbn [snd fst outcome_state] in *; simplify_eq; try done;
  places.

Lemma sched_inv_mutex_lock_loop (m : Mutex.uthread_mutex_t) (g g' : scheduler_state Q) :
  outcome_state (Mutex.mutex_lock_loop m g) = Some g' ->
  sched_inv g -> alive g' = true -> sched_inv g'.
Proof. unfold Mutex.mutex_lock_loop. intros Hstep Hinv Halive. segment. Qed.

Lemma ensure_waiters_inv (ok : bool) (m m' : Mutex.uthread_mutex_t)
    (g g' : scheduler_state Q) :
  Mutex.ensure_waiters ok m g = Some (m', g') -> sched_inv g -> sched_inv g'.
Proof. unfold Mutex.ensure_waiters. intros Hstep Hinv. segment. Qed.

Lemma sched_inv_mutex_lock (ok : bool) (m : Mutex.uthread_mutex_t)
    (g g' : scheduler_state Q) :
  outcome_state (Mutex.uthread_mutex_lock ok (Some m) g) = Some g' ->
  sched_inv g -> alive g' = true -> sched_inv g'.
Proof.
  unfold Mutex.uthread_mutex_lock. intros Hstep Hinv Halive.
  destruct (Mutex.ensure_waiters ok m g) as [[m1 g1] |] eqn:Hens;
    [| cbn [outcome_state] in Hstep; by simplify_eq].
  apply ensure_waiters_inv in Hens; [| done].
  repeat (case_match || case_decide); cbn [outcome_state] in Hstep; simplify_eq; try done;
    by eapply sched_inv_mutex_lock_loop.
Qed.

Lemma sched_inv_mutex_trylock (ok : bool) (m : Mutex.uthread_mutex_t)
    (g : scheduler_state Q) :
  sched_inv g -> sched_inv (snd (Mutex.uthread_mutex_trylock ok (Some m) g)).
Proof.
  unfold Mutex.uthread_mutex_trylock. intros Hinv.
  destruct (Mutex.ensure_waiters ok m g) as [[m1 g1] |] eqn:Hens; [| done].
  apply ensure_waiters_inv in Hens; [| done].
  repeat (case_match || case_decide); simplify_eq; done.
Qed.

Lemma sched_inv_mutex_unlock (m : Mutex.uthread_mutex_t) (g : scheduler_state Q) :
  sched_inv g -> sched_inv (snd (Mutex.uthread_mutex_unlock (Some m) g)).
Proof.
  unfold Mutex.uthread_mutex_unlock, Mutex.mutex_release. intros Hinv. segment.
Qed.

Lemma sched_inv_mutex_init (ok : bool) (attr : option Mutex.uthread_mutex_type_t)
    (g : scheduler_state Q) :
  sched_inv g -> sched_inv (snd (Mutex.uthread_mutex_init ok attr g)).
Proof. unfold Mutex.uthread_mutex_init. intros Hinv. segment. Qed.

Lemma sched_inv_mutex_destroy (m : Mutex.uthread_mutex_t) (g : scheduler_state Q) :
  sched_inv g -> sched_inv (snd (Mutex.uthread_mutex_destroy (Some m) g)).
Proof. unfold Mutex.uthread_mutex_destroy. intros Hinv. segment. Qed.

Lemma sched_inv_sem_call (c : Semaphore.sem_call) (s : Semaphore.uthread_sem_t)
    (g g' : scheduler_state Q) :
  sem_call_state c s g = Some g' -> sched_inv g -> alive g' = true -> sched_inv g'.
Proof.
  intros Hstep Hinv Halive. destruct c; cbn [sem_call_state] in Hstep;
    unfold Semaphore.uthread_sem_post, Semaphore.uthread_sem_wait,
      Semaphore.uthread_sem_trywait, Semaphore.uthread_sem_timedwait,
      Semaphore.sem_timedwait_resume, Semaphore.sem_timedwait_loop,
      Semaphore.uthread_sem_destroy, Semaphore.sem_wait_loop, Semaphore.sem_block in Hstep;
    segment.
Qed.

Lemma sched_inv_sem_init (ok : bool) (p v : Z) (g : scheduler_state Q) :
  sched_inv g -> sched_inv (snd (Semaphore.uthread_sem_init ok p v g)).
Proof. unfold Semaphore.uthread_sem_init. intros Hinv. segment. Qed.

Lemma sched_inv_rwlock_init (ok1 ok2 : bool) (l : option Rwlock.uthread_rwlock_t)
    (g : scheduler_state Q) :
  sched_inv g -> sched_inv (snd (Rwlock.uthread_rwlock_init ok1 ok2 l g)).
Proof. unfold Rwlock.uthread_rwlock_init. intros Hinv. segment. Qed.

Lemma ensure_rwlock_inv (ok1 ok2 : bool) (l : Rwlock.uthread_rwlock_t)
    (g : scheduler_state Q) :
  sched_inv g ->
  match Rwlock.ensure_rwlock ok1 ok2 l g with
  | inl (_, g') | inr (_, _, g') => sched_inv g'
  end.
Proof.
  unfold Rwlock.ensure_rwlock. intros Hinv. destruct (Rwlock.initialized l); [done |].
  pose proof (sched_inv_rwlock_init ok1 ok2 (Some l) g Hinv) as Hi.
  destruct (Rwlock.uthread_rwlock_init ok1 ok2 (Some l) g) as [[r l1] g1].
  repeat case_match; simplify_eq; done.
Qed.

Lemma sched_inv_rw_call (ok1 ok2 : bool) (c : Rwlock.rw_call)
    (l : Rwlock.uthread_rwlock_t) (g g' : scheduler_state Q) :
  rw_call_state ok1 ok2 c l g = Some g' -> sched_inv g -> alive g' = true -> sched_inv g'.
Proof.
  intros Hstep Hinv Halive.
  pose proof (ensure_rwlock_inv ok1 ok2 l g Hinv) as Hens.
  destruct c; cbn [rw_call_state] in Hstep;
    unfold Rwlock.uthread_rwlock_rdlock, Rwlock.uthread_rwlock_tryrdlock,
      Rwlock.uthread_rwlock_wrlock, Rwlock.uthread_rwlock_trywrlock in Hstep;
    try (destruct (Rwlock.ensure_rwlock ok1 ok2 l g) as [[l1 g1] | [[r l1] g1]];
         [| by simplify_eq]);
    unfold Rwlock.rdlock_loop, Rwlock.wrlock_loop, Rwlock.rwlock_block,
      Rwlock.uthread_rwlock_unlock, Rwlock.uthread_rwlock_destroy in Hstep.
  all: segment.
Qed.

Lemma sched_inv_setpriority (thread : option nat) (prio : Z) (g : scheduler_state Q) :
  sched_inv g -> sched_inv (snd (uthread_setpriority thread prio g)).
Proof. unfold uthread_setpriority. intros Hinv. segment. Qed.

Lemma sched_inv_setnice (thread : option nat) (ni : Z) (g : scheduler_state Q) :
  sched_inv g -> sched_inv (snd (uthread_setnice thread ni g)).
Proof. unfold uthread_setnice. intros Hinv. segment. Qed.

(** *** Condition variables *)

(** A waiter that finds its time-out while linked unlinks itself and is
    then the thread on the CPU. *)
Lemma places_ok_timed_out (self a : nat) (g : scheduler_state Q) :
  places_ok None g -> self ∈ wq_threads a g -> tcb_blocked_queue self g = Some a ->
  places_ok (Some self) (snd (wait_queue_remove_specific (Some a) (Some self) g)).
Proof.
  intros Hinv Hin Hbq. apply places_ok_promote; [by apply places_ok_remove_specific |].
  unfold wait_queue_remove_specific. rewrite decide_True by done. cbn [snd].
  destruct Hinv as [Hwf Hct Hcu Hcq Hrt Hru Hwt Hwe Hwn Hw1 Hjt Hje Hju Hj1].
  split; [| split; [| split; [| split]]].
  - apply live_tcb_update; [by intros [] |]. by eapply Hwt.
  - apply tcb_blocked_queue_unlink.
  - by eapply Hwe.
  - intros [b Hb]. change (wq_threads b (update_tcb ?t ?f ?g')) with (wq_threads b g') in Hb.
    rewrite wq_threads_set_wq in Hb. case_decide as Hab.
    + by apply (unlink_not_in self (wq_threads a g)).
    + apply Hab. by eapply Hw1.
  - intros [T HT]. apply joins_update in HT; [| by intros []].
    destruct (Hje self) as (_ & _ & H3); [by exists T |]. apply H3. by exists a.
Qed.

Lemma sched_inv_cond_reacquire (r : Z) (self : nat) (c : option Condvar.uthread_cond_t)
    (m : Mutex.uthread_mutex_t) (g g' : scheduler_state Q) :
  outcome_state (Condvar.cond_reacquire r self c m g) = Some g' ->
  places_ok (Some self) g -> current g = Some self -> alive g' = true -> sched_inv g'.
Proof.
  unfold Condvar.cond_reacquire. intros Hstep Hinv Hcur Halive.
  case_decide; cbn [outcome_state] in Hstep; simplify_eq.
  - apply places_ok_schedule; [| done]. by repeat places_step.
  - unfold sched_inv. by rewrite Hcur.
Qed.

Lemma sched_inv_cond_timed_loop (d now : Z) (self : nat) (c : Condvar.uthread_cond_t)
    (m : Mutex.uthread_mutex_t) (g g' : scheduler_state Q) :
  outcome_state (Condvar.cond_timed_loop d now self c m g) = Some g' ->
  places_ok (Some self) g -> current g = Some self -> alive g' = true -> sched_inv g'.
Proof.
  unfold Condvar.cond_timed_loop. intros Hstep Hinv Hcur Halive.
  repeat case_decide.
  - eapply sched_inv_cond_reacquire; [exact Hstep | | | done].
    + by apply places_ok_remove_specific.
    + by rewrite current_remove_specific.
  - cbn [outcome_state] in Hstep. simplify_eq. apply places_ok_schedule; [| done].
    by eapply places_ok_weaken.
  - by eapply sched_inv_cond_reacquire.
Qed.

Lemma ensure_cond_inv (ok : bool) (c c' : Condvar.uthread_cond_t)
    (g g' : scheduler_state Q) (b : nat) :
  Condvar.ensure_cond ok c g = Some (c', g') ->
  (forall X, places_ok X g -> places_ok X g') /\
  (b ∈ dom (wqs g) -> Condvar.waiters c <> Some b -> Condvar.waiters c' <> Some b).
Proof.
  unfold Condvar.ensure_cond, malloc_wait_queue. intros Hens.
  destruct (Condvar.initialized c); [by simplify_eq |].
  destruct ok; [| done]. simplify_eq. split.
  - intros X HX. by apply places_ok_fresh_wq.
  - intros Hb _. simpl. intros [= Heq]. rewrite <- Heq in Hb.
    by apply (is_fresh (dom (wqs g))).
Qed.

(** Queueing on the condition variable and releasing the mutex, the two
    queues being different ones. *)
Lemma cond_enqueue_release_places (self : nat) (c : Condvar.uthread_cond_t)
    (m m' : Mutex.uthread_mutex_t) (g g2 : scheduler_state Q) :
  Condvar.cond_enqueue_release self c m g = (m', g2) ->
  places_ok (Some self) g ->
  (forall b, Mutex.waiters m = Some b -> Condvar.waiters c <> Some b) ->
  current g2 = current g /\ places_ok None g2 /\
  match Condvar.waiters c with
  | Some a => self ∈ wq_threads a g2 /\ tcb_blocked_queue self g2 = Some a
  | None => places_ok (Some self) g2
  end.
Proof.
  unfold Condvar.cond_enqueue_release. cbn zeta. intros Hrel Hinv Hsep.
  set (g0 := update_tcb self (set_state UTHREAD_STATE_BLOCKED) g) in *.
  assert (places_ok (Some self) g0) as H0
    by (apply places_ok_update; [apply keeps_places_set_state | done]).
  set (g1 := wait_queue_add (Condvar.waiters c) (Some self) g0) in *.
  assert (places_ok None g1) as H1 by (by apply places_ok_link).
  assert (match Condvar.waiters c with
          | Some a => self ∈ wq_threads a g1 /\ tcb_blocked_queue self g1 = Some a
          | None => places_ok (Some self) g1
          end) as Hself.
  { subst g1. destruct (Condvar.waiters c) as [a |]; [| done]. split.
    - unfold wait_queue_add.
      change (wq_threads a (update_tcb ?t ?f ?g')) with (wq_threads a g').
      rewrite wq_threads_set_wq, decide_True by done.
      apply elem_of_app. right. by apply list_elem_of_singleton.
    - destruct (po_cpu_tcb _ _ H0 self eq_refl) as (cs & Hcs & _).
      unfold wait_queue_add, tcb_blocked_queue, update_tcb. simpl.
      simpl in Hcs. by rewrite lookup_alter_eq, Hcs. }
  cbn [Mutex.waiters] in Hrel.
  assert (current g1 = current g) as Hc1.
  { subst g1 g0. by destruct (Condvar.waiters c). }
  destruct (negb (wait_queue_empty (Mutex.waiters m) g1)) eqn:Hne; simplify_eq;
    [| done].
  split; [by rewrite current_wake_one |]. split; [by apply places_ok_wake_one |].
  destruct (Condvar.waiters c) as [a |] eqn:Hwc; [| by apply places_ok_wake_one].
  destruct Hself as [Hin Hbq].
  destruct (Mutex.waiters m) as [b |] eqn:Hwm; [| done].
  assert (a <> b) as Hab by (intros ->; by apply (Hsep b)).
  unfold wait_queue_empty in Hne.
  destruct (wq_threads b g1) as [| t rest] eqn:Hq; [done |].
  destruct (wake_step b t rest g1 Hq) as (g2 & _ & -> & _ & Hother & _ & _ & Htcbs).
  split; [by rewrite Hother |].
  assert (t <> self) as Hts.
  { intros ->. apply Hab. apply (po_wq_one _ _ H1 a b self); [done |]. rewrite Hq. by left. }
  unfold tcb_blocked_queue. rewrite Htcbs, !lookup_alter_ne by done. exact Hbq.
Qed.

Lemma sched_inv_cond_segment (seg : Condvar.cond_segment) (c : Condvar.uthread_cond_t)
    (m : Mutex.uthread_mutex_t) (g g' : scheduler_state Q) :
  outcome_state (Condvar.run_cond_segment seg (Some c) (Some m) g) = Some g' ->
  separate_queues (CondCall seg c m) g = true ->
  sched_inv g -> alive g' = true -> sched_inv g'.
Proof.
  intros Hstep Hsep Hinv Halive. destruct seg as [ok | ok abstime now | k now];
    cbn [Condvar.run_cond_segment] in Hstep; cbn [separate_queues Condvar.is_entry negb orb] in Hsep.
  - unfold Condvar.uthread_cond_wait in Hstep.
    destruct (Condvar.ensure_cond ok c g) as [[c1 g1] |] eqn:Hens;
      [| cbn [outcome_state] in Hstep; by simplify_eq].
    pose proof (ensure_cond_current _ _ _ _ _ Hens) as Hcur1.
    destruct (ensure_cond_inv ok c c1 g g1 0%nat Hens) as [Hp _].
    unfold scheduler_current in Hstep.
    destruct (current g1) as [self |] eqn:Hcur;
      [| cbn [outcome_state] in Hstep; simplify_eq;
         apply (sched_inv_keep g); [congruence | by apply Hp]].
    unfold sched_inv in Hinv. rewrite <- Hcur1 in Hinv.
    destruct (Condvar.cond_enqueue_release self c1 m g1) as [m2 g2] eqn:Hrel.
    cbn [outcome_state] in Hstep. simplify_eq.
    apply places_ok_schedule; [| done].
    unfold Condvar.cond_enqueue_release in Hrel. cbn zeta in Hrel.
    cbn [Mutex.waiters] in Hrel.
    destruct (negb (wait_queue_empty (Mutex.waiters m) _)); simplify_eq;
      repeat places_step; by apply Hp.
  - unfold Condvar.uthread_cond_timedwait in Hstep.
    destruct abstime as [ts |]; [| cbn [outcome_state] in Hstep; by simplify_eq].
    destruct (Condvar.ensure_cond ok c g) as [[c1 g1] |] eqn:Hens;
      [| cbn [outcome_state] in Hstep; by simplify_eq].
    pose proof (ensure_cond_current _ _ _ _ _ Hens) as Hcur1.
    unfold scheduler_current in Hstep.
    destruct (current g1) as [self |] eqn:Hcur.
    2:{ destruct (ensure_cond_inv ok c c1 g g1 0%nat Hens) as [Hp _].
        cbn [outcome_state] in Hstep. simplify_eq.
        apply (sched_inv_keep g); [congruence | by apply Hp]. }
    unfold sched_inv in Hinv. rewrite <- Hcur1 in Hinv.
    destruct (Condvar.cond_enqueue_release self c1 m g1) as [m2 g2] eqn:Hrel.
    apply cond_enqueue_release_places in Hrel as (Hcur2 & Hnone & Hself).
    + destruct (Condvar.waiters c1) as [a |] eqn:Hwc.
      * destruct Hself as [Hin Hbq]. unfold Condvar.cond_timed_loop in Hstep.
        rewrite Hwc in Hstep.
        rewrite decide_True in Hstep by (rewrite Hbq; done). case_decide.
        -- eapply sched_inv_cond_reacquire; [exact Hstep | | | done].
           ++ by apply places_ok_timed_out.
           ++ rewrite current_remove_specific. congruence.
        -- cbn [outcome_state] in Hstep. simplify_eq. by apply places_ok_schedule.
      * eapply sched_inv_cond_timed_loop; [exact Hstep | done | congruence | done].
    + destruct (ensure_cond_inv ok c c1 g g1 0%nat Hens) as [Hp _]. by apply Hp.
    + intros b Hb. rewrite Hb in Hsep. apply bool_decide_eq_true in Hsep as [Hdom Hne].
      by apply (ensure_cond_inv ok c c1 g g1 b Hens).
  - unfold Condvar.cond_resume, scheduler_current in Hstep.
    destruct (current g) as [self |] eqn:Hcur; [| done].
    unfold sched_inv in Hinv. rewrite Hcur in Hinv. destruct k as [d | r].
    + by eapply sched_inv_cond_timed_loop.
    + by eapply sched_inv_cond_reacquire.
Qed.

Lemma sched_inv_cond_signal (ok : bool) (c : Condvar.uthread_cond_t)
    (g : scheduler_state Q) :
  sched_inv g -> sched_inv (snd (Condvar.uthread_cond_signal ok (Some c) g)).
Proof.
  unfold Condvar.uthread_cond_signal, Condvar.ensure_cond. intros Hinv. segment.
Qed.

Lemma sched_inv_cond_broadcast (ok : bool) (c : Condvar.uthread_cond_t)
    (g : scheduler_state Q) :
  sched_inv g -> sched_inv (snd (Condvar.uthread_cond_broadcast ok (Some c) g)).
Proof.
  unfold Condvar.uthread_cond_broadcast, Condvar.ensure_cond. intros Hinv. segment.
Qed.

Lemma sched_inv_cond_init (ok : bool) (g : scheduler_state Q) :
  sched_inv g -> sched_inv (snd (Condvar.uthread_cond_init ok g)).
Proof. unfold Condvar.uthread_cond_init. intros Hinv. segment. Qed.

Lemma sched_inv_cond_destroy (c : Condvar.uthread_cond_t) (g : scheduler_state Q) :
  sched_inv g -> sched_inv (snd (Condvar.uthread_cond_destroy (Some c) g)).
Proof. unfold Condvar.uthread_cond_destroy. intros Hinv. segment. Qed.

(** *** Executions *)

Lemma lib_step_inv (c : lib_call) (g g' : scheduler_state Q) :
  lib_step c g = Some g' -> separate_queues c g = true ->
  sched_inv g -> alive g' = true -> sched_inv g'.
Proof.
  intros Hstep Hsep Hinv Halive. destruct c; cbn [lib_step] in Hstep.
  - by eapply sched_inv_thread_step.
  - simplify_eq. by apply sched_inv_tick.
  - simplify_eq. by apply sched_inv_setpriority.
  - simplify_eq. by apply sched_inv_setnice.
  - simplify_eq. by apply sched_inv_mutex_init.
  - by eapply sched_inv_mutex_lock.
  - by eapply sched_inv_mutex_lock_loop.
  - simplify_eq. by apply sched_inv_mutex_trylock.
  - simplify_eq. by apply sched_inv_mutex_unlock.
  - simplify_eq. by apply sched_inv_mutex_destroy.
  - simplify_eq. by apply sched_inv_sem_init.
  - by eapply sched_inv_sem_call.
  - simplify_eq. by apply sched_inv_cond_init.
  - simplify_eq. by apply sched_inv_cond_destroy.
  - by eapply sched_inv_cond_segment.
  - simplify_eq. by apply sched_inv_cond_signal.
  - simplify_eq. by apply sched_inv_cond_broadcast.
  - simplify_eq. by apply sched_inv_rwlock_init.
  - by eapply sched_inv_rw_call.
Qed.

Lemma after_uthread_init_inv (g : scheduler_state Q) :
  after_uthread_init g -> sched_inv g /\ alive g = true.
Proof.
  intros (main & c & Hne & Hcur & Htc & Hex & Hj & Hb & Hnil & Hrq & _).
  assert (forall T t, ~ joins g T t) as Hnj.
  { intros T t (c' & Hc' & _ & Hj'). rewrite Htc in Hc'.
    apply lookup_singleton_Some in Hc' as [_ <-]. congruence. }
  split; [| apply bool_decide_eq_true; rewrite Hcur; congruence].
  unfold sched_inv. rewrite Hcur. split; rewrite ?Hrq.
  - apply rq_init_wf.
  - intros t [= <-]. exists c. by rewrite Htc, lookup_singleton_eq.
  - intros t [= <-]. unfold tcb_blocked_queue. by rewrite Htc, lookup_singleton_eq.
  - intros t _. apply rq_init_empty.
  - intros t Ht. by apply rq_init_empty in Ht.
  - intros t Ht. by apply rq_init_empty in Ht.
  - intros a t Ht. rewrite Hnil in Ht. by apply elem_of_nil in Ht.
  - intros a t Ht. rewrite Hnil in Ht. by apply elem_of_nil in Ht.
  - intros a. rewrite Hnil. constructor.
  - intros a b t Ht. rewrite Hnil in Ht. by apply elem_of_nil in Ht.
  - intros t [T Ht]. by apply Hnj in Ht.
  - intros t [T Ht]. by apply Hnj in Ht.
  - intros t [T Ht]. by apply Hnj in Ht.
  - intros T1 T2 t Ht. by apply Hnj in Ht.
Qed.

(** The states of an execution that starts after [uthread_init]: the
    process lives and the invariant holds. *)
Lemma lib_run_inv (tr : list lib_call) (g g' : scheduler_state Q) :
  lib_run tr g = Some g' -> sched_inv g -> alive g = true ->
  sched_inv g' /\ alive g' = true.
Proof.
  revert g. induction tr as [| c tr IH]; intros g Hrun Hinv Halive.
  - simpl in Hrun. by simplify_eq.
  - cbn [lib_run] in Hrun. destruct (separate_queues c g) eqn:Hsep; [| done].
    destruct (lib_step c g) as [g1 |] eqn:Hstep; [| done]. cbn [mbind option_bind] in Hrun.
    destruct (alive g1) eqn:Ha; [| done].
    apply (IH g1); [done | | done]. by eapply lib_step_inv.
Qed.

(** *** Timed waits *)

(** A segment of a timed wait that returns "timed out" leaves the calling
    thread unlinked from the wait queue of the semaphore or condition
    variable, when it made its check after linking the thread, or when the
    thread was not linked at the start. *)
Lemma timed_out_unlinked (c : timed_call) (g g' : scheduler_state Q) (self q : nat) :
  checks_after_linking c = true \/ tcb_blocked_queue self g = None ->
  scheduler_current g = Some self ->
  timed_run c g = Some (UTHREAD_ETIMEDOUT, Some q, g') ->
  tcb_blocked_queue self g' <> Some q.
Proof.
  intros Hor Hcur Hrun.
  destruct c as [s abstime now | s d now1 now2 | ok c m abstime now | k now c m];
    cbn [timed_run] in Hrun; cbn [checks_after_linking] in Hor.
  - destruct Hor as [[=] | Hbq].
    unfold Semaphore.uthread_sem_timedwait, Semaphore.sem_timedwait_loop in Hrun.
    repeat (case_match || case_decide); simplify_eq; rewrite Hbq; discriminate.
  - unfold Semaphore.sem_timedwait_resume, Semaphore.sem_timedwait_loop in Hrun.
    rewrite Hcur in Hrun. destruct (decide (now1 >= d)) as [Hlate | Hearly].
    + case_decide as Hl; simplify_eq.
      * by apply wait_queue_remove_specific_unlinked.
      * by rewrite Hl.
    + destruct Hor as [Hchk | Hbq]; [by apply bool_decide_eq_true in Hchk |].
      repeat (case_match || case_decide); simplify_eq; rewrite Hbq; discriminate.
  - unfold Condvar.uthread_cond_timedwait in Hrun.
    destruct abstime as [ts |]; [| discriminate].
    destruct (Condvar.ensure_cond ok c g) as [[c1 g1] |] eqn:Hens; [| discriminate].
    unfold scheduler_current in *.
    rewrite <- (ensure_cond_current _ _ _ _ _ Hens) in Hcur. rewrite Hcur in Hrun.
    destruct (Condvar.cond_enqueue_release self c1 m g1) as [m1 g2].
    destruct (Condvar.cond_timed_loop _ now self c1 m1 g2) as [r [[c' m'] g3] | |] eqn:Hloop;
      try discriminate.
    apply cond_timed_loop_returns in Hloop as (_ & -> & [[-> ->] | [-> ->]]);
      injection Hrun as Hq <-; [discriminate |].
    apply wait_queue_remove_specific_unlinked. congruence.
  - unfold Condvar.cond_resume in Hrun. rewrite Hcur in Hrun. destruct k as [d | result].
    + destruct (Condvar.cond_timed_loop d now self c m g) as [r [[c' m'] g3] | |] eqn:Hloop;
        try discriminate.
      apply cond_timed_loop_returns in Hloop as (_ & -> & [[-> ->] | [-> ->]]);
        injection Hrun as Hq <-; [discriminate |].
      apply wait_queue_remove_specific_unlinked. congruence.
    + destruct Hor as [[=] | Hbq].
      destruct (Condvar.cond_reacquire result self (Some c) m g)
        as [r [[c' m'] g3] | |] eqn:Hre; try discriminate.
      apply cond_reacquire_returns in Hre as (-> & -> & _).
      destruct c'; [| discriminate]. simplify_eq. rewrite Hbq. discriminate.
Qed.


End places.

Lemma after_init_is_after_uthread_init : after_uthread_init after_init.
Proof. exists 1%nat, (blank_tcb 1 UTHREAD_STATE_RUNNING). by repeat split. Qed.

